(** * Vue 3 reactivity core and job scheduler

    A shallow embedding of [packages/reactivity/src/dep.ts], [effect.ts],
    [computed.ts], [baseHandlers.ts] and [packages/runtime-core/src/scheduler.ts].

    JavaScript objects live in heaps indexed by natural numbers, module-level
    [let] variables are fields of a state record, and every function of the
    source is a function on that state.  User code (the function wrapped by an
    effect, a job body) is a script: a list of calls into the runtime.  Calls
    that re-enter user code consume fuel; [None] means that the fuel ran out. *)

From Stdlib Require Import ZArith List Bool Arith Lia Permutation Sorted.
Import ListNotations.

(** ** JavaScript 32-bit integer operators

    [|], [&], [~] and [<<] convert their operands to signed 32-bit integers and
    produce one; [<<] masks the shift count to five bits. *)

Definition to_int32 (z : Z) : Z :=
  let m := (z mod 4294967296)%Z in
  if (m <? 2147483648)%Z then m else (m - 4294967296)%Z.

Definition js_and (a b : Z) : Z := to_int32 (Z.land a b).
Definition js_or (a b : Z) : Z := to_int32 (Z.lor a b).
Definition js_not (a : Z) : Z := to_int32 (Z.lnot a).
Definition js_shl (a b : Z) : Z := to_int32 (Z.shiftl a (b mod 32)).

(** ** Keys, targets and operation kinds *)

(** Property keys as the dependency graph sees them.  String keys are kept
    by class: the string ['length'], the canonical decimal string of an
    integer ([isIntegerKey]), any other property name (a string whose
    [ToNumber] is [NaN], such as ['join']), and symbols.  Strings that are
    numeric without being canonical indices (['1.5'], ['']) are not keys of
    this model. *)
Inductive Key : Type :=
| KLength
| KIndex (i : N)
| KName (name : nat)
| KSymbol (id : nat).

Definition ITERATE_KEY : Key := KSymbol 0.
Definition MAP_KEY_ITERATE_KEY : Key := KSymbol 1.

Definition key_eqb (a b : Key) : bool :=
  match a, b with
  | KLength, KLength => true
  | KIndex i, KIndex j => N.eqb i j
  | KName x, KName y => Nat.eqb x y
  | KSymbol x, KSymbol y => Nat.eqb x y
  | _, _ => false
  end.

(** Modelled from the spec: [isIntegerKey] of the shared helpers, which are
    not among the sources.  An "integer-keyed entry" is one whose key is a
    string that is the canonical decimal rendering of a non-negative
    integer. *)
Definition isIntegerKey (k : Key) : bool :=
  match k with KIndex _ => true | _ => false end.

(** The relational operator [key >= newValue] of [trigger], on the keys
    of this model and for a [newValue] that is an integer number or
    [undefined] ([None], whose [ToNumber] is [NaN]): both operands are
    converted to numbers, ['length'] and the other names to [NaN].  A
    symbol operand makes [ToNumeric] throw a [TypeError]: the result is
    [None] then.  A string as new length, which is compared with the key
    as a string, and keys that read as numbers without being indices are
    outside this model. *)
Definition key_ge (k : Key) (newValue : option Z) : option bool :=
  match k with
  | KSymbol _ => None
  | KIndex i =>
      match newValue with
      | Some v => Some (v <=? Z.of_N i)%Z
      | None => Some false
      end
  | KLength | KName _ => Some false
  end.

Inductive TargetKind : Type := TObject | TArray | TMap | TSet.

Record Target : Type := mkTarget { t_kind : TargetKind; t_id : nat }.

(** [isArray] and [isMap] of the shared helpers are [Array.isArray] and
    the test of the [Map] tag; a target carries its kind. *)
Definition isArray (t : Target) : bool :=
  match t_kind t with TArray => true | _ => false end.

Definition isMap (t : Target) : bool :=
  match t_kind t with TMap => true | _ => false end.

Definition kind_eqb (a b : TargetKind) : bool :=
  match a, b with
  | TObject, TObject | TArray, TArray | TMap, TMap | TSet, TSet => true
  | _, _ => false
  end.

Definition target_eqb (a b : Target) : bool :=
  kind_eqb (t_kind a) (t_kind b) && Nat.eqb (t_id a) (t_id b).

Inductive TriggerOpTypes : Type := SET | ADD | DELETE | CLEAR.

(** ** dep.ts *)

(** [Dep = Set<ReactiveEffect> & TrackedMarkers]: the members in insertion
    order, and the two marker bit fields. *)
Record Dep : Type := mkDep { subs : list nat; dep_w : Z; dep_n : Z }.

Definition dep_has (e : nat) (d : Dep) : bool := existsb (Nat.eqb e) (subs d).

Definition dep_add (e : nat) (d : Dep) : Dep :=
  if dep_has e d then d
  else {| subs := subs d ++ [e]; dep_w := dep_w d; dep_n := dep_n d |}.

(** [new Set(effects)] with both markers at zero: members are added one by
    one, so a repeated effect keeps its first position. *)
Definition createDep (effects : list nat) : Dep :=
  fold_left (fun d e => dep_add e d) effects
    {| subs := []; dep_w := 0%Z; dep_n := 0%Z |}.

Definition dep_delete (e : nat) (d : Dep) : Dep :=
  {| subs := filter (fun x => negb (Nat.eqb e x)) (subs d);
     dep_w := dep_w d; dep_n := dep_n d |}.

Definition wasTracked (d : Dep) (trackOpBit : Z) : bool :=
  (0 <? js_and (dep_w d) trackOpBit)%Z.

Definition newTracked (d : Dep) (trackOpBit : Z) : bool :=
  (0 <? js_and (dep_n d) trackOpBit)%Z.

Definition upd {A : Type} (f : nat -> A) (i : nat) (v : A) : nat -> A :=
  fun j => if Nat.eqb j i then v else f j.

Definition set_w (d : Dep) (v : Z) : Dep :=
  {| subs := subs d; dep_w := v; dep_n := dep_n d |}.

Definition set_n (d : Dep) (v : Z) : Dep :=
  {| subs := subs d; dep_w := dep_w d; dep_n := v |}.

(** The loop of [initDepMarkers]: [deps[i].w |= trackOpBit]. *)
Fixpoint initDepMarkers_loop (bit : Z) (ds : list nat) (heap : nat -> Dep)
  : nat -> Dep :=
  match ds with
  | [] => heap
  | d :: rest =>
      initDepMarkers_loop bit rest
        (upd heap d (set_w (heap d) (js_or (dep_w (heap d)) bit)))
  end.

(** The loop of [finalizeDepMarkers] for effect [e]: a stale entry loses
    [e]; any other entry is written to [deps[ptr++]]; both bits are cleared.
    The result is the heap and the first [ptr] slots of [deps]. *)
Fixpoint finalizeDepMarkers_loop (e : nat) (bit : Z) (ds : list nat)
  (heap : nat -> Dep) : (nat -> Dep) * list nat :=
  match ds with
  | [] => (heap, [])
  | d :: rest =>
      let dep := heap d in
      let stale := wasTracked dep bit && negb (newTracked dep bit) in
      let dep1 := if stale then dep_delete e dep else dep in
      let dep2 := set_n (set_w dep1 (js_and (dep_w dep1) (js_not bit)))
                        (js_and (dep_n dep1) (js_not bit)) in
      let (heap', kept) := finalizeDepMarkers_loop e bit rest (upd heap d dep2) in
      (heap', if stale then kept else d :: kept)
  end.

(** ** effect.ts: data *)

Inductive Scheduler : Type :=
| SchedUser                 (* a scheduler supplied by the caller; opaque *)
| SchedComputed (c : nat).  (* the scheduler closure built by ComputedRefImpl *)

(** What the body of a user function can do to the runtime. *)
Inductive Action : Type :=
| ATrack (t : Target) (k : Key)
| ATrigger (t : Target) (ty : TriggerOpTypes) (k : option Key) (newValue : option Z)
| ARun (e : nat)
| AStop (e : nat)
| AReadComputed (c : nat)
| APauseTracking
| AEnableTracking
| AResetTracking
| AThrow.

Record ReactiveEffect : Type := mkEffect {
  active : bool;
  deps : list nat;
  parent : option nat;
  allowRecurse : bool;
  scheduler : option Scheduler;
  onStop : bool;
  fn : list Action
}.

Record ComputedRefImpl : Type := mkComputed {
  cdep : option nat;
  _dirty : bool;
  _cacheable : bool;
  ceffect : nat
}.

Inductive Event : Type :=
| EvRun (e : nat)          (* the function of effect [e] was called *)
| EvScheduler (e : nat)    (* the scheduler of effect [e] was called *)
| EvOnStop (e : nat)       (* the onStop callback of effect [e] was called *)
| EvInvalidate (c : nat).  (* [_dirty] of computed [c] went from false to true *)

Definition DepsMap : Type := list (Key * nat).

Record State : Type := mkState {
  effects : nat -> ReactiveEffect;
  depHeap : nat -> Dep;
  nextDep : nat;
  targetMap : Target -> option DepsMap;
  computeds : nat -> ComputedRefImpl;
  activeEffect : option nat;
  shouldTrack : bool;
  trackStack : list bool;
  effectTrackDepth : Z;
  trackOpBit : Z;
  trace : list Event
}.

Definition maxMarkerBits : Z := 30%Z.

Inductive Completion : Type := Normal | Throw.

Definition Res : Type := option (State * Completion).

Inductive Call : Type :=
| CallRun (e : nat)
| CallScheduler (e : nat).

(** *** Field updates *)

Definition with_effects (s : State) (v : nat -> ReactiveEffect) : State :=
  mkState v (depHeap s) (nextDep s) (targetMap s) (computeds s) (activeEffect s)
    (shouldTrack s) (trackStack s) (effectTrackDepth s) (trackOpBit s) (trace s).

Definition with_depHeap (s : State) (v : nat -> Dep) : State :=
  mkState (effects s) v (nextDep s) (targetMap s) (computeds s) (activeEffect s)
    (shouldTrack s) (trackStack s) (effectTrackDepth s) (trackOpBit s) (trace s).

Definition with_nextDep (s : State) (v : nat) : State :=
  mkState (effects s) (depHeap s) v (targetMap s) (computeds s) (activeEffect s)
    (shouldTrack s) (trackStack s) (effectTrackDepth s) (trackOpBit s) (trace s).

Definition with_targetMap (s : State) (v : Target -> option DepsMap) : State :=
  mkState (effects s) (depHeap s) (nextDep s) v (computeds s) (activeEffect s)
    (shouldTrack s) (trackStack s) (effectTrackDepth s) (trackOpBit s) (trace s).

Definition with_computeds (s : State) (v : nat -> ComputedRefImpl) : State :=
  mkState (effects s) (depHeap s) (nextDep s) (targetMap s) v (activeEffect s)
    (shouldTrack s) (trackStack s) (effectTrackDepth s) (trackOpBit s) (trace s).

Definition with_activeEffect (s : State) (v : option nat) : State :=
  mkState (effects s) (depHeap s) (nextDep s) (targetMap s) (computeds s) v
    (shouldTrack s) (trackStack s) (effectTrackDepth s) (trackOpBit s) (trace s).

Definition with_shouldTrack (s : State) (v : bool) : State :=
  mkState (effects s) (depHeap s) (nextDep s) (targetMap s) (computeds s)
    (activeEffect s) v (trackStack s) (effectTrackDepth s) (trackOpBit s) (trace s).

Definition with_trackStack (s : State) (v : list bool) : State :=
  mkState (effects s) (depHeap s) (nextDep s) (targetMap s) (computeds s)
    (activeEffect s) (shouldTrack s) v (effectTrackDepth s) (trackOpBit s) (trace s).

Definition with_depth (s : State) (v : Z) : State :=
  mkState (effects s) (depHeap s) (nextDep s) (targetMap s) (computeds s)
    (activeEffect s) (shouldTrack s) (trackStack s) v (trackOpBit s) (trace s).

Definition with_trackOpBit (s : State) (v : Z) : State :=
  mkState (effects s) (depHeap s) (nextDep s) (targetMap s) (computeds s)
    (activeEffect s) (shouldTrack s) (trackStack s) (effectTrackDepth s) v (trace s).

Definition log (s : State) (ev : Event) : State :=
  mkState (effects s) (depHeap s) (nextDep s) (targetMap s) (computeds s)
    (activeEffect s) (shouldTrack s) (trackStack s) (effectTrackDepth s)
    (trackOpBit s) (trace s ++ [ev]).

Definition set_deps (ef : ReactiveEffect) (v : list nat) : ReactiveEffect :=
  mkEffect (active ef) v (parent ef) (allowRecurse ef) (scheduler ef) (onStop ef) (fn ef).

Definition set_parent (ef : ReactiveEffect) (v : option nat) : ReactiveEffect :=
  mkEffect (active ef) (deps ef) v (allowRecurse ef) (scheduler ef) (onStop ef) (fn ef).

Definition set_active (ef : ReactiveEffect) (v : bool) : ReactiveEffect :=
  mkEffect v (deps ef) (parent ef) (allowRecurse ef) (scheduler ef) (onStop ef) (fn ef).

Definition set_dirty (c : ComputedRefImpl) (v : bool) : ComputedRefImpl :=
  mkComputed (cdep c) v (_cacheable c) (ceffect c).

Definition set_cdep (c : ComputedRefImpl) (v : option nat) : ComputedRefImpl :=
  mkComputed v (_dirty c) (_cacheable c) (ceffect c).

(** ** effect.ts and dep.ts: operations that call no user code *)

Definition initDepMarkers (e : nat) (s : State) : State :=
  with_depHeap s
    (initDepMarkers_loop (trackOpBit s) (deps (effects s e)) (depHeap s)).

Definition finalizeDepMarkers (e : nat) (s : State) : State :=
  let (heap', kept) :=
    finalizeDepMarkers_loop e (trackOpBit s) (deps (effects s e)) (depHeap s) in
  with_effects (with_depHeap s heap')
    (upd (effects s) e (set_deps (effects s e) kept)).

(** The loop of [cleanupEffect]: [deps[i].delete(effect)]. *)
Fixpoint cleanupEffect_loop (e : nat) (ds : list nat) (heap : nat -> Dep)
  : nat -> Dep :=
  match ds with
  | [] => heap
  | d :: rest => cleanupEffect_loop e rest (upd heap d (dep_delete e (heap d)))
  end.

Definition cleanupEffect (e : nat) (s : State) : State :=
  with_effects
    (with_depHeap s (cleanupEffect_loop e (deps (effects s e)) (depHeap s)))
    (upd (effects s) e (set_deps (effects s e) [])).

(** [ReactiveEffect.stop].  The teardown callback is caller code outside
    the runtime; its call is recorded in the trace. *)
Definition stop (e : nat) (s : State) : State :=
  if active (effects s e) then
    let s1 := cleanupEffect e s in
    let s2 := if onStop (effects s1 e) then log s1 (EvOnStop e) else s1 in
    with_effects s2 (upd (effects s2) e (set_active (effects s2 e) false))
  else s.

Definition pauseTracking (s : State) : State :=
  with_shouldTrack (with_trackStack s (trackStack s ++ [shouldTrack s])) false.

Definition enableTracking (s : State) : State :=
  with_shouldTrack (with_trackStack s (trackStack s ++ [shouldTrack s])) true.

(** [trackStack.pop()] takes the last element; an empty stack gives
    [undefined], and [shouldTrack] becomes [true]. *)
Definition resetTracking (s : State) : State :=
  match rev (trackStack s) with
  | [] => with_shouldTrack s true
  | last :: front => with_shouldTrack (with_trackStack s (rev front)) last
  end.

Definition isSome {A : Type} (o : option A) : bool :=
  match o with Some _ => true | None => false end.

(** [trackEffects].  Its callers have checked that an effect is active. *)
Definition trackEffects (d : nat) (s : State) : State :=
  match activeEffect s with
  | None => s
  | Some ae =>
      let dep := depHeap s d in
      let bit := trackOpBit s in
      let '(shouldTrack', s1) :=
        if (effectTrackDepth s <=? maxMarkerBits)%Z then
          if negb (newTracked dep bit) then
            (negb (wasTracked dep bit),
             with_depHeap s (upd (depHeap s) d (set_n dep (js_or (dep_n dep) bit))))
          else (false, s)
        else (negb (dep_has ae dep), s) in
      if shouldTrack' then
        let s2 := with_depHeap s1 (upd (depHeap s1) d (dep_add ae (depHeap s1 d))) in
        with_effects s2
          (upd (effects s2) ae
             (set_deps (effects s2 ae) (deps (effects s2 ae) ++ [d])))
      else s1
  end.

Fixpoint depsMap_get (m : DepsMap) (k : Key) : option nat :=
  match m with
  | [] => None
  | (k', d) :: rest => if key_eqb k' k then Some d else depsMap_get rest k
  end.

Definition targetMap_set (tm : Target -> option DepsMap) (t : Target)
  (m : DepsMap) : Target -> option DepsMap :=
  fun t' => if target_eqb t' t then Some m else tm t'.

(** [track]: the [depsMap] of the target and the dep of the key are created
    on first use; a new dep is a fresh heap cell. *)
Definition track (t : Target) (k : Key) (s : State) : State :=
  if shouldTrack s && isSome (activeEffect s) then
    let depsMap := match targetMap s t with Some m => m | None => [] end in
    let s1 := match targetMap s t with
              | Some _ => s
              | None => with_targetMap s (targetMap_set (targetMap s) t [])
              end in
    match depsMap_get depsMap k with
    | Some d => trackEffects d s1
    | None =>
        let d := nextDep s1 in
        let s2 := with_nextDep
                    (with_depHeap s1 (upd (depHeap s1) d (createDep [])))
                    (S d) in
        let s3 := with_targetMap s2
                    (targetMap_set (targetMap s2) t (depsMap ++ [(k, d)])) in
        trackEffects d s3
    end
  else s.

(** The first half of [trigger]: the list [deps] of entries to notify, in
    the order they are pushed.  An entry is [None] where [depsMap.get] gave
    [undefined].  The whole result is [None] when the comparison
    [key >= newValue] throws. *)
Fixpoint length_deps (m : DepsMap) (newValue : option Z)
  : option (list (option nat)) :=
  match m with
  | [] => Some []
  | (k, d) :: rest =>
      match (if key_eqb k KLength then Some true else key_ge k newValue) with
      | None => None
      | Some hit =>
          match length_deps rest newValue with
          | None => None
          | Some ds => Some (if hit then Some d :: ds else ds)
          end
      end
  end.

Definition trigger_deps (depsMap : DepsMap) (t : Target) (ty : TriggerOpTypes)
  (key : option Key) (newValue : option Z) : option (list (option nat)) :=
  match ty with
  | CLEAR => Some (map (fun kd => Some (snd kd)) depsMap)
  | _ =>
      if (match key with Some k => key_eqb k KLength | None => false end)
         && isArray t
      then length_deps depsMap newValue
      else
        let d0 := match key with
                  | Some k => [depsMap_get depsMap k]
                  | None => []
                  end in
        let extra :=
          match ty with
          | ADD =>
              if negb (isArray t) then
                depsMap_get depsMap ITERATE_KEY ::
                (if isMap t then [depsMap_get depsMap MAP_KEY_ITERATE_KEY] else [])
              else if (match key with Some k => isIntegerKey k | None => false end)
              then [depsMap_get depsMap KLength]
              else []
          | DELETE =>
              if negb (isArray t) then
                depsMap_get depsMap ITERATE_KEY ::
                (if isMap t then [depsMap_get depsMap MAP_KEY_ITERATE_KEY] else [])
              else []
          | SET => if isMap t then [depsMap_get depsMap ITERATE_KEY] else []
          | CLEAR => []
          end in
        Some (d0 ++ extra)
  end.

(** The effects handed to [triggerEffects] by the second half of [trigger]:
    the members of the single entry, or the set built from all entries. *)
Definition trigger_effects_of (heap : nat -> Dep) (ds : list (option nat))
  : list nat :=
  match ds with
  | [d] => match d with Some d' => subs (heap d') | None => [] end
  | _ =>
      subs (createDep
              (flat_map (fun d => match d with
                                  | Some d' => subs (heap d')
                                  | None => []
                                  end) ds))
  end.

(** The [while (parent)] loop of [run]: [Some true] when [e] is met on the
    chain of parents, [Some false] at the end of the chain, [None] when the
    fuel ends first. *)
Fixpoint isAncestor (fuel : nat) (efs : nat -> ReactiveEffect)
  (p : option nat) (e : nat) : option bool :=
  match p with
  | None => Some false
  | Some q =>
      if Nat.eqb q e then Some true
      else match fuel with
           | O => None
           | S f => isAncestor f efs (parent (efs q)) e
           end
  end.

(** [run], from the [try] up to the call of [fn]. *)
Definition run_enter (e : nat) (s : State) : State :=
  let s1 := with_effects s
              (upd (effects s) e (set_parent (effects s e) (activeEffect s))) in
  let s2 := with_shouldTrack (with_activeEffect s1 (Some e)) true in
  let depth := (effectTrackDepth s2 + 1)%Z in
  let s3 := with_trackOpBit (with_depth s2 depth) (js_shl 1 depth) in
  if (effectTrackDepth s3 <=? maxMarkerBits)%Z then initDepMarkers e s3
  else cleanupEffect e s3.

(** [run], the [finally] block. *)
Definition run_finally (e : nat) (lastShouldTrack : bool) (s : State) : State :=
  let s1 := if (effectTrackDepth s <=? maxMarkerBits)%Z
            then finalizeDepMarkers e s else s in
  let depth := (effectTrackDepth s1 - 1)%Z in
  let s2 := with_trackOpBit (with_depth s1 depth) (js_shl 1 depth) in
  let s3 := with_activeEffect s2 (parent (effects s2 e)) in
  let s4 := with_shouldTrack s3 lastShouldTrack in
  with_effects s4 (upd (effects s4) e (set_parent (effects s4 e) None)).

(** Modelled from the spec: [trackRefValue] of ref.ts, which is not among
    the sources.  "emit a track event treating the derived value itself as a
    one-key tracked object (its own identity is the target, with no discrete
    key)": under tracking, the computed's own dep is created on first use and
    the active effect joins it. *)
Definition trackRefValue (c : nat) (s : State) : State :=
  if shouldTrack s && isSome (activeEffect s) then
    match cdep (computeds s c) with
    | Some d => trackEffects d s
    | None =>
        let d := nextDep s in
        let s1 := with_nextDep
                    (with_depHeap s (upd (depHeap s) d (createDep [])))
                    (S d) in
        let s2 := with_computeds s1
                    (upd (computeds s1) c (set_cdep (computeds s1 c) (Some d))) in
        trackEffects d s2
    end
  else s.

(** ** effect.ts and computed.ts: operations that call user code

    [call] is the runtime one level of fuel down: it runs an effect or calls
    its scheduler. *)

Section WithCall.

Variable call : Call -> State -> Res.

(** [triggerEffects] over the array spread from the dep. *)
Fixpoint triggerEffects (effs : list nat) (s : State) : Res :=
  match effs with
  | [] => Some (s, Normal)
  | e :: rest =>
      if negb (match activeEffect s with
               | Some a => Nat.eqb e a
               | None => false
               end)
         || allowRecurse (effects s e)
      then
        match (if isSome (scheduler (effects s e))
               then call (CallScheduler e) s
               else call (CallRun e) s) with
        | Some (s', Normal) => triggerEffects rest s'
        | r => r
        end
      else triggerEffects rest s
  end.

Definition trigger (t : Target) (ty : TriggerOpTypes) (key : option Key)
  (newValue : option Z) (s : State) : Res :=
  match targetMap s t with
  | None => Some (s, Normal)
  | Some depsMap =>
      match trigger_deps depsMap t ty key newValue with
      | None => Some (s, Throw)
      | Some ds => triggerEffects (trigger_effects_of (depHeap s) ds) s
      end
  end.

(** [get value()] of [ComputedRefImpl]; the cached value itself is not
    part of the model. *)
Definition computed_value (c : nat) (s : State) : Res :=
  let s1 := trackRefValue c s in
  let self := computeds s1 c in
  if _dirty self || negb (_cacheable self) then
    let s2 := with_computeds s1 (upd (computeds s1) c (set_dirty self false)) in
    call (CallRun (ceffect self)) s2
  else Some (s1, Normal).

Definition step (a : Action) (s : State) : Res :=
  match a with
  | ATrack t k => Some (track t k s, Normal)
  | ATrigger t ty k v => trigger t ty k v s
  | ARun e => call (CallRun e) s
  | AStop e => Some (stop e s, Normal)
  | AReadComputed c => computed_value c s
  | APauseTracking => Some (pauseTracking s, Normal)
  | AEnableTracking => Some (enableTracking s, Normal)
  | AResetTracking => Some (resetTracking s, Normal)
  | AThrow => Some (s, Throw)
  end.

(** A user function: its statements in order, until one throws. *)
Fixpoint exec (acts : list Action) (s : State) : Res :=
  match acts with
  | [] => Some (s, Normal)
  | a :: rest =>
      match step a s with
      | Some (s', Normal) => exec rest s'
      | r => r
      end
  end.

(** [ReactiveEffect.run]; [fuel] bounds the walk along the parents. *)
Definition run (fuel : nat) (e : nat) (s : State) : Res :=
  if negb (active (effects s e)) then
    exec (fn (effects s e)) (log s (EvRun e))
  else
    match isAncestor fuel (effects s) (activeEffect s) e with
    | None => None
    | Some true => Some (s, Normal)
    | Some false =>
        let lastShouldTrack := shouldTrack s in
        let s1 := run_enter e s in
        match exec (fn (effects s1 e)) (log s1 (EvRun e)) with
        | None => None
        | Some (s2, c) => Some (run_finally e lastShouldTrack s2, c)
        end
    end.

(** Modelled from the spec: [triggerRefValue] of ref.ts, which is not among
    the sources.  "notifies the derived value's own dependents": the members
    of the computed's dep, if it has one, go through [triggerEffects]. *)
Definition triggerRefValue (c : nat) (s : State) : Res :=
  match cdep (computeds s c) with
  | Some d => triggerEffects (subs (depHeap s d)) s
  | None => Some (s, Normal)
  end.

(** The scheduler of effect [e].  For a computed it is the closure of the
    constructor: [if (!this._dirty) { this._dirty = true; triggerRefValue(this) }]. *)
Definition run_scheduler (e : nat) (s : State) : Res :=
  let s0 := log s (EvScheduler e) in
  match scheduler (effects s e) with
  | Some (SchedComputed c) =>
      if negb (_dirty (computeds s0 c)) then
        let s1 := with_computeds s0
                    (upd (computeds s0) c (set_dirty (computeds s0 c) true)) in
        triggerRefValue c (log s1 (EvInvalidate c))
      else Some (s0, Normal)
  | _ => Some (s0, Normal)
  end.

Definition call_body (fuel : nat) (c : Call) (s : State) : Res :=
  match c with
  | CallRun e => run fuel e s
  | CallScheduler e => run_scheduler e s
  end.

End WithCall.

Fixpoint call (fuel : nat) (c : Call) (s : State) : Res :=
  match fuel with
  | O => None
  | S f => call_body (call f) f c s
  end.

(** ** Initial states *)

Definition emptyDep : Dep := createDep [].

Definition init_state (efs : nat -> ReactiveEffect)
  (cs : nat -> ComputedRefImpl) : State :=
  mkState efs (fun _ => emptyDep) 0 (fun _ => None) cs None true [] 0%Z 1%Z [].

(** [new ReactiveEffect(fn)] with the options of [effect(fn, options)]. *)
Definition new_effect (f : list Action) : ReactiveEffect :=
  mkEffect true [] None false None false f.

Definition no_effect : ReactiveEffect := new_effect [].

Definition no_computed : ComputedRefImpl := mkComputed None true true 0.

(** ** Well-formed runtime states

    [Chain efs a l]: [l] is the chain of parents that starts at the active
    effect [a]; it is the stack of effects whose [run] is in progress. *)
Inductive Chain (efs : nat -> ReactiveEffect) : option nat -> list nat -> Prop :=
| Chain_nil : Chain efs None []
| Chain_cons (e : nat) (l : list nat) :
    Chain efs (parent (efs e)) l -> Chain efs (Some e) (e :: l).

(** Bit [k] of [w] or of [n] is set on the dep in cell [d]. *)
Definition marked_at (s : State) (k : Z) (d : nat) : Prop :=
  Z.testbit (dep_w (depHeap s d)) k = true \/
  Z.testbit (dep_n (depHeap s d)) k = true.

(** Every running effect whose level is within the marker bits has the bit
    of its level set on each entry of its [deps]. *)
Fixpoint Marked (s : State) (l : list nat) : Prop :=
  match l with
  | [] => True
  | e :: l' =>
      ((Z.of_nat (S (length l')) <= maxMarkerBits)%Z ->
       forall d, In d (deps (effects s e)) ->
                 marked_at s (Z.of_nat (S (length l'))) d)
      /\ Marked s l'
  end.

(** The back-reference link: membership in a dep and presence in [deps]
    coincide. *)
Definition linked (s : State) : Prop :=
  forall e d, In e (subs (depHeap s d)) <-> In d (deps (effects s e)).

Record WF (s : State) (l : list nat) : Prop := mkWF {
  wf_chain : Chain (effects s) (activeEffect s) l;
  wf_nodup_chain : NoDup l;
  wf_parent : forall x, ~ In x l -> parent (effects s x) = None;
  wf_depth : effectTrackDepth s = Z.of_nat (length l);
  wf_bit : trackOpBit s = js_shl 1 (effectTrackDepth s);
  wf_linked : linked s;
  wf_nodup_deps : forall e, NoDup (deps (effects s e));
  wf_fresh : forall e d, In d (deps (effects s e)) -> d < nextDep s;
  wf_fresh_map : forall t m k d,
      targetMap s t = Some m -> In (k, d) m -> d < nextDep s;
  wf_fresh_cdep : forall c d, cdep (computeds s c) = Some d -> d < nextDep s;
  wf_marked : Marked s l
}.

(** The state of [run] for [e] inside its [finally] block: well-formed for
    the stack [e :: l], except that the marker bits of the level of [e] need
    not be set any more. *)
Record Leaving (s : State) (e : nat) (l : list nat) : Prop := mkLeaving {
  lv_chain : Chain (effects s) (activeEffect s) (e :: l);
  lv_nodup_chain : NoDup (e :: l);
  lv_parent : forall x, ~ In x (e :: l) -> parent (effects s x) = None;
  lv_depth : effectTrackDepth s = Z.of_nat (S (length l));
  lv_linked : linked s;
  lv_nodup_deps : forall x, NoDup (deps (effects s x));
  lv_fresh : forall x d, In d (deps (effects s x)) -> d < nextDep s;
  lv_fresh_map : forall t m k d,
      targetMap s t = Some m -> In (k, d) m -> d < nextDep s;
  lv_fresh_cdep : forall c d, cdep (computeds s c) = Some d -> d < nextDep s;
  lv_marked : Marked s l
}.

(** What a completed call leaves as it found it. *)
Record Restored (s s' : State) : Prop := mkRestored {
  rs_active : activeEffect s' = activeEffect s;
  rs_depth : effectTrackDepth s' = effectTrackDepth s;
  rs_bit : trackOpBit s' = trackOpBit s;
  rs_parent : forall x, parent (effects s' x) = parent (effects s x)
}.

(** A runtime entry point keeps well-formed states well-formed and restores
    the active effect, the depth, the marker bit and every parent. *)
Definition Safe (k : Call -> State -> Res) : Prop :=
  forall c s l s' r,
    WF s l -> k c s = Some (s', r) -> WF s' l /\ Restored s s'.

(** The same loop shape as the three loops over [deps]: cell [d] of the
    heap is replaced by [f] of its content, for each [d] of the list. *)
Fixpoint map_at (f : Dep -> Dep) (ds : list nat) (heap : nat -> Dep)
  : nat -> Dep :=
  match ds with
  | [] => heap
  | d :: rest => map_at f rest (upd heap d (f (heap d)))
  end.

Definition stale (bit : Z) (d : Dep) : bool :=
  wasTracked d bit && negb (newTracked d bit).

Definition finalize_one (e : nat) (bit : Z) (dep : Dep) : Dep :=
  let dep1 := if stale bit dep then dep_delete e dep else dep in
  set_n (set_w dep1 (js_and (dep_w dep1) (js_not bit)))
        (js_and (dep_n dep1) (js_not bit)).


(** Statements that call no user code and do not throw. *)
Definition direct (a : Action) : bool :=
  match a with
  | ATrack _ _ | AStop _ | APauseTracking | AEnableTracking | AResetTracking => true
  | _ => false
  end.


(** What an observer sees of a result: the trace and the completion. *)
Definition trace_of (r : Res) : option (list Event * Completion) :=
  match r with
  | Some (s, c) => Some (trace s, c)
  | None => None
  end.

(** A view [f] of the final state of a result. *)
Definition observe {A : Type} (f : State -> A) (r : Res) : option A :=
  match r with
  | Some (s, _) => Some (f s)
  | None => None
  end.

(** Number of calls of the function of effect [e] recorded in a trace. *)
Definition runs_of (e : nat) (tr : list Event) : nat :=
  length (filter (fun ev => match ev with EvRun x => Nat.eqb x e | _ => false end) tr).

(** ** Example programs *)

Definition obj0 : Target := mkTarget TObject 0.
Definition arr0 : Target := mkTarget TArray 0.

(** Effect 0 stops itself and then runs effect 1, whose function calls the
    runner of effect 0. *)
Definition stopped_ancestor_effects : nat -> ReactiveEffect :=
  fun i => match i with
           | 0 => new_effect [AStop 0; ARun 1]
           | 1 => new_effect [ARun 0]
           | _ => no_effect
           end.

Definition stopped_ancestor_init : State :=
  init_state stopped_ancestor_effects (fun _ => no_computed).

(** The state inside the function of effect 1 in that program: effect 0 has
    stopped itself and is still on the stack, below effect 1. *)
Definition stopped_ancestor_mid : State :=
  log (run_enter 1 (stop 0 (log (run_enter 0 stopped_ancestor_init) (EvRun 0))))
      (EvRun 1).

(** Effect 0 stops itself and then reads a key it has not read before. *)
Definition self_stop_effects : nat -> ReactiveEffect :=
  fun i => match i with
           | 0 => new_effect [AStop 0; ATrack obj0 (KName 0)]
           | _ => no_effect
           end.

Definition self_stop_init : State :=
  init_state self_stop_effects (fun _ => no_computed).

(** Effects over a four-element array: effect 0 reads index 3, effect 1
    reads index 0, effect 2 reads a symbol-keyed property. *)
Definition array_effects : nat -> ReactiveEffect :=
  fun i => match i with
           | 0 => new_effect [ATrack arr0 (KIndex 3)]
           | 1 => new_effect [ATrack arr0 (KIndex 0)]
           | 2 => new_effect [ATrack arr0 (KSymbol 7)]
           | _ => no_effect
           end.

Definition array_init : State := init_state array_effects (fun _ => no_computed).

(** [k'] answers wherever [k] does, with the same result. *)
Definition extends (k k' : Call -> State -> Res) : Prop :=
  forall c s r, k c s = Some r -> k' c s = Some r.

Definition is_symbol (k : Key) : bool :=
  match k with KSymbol _ => true | _ => false end.

(** The entries that the [length] branch of [trigger] is meant to pick:
    the [length] key and the indices not below the new length. *)
Definition hit_by_length (newValue : Z) (k : Key) : bool :=
  match k with
  | KLength => true
  | KIndex i => (newValue <=? Z.of_N i)%Z
  | _ => false
  end.

(** A computed (cell 0) whose getter reads one key of [obj0]; its inner
    effect is effect 0.  Effects 1, 2 and 3 each read the computed. *)
Definition computed_getter_effect : ReactiveEffect :=
  mkEffect true [] None false (Some (SchedComputed 0)) false
           [ATrack obj0 (KName 0)].

Definition computed_effects : nat -> ReactiveEffect :=
  fun i => match i with
           | 0 => computed_getter_effect
           | 1 | 2 | 3 => new_effect [AReadComputed 0]
           | _ => no_effect
           end.

(** [new ComputedRefImpl(getter, setter, isReadonly, isSSR = false)]:
    no dep yet, dirty, cacheable.  The cells other than cell 0 are not in
    use; each has an inner effect of its own. *)
Definition computed_init : State :=
  init_state computed_effects
    (fun i => mkComputed None true true (match i with O => 0 | S _ => 4 + i end)).

Definition write_key0 (v : Z) : Action :=
  ATrigger obj0 SET (Some (KName 0)) (Some v).

(** ** Memoization of a computed, read off the trace

    [memo_scan c ec cnt tr] walks a trace with the number [cnt] of calls of
    the getter (the function of effect [ec]) since the last invalidation of
    computed [c]; it fails when the getter is called a second time without
    an invalidation in between. *)
Fixpoint memo_scan (c ec : nat) (cnt : nat) (tr : list Event) : option nat :=
  match tr with
  | [] => Some cnt
  | EvRun e :: rest =>
      if Nat.eqb e ec then
        match cnt with
        | O => memo_scan c ec 1 rest
        | S _ => None
        end
      else memo_scan c ec cnt rest
  | EvInvalidate c' :: rest =>
      if Nat.eqb c' c then memo_scan c ec 0 rest else memo_scan c ec cnt rest
  | _ :: rest => memo_scan c ec cnt rest
  end.

(** The getter of [c] was called at most once between two invalidations. *)
Definition memoized (c ec : nat) (tr : list Event) : Prop :=
  exists cnt, memo_scan c ec 0 tr = Some cnt.

(** The fixed part of a state with computed [c] over effect [ec]: the
    effect carries the scheduler of [c], [c] is cacheable, no other
    computed shares the effect, and no user function calls the runner of
    [ec] directly. *)
Record MemoConfig (c ec : nat) (s : State) : Prop := mkMemoConfig {
  mc_scheduler : isSome (scheduler (effects s ec)) = true;
  mc_cacheable : _cacheable (computeds s c) = true;
  mc_effect : forall c', ceffect (computeds s c') = ec <-> c' = c;
  mc_fn : forall e, ~ In (ARun ec) (fn (effects s e))
}.

Record MemoInv (c ec : nat) (s : State) : Prop := mkMemoInv {
  mi_config : MemoConfig c ec s;
  mi_scan : exists cnt,
      memo_scan c ec 0 (trace s) = Some cnt /\
      (_dirty (computeds s c) = true -> cnt = 0)
}.

(** The state just before [get value] of [c] calls the runner of [ec]:
    the flag has been cleared and the getter has not run since the last
    invalidation. *)
Record MemoReady (c ec : nat) (s : State) : Prop := mkMemoReady {
  mr_config : MemoConfig c ec s;
  mr_scan : memo_scan c ec 0 (trace s) = Some 0;
  mr_clean : _dirty (computeds s c) = false
}.

Definition MemoSafe (c ec : nat) (k : Call -> State -> Res) : Prop :=
  forall c0 s s' r,
    (if match c0 with CallRun e => Nat.eqb e ec | _ => false end
     then MemoReady c ec s else MemoInv c ec s) ->
    k c0 s = Some (s', r) -> MemoInv c ec s'.

(** Operations that leave the trace, the flags of every computed and the
    code of every effect alone, except for a possible [EvOnStop]. *)
Record Quiet (s s' : State) : Prop := mkQuiet {
  q_trace : trace s' = trace s \/ exists e, trace s' = trace s ++ [EvOnStop e];
  q_dirty : forall c, _dirty (computeds s' c) = _dirty (computeds s c);
  q_cacheable : forall c, _cacheable (computeds s' c) = _cacheable (computeds s c);
  q_ceffect : forall c, ceffect (computeds s' c) = ceffect (computeds s c);
  q_scheduler : forall e, scheduler (effects s' e) = scheduler (effects s e);
  q_fn : forall e, fn (effects s' e) = fn (effects s e)
}.

(** ** Stopped effects

    [Detached x s]: effect [x] is inactive and is not running; no entry has
    it as a member, its own list is empty, and it is nobody's parent. *)
Record Detached (x : nat) (s : State) : Prop := mkDetached {
  dt_inactive : active (effects s x) = false;
  dt_deps : deps (effects s x) = [];
  dt_not_running : activeEffect s <> Some x;
  dt_not_parent : forall e, parent (effects s e) <> Some x;
  dt_no_member : forall d, ~ In x (subs (depHeap s d))
}.

Definition DetachedSafe (x : nat) (k : Call -> State -> Res) : Prop :=
  forall c s s' r, Detached x s -> k c s = Some (s', r) -> Detached x s'.

(** [x] is detached, nothing in the program calls its runner or owns it as
    the getter of a computed value, and its function has been called [n]
    times. *)
Record Retired (x n : nat) (s : State) : Prop := mkRetired {
  rt_detached : Detached x s;
  rt_fn : forall e, ~ In (ARun x) (fn (effects s e));
  rt_ceffect : forall c, ceffect (computeds s c) <> x;
  rt_runs : runs_of x (trace s) = n
}.

Definition RetiredSafe (x n : nat) (k : Call -> State -> Res) : Prop :=
  forall c s s' r,
    c <> CallRun x -> Retired x n s -> k c s = Some (s', r) -> Retired x n s'.

(** [targetMap.get(target)?.get(key)]. *)
Definition dep_of (s : State) (t : Target) (k : Key) : option nat :=
  match targetMap s t with
  | Some m => depsMap_get m k
  | None => None
  end.

(** No entry carries a marker bit of level [k]. *)
Definition LevelClear (k : Z) (s : State) : Prop :=
  forall d, Z.testbit (dep_w (depHeap s d)) k = false /\
            Z.testbit (dep_n (depHeap s d)) k = false.

(** The function of [e] reads keys: the state at level [k] of the run of
    [e], after the keys [done] have been read; [D0] is the list of entries
    of [e] when the run began and [ds] the entries of the keys read. *)
Record Collecting (e : nat) (k : Z) (D0 : list nat)
  (done : list (Target * Key)) (ds : list nat) (s : State) : Prop := mkCollecting {
  cl_active : activeEffect s = Some e;
  cl_track : shouldTrack s = true;
  cl_depth : effectTrackDepth s = k;
  cl_bit : trackOpBit s = (2 ^ k)%Z;
  cl_n : forall d, Z.testbit (dep_n (depHeap s d)) k = true <-> In d ds;
  cl_w : forall d, Z.testbit (dep_w (depHeap s d)) k = true <-> In d D0;
  cl_deps : forall d, In d (deps (effects s e)) <-> In d D0 \/ In d ds;
  cl_nodup : NoDup (deps (effects s e));
  cl_done : map (fun tk => dep_of s (fst tk) (snd tk)) done = map Some ds;
  cl_fresh_old : forall d, In d D0 -> d < nextDep s;
  cl_fresh_new : forall d, In d ds -> d < nextDep s;
  cl_fresh_map : forall t m key d,
      targetMap s t = Some m -> In (key, d) m -> d < nextDep s
}.

(** A function that only reads the given keys. *)
Definition reads (keys : list (Target * Key)) : list Action :=
  map (fun tk => ATrack (fst tk) (snd tk)) keys.

(** ** Notifications

    The members of every entry are distinct, as the members of a [Set]
    are. *)
Definition SubsNoDup (s : State) : Prop :=
  forall d, NoDup (subs (depHeap s d)).

Definition SubsSafe (k : Call -> State -> Res) : Prop :=
  forall c s s' r, SubsNoDup s -> k c s = Some (s', r) -> SubsNoDup s'.

(** An effect whose scheduler, if it has one, is the caller's, and whose
    function, if it is run, reads keys. *)
Definition plain_effect (ef : ReactiveEffect) : Prop :=
  match scheduler ef with
  | Some SchedUser => True
  | Some (SchedComputed _) => False
  | None => exists keys, fn ef = reads keys
  end.

(** What [triggerEffects] does for effect [e]: it calls the scheduler if
    there is one, and runs the effect otherwise. *)
Definition notification (s : State) (e : nat) : Event :=
  if isSome (scheduler (effects s e)) then EvScheduler e else EvRun e.

(** Every key of every target has an entry of its own: the entries of the
    target map are allocated cells, a [depsMap] has one entry per key, and
    no entry is shared by two keys. *)
Definition KeysDistinct (s : State) : Prop :=
  (forall t m k d, targetMap s t = Some m -> In (k, d) m -> d < nextDep s) /\
  (forall t m, targetMap s t = Some m -> NoDup (map fst m)) /\
  (forall t1 t2 m1 m2 k1 k2 d,
      targetMap s t1 = Some m1 -> targetMap s t2 = Some m2 ->
      In (k1, d) m1 -> In (k2, d) m2 -> t1 = t2 /\ k1 = k2).

Definition KeysSafe (k : Call -> State -> Res) : Prop :=
  forall c s s' r, KeysDistinct s -> k c s = Some (s', r) -> KeysDistinct s'.

(** The function of [e] reads keys beyond the cap of 30 levels: the state
    of the run after the keys [done] have been read, [ds] being their
    entries. *)
Record CollectingAll (e : nat) (l : list nat) (done : list (Target * Key))
  (ds : list nat) (s : State) : Prop := mkCollectingAll {
  ca_wf : WF s (e :: l);
  ca_active : activeEffect s = Some e;
  ca_track : shouldTrack s = true;
  ca_depth : (maxMarkerBits < effectTrackDepth s)%Z;
  ca_deps : forall d, In d (deps (effects s e)) <-> In d ds;
  ca_done : map (fun tk => dep_of s (fst tk) (snd tk)) done = map Some ds
}.

(** The entries [D] carry the newly-tracked bit of level [k], and the
    running effect [e] is not subscribed to them. *)
Record Blind (e : nat) (k : Z) (D : list nat) (s : State) : Prop := mkBlind {
  bl_active : activeEffect s = Some e;
  bl_track : shouldTrack s = true;
  bl_depth : effectTrackDepth s = k;
  bl_bit : trackOpBit s = (2 ^ k)%Z;
  bl_marked : forall d, In d D -> Z.testbit (dep_n (depHeap s d)) k = true;
  bl_fresh : forall d, In d D -> d < nextDep s;
  bl_out : forall d, In d D -> ~ In d (deps (effects s e))
}.

(** ** Effects in the middle of their run

    [Entered e n s]: effect [e] is active, no function has a statement that
    stops it, and its function has been called [n] times. *)
Record Entered (e n : nat) (s : State) : Prop := mkEntered {
  en_active : active (effects s e) = true;
  en_no_stop : forall x, ~ In (AStop e) (fn (effects s x));
  en_runs : runs_of e (trace s) = n
}.

(** A runtime entry point called while [e] is on the stack of running
    effects does not call the function of [e]. *)
Definition EnteredSafe (e n : nat) (k : Call -> State -> Res) : Prop :=
  forall c s l s' r,
    WF s l -> In e l -> Entered e n s -> k c s = Some (s', r) -> Entered e n s'.

(** The functions and the schedulers of the effects are the same in both
    states. *)
Definition SameCode (s s' : State) : Prop :=
  forall x, fn (effects s' x) = fn (effects s x) /\
            scheduler (effects s' x) = scheduler (effects s x).

Definition CodeSafe (k : Call -> State -> Res) : Prop :=
  forall c s s' r, k c s = Some (s', r) -> SameCode s s'.

(** Statements that read a key or write one. *)
Definition reads_or_writes (a : Action) : bool :=
  match a with
  | ATrack _ _ | ATrigger _ _ _ _ => true
  | _ => false
  end.

(** * baseHandlers.ts

    The traps of the reactive and read-only wrappers over a heap of raw
    objects.  A trap returns the new heap, the value it returns and the
    calls it made to [track] and [trigger].  The value is [None] when the
    trap returns nothing: [Reflect.set] throws, or it converts an object
    that this model does not follow (see [to_length]). *)

Module Handlers.

Inductive Value : Type :=
| VUndefined
| VBool (b : bool)
| VNaN
| VNum (z : Z)
| VObj (id : nat)                              (* a raw object or array *)
| VProxy (readonly shallow : bool) (id : nat)  (* a wrapper of raw object [id] *)
| VRef (id : nat).                             (* a reference cell *)

(** A raw object as [reactive] wraps it: an ordinary object or array whose
    properties are its own, writable and configurable data properties; an
    array keeps its [length] apart from its elements, so that holes are
    possible.  The prototypes are the built-in ones and the keys are not
    names that these answer with an accessor ([__proto__]) or that the
    built-in conversions call ([valueOf], [toString], [join]).  Objects
    with accessors or read-only properties, own or inherited, are outside
    this model. *)
Record Obj : Type := mkObj {
  o_isArray : bool;
  o_length : N;
  o_props : list (Key * Value)
}.

Record RefCell : Type := mkRef { r_value : Value; r_readonly : bool }.

Record Heap : Type := mkHeap { objects : nat -> Obj; refs : nat -> RefCell }.

Inductive Emit : Type :=
| EmitTrack (target : nat) (key : Key)
| EmitTrigger (target : nat) (ty : TriggerOpTypes) (key : Key)
              (newValue oldValue : Value)
| EmitRefSet (ref : nat) (newValue : Value)   (* [oldValue.value = value] *)
| EmitWarn.                                   (* [console.warn] under [__DEV__] *)

Definition Outcome : Type := (Heap * option bool * list Emit)%type.

Definition value_eqb (a b : Value) : bool :=
  match a, b with
  | VUndefined, VUndefined => true
  | VBool x, VBool y => Bool.eqb x y
  | VNaN, VNaN => true
  | VNum x, VNum y => Z.eqb x y
  | VObj x, VObj y => Nat.eqb x y
  | VProxy r1 s1 x, VProxy r2 s2 y => Bool.eqb r1 r2 && Bool.eqb s1 s2 && Nat.eqb x y
  | VRef x, VRef y => Nat.eqb x y
  | _, _ => false
  end.

(** Modelled from the spec: [hasChanged] of the shared helpers, which are
    not among the sources.  "the new value differs from the old by a
    deep-enough equality check that also treats NaN/NaN as equal": the
    values differ unless they are the same value, [NaN] being the same as
    [NaN]. *)
Definition hasChanged (value oldValue : Value) : bool :=
  negb (value_eqb value oldValue).

(** Modelled from the spec: [toRaw] of reactive.ts, which is not among the
    sources.  "a tracked object and its underlying raw object are distinct
    identities related 1:1": a wrapper unwraps to its raw object, any other
    value to itself. *)
Definition toRaw (v : Value) : Value :=
  match v with
  | VProxy _ _ id => VObj id
  | _ => v
  end.

(** Modelled from the spec: [isReadonly], [isShallow] of reactive.ts and
    [isRef] of ref.ts, which are not among the sources.  "A tracked object
    carries three flags: is-reactive, is-read-only, is-shallow"; a
    reference cell is "a single-slot box around a value", read-only when it
    was made so. *)
Definition isReadonly (h : Heap) (v : Value) : bool :=
  match v with
  | VProxy ro _ _ => ro
  | VRef id => r_readonly (refs h id)
  | _ => false
  end.

Definition isShallow (v : Value) : bool :=
  match v with
  | VProxy _ sh _ => sh
  | _ => false
  end.

Definition isRef (v : Value) : bool :=
  match v with
  | VRef _ => true
  | _ => false
  end.

Fixpoint props_get (ps : list (Key * Value)) (k : Key) : option Value :=
  match ps with
  | [] => None
  | (k', v) :: rest => if key_eqb k' k then Some v else props_get rest k
  end.

Fixpoint props_set (ps : list (Key * Value)) (k : Key) (v : Value)
  : list (Key * Value) :=
  match ps with
  | [] => [(k, v)]
  | (k', v') :: rest =>
      if key_eqb k' k then (k, v) :: rest else (k', v') :: props_set rest k v
  end.

Definition props_remove (ps : list (Key * Value)) (k : Key) : list (Key * Value) :=
  filter (fun kv => negb (key_eqb (fst kv) k)) ps.

(** [target[key]] on a raw object whose prototypes carry no property of
    that name: the own property, or [undefined]. *)
Definition raw_get (h : Heap) (target : nat) (key : Key) : Value :=
  let o := objects h target in
  match key with
  | KLength =>
      if o_isArray o then VNum (Z.of_N (o_length o))
      else match props_get (o_props o) key with Some v => v | None => VUndefined end
  | _ => match props_get (o_props o) key with Some v => v | None => VUndefined end
  end.

(** Modelled from the spec: [hasOwn] of the shared helpers
    ([Object.prototype.hasOwnProperty]): "the key already existed" as an
    own property; the [length] of an array is one. *)
Definition hasOwn (h : Heap) (target : nat) (key : Key) : bool :=
  let o := objects h target in
  match key with
  | KLength => o_isArray o || isSome (props_get (o_props o) key)
  | _ => isSome (props_get (o_props o) key)
  end.

Definition set_object (h : Heap) (id : nat) (o : Obj) : Heap :=
  mkHeap (upd (objects h) id o) (refs h).

(** What [ArraySetLength] makes of the value assigned to [length]. *)
Inductive Converted : Type :=
| ConvLength (n : N)   (* [ToUint32(v)] and [ToNumber(v)] agree on [n] *)
| ConvRangeError       (* they differ: [RangeError: Invalid array length] *)
| ConvNotFollowed.     (* the conversion is not followed *)

Definition length_of_number (z : Z) : Converted :=
  if ((0 <=? z) && (z <? 4294967296))%Z then ConvLength (Z.to_N z)
  else ConvRangeError.

Definition isObject (v : Value) : bool :=
  match v with
  | VObj _ | VProxy _ _ _ | VRef _ => true
  | _ => false
  end.

(** The elements of an array: the values at the indices below its
    [length]. *)
Definition elements (o : Obj) : list Value :=
  map snd (filter (fun kv => match fst kv with
                             | KIndex i => N.ltb i (o_length o)
                             | _ => false
                             end) (o_props o)).

(** [ToNumber(v)] for the new [length], by the kind of [v].  [undefined]
    and [NaN] give [NaN], a boolean gives 0 or 1.  An object is converted
    through its string: an ordinary object and a reference cell read as
    ["[object Object]"], which is [NaN]; an array reads as the [join] of
    its elements, so the empty array is 0, an array of one element is that
    element ([undefined] and a hole are the empty string, which is 0, a
    number is itself, a boolean and [NaN] are [NaN]) and a longer array,
    whose string has a comma, is [NaN].  The conversion of a wrapper goes
    through its [get] trap, and the conversion of an array that holds
    objects goes through these: neither is followed. *)
Definition to_length (h : Heap) (v : Value) : Converted :=
  match v with
  | VNum z => length_of_number z
  | VBool b => ConvLength (if b then 1%N else 0%N)
  | VUndefined | VNaN | VRef _ => ConvRangeError
  | VProxy _ _ _ => ConvNotFollowed
  | VObj id =>
      let o := objects h id in
      if o_isArray o then
        if existsb isObject (elements o) then ConvNotFollowed
        else if (o_length o =? 0)%N then ConvLength 0%N
        else if (o_length o =? 1)%N then
          match props_get (o_props o) (KIndex 0) with
          | None | Some VUndefined => ConvLength 0%N
          | Some (VNum z) => length_of_number z
          | Some _ => ConvRangeError
          end
        else ConvRangeError
      else ConvRangeError
  end.

Definition below (n : N) (kv : Key * Value) : bool :=
  match fst kv with
  | KIndex i => N.ltb i n
  | _ => true
  end.

Inductive SetResult : Type :=
| SetDone (h : Heap) (result : bool)   (* [Reflect.set] returned [result] *)
| SetThrows                            (* it threw a [RangeError] *)
| SetNotFollowed.                      (* it converted an object, see [to_length] *)

(** [Reflect.set(target, key, value, receiver)] on the objects of this
    model.  No property is read-only and no prototype answers [key] with
    an accessor or a read-only property, so [OrdinarySet] ends in the
    definition of a data property on the receiver, which the wrapper hands
    on to its raw object, and returns [true]; a receiver that is no object
    gives [false].  An array grows to hold a new index and drops the
    elements at or above a new [length]. *)
Definition reflect_set (h : Heap) (target : nat) (key : Key) (value : Value)
  (receiver : Value) : SetResult :=
  match toRaw receiver with
  | VObj r =>
      let o := objects h r in
      if o_isArray o then
        match key with
        | KLength =>
            match to_length h value with
            | ConvLength n =>
                SetDone (set_object h r
                           (mkObj true n (filter (below n) (o_props o)))) true
            | ConvRangeError => SetThrows
            | ConvNotFollowed => SetNotFollowed
            end
        | KIndex i =>
            if (i <? 4294967295)%N then
              SetDone (set_object h r
                         (mkObj true (N.max (o_length o) (i + 1))
                                (props_set (o_props o) key value))) true
            else
              SetDone (set_object h r
                         (mkObj true (o_length o) (props_set (o_props o) key value)))
                      true
        | _ =>
            SetDone (set_object h r
                       (mkObj true (o_length o) (props_set (o_props o) key value)))
                    true
        end
      else
        SetDone (set_object h r
                   (mkObj false (o_length o) (props_set (o_props o) key value))) true
  | _ => SetDone h false
  end.

(** [Reflect.deleteProperty(target, key)]: the [length] of an array cannot
    be deleted. *)
Definition reflect_deleteProperty (h : Heap) (target : nat) (key : Key)
  : Heap * bool :=
  let o := objects h target in
  match key with
  | KLength =>
      if o_isArray o then (h, false)
      else (set_object h target
              (mkObj false (o_length o) (props_remove (o_props o) key)), true)
  | _ =>
      (set_object h target
         (mkObj (o_isArray o) (o_length o) (props_remove (o_props o) key)), true)
  end.

(** [hadKey] of the setter. *)
Definition hadKey (h : Heap) (target : nat) (key : Key) : bool :=
  if o_isArray (objects h target) && isIntegerKey key then
    match key with
    | KIndex i => N.ltb i (o_length (objects h target))
    | _ => false
    end
  else hasOwn h target key.

(** [createSetter(shallow)]. *)
Definition createSetter (shallow : bool) (target : nat) (key : Key)
  (value : Value) (receiver : Value) (h : Heap) : Outcome :=
  let oldValue := raw_get h target key in
  if isReadonly h oldValue && isRef oldValue && negb (isRef value) then
    (h, Some false, [])
  else
    let deep := negb shallow && negb (isReadonly h value) in
    let unwrap := deep && negb (isShallow value) in
    let value' := if unwrap then toRaw value else value in
    let oldValue' := if unwrap then toRaw oldValue else oldValue in
    if deep && negb (o_isArray (objects h target))
       && isRef oldValue' && negb (isRef value')
    then
      match oldValue' with
      | VRef r =>
          (mkHeap (objects h) (upd (refs h) r (mkRef value' (r_readonly (refs h r)))),
           Some true, [EmitRefSet r value'])
      | _ => (h, Some true, [])
      end
    else
      let had := hadKey h target key in
      match reflect_set h target key value' receiver with
      | SetThrows | SetNotFollowed => (h, None, [])
      | SetDone h' result =>
          (h', Some result,
           if value_eqb (VObj target) (toRaw receiver) then
             if negb had then [EmitTrigger target ADD key value' VUndefined]
             else if hasChanged value' oldValue'
                  then [EmitTrigger target SET key value' oldValue']
                  else []
           else [])
      end.

Definition deleteProperty (target : nat) (key : Key) (h : Heap) : Outcome :=
  let had := hasOwn h target key in
  let oldValue := raw_get h target key in
  let (h', result) := reflect_deleteProperty h target key in
  (h', Some result,
   if result && had then [EmitTrigger target DELETE key VUndefined oldValue] else []).

(** [readonlyHandlers.set] and [readonlyHandlers.deleteProperty]. *)
Definition readonly_set (dev : bool) (target : nat) (key : Key) (h : Heap)
  : Outcome :=
  (h, Some true, if dev then [EmitWarn] else []).

Definition readonly_deleteProperty (dev : bool) (target : nat) (key : Key)
  (h : Heap) : Outcome :=
  (h, Some true, if dev then [EmitWarn] else []).

(** Modelled from the spec: the choice of handlers made by reactive.ts,
    which is not among the sources.  "A read-only variant of the wrapper
    disables write/delete": an assignment or a [delete] through a wrapper
    reaches the traps of [readonlyHandlers] (also under
    [shallowReadonlyHandlers], which extends them) when the wrapper is
    read-only, else those of [mutableHandlers] or
    [shallowReactiveHandlers]; on a raw object it is the plain operation. *)
Definition assign (dev : bool) (p : Value) (key : Key) (value : Value)
  (h : Heap) : Outcome :=
  match p with
  | VProxy true _ id => readonly_set dev id key h
  | VProxy false sh id => createSetter sh id key value p h
  | VObj id =>
      match reflect_set h id key value p with
      | SetDone h' r => (h', Some r, [])
      | SetThrows | SetNotFollowed => (h, None, [])
      end
  | _ => (h, None, [])
  end.

Definition delete (dev : bool) (p : Value) (key : Key) (h : Heap) : Outcome :=
  match p with
  | VProxy true _ id => readonly_deleteProperty dev id key h
  | VProxy false _ id => deleteProperty id key h
  | VObj id =>
      let (h', r) := reflect_deleteProperty h id key in (h', Some r, [])
  | _ => (h, None, [])
  end.

Inductive Op : Type :=
| OpAssign (p : Value) (key : Key) (value : Value)
| OpDelete (p : Value) (key : Key).

Definition through_readonly (op : Op) : bool :=
  match op with
  | OpAssign (VProxy true _ _) _ _ | OpDelete (VProxy true _ _) _ => true
  | _ => false
  end.

Definition do_op (dev : bool) (op : Op) (h : Heap) : Outcome :=
  match op with
  | OpAssign p key value => assign dev p key value h
  | OpDelete p key => delete dev p key h
  end.

(** A sequence of operations: the final heap, the results in order, and
    all the emitted calls. *)
Fixpoint do_ops (dev : bool) (ops : list Op) (h : Heap)
  : Heap * list (option bool) * list Emit :=
  match ops with
  | [] => (h, [], [])
  | op :: rest =>
      let '(h1, r, em) := do_op dev op h in
      let '(h2, rs, ems) := do_ops dev rest h1 in
      (h2, r :: rs, em ++ ems)
  end.

Definition is_notification (e : Emit) : bool :=
  match e with
  | EmitTrack _ _ | EmitTrigger _ _ _ _ _ => true
  | _ => false
  end.

(** An array [[1, <hole>, 3]] in cell 0 and a plain object [{a: NaN}] in
    cell 1. *)
Definition sparse_heap : Heap :=
  mkHeap (fun i => match i with
                   | 0 => mkObj true 3 [(KIndex 0, VNum 1); (KIndex 2, VNum 3)]
                   | _ => mkObj false 0 [(KName 0, VNaN)]
                   end)
         (fun _ => mkRef VUndefined false).

End Handlers.

(** * scheduler.ts

    Jobs live in a heap; the queues hold their handles.  The body of a job
    is a script over the scheduler's entry points.  The microtask of
    [queueFlush] is the caller's to run: it is [flushJobs]. *)

Module Scheduler.

Inductive JobAction : Type :=
| JWork                         (* work that does not touch the scheduler *)
| JQueueJob (j : nat)
| JQueuePreFlushCb (j : nat)
| JQueuePostFlushCb (j : nat)
| JInvalidateJob (j : nat)
| JDeactivate (j : nat)         (* [job.active = false] *)
| JThrow.

Record SchedulerJob : Type := mkJob {
  job_id : option Z;            (* [id?: number] *)
  job_active : bool;            (* [active !== false] *)
  job_allowRecurse : bool;
  job_body : list JobAction
}.

Record SState : Type := mkSState {
  jobs : nat -> SchedulerJob;
  isFlushing : bool;
  isFlushPending : bool;
  queue : list nat;
  flushIndex : nat;
  pendingPreFlushCbs : list nat;
  activePreFlushCbs : option (list nat);
  preFlushIndex : nat;
  pendingPostFlushCbs : list nat;
  activePostFlushCbs : option (list nat);
  postFlushIndex : nat;
  currentPreFlushParentJob : option nat;
  seen : nat -> nat;            (* the [CountMap]; 0 stands for an absent key *)
  ran : list nat;               (* the jobs and callbacks called, in order *)
  errors : nat                  (* errors handed to the error handler *)
}.

Definition RECURSION_LIMIT : nat := 100.

(** [getId]: [None] stands for [Infinity]. *)
Definition getId (s : SState) (j : nat) : option Z := job_id (jobs s j).

(** [getId(a) - getId(b) <= 0], where [Infinity - Infinity] is [NaN], which
    [sort] reads as [+0]. *)
Definition id_le (a b : option Z) : bool :=
  match a, b with
  | Some x, Some y => (x <=? y)%Z
  | Some _, None => true
  | None, Some _ => false
  | None, None => true
  end.

(** [middleJobId < id]. *)
Definition id_lt_num (a : option Z) (b : Z) : bool :=
  match a with
  | Some x => (x <? b)%Z
  | None => false
  end.

(** [Array.prototype.sort] with the comparator
    [(a, b) => getId(a) - getId(b)]: the stable sort by identity. *)
Fixpoint insert_by_id (s : SState) (j : nat) (l : list nat) : list nat :=
  match l with
  | [] => [j]
  | x :: rest =>
      if id_le (getId s j) (getId s x) then j :: x :: rest
      else x :: insert_by_id s j rest
  end.

Fixpoint sort_by_id (s : SState) (l : list nat) : list nat :=
  match l with
  | [] => []
  | x :: rest => insert_by_id s x (sort_by_id s rest)
  end.

(** [queue.includes(job, fromIndex)]. *)
Definition includes_from (l : list nat) (j : nat) (from : nat) : bool :=
  existsb (Nat.eqb j) (skipn from l).

(** [queue.indexOf(job)]. *)
Fixpoint indexOf (l : list nat) (j : nat) : option nat :=
  match l with
  | [] => None
  | x :: rest =>
      if Nat.eqb x j then Some 0
      else match indexOf rest j with
           | Some i => Some (S i)
           | None => None
           end
  end.

(** [queue.splice(i, 0, job)] and [queue.splice(i, 1)]. *)
Definition splice_in (l : list nat) (i : nat) (j : nat) : list nat :=
  firstn i l ++ j :: skipn i l.

Definition splice_out (l : list nat) (i : nat) : list nat :=
  firstn i l ++ skipn (S i) l.

(** The loop of [findInsertionIndex]; the interval halves at every step,
    so [fuel] steps are enough when [fuel] exceeds its length. *)
Fixpoint findInsertionIndex_loop (fuel : nat) (s : SState) (id : Z)
  (start end_ : nat) : nat :=
  match fuel with
  | O => start
  | S f =>
      if start <? end_ then
        let middle := Nat.div2 (start + end_) in
        let middleJobId := getId s (nth middle (queue s) 0) in
        if id_lt_num middleJobId id
        then findInsertionIndex_loop f s id (middle + 1) end_
        else findInsertionIndex_loop f s id start middle
      else start
  end.

Definition findInsertionIndex (s : SState) (id : Z) : nat :=
  findInsertionIndex_loop (S (length (queue s))) s id
    (flushIndex s + 1) (length (queue s)).

Definition with_queue (s : SState) (q : list nat) : SState :=
  mkSState (jobs s) (isFlushing s) (isFlushPending s) q (flushIndex s)
    (pendingPreFlushCbs s) (activePreFlushCbs s) (preFlushIndex s)
    (pendingPostFlushCbs s) (activePostFlushCbs s) (postFlushIndex s)
    (currentPreFlushParentJob s) (seen s) (ran s) (errors s).

Definition with_flushIndex (s : SState) (i : nat) : SState :=
  mkSState (jobs s) (isFlushing s) (isFlushPending s) (queue s) i
    (pendingPreFlushCbs s) (activePreFlushCbs s) (preFlushIndex s)
    (pendingPostFlushCbs s) (activePostFlushCbs s) (postFlushIndex s)
    (currentPreFlushParentJob s) (seen s) (ran s) (errors s).

Definition with_flags (s : SState) (flushing pending : bool) : SState :=
  mkSState (jobs s) flushing pending (queue s) (flushIndex s)
    (pendingPreFlushCbs s) (activePreFlushCbs s) (preFlushIndex s)
    (pendingPostFlushCbs s) (activePostFlushCbs s) (postFlushIndex s)
    (currentPreFlushParentJob s) (seen s) (ran s) (errors s).

Definition with_pre (s : SState) (pending : list nat)
  (act : option (list nat)) (i : nat) (parentJob : option nat) : SState :=
  mkSState (jobs s) (isFlushing s) (isFlushPending s) (queue s) (flushIndex s)
    pending act i
    (pendingPostFlushCbs s) (activePostFlushCbs s) (postFlushIndex s)
    parentJob (seen s) (ran s) (errors s).

Definition with_post (s : SState) (pending : list nat)
  (act : option (list nat)) (i : nat) : SState :=
  mkSState (jobs s) (isFlushing s) (isFlushPending s) (queue s) (flushIndex s)
    (pendingPreFlushCbs s) (activePreFlushCbs s) (preFlushIndex s)
    pending act i
    (currentPreFlushParentJob s) (seen s) (ran s) (errors s).

Definition with_jobs (s : SState) (js : nat -> SchedulerJob) : SState :=
  mkSState js (isFlushing s) (isFlushPending s) (queue s) (flushIndex s)
    (pendingPreFlushCbs s) (activePreFlushCbs s) (preFlushIndex s)
    (pendingPostFlushCbs s) (activePostFlushCbs s) (postFlushIndex s)
    (currentPreFlushParentJob s) (seen s) (ran s) (errors s).

Definition with_seen (s : SState) (sn : nat -> nat) : SState :=
  mkSState (jobs s) (isFlushing s) (isFlushPending s) (queue s) (flushIndex s)
    (pendingPreFlushCbs s) (activePreFlushCbs s) (preFlushIndex s)
    (pendingPostFlushCbs s) (activePostFlushCbs s) (postFlushIndex s)
    (currentPreFlushParentJob s) sn (ran s) (errors s).

Definition with_ran (s : SState) (r : list nat) : SState :=
  mkSState (jobs s) (isFlushing s) (isFlushPending s) (queue s) (flushIndex s)
    (pendingPreFlushCbs s) (activePreFlushCbs s) (preFlushIndex s)
    (pendingPostFlushCbs s) (activePostFlushCbs s) (postFlushIndex s)
    (currentPreFlushParentJob s) (seen s) r (errors s).

Definition with_errors (s : SState) (n : nat) : SState :=
  mkSState (jobs s) (isFlushing s) (isFlushPending s) (queue s) (flushIndex s)
    (pendingPreFlushCbs s) (activePreFlushCbs s) (preFlushIndex s)
    (pendingPostFlushCbs s) (activePostFlushCbs s) (postFlushIndex s)
    (currentPreFlushParentJob s) (seen s) (ran s) n.

Definition queueFlush (s : SState) : SState :=
  if negb (isFlushing s) && negb (isFlushPending s)
  then with_flags s (isFlushing s) true
  else s.

Definition queueJob (j : nat) (s : SState) : SState :=
  if (match queue s with [] => true | _ => false end
      || negb (includes_from (queue s) j
                 (if isFlushing s && job_allowRecurse (jobs s j)
                  then flushIndex s + 1 else flushIndex s)))
     && negb (match currentPreFlushParentJob s with
              | Some p => Nat.eqb j p
              | None => false
              end)
  then
    let s1 := match job_id (jobs s j) with
              | None => with_queue s (queue s ++ [j])
              | Some id => with_queue s (splice_in (queue s) (findInsertionIndex s id) j)
              end in
    queueFlush s1
  else s.

Definition invalidateJob (j : nat) (s : SState) : SState :=
  match indexOf (queue s) j with
  | Some i => if flushIndex s <? i then with_queue s (splice_out (queue s) i) else s
  | None => s
  end.

(** [queueCb] for a single callback. *)
Definition queueCb_accepts (j : nat) (s : SState) (activeQueue : option (list nat))
  (index : nat) : bool :=
  match activeQueue with
  | None => true
  | Some a =>
      negb (includes_from a j
              (if job_allowRecurse (jobs s j) then index + 1 else index))
  end.

Definition queuePreFlushCb (j : nat) (s : SState) : SState :=
  queueFlush
    (if queueCb_accepts j s (activePreFlushCbs s) (preFlushIndex s)
     then with_pre s (pendingPreFlushCbs s ++ [j]) (activePreFlushCbs s)
            (preFlushIndex s) (currentPreFlushParentJob s)
     else s).

Definition queuePostFlushCb (j : nat) (s : SState) : SState :=
  queueFlush
    (if queueCb_accepts j s (activePostFlushCbs s) (postFlushIndex s)
     then with_post s (pendingPostFlushCbs s ++ [j]) (activePostFlushCbs s)
            (postFlushIndex s)
     else s).

(** [checkRecursiveUpdates]: [true] when the job is to be skipped. *)
Definition checkRecursiveUpdates (j : nat) (s : SState) : bool * SState :=
  match seen s j with
  | O => (false, with_seen s (upd (seen s) j 1))
  | count =>
      if RECURSION_LIMIT <? count then (true, s)
      else (false, with_seen s (upd (seen s) j (count + 1)))
  end.

Definition job_step (a : JobAction) (s : SState) : option SState :=
  match a with
  | JWork => Some s
  | JQueueJob j => Some (queueJob j s)
  | JQueuePreFlushCb j => Some (queuePreFlushCb j s)
  | JQueuePostFlushCb j => Some (queuePostFlushCb j s)
  | JInvalidateJob j => Some (invalidateJob j s)
  | JDeactivate j =>
      Some (with_jobs s
              (upd (jobs s) j
                   (mkJob (job_id (jobs s j)) false (job_allowRecurse (jobs s j))
                          (job_body (jobs s j)))))
  | JThrow => None
  end.

(** The body of a job: its statements until one throws; the result is the
    state reached and whether the body completed. *)
Fixpoint job_exec (acts : list JobAction) (s : SState) : SState * bool :=
  match acts with
  | [] => (s, true)
  | a :: rest =>
      match job_step a s with
      | Some s' => job_exec rest s'
      | None => (s, false)
      end
  end.

Definition call_job (j : nat) (s : SState) : SState * bool :=
  job_exec (job_body (jobs s j)) (with_ran s (ran s ++ [j])).

(** Modelled from the spec: [callWithErrorHandling] of errorHandling.ts,
    which is not among the sources.  "an exception raised inside ... a
    job's body [is] caught at the single point the runtime invokes user
    code, forwarded to an error-reporting collaborator ..., and does not
    abort the flush cycle". *)
Definition callWithErrorHandling (j : nat) (s : SState) : SState :=
  let (s', ok) := call_job j s in
  if ok then s' else with_errors s' (S (errors s')).

(** [[...new Set(pending)]]. *)
Definition dedupe (l : list nat) : list nat :=
  fold_left (fun acc x => if existsb (Nat.eqb x) acc then acc else acc ++ [x]) l [].

(** The [for] loop of [flushPreFlushCbs]; a callback is called outside any
    error handler, so its exception ends the loop ([Some (_, false)]). *)
Fixpoint preFlush_loop (dev : bool) (fuel : nat) (s : SState)
  : option (SState * bool) :=
  match fuel with
  | O => None
  | S f =>
      match activePreFlushCbs s with
      | None => Some (s, true)
      | Some a =>
          if preFlushIndex s <? length a then
            let j := nth (preFlushIndex s) a 0 in
            let (skip, s1) := if dev then checkRecursiveUpdates j s else (false, s) in
            let next := fun s2 =>
              with_pre s2 (pendingPreFlushCbs s2) (activePreFlushCbs s2)
                (preFlushIndex s2 + 1) (currentPreFlushParentJob s2) in
            if skip then preFlush_loop dev f (next s1)
            else
              let (s2, ok) := call_job j s1 in
              if ok then preFlush_loop dev f (next s2) else Some (s2, false)
          else Some (s, true)
      end
  end.

Fixpoint flushPreFlushCbs (dev : bool) (fuel : nat) (parentJob : option nat)
  (s : SState) : option (SState * bool) :=
  match fuel with
  | O => None
  | S f =>
      match pendingPreFlushCbs s with
      | [] => Some (s, true)
      | pending =>
          let s1 := with_pre s [] (Some (dedupe pending)) 0 parentJob in
          match preFlush_loop dev f s1 with
          | None => None
          | Some (s2, false) => Some (s2, false)
          | Some (s2, true) =>
              flushPreFlushCbs dev f parentJob
                (with_pre s2 (pendingPreFlushCbs s2) None 0 None)
          end
      end
  end.

Fixpoint postFlush_loop (dev : bool) (fuel : nat) (s : SState)
  : option (SState * bool) :=
  match fuel with
  | O => None
  | S f =>
      match activePostFlushCbs s with
      | None => Some (s, true)
      | Some a =>
          if postFlushIndex s <? length a then
            let j := nth (postFlushIndex s) a 0 in
            let (skip, s1) := if dev then checkRecursiveUpdates j s else (false, s) in
            let next := fun s2 =>
              with_post s2 (pendingPostFlushCbs s2) (activePostFlushCbs s2)
                (postFlushIndex s2 + 1) in
            if skip then postFlush_loop dev f (next s1)
            else
              let (s2, ok) := call_job j s1 in
              if ok then postFlush_loop dev f (next s2) else Some (s2, false)
          else Some (s, true)
      end
  end.

Definition flushPostFlushCbs (dev : bool) (fuel : nat) (s : SState)
  : option (SState * bool) :=
  match pendingPostFlushCbs s with
  | [] => Some (s, true)
  | pending =>
      let deduped := dedupe pending in
      match activePostFlushCbs s with
      | Some a => Some (with_post s [] (Some (a ++ deduped)) (postFlushIndex s), true)
      | None =>
          let s1 := with_post s [] (Some (sort_by_id s deduped)) 0 in
          match postFlush_loop dev fuel s1 with
          | None => None
          | Some (s2, false) => Some (s2, false)
          | Some (s2, true) =>
              Some (with_post s2 (pendingPostFlushCbs s2) None 0, true)
          end
      end
  end.

(** The [for] loop of [flushJobs] over the main queue. *)
Fixpoint flushJobs_loop (dev : bool) (fuel : nat) (s : SState) : option SState :=
  match fuel with
  | O => None
  | S f =>
      if flushIndex s <? length (queue s) then
        let j := nth (flushIndex s) (queue s) 0 in
        let s2 :=
          if job_active (jobs s j) then
            let (skip, s1) := if dev then checkRecursiveUpdates j s else (false, s) in
            if skip then s1 else callWithErrorHandling j s1
          else s in
        flushJobs_loop dev f (with_flushIndex s2 (flushIndex s2 + 1))
      else Some s
  end.

(** [flushJobs(seen)]; [Some (_, false)] when a pre- or post-flush
    callback threw. *)
Fixpoint flushJobs (dev : bool) (fuel : nat) (s : SState) : option (SState * bool) :=
  match fuel with
  | O => None
  | S f =>
      let s1 := with_flags s true false in
      match flushPreFlushCbs dev f None s1 with
      | None => None
      | Some (s2, false) => Some (s2, false)
      | Some (s2, true) =>
          let s3 := with_queue s2 (sort_by_id s2 (queue s2)) in
          match flushJobs_loop dev f (with_flushIndex s3 0) with
          | None => None
          | Some s4 =>
              let s5 := with_queue (with_flushIndex s4 0) [] in
              match flushPostFlushCbs dev f s5 with
              | None => None
              | Some (s6, false) => Some (s6, false)
              | Some (s6, true) =>
                  let s7 := with_flags s6 false (isFlushPending s6) in
                  match queue s7, pendingPreFlushCbs s7, pendingPostFlushCbs s7 with
                  | [], [], [] => Some (s7, true)
                  | _, _, _ => flushJobs dev f s7
                  end
              end
          end
      end
  end.

(** A fresh scheduler over a heap of jobs; [seen] starts empty at every
    top-level flush. *)
Definition sched_init (js : nat -> SchedulerJob) : SState :=
  mkSState js false false [] 0 [] None 0 [] None 0 None (fun _ => 0) [] 0.

Definition flush (dev : bool) (fuel : nat) (s : SState) : option (SState * bool) :=
  flushJobs dev fuel (with_seen s (fun _ => 0)).

(** Jobs whose bodies do not touch the scheduler. *)
Definition quiet_action (a : JobAction) : bool :=
  match a with JWork | JThrow => true | _ => false end.

Definition quiet_job (s : SState) (j : nat) : bool :=
  forallb quiet_action (job_body (jobs s j)).

(** Jobs 1, 2 and 3 carry their number as identity and only work; job 4
    has no identity; job 5 (identity 5) enqueues job 1 when it runs. *)
Definition example_jobs : nat -> SchedulerJob :=
  fun j => match j with
           | 1 => mkJob (Some 1%Z) true false [JWork]
           | 2 => mkJob (Some 2%Z) true false [JWork]
           | 3 => mkJob (Some 3%Z) true false [JWork]
           | 4 => mkJob None true false [JWork]
           | 5 => mkJob (Some 5%Z) true false [JQueueJob 1]
           | _ => mkJob None true false []
           end.

End Scheduler.

(** The order of [sort]'s comparator on job handles. *)
Definition id_order (s : Scheduler.SState) (a b : nat) : Prop :=
  Scheduler.id_le (Scheduler.getId s a) (Scheduler.getId s b) = true.

(** What a job that does not touch the scheduler leaves unchanged. *)
Record SameQueues (s s' : Scheduler.SState) : Prop := mkSameQueues {
  sq_jobs : Scheduler.jobs s' = Scheduler.jobs s;
  sq_flushing : Scheduler.isFlushing s' = Scheduler.isFlushing s;
  sq_pending : Scheduler.isFlushPending s' = Scheduler.isFlushPending s;
  sq_queue : Scheduler.queue s' = Scheduler.queue s;
  sq_pre : Scheduler.pendingPreFlushCbs s' = Scheduler.pendingPreFlushCbs s;
  sq_post : Scheduler.pendingPostFlushCbs s' = Scheduler.pendingPostFlushCbs s;
  sq_active_post : Scheduler.activePostFlushCbs s' = Scheduler.activePostFlushCbs s
}.

(** [queueJob] for each job of a list, in order. *)
Definition enqueue_all (l : list nat) (s : Scheduler.SState) : Scheduler.SState :=
  fold_left (fun s j => Scheduler.queueJob j s) l s.

(** The jobs a flush called, in order, and their identities. *)
Definition ran_of (r : option (Scheduler.SState * bool)) : option (list nat) :=
  match r with
  | Some (s, _) => Some (Scheduler.ran s)
  | None => None
  end.

Definition ids_ran (r : option (Scheduler.SState * bool)) : option (list (option Z)) :=
  match r with
  | Some (s, _) => Some (map (Scheduler.getId s) (Scheduler.ran s))
  | None => None
  end.

(** ** More example states of the effect runtime *)

(** Effect 0 reads two keys of [obj0]; effect 1 reads a key and throws. *)
Definition two_key_effects : nat -> ReactiveEffect :=
  fun i => match i with
           | 0 => new_effect [ATrack obj0 (KName 0); ATrack obj0 (KName 1)]
           | 1 => new_effect [ATrack obj0 (KName 0); AThrow; ATrack obj0 (KName 1)]
           | _ => no_effect
           end.

Definition two_key_init : State := init_state two_key_effects (fun _ => no_computed).

Definition state_of (r : Res) (default : State) : State :=
  match r with
  | Some (s, _) => s
  | None => default
  end.

(** Effect 0 has run once and runs again; this time it has read the first
    key only, and [finalizeDepMarkers] is about to be called. *)
Definition before_finalize : State :=
  track obj0 (KName 0)
    (run_enter 0 (state_of (exec (call 2) [ARun 0] two_key_init) two_key_init)).

(** The effects of [two_key_effects] in a program without computed values
    (the unused cells name effect 2, which has no function). *)
Definition idle_stop_init : State :=
  init_state two_key_effects (fun _ => mkComputed None true true 2).

(** Thirty-one effects, each running the next inside its own run, so that
    effect 30 runs at depth 31, beyond [maxMarkerBits]; it reads a key,
    stops itself and reads the same key again. *)
Definition deep_self_stop_effects : nat -> ReactiveEffect :=
  fun i => if i <? 30 then new_effect [ARun (S i)]
           else if i =? 30
                then new_effect [ATrack obj0 (KName 0); AStop 30; ATrack obj0 (KName 0)]
                else no_effect.

Definition deep_self_stop_init : State :=
  init_state deep_self_stop_effects (fun _ => no_computed).

(** The state between flushes, as [queueJob] keeps it. *)
Record Idle (s : Scheduler.SState) : Prop := mkIdle {
  idle_flushing : Scheduler.isFlushing s = false;
  idle_index : Scheduler.flushIndex s = 0;
  idle_parent : Scheduler.currentPreFlushParentJob s = None;
  idle_pre : Scheduler.pendingPreFlushCbs s = [];
  idle_post : Scheduler.pendingPostFlushCbs s = [];
  idle_nodup : NoDup (Scheduler.queue s)
}.

(** Effect 0 of [two_key_effects] inside its first run, before its first
    read. *)
Definition inside_first_run : State :=
  log (run_enter 0 two_key_init) (EvRun 0).

(** [two_key_init] after the first run of effect 0. *)
Definition after_first_run : State :=
  state_of (exec (call 1) [ARun 0] two_key_init) two_key_init.

(** Callbacks that only work: they do not touch the scheduler and do not
    throw. *)
Definition calm_action (a : Scheduler.JobAction) : bool :=
  match a with Scheduler.JWork => true | _ => false end.

Definition calm_job (s : Scheduler.SState) (j : nat) : bool :=
  forallb calm_action (Scheduler.job_body (Scheduler.jobs s j)).

(** The [CountMap] after [checkRecursiveUpdates] has counted each job of a
    list once; a production build keeps no count. *)
Definition seen_after (dev : bool) (l : list nat) (sn : nat -> nat) : nat -> nat :=
  if dev then fold_left (fun f j => upd f j (f j + 1)) l sn else sn.

(** Jobs 3 and 1 queued, callbacks 4, 2 and 4 again queued for before the
    jobs, callbacks 3, 1 and 3 again for after them. *)
Definition callbacks_pending : Scheduler.SState :=
  fold_left (fun s j => Scheduler.queuePostFlushCb j s) [3; 1; 3]
    (fold_left (fun s j => Scheduler.queuePreFlushCb j s) [4; 2; 4]
       (enqueue_all [3; 1] (Scheduler.sched_init Scheduler.example_jobs))).

(** In a development flush every call of a job or callback is counted in
    the [CountMap]: [c0] are the calls made before the flush. *)
Definition Counted (c0 : nat -> nat) (s : Scheduler.SState) : Prop :=
  forall j,
    count_occ Nat.eq_dec (Scheduler.ran s) j = c0 j + Scheduler.seen s j /\
    Scheduler.seen s j <= Scheduler.RECURSION_LIMIT + 1.

(** A job that queues itself again whenever it runs, and is allowed to. *)
Definition requeues_itself (s : Scheduler.SState) (j : nat) : Prop :=
  Scheduler.job_active (Scheduler.jobs s j) = true /\
  Scheduler.job_allowRecurse (Scheduler.jobs s j) = true /\
  Scheduler.job_body (Scheduler.jobs s j) = [Scheduler.JQueueJob j].

(** The main loop at its [k]-th turn when only such a job [j] is queued. *)
Definition Requeueing (j k : nat) (s : Scheduler.SState) : Prop :=
  Scheduler.queue s = repeat j (S k) /\
  Scheduler.flushIndex s = k /\
  Scheduler.isFlushing s = true /\
  Scheduler.currentPreFlushParentJob s = None /\
  requeues_itself s j.

(** Job 1 queues itself again, job 2 only works. *)
Definition looping_jobs : nat -> Scheduler.SchedulerJob :=
  fun j => match j with
           | 1 => Scheduler.mkJob (Some 1%Z) true true [Scheduler.JQueueJob 1]
           | _ => Scheduler.mkJob (Some 2%Z) true false [Scheduler.JWork]
           end.

(** Effect 0 reads a key of [obj0] and enumerates its keys; effect 1 reads
    another key. *)
Definition reader_effects : nat -> ReactiveEffect :=
  fun i => match i with
           | 0 => new_effect (reads [(obj0, KName 0); (obj0, ITERATE_KEY)])
           | 1 => new_effect (reads [(obj0, KName 1)])
           | _ => new_effect (reads [])
           end.

Definition reader_init : State := init_state reader_effects (fun _ => no_computed).

(** Thirty effects entered one inside the other; every effect reads one key
    of [obj0]. *)
Definition nested_effects : nat -> ReactiveEffect :=
  fun _ => new_effect (reads [(obj0, KName 0)]).

Definition nested_state : State :=
  fold_left (fun s i => run_enter i s) (seq 1 30)
    (init_state nested_effects (fun _ => no_computed)).

(** Effect 0 reads a key of [obj0] and stops itself; effect 1 reads the
    same key. *)
Definition stop_then_read_effects : nat -> ReactiveEffect :=
  fun i => match i with
           | 0 => new_effect (reads [(obj0, KName 0)] ++ [AStop 0])
           | _ => new_effect (reads [(obj0, KName 0)])
           end.

Definition stop_then_read_init : State :=
  init_state stop_then_read_effects (fun _ => no_computed).

(** Effect 0 reads a key and then writes it; [recurse] is its
    [allowRecurse] option. *)
Definition retrigger_effects (recurse : bool) : nat -> ReactiveEffect :=
  fun i => match i with
           | 0 => mkEffect true [] None recurse None false
                    [ATrack obj0 (KName 0);
                     ATrigger obj0 SET (Some (KName 0)) (Some 1%Z)]
           | _ => no_effect
           end.

Definition retrigger_init (recurse : bool) : State :=
  init_state (retrigger_effects recurse) (fun _ => no_computed).

(** [retrigger_init] after the first run of effect 0, which subscribes it
    to the key. *)
Definition retrigger_ready (recurse : bool) : State :=
  state_of (exec (call 2) [ARun 0] (retrigger_init recurse)) (retrigger_init recurse).

(** ** Simplification of projections *)

(** Projections of the runtime state applied to its setters. *)
Ltac ssimpl :=
  cbn [effects depHeap nextDep targetMap computeds activeEffect shouldTrack
       trackStack effectTrackDepth trackOpBit trace
       with_effects with_depHeap with_nextDep with_targetMap with_computeds
       with_activeEffect with_shouldTrack with_trackStack with_depth
       with_trackOpBit log] in *.

(** Projections of the scheduler state applied to its setters. *)
Ltac qsimpl :=
  cbn [Scheduler.jobs Scheduler.isFlushing Scheduler.isFlushPending
       Scheduler.queue Scheduler.flushIndex Scheduler.pendingPreFlushCbs
       Scheduler.activePreFlushCbs Scheduler.preFlushIndex
       Scheduler.pendingPostFlushCbs Scheduler.activePostFlushCbs
       Scheduler.postFlushIndex Scheduler.currentPreFlushParentJob
       Scheduler.seen Scheduler.ran Scheduler.errors Scheduler.with_queue
       Scheduler.with_flushIndex Scheduler.with_flags Scheduler.with_pre
       Scheduler.with_post Scheduler.with_jobs Scheduler.with_seen
       Scheduler.with_ran Scheduler.with_errors] in *.
(* ===================================================================== *)
(** * Theorems *)
(* ===================================================================== *)

(** ** Bits *)

Lemma to_int32_testbit (x i : Z) :
  (0 <= i < 32)%Z -> Z.testbit (to_int32 x) i = Z.testbit x i.
Proof.
  intros Hi. unfold to_int32.
  assert (E : Z.testbit (x mod 4294967296) i = Z.testbit x i).
  { change 4294967296%Z with (2 ^ 32)%Z. apply Z.mod_pow2_bits_low. lia. }
  cbv zeta. destruct (x mod 4294967296 <? 2147483648)%Z; [exact E|].
  rewrite <- E.
  rewrite <- (Z.mod_pow2_bits_low (x mod 4294967296 - 4294967296) 32 i) by lia.
  rewrite <- (Z.mod_pow2_bits_low (x mod 4294967296) 32 i) by lia.
  f_equal. change (2 ^ 32)%Z with 4294967296%Z.
  rewrite <- (Z.mod_add (x mod 4294967296 - 4294967296) 1 4294967296) by lia.
  f_equal. lia.
Qed.

Lemma to_int32_small (x : Z) :
  (-2147483648 <= x < 2147483648)%Z -> to_int32 x = x.
Proof.
  intros H. unfold to_int32. cbv zeta.
  destruct (Z_lt_le_dec x 0).
  - assert (x mod 4294967296 = x + 4294967296)%Z.
    { symmetry. apply Z.mod_unique with (q := (-1)%Z); lia. }
    rewrite H0. destruct (x + 4294967296 <? 2147483648)%Z eqn:E; [apply Z.ltb_lt in E|]; lia.
  - rewrite Z.mod_small by lia.
    destruct (x <? 2147483648)%Z eqn:E; [|apply Z.ltb_ge in E]; lia.
Qed.

Lemma js_shl_pow2 (k : Z) : (0 <= k <= 30)%Z -> js_shl 1 k = (2 ^ k)%Z.
Proof.
  intros H. unfold js_shl. rewrite Z.mod_small by lia.
  rewrite Z.shiftl_1_l. apply to_int32_small.
  assert (2 ^ k <= 2 ^ 30)%Z by (apply Z.pow_le_mono_r; lia).
  assert (0 < 2 ^ k)%Z by (apply Z.pow_pos_nonneg; lia).
  change (2 ^ 30)%Z with 1073741824%Z in H0. lia.
Qed.

Lemma land_pow2 (w k : Z) : (0 <= k)%Z ->
  Z.land w (2 ^ k) = if Z.testbit w k then (2 ^ k)%Z else 0%Z.
Proof.
  intros Hk. apply Z.bits_inj'. intros i Hi.
  rewrite Z.land_spec, Z.pow2_bits_eqb by lia.
  destruct (Z.eqb_spec k i).
  - subst. destruct (Z.testbit w i); simpl.
    + rewrite Z.pow2_bits_true; auto.
    + rewrite Z.bits_0; auto.
  - rewrite andb_false_r. destruct (Z.testbit w k).
    + rewrite Z.pow2_bits_false; auto.
    + rewrite Z.bits_0; auto.
Qed.

Lemma tracked_testbit (w k : Z) : (0 <= k <= 30)%Z ->
  (0 <? js_and w (2 ^ k))%Z = Z.testbit w k.
Proof.
  intros Hk. unfold js_and. rewrite land_pow2 by lia.
  assert (2 ^ k <= 2 ^ 30)%Z by (apply Z.pow_le_mono_r; lia).
  assert (0 < 2 ^ k)%Z by (apply Z.pow_pos_nonneg; lia).
  change (2 ^ 30)%Z with 1073741824%Z in H.
  destruct (Z.testbit w k).
  - rewrite to_int32_small by lia. apply Z.ltb_lt. lia.
  - reflexivity.
Qed.

Lemma js_or_testbit (w k i : Z) : (0 <= k)%Z -> (0 <= i < 32)%Z ->
  Z.testbit (js_or w (2 ^ k)) i = Z.testbit w i || Z.eqb k i.
Proof.
  intros Hk Hi. unfold js_or. rewrite to_int32_testbit by lia.
  rewrite Z.lor_spec, Z.pow2_bits_eqb by lia. reflexivity.
Qed.

Lemma js_clear_testbit (w k i : Z) : (0 <= k)%Z -> (0 <= i < 32)%Z ->
  Z.testbit (js_and w (js_not (2 ^ k))) i = Z.testbit w i && negb (Z.eqb k i).
Proof.
  intros Hk Hi. unfold js_and, js_not. rewrite to_int32_testbit by lia.
  rewrite Z.land_spec, to_int32_testbit by lia.
  rewrite Z.lnot_spec by lia. rewrite Z.pow2_bits_eqb by lia. reflexivity.
Qed.

(** ** Heap loops *)

Lemma upd_same {A} (f : nat -> A) i v : upd f i v i = v.
Proof. unfold upd. rewrite Nat.eqb_refl. reflexivity. Qed.

Lemma upd_other {A} (f : nat -> A) i j v : j <> i -> upd f i v j = f j.
Proof. intros H. unfold upd. destruct (Nat.eqb_spec j i); congruence. Qed.

Lemma map_at_notin f ds : forall heap d, ~ In d ds -> map_at f ds heap d = heap d.
Proof.
  induction ds as [|a ds IH]; intros heap d H; simpl; [reflexivity|].
  rewrite IH by (intro; apply H; now right).
  apply upd_other. intro; subst; apply H; now left.
Qed.

Lemma map_at_in f ds : forall heap d,
  NoDup ds -> In d ds -> map_at f ds heap d = f (heap d).
Proof.
  induction ds as [|a ds IH]; intros heap d ND H; simpl; [destruct H|].
  inversion ND; subst. destruct H as [->|H].
  - rewrite map_at_notin by assumption. apply upd_same.
  - rewrite IH by assumption. rewrite upd_other; [reflexivity|].
    intro; subst; contradiction.
Qed.

Lemma initDepMarkers_loop_map_at bit ds : forall heap,
  initDepMarkers_loop bit ds heap
  = map_at (fun d => set_w d (js_or (dep_w d) bit)) ds heap.
Proof. induction ds; intros; simpl; auto. Qed.

Lemma cleanupEffect_loop_map_at e ds : forall heap,
  cleanupEffect_loop e ds heap = map_at (dep_delete e) ds heap.
Proof. induction ds; intros; simpl; auto. Qed.

Lemma finalize_loop_fst e bit ds : forall heap,
  fst (finalizeDepMarkers_loop e bit ds heap) = map_at (finalize_one e bit) ds heap.
Proof.
  induction ds as [|a ds IH]; intros heap; simpl; [reflexivity|].
  specialize (IH (upd heap a (finalize_one e bit (heap a)))).
  unfold finalize_one, stale in *.
  destruct (finalizeDepMarkers_loop e bit ds _) as [h k]. simpl in *. exact IH.
Qed.

Lemma finalize_loop_snd e bit ds : forall heap,
  NoDup ds ->
  snd (finalizeDepMarkers_loop e bit ds heap)
  = filter (fun d => negb (stale bit (heap d))) ds.
Proof.
  induction ds as [|a ds IH]; intros heap ND; simpl; [reflexivity|].
  inversion ND; subst.
  specialize (IH (upd heap a (finalize_one e bit (heap a))) H2).
  unfold finalize_one in IH. fold (stale bit (heap a)) in *.
  destruct (finalizeDepMarkers_loop e bit ds _) as [h k]. simpl in *.
  assert (E : filter (fun d => negb (stale bit (upd heap a
              (set_n (set_w (if stale bit (heap a) then dep_delete e (heap a) else heap a)
                 (js_and (dep_w (if stale bit (heap a) then dep_delete e (heap a) else heap a)) (js_not bit)))
                 (js_and (dep_n (if stale bit (heap a) then dep_delete e (heap a) else heap a)) (js_not bit))) d))) ds
            = filter (fun d => negb (stale bit (heap d))) ds).
  { apply filter_ext_in. intros d Hd. rewrite upd_other; [reflexivity|].
    intro; subst; contradiction. }
  rewrite E in IH. subst k.
  destruct (stale bit (heap a)); reflexivity.
Qed.

Lemma In_dep_delete e x d :
  In x (subs (dep_delete e d)) <-> In x (subs d) /\ x <> e.
Proof.
  unfold dep_delete; simpl. rewrite filter_In.
  destruct (Nat.eqb_spec e x); simpl; intuition congruence.
Qed.

Lemma dep_has_In e d : dep_has e d = true <-> In e (subs d).
Proof.
  unfold dep_has. rewrite existsb_exists. split.
  - intros [x [H E]]. apply Nat.eqb_eq in E. subst. exact H.
  - intros H. exists e. split; [exact H|apply Nat.eqb_refl].
Qed.

Lemma In_dep_add e x d :
  In x (subs (dep_add e d)) <-> In x (subs d) \/ x = e.
Proof.
  unfold dep_add. destruct (dep_has e d) eqn:E.
  - apply dep_has_In in E. intuition (subst; auto).
  - simpl. rewrite in_app_iff. simpl. intuition.
Qed.

Lemma dep_add_w e d : dep_w (dep_add e d) = dep_w d.
Proof. unfold dep_add. destruct (dep_has e d); reflexivity. Qed.

Lemma dep_add_n e d : dep_n (dep_add e d) = dep_n d.
Proof. unfold dep_add. destruct (dep_has e d); reflexivity. Qed.

(** ** Chains of parents *)

Lemma Chain_ext efs efs' a l :
  (forall x, In x l -> parent (efs' x) = parent (efs x)) ->
  Chain efs a l -> Chain efs' a l.
Proof.
  intros H C. induction C as [|e l C IH]; constructor.
  rewrite H by (now left). apply IH. intros x Hx. apply H. now right.
Qed.

Lemma Chain_head efs a l :
  Chain efs a l -> a = match l with [] => None | e :: _ => Some e end.
Proof. intros C. destruct C; reflexivity. Qed.

Lemma isAncestor_spec efs e : forall fuel a l b,
  Chain efs a l -> isAncestor fuel efs a e = Some b -> (b = true <-> In e l).
Proof.
  induction fuel as [|f IH]; intros a l b C H.
  - destruct C as [|q l C]; simpl in H.
    + inversion H; subst. simpl. intuition discriminate.
    + destruct (Nat.eqb_spec q e); [|discriminate].
      inversion H; subst. simpl. intuition.
  - destruct C as [|q l C]; simpl in H.
    + inversion H; subst. simpl. intuition discriminate.
    + destruct (Nat.eqb_spec q e).
      * inversion H; subst. simpl. intuition.
      * apply (IH _ _ _ C) in H. simpl. intuition.
Qed.

Lemma isAncestor_total efs e : forall fuel a l,
  Chain efs a l -> length l <= fuel -> exists b, isAncestor fuel efs a e = Some b.
Proof.
  induction fuel as [|f IH]; intros a l C Hl.
  - destruct C as [|q l C]; simpl in *; [eauto|lia].
  - destruct C as [|q l C]; simpl in *; [eauto|].
    destruct (Nat.eqb_spec q e); [eauto|].
    apply (IH _ _ C). lia.
Qed.

(** ** Preservation of well-formedness by the operations without user code *)

Lemma Marked_preserve s s' l :
  (forall x, In x l -> incl (deps (effects s' x)) (deps (effects s x))) ->
  (forall x d k, In x l -> In d (deps (effects s' x)) ->
                 (1 <= k <= Z.of_nat (length l))%Z -> (k <= 30)%Z ->
                 marked_at s k d -> marked_at s' k d) ->
  Marked s l -> Marked s' l.
Proof.
  induction l as [|e l IH]; intros Hd Hm M; [exact I|].
  cbn [Marked length] in *.
  destruct M as [M1 M2]. split.
  - intros Hk d Hin. apply (Hm e d _ (or_introl eq_refl) Hin).
    + lia.
    + unfold maxMarkerBits in Hk. lia.
    + apply M1; [exact Hk|]. apply (Hd e (or_introl eq_refl)). exact Hin.
  - apply IH; auto.
    + intros x Hx. apply Hd. now right.
    + intros x d k Hx Hin Hk. apply (Hm x); [now right|exact Hin|lia].
Qed.

Lemma map_at_w f ds : (forall d, dep_w (f d) = dep_w d) ->
  forall heap d, dep_w (map_at f ds heap d) = dep_w (heap d).
Proof.
  intros Hf. induction ds as [|a ds IH]; intros heap d; simpl; [reflexivity|].
  rewrite IH. unfold upd. destruct (Nat.eqb_spec d a); [subst; apply Hf|reflexivity].
Qed.

Lemma map_at_n f ds : (forall d, dep_n (f d) = dep_n d) ->
  forall heap d, dep_n (map_at f ds heap d) = dep_n (heap d).
Proof.
  intros Hf. induction ds as [|a ds IH]; intros heap d; simpl; [reflexivity|].
  rewrite IH. unfold upd. destruct (Nat.eqb_spec d a); [subst; apply Hf|reflexivity].
Qed.

Lemma map_at_subs f ds : (forall d, subs (f d) = subs d) ->
  forall heap d, subs (map_at f ds heap d) = subs (heap d).
Proof.
  intros Hf. induction ds as [|a ds IH]; intros heap d; simpl; [reflexivity|].
  rewrite IH. unfold upd. destruct (Nat.eqb_spec d a); [subst; apply Hf|reflexivity].
Qed.

Lemma deps_upd_set_deps efs e v x :
  deps (upd efs e (set_deps (efs e) v) x) = if Nat.eqb x e then v else deps (efs x).
Proof. unfold upd. destruct (Nat.eqb x e); reflexivity. Qed.

Lemma parent_upd_set_deps efs e v x :
  parent (upd efs e (set_deps (efs e) v) x) = parent (efs x).
Proof. unfold upd. destruct (Nat.eqb_spec x e); subst; reflexivity. Qed.

Lemma WF_cleanupEffect e s l : WF s l -> WF (cleanupEffect e s) l.
Proof.
  intros [C ND P D B L NDd F FM FC M].
  assert (Hheap : forall d, depHeap (cleanupEffect e s) d
            = if in_dec Nat.eq_dec d (deps (effects s e))
              then dep_delete e (depHeap s d) else depHeap s d).
  { intros d. unfold cleanupEffect. ssimpl. rewrite cleanupEffect_loop_map_at.
    destruct (in_dec Nat.eq_dec d (deps (effects s e))).
    - apply map_at_in; auto.
    - apply map_at_notin; auto. }
  unfold cleanupEffect in *. ssimpl.
  constructor; ssimpl.
  - eapply Chain_ext; [|exact C]. intros x _. apply parent_upd_set_deps.
  - exact ND.
  - intros x Hx. rewrite parent_upd_set_deps. auto.
  - exact D.
  - exact B.
  - intros x d. ssimpl. rewrite Hheap.
    rewrite deps_upd_set_deps. destruct (Nat.eqb_spec x e).
    + subst. destruct (in_dec Nat.eq_dec d (deps (effects s e))).
      * rewrite In_dep_delete. simpl. intuition.
      * rewrite (L e d). simpl. intuition.
    + destruct (in_dec Nat.eq_dec d (deps (effects s e))).
      * rewrite In_dep_delete. rewrite (L x d). intuition.
      * apply L.
  - intros x. rewrite deps_upd_set_deps. destruct (Nat.eqb x e); [constructor|auto].
  - intros x d. rewrite deps_upd_set_deps. destruct (Nat.eqb x e); [intros []|apply F].
  - exact FM.
  - exact FC.
  - eapply Marked_preserve; [| |exact M].
    + intros x _ d. ssimpl. rewrite deps_upd_set_deps.
      destruct (Nat.eqb x e); [intros []|auto].
    + intros x d k _ _ _ _. unfold marked_at. ssimpl.
      rewrite cleanupEffect_loop_map_at.
      rewrite map_at_w, map_at_n by reflexivity. auto.
Qed.

Lemma WF_same s s' l :
  effects s' = effects s -> depHeap s' = depHeap s -> nextDep s' = nextDep s ->
  targetMap s' = targetMap s -> computeds s' = computeds s ->
  activeEffect s' = activeEffect s -> effectTrackDepth s' = effectTrackDepth s ->
  trackOpBit s' = trackOpBit s ->
  WF s l -> WF s' l.
Proof.
  intros E1 E2 E3 E4 E5 E6 E7 E8 [C ND P D B L NDd F FM FC M].
  constructor; unfold linked in *; rewrite ?E1, ?E2, ?E3, ?E4, ?E5, ?E6, ?E7, ?E8; auto.
  eapply Marked_preserve; [| |exact M].
  - intros x _. rewrite E1. apply incl_refl.
  - intros x d k _ _ _ _. unfold marked_at. rewrite E2. auto.
Qed.

Lemma WF_log s l ev : WF s l -> WF (log s ev) l.
Proof. apply WF_same; reflexivity. Qed.

Lemma WF_stop e s l : WF s l -> WF (stop e s) l.
Proof.
  intros W. unfold stop. destruct (active (effects s e)); [|exact W].
  apply (WF_cleanupEffect e) in W.
  set (s1 := cleanupEffect e s) in *.
  assert (W2 : WF (if onStop (effects s1 e) then log s1 (EvOnStop e) else s1) l).
  { destruct (onStop (effects s1 e)); [apply WF_log|]; exact W. }
  set (s2 := if onStop (effects s1 e) then log s1 (EvOnStop e) else s1) in *.
  clearbody s2. clear W. destruct W2 as [C ND P D B L NDd F FM FC M].
  assert (Hd : forall x, deps (upd (effects s2) e (set_active (effects s2 e) false) x)
                         = deps (effects s2 x)).
  { intros x. unfold upd. destruct (Nat.eqb_spec x e); subst; reflexivity. }
  assert (Hp : forall x, parent (upd (effects s2) e (set_active (effects s2 e) false) x)
                         = parent (effects s2 x)).
  { intros x. unfold upd. destruct (Nat.eqb_spec x e); subst; reflexivity. }
  constructor; ssimpl; auto.
  - eapply Chain_ext; [|exact C]. intros x _. apply Hp.
  - intros x Hx. rewrite Hp. auto.
  - intros x d. ssimpl. rewrite Hd. apply L.
  - intros x. rewrite Hd. auto.
  - intros x d. rewrite Hd. apply F.
  - eapply Marked_preserve; [| |exact M].
    + intros x _. ssimpl. rewrite Hd. apply incl_refl.
    + intros x d k _ _ _ _. unfold marked_at. ssimpl. auto.
Qed.

Lemma WF_pauseTracking s l : WF s l -> WF (pauseTracking s) l.
Proof. apply WF_same; reflexivity. Qed.

Lemma WF_enableTracking s l : WF s l -> WF (enableTracking s) l.
Proof. apply WF_same; reflexivity. Qed.

Lemma WF_resetTracking s l : WF s l -> WF (resetTracking s) l.
Proof.
  unfold resetTracking. destruct (rev (trackStack s)); apply WF_same; reflexivity.
Qed.

Lemma marked_at_set_n s d k i d' :
  (0 <= k)%Z -> (0 <= i <= 30)%Z ->
  marked_at s i d' ->
  marked_at (with_depHeap s (upd (depHeap s) d
               (set_n (depHeap s d) (js_or (dep_n (depHeap s d)) (2 ^ k))))) i d'.
Proof.
  intros Hk Hi. unfold marked_at. ssimpl. unfold upd.
  destruct (Nat.eqb_spec d' d); [subst|auto].
  simpl. rewrite js_or_testbit by lia. intros [H|H]; [now left|right].
  rewrite H. reflexivity.
Qed.

Lemma WF_set_n s l d k :
  (0 <= k)%Z -> WF s l ->
  WF (with_depHeap s (upd (depHeap s) d
        (set_n (depHeap s d) (js_or (dep_n (depHeap s d)) (2 ^ k))))) l.
Proof.
  intros Hk [C ND P D B L NDd F FM FC M].
  constructor; ssimpl; auto.
  - intros x d'. ssimpl. unfold upd. destruct (Nat.eqb_spec d' d); [subst|]; apply L.
  - eapply Marked_preserve; [| |exact M].
    + intros x _. apply incl_refl.
    + intros x d' i _ _ Hi1 Hi. apply marked_at_set_n; auto; lia.
Qed.

Lemma WF_subscribe s ae l d :
  WF s (ae :: l) ->
  ~ In d (deps (effects s ae)) -> d < nextDep s ->
  ((Z.of_nat (S (length l)) <= maxMarkerBits)%Z ->
   marked_at s (Z.of_nat (S (length l))) d) ->
  WF (with_effects
        (with_depHeap s (upd (depHeap s) d (dep_add ae (depHeap s d))))
        (upd (effects s) ae
           (set_deps (effects s ae) (deps (effects s ae) ++ [d]))))
     (ae :: l).
Proof.
  intros [C ND P D B L NDd F FM FC M] Hnot Hlt Hm.
  assert (Hbits : forall i d',
            marked_at s i d' ->
            marked_at (with_effects
              (with_depHeap s (upd (depHeap s) d (dep_add ae (depHeap s d))))
              (upd (effects s) ae
                 (set_deps (effects s ae) (deps (effects s ae) ++ [d])))) i d').
  { intros i d'. unfold marked_at. ssimpl. unfold upd.
    destruct (Nat.eqb_spec d' d); [subst|auto].
    rewrite dep_add_w, dep_add_n. auto. }
  constructor; ssimpl; auto.
  - eapply Chain_ext; [|exact C]. intros x _. apply parent_upd_set_deps.
  - intros x Hx. rewrite parent_upd_set_deps. auto.
  - intros x d'. ssimpl. rewrite deps_upd_set_deps. unfold upd.
    destruct (Nat.eqb_spec d' d) as [->|Hd]; destruct (Nat.eqb_spec x ae) as [->|Hx].
    + rewrite In_dep_add, in_app_iff. simpl. split; intros _; [right|]; auto.
    + rewrite In_dep_add. rewrite (L x d). intuition.
    + rewrite in_app_iff. rewrite (L ae d'). simpl. intuition congruence.
    + apply L.
  - intros x. rewrite deps_upd_set_deps. destruct (Nat.eqb_spec x ae) as [->|Hx]; auto.
    apply NoDup_app; auto.
    + constructor; [intros []|constructor].
    + intros y Hy [Hy'|[]]. subst. contradiction.
  - intros x d'. rewrite deps_upd_set_deps. destruct (Nat.eqb_spec x ae) as [->|Hx].
    + rewrite in_app_iff. simpl. intros [H|[H|[]]]; [eapply F; eauto|subst; auto].
    + apply F.
  - simpl in M. destruct M as [M1 M2]. simpl. split.
    + intros Hk d'. ssimpl. rewrite deps_upd_set_deps, Nat.eqb_refl.
      rewrite in_app_iff. simpl. intros [H|[H|[]]]; apply Hbits; [apply M1|subst; apply Hm]; auto.
    + eapply Marked_preserve; [| |exact M2].
      * intros x Hx. ssimpl. rewrite deps_upd_set_deps.
        destruct (Nat.eqb_spec x ae) as [->|Hne]; [|apply incl_refl].
        inversion ND; subst. contradiction.
      * intros x d' i _ _ _ _. apply Hbits.
Qed.

Lemma WF_trackEffects s l d : WF s l -> d < nextDep s -> WF (trackEffects d s) l.
Proof.
  intros W Hlt. unfold trackEffects.
  destruct (activeEffect s) as [ae|] eqn:Ea; [|exact W].
  assert (El : exists l', l = ae :: l').
  { pose proof (Chain_head _ _ _ (wf_chain _ _ W)) as H. rewrite Ea in H.
    destruct l; [discriminate|]. inversion H; subst. eauto. }
  destruct El as [l' ->].
  pose proof (wf_depth _ _ W) as D. pose proof (wf_bit _ _ W) as B.
  cbn [length] in D.
  destruct (effectTrackDepth s <=? maxMarkerBits)%Z eqn:Ecap.
  - apply Z.leb_le in Ecap. unfold maxMarkerBits in Ecap.
    assert (Hk : (0 <= effectTrackDepth s <= 30)%Z) by (rewrite D in *; lia).
    rewrite B, (js_shl_pow2 _ Hk).
    unfold newTracked, wasTracked. rewrite !tracked_testbit by exact Hk.
    destruct (Z.testbit (dep_n (depHeap s d)) (effectTrackDepth s)) eqn:En; simpl; [exact W|].
    pose proof (WF_set_n s _ d (effectTrackDepth s) (proj1 Hk) W) as W1.
    destruct (Z.testbit (dep_w (depHeap s d)) (effectTrackDepth s)) eqn:Ew; simpl; [exact W1|].
    apply (WF_subscribe _ ae l' d) in W1; ssimpl.
    + exact W1.
    + intros Hin. destruct (wf_marked _ _ W) as [M1 _].
      rewrite <- D in M1. destruct (M1 ltac:(unfold maxMarkerBits; lia) d Hin) as [H|H]; congruence.
    + exact Hlt.
    + intros _. right. ssimpl. rewrite upd_same. cbn [dep_n set_n].
      rewrite <- D. rewrite js_or_testbit by lia. rewrite Z.eqb_refl. apply orb_true_r.
  - destruct (dep_has ae (depHeap s d)) eqn:Eh; simpl; [exact W|].
    apply WF_subscribe; auto.
    + intros Hin. apply (wf_linked _ _ W) in Hin. apply dep_has_In in Hin. congruence.
    + apply Z.leb_gt in Ecap. rewrite D in Ecap. intros Hk. lia.
Qed.

Lemma depsMap_get_In m k d : depsMap_get m k = Some d -> exists k', In (k', d) m.
Proof.
  induction m as [|[k' d'] m IH]; simpl; [discriminate|].
  destruct (key_eqb k' k).
  - intros H. inversion H; subst. eauto.
  - intros H. destruct (IH H) as [k'' Hk]. eauto.
Qed.

(** A fresh cell for [createDep()]. *)
Lemma WF_alloc s l :
  WF s l ->
  WF (with_nextDep
        (with_depHeap s (upd (depHeap s) (nextDep s) (createDep [])))
        (S (nextDep s))) l.
Proof.
  intros [C ND P D B L NDd F FM FC M].
  constructor; ssimpl; auto.
  - intros x d. ssimpl. unfold upd. destruct (Nat.eqb_spec d (nextDep s)) as [->|Hd].
    + simpl. split; [intros []|]. intros H. apply F in H. lia.
    + apply L.
  - intros x d H. apply F in H. lia.
  - intros t m k d H1 H2. specialize (FM t m k d H1 H2). lia.
  - intros c d H. apply FC in H. lia.
  - eapply Marked_preserve; [| |exact M].
    + intros x _. apply incl_refl.
    + intros x d k _ Hin _ _. ssimpl. apply F in Hin.
      unfold marked_at. ssimpl. rewrite upd_other by lia. auto.
Qed.

Lemma WF_targetMap s l tm :
  (forall t m k d, tm t = Some m -> In (k, d) m -> d < nextDep s) ->
  WF s l -> WF (with_targetMap s tm) l.
Proof.
  intros H [C ND P D B L NDd F FM FC M].
  constructor; ssimpl; auto.
  eapply Marked_preserve; [| |exact M].
  - intros x _. apply incl_refl.
  - intros x d k _ _ _ _. unfold marked_at. ssimpl. auto.
Qed.

Lemma targetMap_set_cases tm t m t' m' :
  targetMap_set tm t m t' = Some m' -> m' = m \/ tm t' = Some m'.
Proof.
  unfold targetMap_set. destruct (target_eqb t' t); [left; congruence|right; auto].
Qed.

Lemma WF_track t k s l : WF s l -> WF (track t k s) l.
Proof.
  intros W. unfold track. cbv zeta.
  destruct (shouldTrack s && isSome (activeEffect s)); [|exact W].
  set (depsMap := match targetMap s t with Some m => m | None => [] end).
  assert (Hm : forall k' d, In (k', d) depsMap -> d < nextDep s).
  { unfold depsMap. destruct (targetMap s t) as [m0|] eqn:E; [|intros ? ? []].
    intros k' d' Hin. eapply (wf_fresh_map _ _ W); eauto. }
  clearbody depsMap.
  set (s1 := match targetMap s t with
             | Some _ => s
             | None => with_targetMap s (targetMap_set (targetMap s) t [])
             end).
  assert (W1 : WF s1 l).
  { unfold s1. destruct (targetMap s t) eqn:E; [exact W|].
    apply WF_targetMap; [|exact W].
    intros t' m k' d H. apply targetMap_set_cases in H. destruct H as [->|H].
    - intros [].
    - eapply (wf_fresh_map _ _ W); eauto. }
  assert (En : nextDep s1 = nextDep s) by (unfold s1; destruct (targetMap s t); reflexivity).
  clearbody s1.
  destruct (depsMap_get depsMap k) as [d|] eqn:Eg.
  - apply WF_trackEffects; [exact W1|].
    destruct (depsMap_get_In _ _ _ Eg) as [k' Hk]. rewrite En. eapply Hm. exact Hk.
  - apply WF_trackEffects; ssimpl; [|lia].
    apply WF_targetMap.
    + ssimpl. intros t' m k' d H Hin. apply targetMap_set_cases in H. destruct H as [->|H].
      * apply in_app_iff in Hin. destruct Hin as [Hin|[Hin|[]]].
        -- apply Hm in Hin. lia.
        -- inversion Hin; subst. lia.
      * pose proof (wf_fresh_map _ _ W1 _ _ _ _ H Hin). lia.
    + apply WF_alloc. exact W1.
Qed.

Lemma WF_computeds s l cs :
  (forall c d, cdep (cs c) = Some d -> d < nextDep s) ->
  WF s l -> WF (with_computeds s cs) l.
Proof.
  intros H [C ND P D B L NDd F FM FC M].
  constructor; ssimpl; auto.
  eapply Marked_preserve; [| |exact M].
  - intros x _. apply incl_refl.
  - intros x d k _ _ _ _. unfold marked_at. ssimpl. auto.
Qed.

Lemma WF_set_dirty s l c b :
  WF s l -> WF (with_computeds s (upd (computeds s) c (set_dirty (computeds s c) b))) l.
Proof.
  intros W. apply WF_computeds; [|exact W].
  intros c' d. unfold upd. destruct (Nat.eqb_spec c' c); [subst; simpl|];
    apply (wf_fresh_cdep _ _ W).
Qed.

Lemma WF_trackRefValue c s l : WF s l -> WF (trackRefValue c s) l.
Proof.
  intros W. unfold trackRefValue.
  destruct (shouldTrack s && isSome (activeEffect s)); [|exact W].
  destruct (cdep (computeds s c)) as [d|] eqn:Ec.
  - apply WF_trackEffects; [exact W|]. eapply (wf_fresh_cdep _ _ W); eauto.
  - apply WF_trackEffects; ssimpl; [|lia].
    apply WF_computeds; [|apply WF_alloc; exact W].
    ssimpl. intros c' d. unfold upd. destruct (Nat.eqb_spec c' c); simpl.
    + intros H. inversion H. lia.
    + intros H. apply (wf_fresh_cdep _ _ W) in H. lia.
Qed.

(** ** What the operations without user code leave unchanged *)

Lemma Restored_refl s : Restored s s.
Proof. constructor; reflexivity. Qed.

Lemma Restored_trans s1 s2 s3 : Restored s1 s2 -> Restored s2 s3 -> Restored s1 s3.
Proof.
  intros [A1 D1 B1 P1] [A2 D2 B2 P2]. constructor; try congruence.
Qed.

Lemma Restored_same s s' :
  effects s' = effects s -> activeEffect s' = activeEffect s ->
  effectTrackDepth s' = effectTrackDepth s -> trackOpBit s' = trackOpBit s ->
  Restored s s'.
Proof. intros E1 E2 E3 E4. constructor; auto; intros x; rewrite E1; reflexivity. Qed.

Lemma Restored_cleanupEffect e s : Restored s (cleanupEffect e s).
Proof.
  constructor; try reflexivity. intros x. unfold cleanupEffect. ssimpl.
  apply parent_upd_set_deps.
Qed.

Lemma Restored_stop e s : Restored s (stop e s).
Proof.
  unfold stop. destruct (active (effects s e)); [|apply Restored_refl].
  eapply Restored_trans; [apply (Restored_cleanupEffect e)|].
  set (s1 := cleanupEffect e s). 
  constructor; ssimpl; try (destruct (onStop (effects s1 e)); reflexivity).
  intros x. unfold upd. destruct (Nat.eqb_spec x e); subst; 
    destruct (onStop (effects s1 e)); reflexivity.
Qed.

Lemma Restored_trackEffects d s : Restored s (trackEffects d s).
Proof.
  unfold trackEffects. destruct (activeEffect s) as [ae|] eqn:Ea; [|apply Restored_refl].
  destruct (effectTrackDepth s <=? maxMarkerBits)%Z.
  - destruct (negb (newTracked (depHeap s d) (trackOpBit s))); [|apply Restored_refl].
    destruct (negb (wasTracked (depHeap s d) (trackOpBit s))).
    + constructor; ssimpl; auto. intros x. apply parent_upd_set_deps.
    + apply Restored_same; reflexivity.
  - destruct (negb (dep_has ae (depHeap s d))); [|apply Restored_refl].
    constructor; ssimpl; auto. intros x. apply parent_upd_set_deps.
Qed.

Lemma Restored_track t k s : Restored s (track t k s).
Proof.
  unfold track. cbv zeta.
  destruct (shouldTrack s && isSome (activeEffect s)); [|apply Restored_refl].
  destruct (depsMap_get _ k).
  - eapply Restored_trans; [|apply Restored_trackEffects].
    destruct (targetMap s t); [apply Restored_refl|apply Restored_same; reflexivity].
  - eapply Restored_trans; [|apply Restored_trackEffects].
    destruct (targetMap s t); apply Restored_same; reflexivity.
Qed.

Lemma Restored_trackRefValue c s : Restored s (trackRefValue c s).
Proof.
  unfold trackRefValue.
  destruct (shouldTrack s && isSome (activeEffect s)); [|apply Restored_refl].
  destruct (cdep (computeds s c)).
  - apply Restored_trackEffects.
  - eapply Restored_trans; [|apply Restored_trackEffects].
    apply Restored_same; reflexivity.
Qed.

Lemma Restored_resetTracking s : Restored s (resetTracking s).
Proof.
  unfold resetTracking. destruct (rev (trackStack s)); apply Restored_same; reflexivity.
Qed.

(** ** Entering and leaving [run] *)

Lemma Chain_not_in_upd efs a l e v :
  ~ In e l -> Chain efs a l -> Chain (upd efs e v) a l.
Proof.
  intros H C. eapply Chain_ext; [|exact C].
  intros x Hx. rewrite upd_other; [reflexivity|]. intro; subst; contradiction.
Qed.

Lemma WF_run_enter e s l :
  WF s l -> ~ In e l -> WF (run_enter e s) (e :: l).
Proof.
  intros W Hnot. unfold run_enter. cbv zeta.
  set (s3 := with_trackOpBit _ _).
  assert (Hparents : forall x, x <> e -> parent (effects s3 x) = parent (effects s x)).
  { intros x Hx. unfold s3. ssimpl. rewrite upd_other by exact Hx. reflexivity. }
  assert (Hdeps : forall x, deps (effects s3 x) = deps (effects s x)).
  { intros x. unfold s3. ssimpl. unfold upd. destruct (Nat.eqb_spec x e); subst; reflexivity. }
  destruct W as [C ND P D B L NDd F FM FC M].
  assert (Hd3 : effectTrackDepth s3 = Z.of_nat (S (length l))).
  { unfold s3. ssimpl. rewrite D. lia. }
  assert (Core : Chain (effects s3) (activeEffect s3) (e :: l)
                 /\ (forall x, ~ In x (e :: l) -> parent (effects s3 x) = None)
                 /\ linked s3 /\ Marked s3 l).
  { split; [|split; [|split]].
    - unfold s3. ssimpl. constructor. rewrite upd_same. simpl.
      apply Chain_not_in_upd; assumption.
    - intros x Hx. rewrite Hparents; [apply P|]; simpl in Hx; intuition.
    - intros x d. rewrite Hdeps. unfold s3. ssimpl. apply L.
    - eapply Marked_preserve; [| |exact M].
      + intros x _. rewrite Hdeps. apply incl_refl.
      + intros x d k _ _ _ _. unfold marked_at, s3. ssimpl. auto. }
  destruct Core as [C3 [P3 [L3 M3]]].
  assert (B3 : trackOpBit s3 = js_shl 1 (effectTrackDepth s3)) by reflexivity.
  assert (N3 : nextDep s3 = nextDep s) by reflexivity.
  assert (T3 : targetMap s3 = targetMap s) by reflexivity.
  assert (K3 : computeds s3 = computeds s) by reflexivity.
  clearbody s3.
  destruct (effectTrackDepth s3 <=? maxMarkerBits)%Z eqn:Ecap.
  - apply Z.leb_le in Ecap. unfold maxMarkerBits in Ecap.
    assert (Hk : (0 <= effectTrackDepth s3 <= 30)%Z) by lia.
    unfold initDepMarkers. rewrite B3, (js_shl_pow2 _ Hk), initDepMarkers_loop_map_at.
    set (f := fun d : Dep => set_w d (js_or (dep_w d) (2 ^ effectTrackDepth s3))).
    constructor; ssimpl; auto.
    + constructor; auto.
    + intros x d. ssimpl. rewrite map_at_subs by reflexivity. apply L3.
    + intros x. rewrite Hdeps. auto.
    + intros x d. rewrite Hdeps, N3. apply F.
    + rewrite T3, N3. exact FM.
    + rewrite K3, N3. exact FC.
    + cbn [Marked length]. split.
      * intros _ d Hin. left. ssimpl.
        rewrite map_at_in; [| rewrite Hdeps; apply NDd | exact Hin].
        unfold f. cbn [dep_w set_w]. rewrite <- Hd3.
        rewrite js_or_testbit by lia. rewrite Z.eqb_refl. apply orb_true_r.
      * eapply Marked_preserve; [| |exact M3].
        -- intros x _. apply incl_refl.
        -- intros x d k _ _ Hk1 Hk'. unfold marked_at. ssimpl.
           rewrite map_at_n by reflexivity.
           destruct (in_dec Nat.eq_dec d (deps (effects s3 e))).
           ++ rewrite map_at_in; [| rewrite Hdeps; apply NDd | assumption].
              unfold f. cbn [dep_w set_w]. rewrite js_or_testbit by lia.
              intros [H|H]; [left; rewrite H; reflexivity|right; exact H].
           ++ rewrite map_at_notin by assumption. auto.
  - apply (WF_cleanupEffect e).
    constructor; auto.
    + constructor; auto.
    + intros x. rewrite Hdeps. auto.
    + intros x d. rewrite Hdeps, N3. apply F.
    + rewrite T3, N3. exact FM.
    + rewrite K3, N3. exact FC.
    + cbn [Marked length]. split; [|exact M3]. apply Z.leb_gt in Ecap. intros Hk. 
      rewrite Hd3 in Ecap. lia.
Qed.

Lemma WF_Leaving s e l : WF s (e :: l) -> Leaving s e l.
Proof.
  intros [C ND P D B L NDd F FM FC M]. constructor; auto. apply M.
Qed.

Lemma finalize_one_w e bit d :
  dep_w (finalize_one e bit d) = js_and (dep_w d) (js_not bit).
Proof. unfold finalize_one. destruct (stale bit d); reflexivity. Qed.

Lemma finalize_one_n e bit d :
  dep_n (finalize_one e bit d) = js_and (dep_n d) (js_not bit).
Proof. unfold finalize_one. destruct (stale bit d); reflexivity. Qed.

Lemma finalize_one_subs e bit d x :
  In x (subs (finalize_one e bit d)) <->
  In x (subs d) /\ (stale bit d = true -> x <> e).
Proof.
  unfold finalize_one. destruct (stale bit d); cbn [subs set_n set_w].
  - rewrite In_dep_delete. intuition.
  - intuition discriminate.
Qed.

Lemma finalizeDepMarkers_eq e s :
  finalizeDepMarkers e s =
  with_effects
    (with_depHeap s
       (map_at (finalize_one e (trackOpBit s)) (deps (effects s e)) (depHeap s)))
    (upd (effects s) e
       (set_deps (effects s e)
          (snd (finalizeDepMarkers_loop e (trackOpBit s) (deps (effects s e))
                  (depHeap s))))).
Proof.
  unfold finalizeDepMarkers. rewrite <- finalize_loop_fst.
  destruct (finalizeDepMarkers_loop e (trackOpBit s) (deps (effects s e)) (depHeap s)).
  reflexivity.
Qed.

Lemma Leaving_finalize s e l :
  Leaving s e l -> (effectTrackDepth s <= maxMarkerBits)%Z ->
  trackOpBit s = js_shl 1 (effectTrackDepth s) ->
  Leaving (finalizeDepMarkers e s) e l.
Proof.
  intros [C ND P D L NDd F FM FC M] Hcap B.
  unfold maxMarkerBits in Hcap.
  assert (Hk : (0 <= effectTrackDepth s <= 30)%Z) by lia.
  rewrite finalizeDepMarkers_eq, finalize_loop_snd by apply NDd.
  rewrite B, (js_shl_pow2 _ Hk).
  set (bit := (2 ^ effectTrackDepth s)%Z).
  set (kept := filter _ _).
  assert (Hkept : forall d, In d kept <->
            In d (deps (effects s e)) /\ stale bit (depHeap s d) = false).
  { intros d. unfold kept. rewrite filter_In. 
    destruct (stale bit (depHeap s d)); simpl; intuition discriminate. }
  assert (NDk : NoDup kept) by (apply NoDup_filter; apply NDd).
  clearbody kept.
  constructor; ssimpl; auto.
  - eapply Chain_ext; [|exact C]. intros x _. apply parent_upd_set_deps.
  - intros x Hx. rewrite parent_upd_set_deps. auto.
  - intros x d. ssimpl. rewrite deps_upd_set_deps.
    destruct (in_dec Nat.eq_dec d (deps (effects s e))) as [Hin|Hin].
    + rewrite map_at_in by auto. rewrite finalize_one_subs.
      destruct (Nat.eqb_spec x e) as [->|Hx].
      * rewrite Hkept. rewrite (L e d).
        destruct (stale bit (depHeap s d)); intuition congruence.
      * rewrite (L x d). intuition.
    + rewrite map_at_notin by auto.
      destruct (Nat.eqb_spec x e) as [->|Hx]; [|apply L].
      rewrite Hkept, (L e d). intuition.
  - intros x. rewrite deps_upd_set_deps. destruct (Nat.eqb_spec x e); auto.
  - intros x d. rewrite deps_upd_set_deps. destruct (Nat.eqb_spec x e); [|apply F].
    subst. rewrite Hkept. intros [H _]. eapply F; eauto.
  - eapply Marked_preserve; [| |exact M].
    + intros x Hx. ssimpl. rewrite deps_upd_set_deps.
      destruct (Nat.eqb_spec x e) as [->|Hne]; [|apply incl_refl].
      inversion ND; subst. contradiction.
    + intros x d k Hx _ Hk1 Hk'. unfold marked_at. ssimpl.
      destruct (in_dec Nat.eq_dec d (deps (effects s e))) as [Hin|Hin].
      * rewrite map_at_in by auto. rewrite finalize_one_w, finalize_one_n.
        unfold bit. rewrite !js_clear_testbit by lia.
        assert (Hne : Z.eqb (effectTrackDepth s) k = false) by (apply Z.eqb_neq; lia).
        rewrite Hne. rewrite !andb_true_r. auto.
      * rewrite map_at_notin by auto. auto.
Qed.

Lemma parent_upd_set_parent efs e v x :
  parent (upd efs e (set_parent (efs e) v) x) = if Nat.eqb x e then v else parent (efs x).
Proof. unfold upd. destruct (Nat.eqb_spec x e); subst; reflexivity. Qed.

Lemma deps_upd_set_parent efs e v x :
  deps (upd efs e (set_parent (efs e) v) x) = deps (efs x).
Proof. unfold upd. destruct (Nat.eqb_spec x e); subst; reflexivity. Qed.

Lemma WF_run_finally e last s l :
  WF s (e :: l) -> WF (run_finally e last s) l.
Proof.
  intros W. pose proof (wf_bit _ _ W) as B. apply WF_Leaving in W.
  unfold run_finally. cbv zeta.
  set (s1 := if (effectTrackDepth s <=? maxMarkerBits)%Z
             then finalizeDepMarkers e s else s).
  assert (W1 : Leaving s1 e l).
  { unfold s1. destruct (effectTrackDepth s <=? maxMarkerBits)%Z eqn:E; [|exact W].
    apply Leaving_finalize; auto. apply Z.leb_le. exact E. }
  clearbody s1. clear W B s.
  destruct W1 as [C ND P D L NDd F FM FC M].
  inversion ND as [|? ? Hnot NDl]; subst.
  inversion C as [|? ? C']; subst.
  constructor; ssimpl.
  - apply Chain_not_in_upd; assumption.
  - exact NDl.
  - intros x Hx. rewrite parent_upd_set_parent. destruct (Nat.eqb_spec x e); [reflexivity|].
    apply P. simpl. intuition.
  - rewrite D. lia.
  - reflexivity.
  - intros x d. ssimpl. rewrite deps_upd_set_parent. apply L.
  - intros x. rewrite deps_upd_set_parent. auto.
  - intros x d. rewrite deps_upd_set_parent. apply F.
  - exact FM.
  - exact FC.
  - eapply Marked_preserve; [| |exact M].
    + intros x _. ssimpl. rewrite deps_upd_set_parent. apply incl_refl.
    + intros x d k _ _ _ _. unfold marked_at. ssimpl. auto.
Qed.

Lemma finalizeDepMarkers_parent e s x :
  parent (effects (finalizeDepMarkers e s) x) = parent (effects s x).
Proof. rewrite finalizeDepMarkers_eq. ssimpl. apply parent_upd_set_deps. Qed.

Lemma run_enter_parent e s x :
  parent (effects (run_enter e s) x)
  = if Nat.eqb x e then activeEffect s else parent (effects s x).
Proof.
  unfold run_enter. cbv zeta.
  destruct (_ <=? _)%Z.
  - unfold initDepMarkers. ssimpl. apply parent_upd_set_parent.
  - unfold cleanupEffect. ssimpl. rewrite parent_upd_set_deps. ssimpl.
    apply parent_upd_set_parent.
Qed.

Lemma run_enter_depth e s :
  effectTrackDepth (run_enter e s) = (effectTrackDepth s + 1)%Z.
Proof. unfold run_enter. cbv zeta. destruct (_ <=? _)%Z; reflexivity. Qed.

Lemma run_finally_fields e last s :
  activeEffect (run_finally e last s) = parent (effects s e) /\
  effectTrackDepth (run_finally e last s) = (effectTrackDepth s - 1)%Z /\
  trackOpBit (run_finally e last s) = js_shl 1 (effectTrackDepth s - 1) /\
  shouldTrack (run_finally e last s) = last /\
  (forall x, parent (effects (run_finally e last s) x)
             = if Nat.eqb x e then None else parent (effects s x)).
Proof.
  unfold run_finally. cbv zeta.
  destruct (effectTrackDepth s <=? maxMarkerBits)%Z; ssimpl.
  - rewrite finalizeDepMarkers_parent.
    assert (E : effectTrackDepth (finalizeDepMarkers e s) = effectTrackDepth s)
      by (rewrite finalizeDepMarkers_eq; reflexivity).
    rewrite E. repeat split.
    intros x. rewrite parent_upd_set_parent, finalizeDepMarkers_parent. reflexivity.
  - repeat split. intros x. apply parent_upd_set_parent.
Qed.

(** ** Every call keeps the state well-formed *)

Section SafeCall.

Variable k : Call -> State -> Res.
Hypothesis Hk : Safe k.

Lemma triggerEffects_safe effs : forall s l s' r,
  WF s l -> triggerEffects k effs s = Some (s', r) -> WF s' l /\ Restored s s'.
Proof.
  induction effs as [|e effs IH]; intros s l s' r W H; simpl in H.
  - inversion H; subst. split; [exact W|apply Restored_refl].
  - destruct (negb _ || _).
    + destruct (if isSome (scheduler (effects s e)) then k (CallScheduler e) s
                else k (CallRun e) s) as [[s1 [|]]|] eqn:E; try discriminate.
      * assert (H1 : WF s1 l /\ Restored s s1).
        { destruct (isSome (scheduler (effects s e))); eapply Hk; eauto. }
        destruct H1 as [W1 R1]. destruct (IH _ _ _ _ W1 H) as [W2 R2].
        split; [exact W2|eapply Restored_trans; eauto].
      * inversion H; subst.
        destruct (isSome (scheduler (effects s e))); eapply Hk; eauto.
    + eapply IH; eauto.
Qed.

Lemma trigger_safe t ty key v s l s' r :
  WF s l -> trigger k t ty key v s = Some (s', r) -> WF s' l /\ Restored s s'.
Proof.
  intros W H. unfold trigger in H.
  destruct (targetMap s t) as [m|].
  - destruct (trigger_deps m t ty key v).
    + eapply triggerEffects_safe; eauto.
    + inversion H; subst. split; [exact W|apply Restored_refl].
  - inversion H; subst. split; [exact W|apply Restored_refl].
Qed.

Lemma computed_value_safe c s l s' r :
  WF s l -> computed_value k c s = Some (s', r) -> WF s' l /\ Restored s s'.
Proof.
  intros W H. unfold computed_value in H. cbv zeta in H.
  pose proof (WF_trackRefValue c _ _ W) as W1.
  pose proof (Restored_trackRefValue c s) as R1.
  set (s1 := trackRefValue c s) in *. clearbody s1.
  destruct (_dirty (computeds s1 c) || negb (_cacheable (computeds s1 c))).
  - apply (Hk _ _ l) in H.
    + destruct H as [W2 R2]. split; [exact W2|].
      eapply Restored_trans; [exact R1|].
      eapply Restored_trans; [|exact R2]. apply Restored_same; reflexivity.
    + apply WF_set_dirty. exact W1.
  - inversion H; subst. auto.
Qed.

Lemma step_safe a s l s' r :
  WF s l -> step k a s = Some (s', r) -> WF s' l /\ Restored s s'.
Proof.
  intros W H. destruct a; simpl in H.
  - inversion H; subst. split; [apply WF_track; auto|apply Restored_track].
  - eapply trigger_safe; eauto.
  - eapply Hk; eauto.
  - inversion H; subst. split; [apply WF_stop; auto|apply Restored_stop].
  - eapply computed_value_safe; eauto.
  - inversion H; subst. split; [apply WF_pauseTracking; auto|apply Restored_same; reflexivity].
  - inversion H; subst. split; [apply WF_enableTracking; auto|apply Restored_same; reflexivity].
  - inversion H; subst. split; [apply WF_resetTracking; auto|apply Restored_resetTracking].
  - inversion H; subst. split; [exact W|apply Restored_refl].
Qed.

Lemma exec_safe acts : forall s l s' r,
  WF s l -> exec k acts s = Some (s', r) -> WF s' l /\ Restored s s'.
Proof.
  induction acts as [|a acts IH]; intros s l s' r W H; simpl in H.
  - inversion H; subst. split; [exact W|apply Restored_refl].
  - destruct (step k a s) as [[s1 [|]]|] eqn:E; try discriminate.
    + destruct (step_safe _ _ _ _ _ W E) as [W1 R1].
      destruct (IH _ _ _ _ W1 H) as [W2 R2].
      split; [exact W2|eapply Restored_trans; eauto].
    + inversion H; subst. eapply step_safe; eauto.
Qed.

Lemma run_safe fuel e s l s' r :
  WF s l -> run k fuel e s = Some (s', r) -> WF s' l /\ Restored s s'.
Proof.
  intros W H. unfold run in H.
  destruct (negb (active (effects s e))).
  - apply (exec_safe _ _ l) in H; [|apply WF_log; exact W].
    destruct H as [W1 R1]. split; [exact W1|].
    eapply Restored_trans; [|exact R1]. apply Restored_same; reflexivity.
  - destruct (isAncestor fuel (effects s) (activeEffect s) e) as [[|]|] eqn:Ea;
      try discriminate.
    + inversion H; subst. split; [exact W|apply Restored_refl].
    + assert (Hnot : ~ In e l).
      { intros Hin. apply (isAncestor_spec _ _ _ _ _ _ (wf_chain _ _ W) Ea) in Hin.
        discriminate. }
      cbv zeta in H.
      destruct (exec k (fn (effects (run_enter e s) e)) (log (run_enter e s) (EvRun e)))
        as [[s2 c]|] eqn:Ex; [|discriminate].
      inversion H; subst. clear H.
      apply (exec_safe _ _ (e :: l)) in Ex;
        [|apply WF_log; apply WF_run_enter; assumption].
      destruct Ex as [W2 [A2 D2 B2 P2]]. ssimpl.
      split; [apply WF_run_finally; exact W2|].
      destruct (run_finally_fields e (shouldTrack s) s2) as [Fa [Fd [Fb [_ Fp]]]].
      constructor.
      * rewrite Fa, P2. ssimpl. rewrite run_enter_parent, Nat.eqb_refl. reflexivity.
      * rewrite Fd, D2. ssimpl. rewrite run_enter_depth. lia.
      * rewrite Fb, D2. ssimpl. rewrite run_enter_depth.
        rewrite (wf_bit _ _ W). f_equal. lia.
      * intros x. rewrite Fp, P2. ssimpl. rewrite run_enter_parent.
        destruct (Nat.eqb_spec x e); [|reflexivity].
        subst. symmetry. apply (wf_parent _ _ W). exact Hnot.
Qed.

Lemma run_scheduler_safe e s l s' r :
  WF s l -> run_scheduler k e s = Some (s', r) -> WF s' l /\ Restored s s'.
Proof.
  intros W H. unfold run_scheduler in H. cbv zeta in H.
  assert (W0 : WF (log s (EvScheduler e)) l) by (apply WF_log; exact W).
  assert (R0 : Restored s (log s (EvScheduler e))) by (apply Restored_same; reflexivity).
  destruct (scheduler (effects s e)) as [[|c]|].
  - inversion H; subst. auto.
  - destruct (negb (_dirty (computeds (log s (EvScheduler e)) c))).
    + unfold triggerRefValue in H. ssimpl.
      destruct (cdep _) as [d|].
      * apply (triggerEffects_safe _ _ l) in H.
        -- destruct H as [W1 R1]. split; [exact W1|].
           eapply Restored_trans; [|exact R1]. apply Restored_same; reflexivity.
        -- apply WF_log. apply (WF_set_dirty (log s (EvScheduler e))). exact W0.
      * inversion H; subst. split.
        -- apply WF_log. apply (WF_set_dirty (log s (EvScheduler e))). exact W0.
        -- apply Restored_same; reflexivity.
    + inversion H; subst. auto.
  - inversion H; subst. auto.
Qed.

Lemma call_body_safe fuel : Safe (call_body k fuel).
Proof.
  intros c s l s' r W H. destruct c; simpl in H.
  - eapply run_safe; eauto.
  - eapply run_scheduler_safe; eauto.
Qed.

End SafeCall.

Lemma call_safe fuel : Safe (call fuel).
Proof.
  induction fuel as [|f IH].
  - intros c s l s' r _ H. discriminate.
  - simpl. apply call_body_safe. exact IH.
Qed.

Lemma WF_init efs cs :
  (forall e, deps (efs e) = [] /\ parent (efs e) = None) ->
  (forall c, cdep (cs c) = None) ->
  WF (init_state efs cs) [].
Proof.
  intros He Hc. constructor; unfold init_state; ssimpl.
  - constructor.
  - constructor.
  - intros x _. apply He.
  - reflexivity.
  - reflexivity.
  - intros e d. ssimpl. rewrite (proj1 (He e)). simpl. intuition.
  - intros e. rewrite (proj1 (He e)). constructor.
  - intros e d. rewrite (proj1 (He e)). intros [].
  - intros t m k d H. discriminate.
  - intros c d. rewrite Hc. discriminate.
  - exact I.
Qed.

(** C10: an effect is a member of a dependency entry if and only if the
    entry is in the effect's [deps] list.  This holds in the initial state,
    and after every program of track, run, trigger, stop and computed reads
    started in a well-formed state, whatever user code the effects run; it is
    kept by each of the operations that add or remove a membership: [track],
    [stop], [cleanupEffect] and the [finally] block of [run], which holds the
    finalize pass. *)
Theorem effect_dep_link_bidirectional :
  (forall efs cs,
      (forall e, deps (efs e) = [] /\ parent (efs e) = None) ->
      (forall c, cdep (cs c) = None) ->
      linked (init_state efs cs)) /\
  (forall fuel prog s l s' r,
      WF s l ->
      exec (call fuel) prog s = Some (s', r) ->
      WF s' l /\
      (forall e d, In e (subs (depHeap s' d)) <-> In d (deps (effects s' e)))) /\
  (forall s l t k, WF s l -> linked (track t k s)) /\
  (forall s l e, WF s l -> linked (stop e s)) /\
  (forall s l e, WF s l -> linked (cleanupEffect e s)) /\
  (forall s l e last, WF s (e :: l) -> linked (run_finally e last s)).
Proof.
  split; [|split; [|split; [|split; [|split]]]].
  - intros efs cs He Hc. apply (wf_linked _ _ (WF_init efs cs He Hc)).
  - intros fuel prog s l s' r W H.
    destruct (exec_safe _ (call_safe fuel) _ _ _ _ _ W H) as [W' _].
    split; [exact W'|apply (wf_linked _ _ W')].
  - intros s l t k W. apply (wf_linked _ _ (WF_track t k s l W)).
  - intros s l e W. apply (wf_linked _ _ (WF_stop e s l W)).
  - intros s l e W. apply (wf_linked _ _ (WF_cleanupEffect e s l W)).
  - intros s l e last W. apply (wf_linked _ _ (WF_run_finally e last s l W)).
Qed.

(** ** The finalize pass *)

Lemma stale_testbit bit k d :
  (0 <= k <= 30)%Z -> bit = (2 ^ k)%Z ->
  stale bit d = Z.testbit (dep_w d) k && negb (Z.testbit (dep_n d) k).
Proof.
  intros Hk ->. unfold stale, wasTracked, newTracked.
  rewrite !tracked_testbit by exact Hk. reflexivity.
Qed.

(** What one call of [finalizeDepMarkers] does to the heap of entries and to
    the list of the effect, at level [k]. *)
Lemma finalizeDepMarkers_spec (e : nat) (s : State) (k : Z) :
  (1 <= k <= maxMarkerBits)%Z ->
  trackOpBit s = js_shl 1 k ->
  NoDup (deps (effects s e)) ->
  let s' := finalizeDepMarkers e s in
  let is_stale := fun d =>
    Z.testbit (dep_w (depHeap s d)) k && negb (Z.testbit (dep_n (depHeap s d)) k) in
  (forall d x,
      In x (subs (depHeap s' d)) <->
      In x (subs (depHeap s d)) /\
      ~ (x = e /\ In d (deps (effects s e)) /\ is_stale d = true)) /\
  deps (effects s' e) = filter (fun d => negb (is_stale d)) (deps (effects s e)) /\
  (forall d, In d (deps (effects s e)) ->
      Z.testbit (dep_w (depHeap s' d)) k = false /\
      Z.testbit (dep_n (depHeap s' d)) k = false) /\
  (forall d i, (0 <= i < 32)%Z -> i <> k ->
      Z.testbit (dep_w (depHeap s' d)) i = Z.testbit (dep_w (depHeap s d)) i /\
      Z.testbit (dep_n (depHeap s' d)) i = Z.testbit (dep_n (depHeap s d)) i) /\
  (forall d, ~ In d (deps (effects s e)) -> depHeap s' d = depHeap s d) /\
  (forall x, x <> e -> effects s' x = effects s x).
Proof.
  intros Hk B ND s' is_stale. unfold maxMarkerBits in Hk.
  assert (Hk' : (0 <= k <= 30)%Z) by lia.
  assert (Hbit : trackOpBit s = (2 ^ k)%Z) by (rewrite B; apply js_shl_pow2; exact Hk').
  assert (Hst : forall d, stale (trackOpBit s) (depHeap s d) = is_stale d).
  { intros d. apply stale_testbit; assumption. }
  unfold s'. rewrite finalizeDepMarkers_eq, finalize_loop_snd by exact ND. ssimpl.
  split; [|split; [|split; [|split; [|split]]]].
  - intros d x. destruct (in_dec Nat.eq_dec d (deps (effects s e))) as [Hin|Hin].
    + rewrite map_at_in by assumption. rewrite finalize_one_subs, Hst.
      split.
      * intros [H1 H2]. split; [exact H1|]. intros [Hx [_ Hs]]. exact (H2 Hs Hx).
      * intros [H1 H2]. split; [exact H1|]. intros Hs Hx. apply H2. auto.
    + rewrite map_at_notin by assumption. intuition.
  - rewrite upd_same. cbn [deps set_deps]. apply filter_ext. intros d. rewrite Hst. reflexivity.
  - intros d Hin. rewrite map_at_in by assumption.
    rewrite finalize_one_w, finalize_one_n, Hbit.
    rewrite !js_clear_testbit by lia. rewrite Z.eqb_refl. simpl.
    rewrite !andb_false_r. auto.
  - intros d i Hi Hne. destruct (in_dec Nat.eq_dec d (deps (effects s e))) as [Hin|Hin].
    + rewrite map_at_in by assumption.
      rewrite finalize_one_w, finalize_one_n, Hbit.
      rewrite !js_clear_testbit by lia.
      assert (E : Z.eqb k i = false) by (apply Z.eqb_neq; lia).
      rewrite E. simpl. rewrite !andb_true_r. auto.
    + rewrite map_at_notin by assumption. auto.
  - intros d Hin. apply map_at_notin. exact Hin.
  - intros x Hx. apply upd_other. exact Hx.
Qed.

(** In a run the state that reaches the [finally] block is at the level of
    the run, with the generation bit of that level and a list of entries
    without repetition. *)
Lemma run_reaches_finally fuel e s l s2 c :
  WF s l -> active (effects s e) = true -> ~ In e l ->
  exec (call fuel) (fn (effects s e)) (log (run_enter e s) (EvRun e)) = Some (s2, c) ->
  effectTrackDepth s2 = Z.of_nat (S (length l)) /\
  trackOpBit s2 = js_shl 1 (effectTrackDepth s2) /\
  NoDup (deps (effects s2 e)).
Proof.
  intros W Hact Hnot Ex.
  destruct (exec_safe _ (call_safe fuel) _ _ (e :: l) _ _
              (WF_log _ _ _ (WF_run_enter _ _ _ W Hnot)) Ex) as [W2 _].
  split; [exact (wf_depth _ _ W2)|].
  split; [exact (wf_bit _ _ W2)|exact (wf_nodup_deps _ _ W2 e)].
Qed.

Lemma run_finally_finalizes e last s2 :
  (effectTrackDepth s2 <= maxMarkerBits)%Z ->
  depHeap (run_finally e last s2) = depHeap (finalizeDepMarkers e s2) /\
  deps (effects (run_finally e last s2) e)
  = deps (effects (finalizeDepMarkers e s2) e).
Proof.
  intros Hcap. unfold run_finally. cbv zeta.
  apply Z.leb_le in Hcap. rewrite Hcap. ssimpl. split; [reflexivity|].
  apply deps_upd_set_parent.
Qed.

(** C7: the finalize pass, called with the generation bit of level [k]
    (within the cap of 30 levels) for an effect whose list of entries has no
    repetition, removes the effect from exactly the entries of its list whose
    was-tracked bit of level [k] is set and whose newly-tracked bit of level
    [k] is not; the effect's list becomes the surviving entries in their
    former order; the two bits of level [k] are cleared in every entry of the
    list, and no other bit, entry or effect changes.  The second part says
    that every run within the cap ends with this pass, called in such a
    state. *)
Theorem finalizeDepMarkers_removes_stale :
  (forall (e : nat) (s : State) (k : Z),
      (1 <= k <= maxMarkerBits)%Z ->
      trackOpBit s = js_shl 1 k ->
      NoDup (deps (effects s e)) ->
      let s' := finalizeDepMarkers e s in
      let is_stale := fun d =>
        Z.testbit (dep_w (depHeap s d)) k && negb (Z.testbit (dep_n (depHeap s d)) k) in
      (forall d,
          (wasTracked (depHeap s d) (trackOpBit s)
           && negb (newTracked (depHeap s d) (trackOpBit s))) = is_stale d) /\
      (forall d x,
          In x (subs (depHeap s' d)) <->
          In x (subs (depHeap s d)) /\
          ~ (x = e /\ In d (deps (effects s e)) /\ is_stale d = true)) /\
      deps (effects s' e) = filter (fun d => negb (is_stale d)) (deps (effects s e)) /\
      (forall d, In d (deps (effects s e)) ->
          Z.testbit (dep_w (depHeap s' d)) k = false /\
          Z.testbit (dep_n (depHeap s' d)) k = false) /\
      (forall d i, (0 <= i < 32)%Z -> i <> k ->
          Z.testbit (dep_w (depHeap s' d)) i = Z.testbit (dep_w (depHeap s d)) i /\
          Z.testbit (dep_n (depHeap s' d)) i = Z.testbit (dep_n (depHeap s d)) i) /\
      (forall d, ~ In d (deps (effects s e)) -> depHeap s' d = depHeap s d) /\
      (forall x, x <> e -> effects s' x = effects s x)) /\
  (forall fuel e s l s2 c,
      WF s l -> active (effects s e) = true -> ~ In e l ->
      exec (call fuel) (fn (effects s e)) (log (run_enter e s) (EvRun e)) = Some (s2, c) ->
      (effectTrackDepth s2 <= maxMarkerBits)%Z ->
      (1 <= effectTrackDepth s2 <= maxMarkerBits)%Z /\
      trackOpBit s2 = js_shl 1 (effectTrackDepth s2) /\
      NoDup (deps (effects s2 e)) /\
      depHeap (run_finally e (shouldTrack s) s2) = depHeap (finalizeDepMarkers e s2) /\
      deps (effects (run_finally e (shouldTrack s) s2) e)
      = deps (effects (finalizeDepMarkers e s2) e)).
Proof.
  split.
  - intros e s k Hk B ND s' is_stale.
    split; [|exact (finalizeDepMarkers_spec e s k Hk B ND)].
    intros d. unfold is_stale, maxMarkerBits in *.
    rewrite B, js_shl_pow2 by lia.
    change (wasTracked (depHeap s d) (2 ^ k) && negb (newTracked (depHeap s d) (2 ^ k)))
      with (stale (2 ^ k) (depHeap s d)).
    apply stale_testbit; [lia|reflexivity].
  - intros fuel e s l s2 c W Hact Hnot Ex Hcap.
    destruct (run_reaches_finally fuel e s l s2 c W Hact Hnot Ex) as [D [B ND]].
    split; [rewrite D in *; lia|].
    split; [exact B|]. split; [exact ND|].
    apply run_finally_finalizes. exact Hcap.
Qed.

(** ** Cleanup on every exit path of [run] *)

Lemma run_enter_fn e s x : fn (effects (run_enter e s) x) = fn (effects s x).
Proof.
  unfold run_enter. cbv zeta. destruct (_ <=? _)%Z.
  - unfold initDepMarkers. ssimpl. unfold upd. destruct (Nat.eqb_spec x e); subst; reflexivity.
  - unfold cleanupEffect. ssimpl. unfold upd.
    destruct (Nat.eqb_spec x e); subst; cbn; rewrite ?Nat.eqb_refl; reflexivity.
Qed.

Lemma exec_direct_then_throw k pre post : forall s,
  forallb direct pre = true ->
  exists s', exec k (pre ++ AThrow :: post) s = Some (s', Throw).
Proof.
  induction pre as [|a pre IH]; intros s H; simpl in *.
  - eauto.
  - apply andb_prop in H. destruct H as [Ha Hp].
    destruct a; try discriminate; simpl; apply IH; exact Hp.
Qed.

(** C8: whatever the completion [c] of the function of an active effect
    that is not already running, normal or thrown, [run] returns the state
    that the [finally] block makes of the state the function left: the active
    effect, the tracking flag, the depth and the generation bit are those of
    before the run, the bit being that of one level below the level of the
    function, the parent reference is cleared, and the state is well formed,
    so the effect/entry links are consistent.  Within the cap of 30 levels the
    [finally] block leaves the entries as the finalize pass does.  A function
    that throws after statements that call no user code does make [run]
    complete, with the thrown completion.  For every effect, active or not,
    a completed [run] leaves the state well formed, with the active effect,
    the depth, the generation bit and all parent references of before. *)
Theorem run_cleans_up_when_fn_throws :
  (forall fuel e s l s' c,
      WF s l -> active (effects s e) = true -> ~ In e l ->
      run (call fuel) fuel e s = Some (s', c) ->
      (exists s2,
          exec (call fuel) (fn (effects s e)) (log (run_enter e s) (EvRun e))
            = Some (s2, c) /\
          s' = run_finally e (shouldTrack s) s2 /\
          effectTrackDepth s2 = (effectTrackDepth s + 1)%Z /\
          trackOpBit s' = js_shl 1 (effectTrackDepth s2 - 1)) /\
      activeEffect s' = activeEffect s /\
      shouldTrack s' = shouldTrack s /\
      effectTrackDepth s' = effectTrackDepth s /\
      trackOpBit s' = trackOpBit s /\
      parent (effects s' e) = None /\
      WF s' l) /\
  (forall e last s2,
      (effectTrackDepth s2 <= maxMarkerBits)%Z ->
      depHeap (run_finally e last s2) = depHeap (finalizeDepMarkers e s2) /\
      deps (effects (run_finally e last s2) e)
        = deps (effects (finalizeDepMarkers e s2) e)) /\
  (forall fuel e s l pre post,
      WF s l -> active (effects s e) = true -> ~ In e l ->
      length l <= fuel ->
      fn (effects s e) = pre ++ AThrow :: post ->
      forallb direct pre = true ->
      exists s', run (call fuel) fuel e s = Some (s', Throw)) /\
  (forall fuel e s l s' c,
      WF s l ->
      run (call fuel) fuel e s = Some (s', c) ->
      WF s' l /\
      activeEffect s' = activeEffect s /\
      effectTrackDepth s' = effectTrackDepth s /\
      trackOpBit s' = trackOpBit s /\
      (forall x, parent (effects s' x) = parent (effects s x))).
Proof.
  split; [|split; [|split]].
  - intros fuel e s l s' c W Hact Hnot H.
    destruct (run_safe _ (call_safe fuel) _ _ _ _ _ _ W H) as [W' [Ra Rd Rb Rp]].
    unfold run in H. rewrite Hact in H. simpl in H.
    destruct (isAncestor fuel (effects s) (activeEffect s) e) as [[|]|] eqn:Ea;
      try discriminate.
    { exfalso. apply Hnot.
      apply (isAncestor_spec _ _ _ _ _ _ (wf_chain _ _ W) Ea). reflexivity. }
    rewrite run_enter_fn in H.
    destruct (exec (call fuel) (fn (effects s e)) (log (run_enter e s) (EvRun e)))
      as [[s2 c2]|] eqn:Ex; [|discriminate].
    inversion H; subst. clear H.
    destruct (run_finally_fields e (shouldTrack s) s2) as [Fa [Fd [Fb [Fs Fp]]]].
    assert (D2 : effectTrackDepth s2 = (effectTrackDepth s + 1)%Z).
    { destruct (exec_safe _ (call_safe fuel) _ _ (e :: l) _ _
                  (WF_log _ _ _ (WF_run_enter _ _ _ W Hnot)) Ex) as [_ [_ D _ _]].
      rewrite D. ssimpl. apply run_enter_depth. }
    split; [|split; [|split; [|split; [|split; [|split]]]]]; auto.
    + exists s2. split; [reflexivity|]. split; [reflexivity|]. split; assumption.
    + rewrite Fp, Nat.eqb_refl. reflexivity.
  - intros e last s2 Hcap. apply run_finally_finalizes. exact Hcap.
  - intros fuel e s l pre post W Hact Hnot Hl Hfn Hpre.
    unfold run. rewrite Hact. simpl.
    destruct (isAncestor_total (effects s) e fuel _ _ (wf_chain _ _ W) Hl) as [b Hb].
    rewrite Hb. destruct b.
    { exfalso. apply Hnot.
      apply (isAncestor_spec _ _ _ _ _ _ (wf_chain _ _ W) Hb). reflexivity. }
    rewrite run_enter_fn, Hfn.
    destruct (exec_direct_then_throw (call fuel) pre post
                (log (run_enter e s) (EvRun e)) Hpre) as [s2 E].
    rewrite E. eauto.
  - intros fuel e s l s' c W H.
    destruct (run_safe _ (call_safe fuel) _ _ _ _ _ _ W H) as [W' [Ra Rd Rb Rp]].
    auto.
Qed.

(** ** The recursion guard of [run] *)

Lemma run_guard k fuel e s :
  active (effects s e) = true ->
  isAncestor fuel (effects s) (activeEffect s) e = Some true ->
  run k fuel e s = Some (s, Normal).
Proof. intros Ha Hc. unfold run. rewrite Ha, Hc. reflexivity. Qed.

Lemma run_inactive k fuel e s :
  active (effects s e) = false ->
  run k fuel e s = exec k (fn (effects s e)) (log s (EvRun e)).
Proof. intros Ha. unfold run. rewrite Ha. reflexivity. Qed.

(** ** More fuel never changes a result *)

Lemma isAncestor_mono efs e : forall fuel fuel' a b,
  fuel <= fuel' -> isAncestor fuel efs a e = Some b -> isAncestor fuel' efs a e = Some b.
Proof.
  induction fuel as [|f IH]; intros fuel' a b Hle H.
  - destruct a as [q|]; simpl in H.
    + destruct (Nat.eqb q e) eqn:E; [|discriminate].
      destruct fuel'; simpl; rewrite E; exact H.
    + destruct fuel'; exact H.
  - destruct fuel' as [|f']; [lia|].
    destruct a as [q|]; simpl in *; [|exact H].
    destruct (Nat.eqb q e); [exact H|]. apply IH; [lia|exact H].
Qed.

Section Monotone.

Variables k k' : Call -> State -> Res.
Hypothesis Hkk : extends k k'.

Lemma triggerEffects_mono effs : forall s r,
  triggerEffects k effs s = Some r -> triggerEffects k' effs s = Some r.
Proof.
  induction effs as [|e effs IH]; intros s r H; simpl in *; [exact H|].
  destruct (negb _ || _); [|apply IH; exact H].
  destruct (isSome (scheduler (effects s e))).
  - destruct (k (CallScheduler e) s) as [[s1 c]|] eqn:E; [|discriminate].
    rewrite (Hkk _ _ _ E). destruct c; [apply IH|]; exact H.
  - destruct (k (CallRun e) s) as [[s1 c]|] eqn:E; [|discriminate].
    rewrite (Hkk _ _ _ E). destruct c; [apply IH|]; exact H.
Qed.

Lemma step_mono a s r : step k a s = Some r -> step k' a s = Some r.
Proof.
  destruct a; simpl; auto.
  - unfold trigger. destruct (targetMap s t); auto.
    destruct (trigger_deps _ _ _ _ _); auto. apply triggerEffects_mono.
  - unfold computed_value. cbv zeta. destruct (_ || _); auto.
Qed.

Lemma exec_mono acts : forall s r,
  exec k acts s = Some r -> exec k' acts s = Some r.
Proof.
  induction acts as [|a acts IH]; intros s r H; simpl in *; [exact H|].
  destruct (step k a s) as [[s1 c]|] eqn:E; [|discriminate].
  rewrite (step_mono _ _ _ E). destruct c; [apply IH|]; exact H.
Qed.

Lemma run_mono fuel fuel' e s r :
  fuel <= fuel' -> run k fuel e s = Some r -> run k' fuel' e s = Some r.
Proof.
  intros Hle H. unfold run in *.
  destruct (negb (active (effects s e))); [apply exec_mono; exact H|].
  destruct (isAncestor fuel (effects s) (activeEffect s) e) as [b|] eqn:E; [|discriminate].
  rewrite (isAncestor_mono _ _ _ _ _ _ Hle E).
  destruct b; [exact H|]. cbv zeta in *.
  destruct (exec k _ _) as [[s2 c]|] eqn:Ex; [|discriminate].
  rewrite (exec_mono _ _ _ Ex). exact H.
Qed.

Lemma run_scheduler_mono e s r :
  run_scheduler k e s = Some r -> run_scheduler k' e s = Some r.
Proof.
  unfold run_scheduler. cbv zeta. destruct (scheduler (effects s e)) as [[|c]|]; auto.
  destruct (negb _); auto. unfold triggerRefValue.
  destruct (cdep _); auto. apply triggerEffects_mono.
Qed.

End Monotone.

Lemma call_mono : forall fuel fuel', fuel <= fuel' -> extends (call fuel) (call fuel').
Proof.
  induction fuel as [|f IH]; intros fuel' Hle c s r H; [discriminate|].
  destruct fuel' as [|f']; [lia|]. simpl in *.
  assert (Hext : extends (call f) (call f')) by (apply IH; lia).
  destruct c; simpl in *.
  - apply (run_mono (call f) (call f') Hext f f'); [lia|exact H].
  - apply (run_scheduler_mono (call f) (call f') Hext); exact H.
Qed.

Lemma exec_call_mono fuel fuel' acts s r :
  fuel <= fuel' ->
  exec (call fuel) acts s = Some r -> exec (call fuel') acts s = Some r.
Proof. intros Hle. apply exec_mono. apply call_mono. exact Hle. Qed.

Lemma trace_of_mono fuel fuel' acts s x :
  fuel <= fuel' ->
  trace_of (exec (call fuel) acts s) = Some x ->
  trace_of (exec (call fuel') acts s) = Some x.
Proof.
  intros Hle H. destruct (exec (call fuel) acts s) as [r|] eqn:E; [|discriminate].
  rewrite (exec_call_mono _ _ _ _ _ Hle E). exact H.
Qed.

(** The walk is for active effects.  A stopped effect that is still on the
    stack of running effects is not held back by it: [run] tests [active]
    first and calls its function directly. *)
Lemma stopped_ancestor_is_executed :
  active (effects stopped_ancestor_mid 0) = false /\
  isAncestor 2 (effects stopped_ancestor_mid) (activeEffect stopped_ancestor_mid) 0
    = Some true /\
  trace_of (run (call 2) 2 0 stopped_ancestor_mid)
    = Some (trace stopped_ancestor_mid ++ [EvRun 0], Normal) /\
  run (call 2) 2 0 stopped_ancestor_mid <> Some (stopped_ancestor_mid, Normal) /\
  trace_of (exec (call 4) [ARun 0] stopped_ancestor_init)
    = Some ([EvRun 0; EvRun 1; EvRun 0], Normal).
Proof.
  split; [vm_compute; reflexivity|].
  split; [vm_compute; reflexivity|].
  split; [vm_compute; reflexivity|].
  split; [|vm_compute; reflexivity].
  intros H.
  assert (E : trace_of (run (call 2) 2 0 stopped_ancestor_mid)
              = trace_of (Some (stopped_ancestor_mid, Normal))) by (rewrite H; reflexivity).
  vm_compute in E. discriminate E.
Qed.

(** ** Writes to [length] *)

Lemma length_deps_without_symbols (m : DepsMap) (v : Z) :
  forallb (fun kd => negb (is_symbol (fst kd))) m = true ->
  length_deps m (Some v)
  = Some (map (fun kd => Some (snd kd))
              (filter (fun kd => hit_by_length v (fst kd)) m)).
Proof.
  induction m as [|[k d] m IH]; intros H; simpl in *; [reflexivity|].
  apply andb_prop in H. destruct H as [Hk Hm]. rewrite (IH Hm).
  destruct k; simpl in *; try discriminate; try reflexivity.
  destruct (v <=? Z.of_N i)%Z; reflexivity.
Qed.

Lemma length_deps_symbol_throws (m : DepsMap) (v : option Z) :
  existsb (fun kd => is_symbol (fst kd)) m = true -> length_deps m v = None.
Proof.
  induction m as [|[k d] m IH]; intros H; simpl in *; [discriminate|].
  destruct k; simpl in *; try reflexivity.
  - rewrite (IH H). reflexivity.
  - rewrite (IH H). destruct v; reflexivity.
  - rewrite (IH H). reflexivity.
Qed.

(** C1: on an array one of whose tracked keys is a symbol, a write to
    [length] throws inside [trigger], in the comparison of the symbol with
    the new length, and notifies no entry; on an array without a tracked
    symbol key the write notifies the entries of [length] and of the indices
    not below the new length.  In the example, with effect 0 reading index 3,
    effect 1 reading index 0 and effect 2 reading a symbol key of a
    four-element array, setting the length to 2 throws and runs no effect;
    without effect 2 it runs effect 0 again and not effect 1. *)
Theorem length_write_throws_on_symbol_key :
  (forall k t m v s,
      isArray t = true -> targetMap s t = Some m ->
      existsb (fun kd => is_symbol (fst kd)) m = true ->
      trigger k t SET (Some KLength) v s = Some (s, Throw)) /\
  (forall k t m v s,
      isArray t = true -> targetMap s t = Some m ->
      forallb (fun kd => negb (is_symbol (fst kd))) m = true ->
      trigger k t SET (Some KLength) (Some v) s
      = triggerEffects k
          (trigger_effects_of (depHeap s)
             (map (fun kd => Some (snd kd))
                  (filter (fun kd => hit_by_length v (fst kd)) m))) s) /\
  (forall fuel,
      trace_of (exec (call (2 + fuel))
                  [ARun 0; ARun 2; ARun 1; ATrigger arr0 SET (Some KLength) (Some 2%Z)]
                  array_init)
      = Some ([EvRun 0; EvRun 2; EvRun 1], Throw) /\
      trace_of (exec (call (2 + fuel))
                  [ARun 0; ARun 1; ATrigger arr0 SET (Some KLength) (Some 2%Z)]
                  array_init)
      = Some ([EvRun 0; EvRun 1; EvRun 0], Normal)).
Proof.
  split; [|split].
  - intros k t m v s Ha Hm Hs. unfold trigger, trigger_deps. rewrite Hm, Ha.
    simpl. rewrite (length_deps_symbol_throws m v Hs). reflexivity.
  - intros k t m v s Ha Hm Hs. unfold trigger, trigger_deps. rewrite Hm, Ha.
    simpl. rewrite (length_deps_without_symbols m v Hs). reflexivity.
  - intros fuel.
    split; apply (trace_of_mono 2 (2 + fuel)); try lia; vm_compute; reflexivity.
Qed.

(** ** Stopping *)

Lemma stop_idempotent e s : stop e (stop e s) = stop e s.
Proof.
  unfold stop at 1. destruct (active (effects (stop e s) e)) eqn:E; [|reflexivity].
  exfalso. revert E. unfold stop. destruct (active (effects s e)) eqn:Ea.
  - ssimpl. rewrite upd_same. simpl. discriminate.
  - rewrite Ea. discriminate.
Qed.

Lemma stop_detaches e s l :
  WF s l ->
  active (effects (stop e s) e) = false /\
  (active (effects s e) = true ->
   deps (effects (stop e s) e) = [] /\
   (forall d, ~ In e (subs (depHeap (stop e s) d))) /\
   trace (stop e s)
   = trace s ++ (if onStop (effects s e) then [EvOnStop e] else [])).
Proof.
  intros W. pose proof (WF_stop e s l W) as W'. revert W'.
  unfold stop. destruct (active (effects s e)) eqn:Ea.
  - intros W'. split; [ssimpl; rewrite upd_same; reflexivity|]. intros _.
    assert (Hd : deps (effects
                (with_effects
                   (if onStop (effects (cleanupEffect e s) e)
                    then log (cleanupEffect e s) (EvOnStop e) else cleanupEffect e s)
                   (upd (effects (if onStop (effects (cleanupEffect e s) e)
                    then log (cleanupEffect e s) (EvOnStop e) else cleanupEffect e s)) e
                      (set_active (effects (if onStop (effects (cleanupEffect e s) e)
                    then log (cleanupEffect e s) (EvOnStop e) else cleanupEffect e s) e) false))) e) = []).
    { ssimpl. rewrite upd_same.
      destruct (onStop (effects (cleanupEffect e s) e)); unfold cleanupEffect; ssimpl;
        rewrite upd_same; reflexivity. }
    split; [exact Hd|]. split.
    + intros d Hin. apply (wf_linked _ _ W') in Hin. rewrite Hd in Hin. exact Hin.
    + assert (Eo : onStop (effects (cleanupEffect e s) e) = onStop (effects s e)).
      { unfold cleanupEffect. ssimpl. rewrite upd_same. reflexivity. }
      rewrite Eo. destruct (onStop (effects s e)); ssimpl.
      * reflexivity.
      * unfold cleanupEffect. ssimpl. rewrite app_nil_r. reflexivity.
  - intros _. split; [exact Ea|discriminate].
Qed.

Lemma observe_mono {A} (f : State -> A) fuel fuel' acts s x :
  fuel <= fuel' ->
  observe f (exec (call fuel) acts s) = Some x ->
  observe f (exec (call fuel') acts s) = Some x.
Proof.
  intros Hle H. destruct (exec (call fuel) acts s) as [r|] eqn:E; [|discriminate].
  rewrite (exec_call_mono _ _ _ _ _ Hle E). exact H.
Qed.

(** C2: [stop] is idempotent, and in the state it returns the effect is
    inactive, its list of entries is empty, no entry has it as a member and
    the teardown callback, if any, has been called once.  But an effect that
    stops itself while it runs and then reads a key it had not read before is
    a member of that key's entry after the run, though inactive, and every
    later write to the key calls its function.  Beyond the cap of 30 levels
    the same happens with a key the effect had read before it stopped
    itself. *)
Theorem self_stopped_effect_is_subscribed_again :
  (forall e s, stop e (stop e s) = stop e s) /\
  (forall e s l,
      WF s l ->
      active (effects (stop e s) e) = false /\
      (active (effects s e) = true ->
       deps (effects (stop e s) e) = [] /\
       (forall d, ~ In e (subs (depHeap (stop e s) d))) /\
       trace (stop e s)
       = trace s ++ (if onStop (effects s e) then [EvOnStop e] else []))) /\
  (forall fuel,
      observe (fun s => (active (effects s 0), deps (effects s 0),
                         targetMap s obj0, subs (depHeap s 0), trace s))
              (exec (call (2 + fuel)) [ARun 0] self_stop_init)
      = Some (false, [0], Some [(KName 0, 0)], [0], [EvRun 0]) /\
      trace_of (exec (call (2 + fuel))
                  [ARun 0; ATrigger obj0 SET (Some (KName 0)) (Some 1%Z)]
                  self_stop_init)
      = Some ([EvRun 0; EvRun 0], Normal) /\
      trace_of (exec (call (2 + fuel))
                  [ARun 0; ATrigger obj0 SET (Some (KName 0)) (Some 1%Z);
                   ATrigger obj0 SET (Some (KName 0)) (Some 2%Z)]
                  self_stop_init)
      = Some ([EvRun 0; EvRun 0; EvRun 0], Normal)) /\
  (forall fuel,
      observe (fun s => (active (effects s 30), subs (depHeap s 0)))
              (exec (call (62 + fuel)) [ARun 0] deep_self_stop_init)
      = Some (false, [30]) /\
      trace_of (exec (call (62 + fuel))
                  [ARun 0; ATrigger obj0 SET (Some (KName 0)) (Some 1%Z)]
                  deep_self_stop_init)
      = Some (map EvRun (seq 0 31) ++ [EvRun 30], Normal)).
Proof.
  split; [exact stop_idempotent|]. split; [exact stop_detaches|]. split.
  - intros fuel. split; [|split].
    + apply (observe_mono _ 2 (2 + fuel)); [lia|]. vm_compute. reflexivity.
    + apply (trace_of_mono 2 (2 + fuel)); [lia|]. vm_compute. reflexivity.
    + apply (trace_of_mono 2 (2 + fuel)); [lia|]. vm_compute. reflexivity.
  - intros fuel. split.
    + apply (observe_mono _ 62 (62 + fuel)); [lia|]. vm_compute. reflexivity.
    + apply (trace_of_mono 62 (62 + fuel)); [lia|]. vm_compute. reflexivity.
Qed.

(** ** Memoization of computed values *)

Lemma Quiet_refl s : Quiet s s.
Proof. constructor; auto. Qed.

Lemma Quiet_same s s' :
  trace s' = trace s -> computeds s' = computeds s -> effects s' = effects s ->
  Quiet s s'.
Proof. intros E1 E2 E3. constructor; try rewrite E2; try rewrite E3; auto. Qed.

(** Updates of one effect or one computed that keep what [Quiet] watches. *)
Lemma upd_effect_quiet s e (g : ReactiveEffect -> ReactiveEffect) :
  (forall ef, scheduler (g ef) = scheduler ef /\ fn (g ef) = fn ef) ->
  forall x, scheduler (upd (effects s) e (g (effects s e)) x) = scheduler (effects s x) /\
            fn (upd (effects s) e (g (effects s e)) x) = fn (effects s x).
Proof.
  intros H x. unfold upd. destruct (Nat.eqb_spec x e); [subst; apply H|auto].
Qed.

Lemma Quiet_cleanupEffect e s : Quiet s (cleanupEffect e s).
Proof.
  unfold cleanupEffect. constructor; ssimpl; auto;
    intros x; apply (upd_effect_quiet s e (fun ef => set_deps ef [])); auto.
Qed.

Lemma Quiet_stop e s : Quiet s (stop e s).
Proof.
  unfold stop. destruct (active (effects s e)); [|apply Quiet_refl].
  pose proof (Quiet_cleanupEffect e s) as [T D C E S F].
  set (s1 := cleanupEffect e s) in *.
  assert (T1 : trace s1 = trace s) by reflexivity.
  constructor; ssimpl.
  - destruct (onStop (effects s1 e)); ssimpl; rewrite T1; eauto.
  - intros c. destruct (onStop (effects s1 e)); ssimpl; apply D.
  - intros c. destruct (onStop (effects s1 e)); ssimpl; apply C.
  - intros c. destruct (onStop (effects s1 e)); ssimpl; apply E.
  - intros x. rewrite <- S. destruct (onStop (effects s1 e)); ssimpl;
      apply (upd_effect_quiet s1 e (fun ef => set_active ef false)); auto.
  - intros x. rewrite <- F. destruct (onStop (effects s1 e)); ssimpl;
      apply (upd_effect_quiet s1 e (fun ef => set_active ef false)); auto.
Qed.

Lemma Quiet_trackEffects d s : Quiet s (trackEffects d s).
Proof.
  unfold trackEffects. destruct (activeEffect s) as [ae|]; [|apply Quiet_refl].
  destruct (effectTrackDepth s <=? maxMarkerBits)%Z.
  - destruct (negb (newTracked (depHeap s d) (trackOpBit s))); [|apply Quiet_refl].
    destruct (negb (wasTracked (depHeap s d) (trackOpBit s))).
    + constructor; ssimpl; auto; intros x;
        apply (upd_effect_quiet s ae (fun ef => set_deps ef (deps ef ++ [d]))); auto.
    + apply Quiet_same; reflexivity.
  - destruct (negb (dep_has ae (depHeap s d))); [|apply Quiet_refl].
    constructor; ssimpl; auto; intros x;
      apply (upd_effect_quiet s ae (fun ef => set_deps ef (deps ef ++ [d]))); auto.
Qed.

Lemma Quiet_compose s1 s2 s3 : Quiet s1 s2 -> Quiet s2 s3 -> trace s2 = trace s1 -> Quiet s1 s3.
Proof.
  intros [T D C E S F] [T' D' C' E' S' F'] Et.
  constructor; intros; rewrite ?D', ?C', ?E', ?S', ?F'; auto.
  rewrite <- Et. exact T'.
Qed.

Lemma trackEffects_trace d s : trace (trackEffects d s) = trace s.
Proof.
  unfold trackEffects. destruct (activeEffect s) as [ae|]; [|reflexivity].
  destruct (effectTrackDepth s <=? maxMarkerBits)%Z.
  - destruct (negb (newTracked (depHeap s d) (trackOpBit s))); [|reflexivity].
    destruct (negb (wasTracked (depHeap s d) (trackOpBit s))); reflexivity.
  - destruct (negb (dep_has ae (depHeap s d))); reflexivity.
Qed.

Lemma Quiet_track t k s : Quiet s (track t k s) /\ trace (track t k s) = trace s.
Proof.
  unfold track. cbv zeta.
  destruct (shouldTrack s && isSome (activeEffect s)); [|split; [apply Quiet_refl|reflexivity]].
  destruct (depsMap_get _ k).
  - split.
    + eapply Quiet_compose; [|apply Quiet_trackEffects|].
      * destruct (targetMap s t); [apply Quiet_refl|apply Quiet_same; reflexivity].
      * destruct (targetMap s t); reflexivity.
    + rewrite trackEffects_trace. destruct (targetMap s t); reflexivity.
  - split.
    + eapply Quiet_compose; [|apply Quiet_trackEffects|].
      * destruct (targetMap s t); apply Quiet_same; reflexivity.
      * destruct (targetMap s t); reflexivity.
    + rewrite trackEffects_trace. destruct (targetMap s t); reflexivity.
Qed.

Lemma Quiet_trackRefValue c s :
  Quiet s (trackRefValue c s) /\ trace (trackRefValue c s) = trace s.
Proof.
  unfold trackRefValue.
  destruct (shouldTrack s && isSome (activeEffect s)); [|split; [apply Quiet_refl|reflexivity]].
  destruct (cdep (computeds s c)).
  - split; [apply Quiet_trackEffects|apply trackEffects_trace].
  - split; [|rewrite trackEffects_trace; reflexivity].
    eapply Quiet_compose; [|apply Quiet_trackEffects|reflexivity].
    constructor; ssimpl; auto; intros c'; unfold upd;
      destruct (Nat.eqb_spec c' c); subst; reflexivity.
Qed.

Lemma Quiet_run_enter e s : Quiet s (run_enter e s) /\ trace (run_enter e s) = trace s.
Proof.
  unfold run_enter. cbv zeta. destruct (_ <=? _)%Z.
  - unfold initDepMarkers. split; [|reflexivity].
    constructor; ssimpl; auto; intros x;
      apply (upd_effect_quiet s e (fun ef => set_parent ef (activeEffect s))); auto.
  - split; [|reflexivity].
    eapply Quiet_compose; [|apply Quiet_cleanupEffect|reflexivity].
    constructor; ssimpl; auto; intros x;
      apply (upd_effect_quiet s e (fun ef => set_parent ef (activeEffect s))); auto.
Qed.

Lemma Quiet_finalizeDepMarkers e s :
  Quiet s (finalizeDepMarkers e s) /\ trace (finalizeDepMarkers e s) = trace s.
Proof.
  rewrite finalizeDepMarkers_eq. split; [|reflexivity].
  constructor; ssimpl; auto; intros x;
    apply (upd_effect_quiet s e (fun ef => set_deps ef _)); auto.
Qed.

Lemma Quiet_run_finally e last s :
  Quiet s (run_finally e last s) /\ trace (run_finally e last s) = trace s.
Proof.
  unfold run_finally. cbv zeta.
  set (s1 := if (effectTrackDepth s <=? maxMarkerBits)%Z then finalizeDepMarkers e s else s).
  assert (H1 : Quiet s s1 /\ trace s1 = trace s).
  { unfold s1. destruct (_ <=? _)%Z; [apply Quiet_finalizeDepMarkers|].
    split; [apply Quiet_refl|reflexivity]. }
  clearbody s1. destruct H1 as [Q1 T1]. split; [|ssimpl; exact T1].
  eapply Quiet_compose; [exact Q1| |exact T1].
  constructor; ssimpl; auto; intros x;
    apply (upd_effect_quiet s1 e (fun ef => set_parent ef None)); auto.
Qed.

Lemma memo_scan_app c ec tr2 : forall tr cnt,
  memo_scan c ec cnt (tr ++ tr2)
  = match memo_scan c ec cnt tr with
    | Some n => memo_scan c ec n tr2
    | None => None
    end.
Proof.
  induction tr as [|ev tr IH]; intros cnt; simpl; [reflexivity|].
  destruct ev; auto.
  - destruct (Nat.eqb e ec); auto. destruct cnt; auto.
  - destruct (Nat.eqb c0 c); auto.
Qed.

Lemma MemoConfig_Quiet c ec s s' : Quiet s s' -> MemoConfig c ec s -> MemoConfig c ec s'.
Proof.
  intros [T D C E S F] [H1 H2 H3 H4]. constructor.
  - rewrite S. exact H1.
  - rewrite C. exact H2.
  - intros c'. rewrite E. apply H3.
  - intros e. rewrite F. apply H4.
Qed.

Lemma MemoInv_Quiet c ec s s' : Quiet s s' -> MemoInv c ec s -> MemoInv c ec s'.
Proof.
  intros Q [Cf [cnt [Hs Hd]]]. constructor; [eapply MemoConfig_Quiet; eauto|].
  exists cnt. rewrite (q_dirty _ _ Q). split; [|exact Hd].
  destruct (q_trace _ _ Q) as [T|[e T]]; rewrite T; [exact Hs|].
  rewrite memo_scan_app, Hs. reflexivity.
Qed.

Lemma MemoInv_log_other c ec s ev :
  match ev with
  | EvRun e => Nat.eqb e ec = false
  | EvInvalidate c' => Nat.eqb c' c = false
  | _ => True
  end ->
  MemoInv c ec s -> MemoInv c ec (log s ev).
Proof.
  intros Hev [Cf [cnt [Hs Hd]]]. constructor.
  - destruct Cf as [H1 H2 H3 H4]. constructor; auto.
  - exists cnt. ssimpl. split; [|exact Hd].
    rewrite memo_scan_app, Hs. destruct ev; simpl; auto; rewrite Hev; reflexivity.
Qed.

Lemma MemoReady_log_run c ec s : MemoReady c ec s -> MemoInv c ec (log s (EvRun ec)).
Proof.
  intros [Cf Hs Hd]. constructor.
  - destruct Cf as [H1 H2 H3 H4]. constructor; auto.
  - exists 1. ssimpl. split.
    + rewrite memo_scan_app, Hs. simpl. rewrite Nat.eqb_refl. reflexivity.
    + rewrite Hd. discriminate.
Qed.

Lemma MemoReady_MemoInv c ec s : MemoReady c ec s -> MemoInv c ec s.
Proof.
  intros [Cf Hs Hd]. constructor; [exact Cf|]. exists 0. auto.
Qed.

Section MemoCall.

Variables c ec : nat.
Variable k : Call -> State -> Res.
Hypothesis Hk : MemoSafe c ec k.

Lemma triggerEffects_memo effs : forall s s' r,
  MemoInv c ec s -> triggerEffects k effs s = Some (s', r) -> MemoInv c ec s'.
Proof.
  induction effs as [|e effs IH]; intros s s' r M H; simpl in H.
  - inversion H; subst. exact M.
  - destruct (negb _ || _); [|eapply IH; eauto].
    assert (Hcall : forall s1 c1,
      (if isSome (scheduler (effects s e)) then k (CallScheduler e) s
       else k (CallRun e) s) = Some (s1, c1) -> MemoInv c ec s1).
    { intros s1 c1 E. destruct (isSome (scheduler (effects s e))) eqn:Es.
      - apply (Hk (CallScheduler e) s s1 c1); [exact M|exact E].
      - apply (Hk (CallRun e) s s1 c1); [|exact E].
        destruct (Nat.eqb_spec e ec) as [->|Hne]; [|exact M].
        rewrite (mc_scheduler _ _ _ (mi_config _ _ _ M)) in Es. discriminate. }
    destruct (if isSome (scheduler (effects s e)) then k (CallScheduler e) s
              else k (CallRun e) s) as [[s1 [|]]|] eqn:E; try discriminate.
    + eapply IH; [eapply Hcall; reflexivity|exact H].
    + inversion H; subst. eapply Hcall; reflexivity.
Qed.

Lemma trigger_memo t ty key v s s' r :
  MemoInv c ec s -> trigger k t ty key v s = Some (s', r) -> MemoInv c ec s'.
Proof.
  intros M H. unfold trigger in H. destruct (targetMap s t).
  - destruct (trigger_deps _ _ _ _ _).
    + eapply triggerEffects_memo; eauto.
    + inversion H; subst. exact M.
  - inversion H; subst. exact M.
Qed.

Lemma computed_value_memo c' s s' r :
  MemoInv c ec s -> computed_value k c' s = Some (s', r) -> MemoInv c ec s'.
Proof.
  intros M H. unfold computed_value in H. cbv zeta in H.
  destruct (Quiet_trackRefValue c' s) as [Q1 T1].
  apply (MemoInv_Quiet _ _ _ _ Q1) in M.
  set (s1 := trackRefValue c' s) in *. clearbody s1.
  destruct (_dirty (computeds s1 c') || negb (_cacheable (computeds s1 c'))) eqn:Ed;
    [|inversion H; subst; exact M].
  destruct M as [Cf [cnt [Hs Hd]]].
  assert (Cf2 : MemoConfig c ec
            (with_computeds s1 (upd (computeds s1) c' (set_dirty (computeds s1 c') false)))).
  { destruct Cf as [H1 H2 H3 H4]. constructor; ssimpl; auto.
    - unfold upd. destruct (Nat.eqb_spec c c'); subst; auto.
    - intros c''. rewrite <- H3. unfold upd.
      destruct (Nat.eqb_spec c'' c'); subst; reflexivity. }
  apply (Hk _ _ _ _) in H; [exact H|].
  destruct (Nat.eqb_spec (ceffect (computeds s1 c')) ec) as [He|He].
  - apply (mc_effect _ _ _ Cf) in He. subst c'.
    rewrite (mc_cacheable _ _ _ Cf) in Ed. simpl in Ed. rewrite orb_false_r in Ed.
    constructor; [exact Cf2| |].
    + ssimpl. rewrite (Hd Ed) in Hs. exact Hs.
    + ssimpl. rewrite upd_same. reflexivity.
  - constructor; [exact Cf2|]. exists cnt. ssimpl. split; [exact Hs|].
    unfold upd. destruct (Nat.eqb_spec c c'); [|exact Hd].
    subst c'. exfalso. apply He. apply (mc_effect _ _ _ Cf). reflexivity.
Qed.

Lemma step_memo a s s' r :
  a <> ARun ec ->
  MemoInv c ec s -> step k a s = Some (s', r) -> MemoInv c ec s'.
Proof.
  intros Ha M H. destruct a; simpl in H.
  - inversion H; subst. apply (MemoInv_Quiet c ec s); [apply Quiet_track|exact M].
  - eapply trigger_memo; eauto.
  - apply (Hk _ _ _ _) in H; [exact H|].
    destruct (Nat.eqb_spec e ec); [subst; congruence|exact M].
  - inversion H; subst. apply (MemoInv_Quiet c ec s); [apply Quiet_stop|exact M].
  - eapply computed_value_memo; eauto.
  - inversion H; subst.
    apply (MemoInv_Quiet c ec s); [apply Quiet_same; reflexivity|exact M].
  - inversion H; subst.
    apply (MemoInv_Quiet c ec s); [apply Quiet_same; reflexivity|exact M].
  - inversion H; subst. apply (MemoInv_Quiet c ec s); [|exact M].
    unfold resetTracking. destruct (rev (trackStack s)); apply Quiet_same; reflexivity.
  - inversion H; subst. exact M.
Qed.

Lemma exec_memo acts : forall s s' r,
  ~ In (ARun ec) acts ->
  MemoInv c ec s -> exec k acts s = Some (s', r) -> MemoInv c ec s'.
Proof.
  induction acts as [|a acts IH]; intros s s' r Hn M H; simpl in H.
  - inversion H; subst. exact M.
  - assert (Ha : a <> ARun ec) by (intro; subst; apply Hn; now left).
    assert (Hn' : ~ In (ARun ec) acts) by (intro; apply Hn; now right).
    destruct (step k a s) as [[s1 [|]]|] eqn:E; try discriminate.
    + eapply IH; [exact Hn'|eapply step_memo; eauto|exact H].
    + inversion H; subst. eapply step_memo; eauto.
Qed.

Lemma run_memo fuel e s s' r :
  (if Nat.eqb e ec then MemoReady c ec s else MemoInv c ec s) ->
  run k fuel e s = Some (s', r) -> MemoInv c ec s'.
Proof.
  intros M H.
  assert (Mlog : MemoInv c ec (log s (EvRun e))).
  { destruct (Nat.eqb_spec e ec) as [->|Hne].
    - apply MemoReady_log_run. exact M.
    - apply MemoInv_log_other; [apply Nat.eqb_neq; exact Hne|exact M]. }
  assert (M0 : MemoInv c ec s).
  { destruct (Nat.eqb e ec); [apply MemoReady_MemoInv|]; exact M. }
  unfold run in H. destruct (negb (active (effects s e))).
  - eapply exec_memo; [|exact Mlog|exact H].
    apply (mc_fn _ _ _ (mi_config _ _ _ M0)).
  - destruct (isAncestor fuel (effects s) (activeEffect s) e) as [[|]|]; try discriminate.
    + inversion H; subst. exact M0.
    + cbv zeta in H.
      destruct (exec k _ _) as [[s2 c2]|] eqn:Ex; [|discriminate].
      inversion H; subst. clear H.
      eapply MemoInv_Quiet; [apply Quiet_run_finally|].
      eapply exec_memo; [| |exact Ex].
      * rewrite run_enter_fn. apply (mc_fn _ _ _ (mi_config _ _ _ M0)).
      * destruct (Quiet_run_enter e s) as [Q T].
        destruct (Nat.eqb_spec e ec) as [->|Hne].
        -- apply MemoReady_log_run. destruct M as [Cf Hs Hd]. constructor.
           ++ eapply MemoConfig_Quiet; eauto.
           ++ rewrite T. exact Hs.
           ++ rewrite (q_dirty _ _ Q). exact Hd.
        -- apply MemoInv_log_other; [apply Nat.eqb_neq; exact Hne|].
           eapply MemoInv_Quiet; eauto.
Qed.

Lemma run_scheduler_memo e s s' r :
  MemoInv c ec s -> run_scheduler k e s = Some (s', r) -> MemoInv c ec s'.
Proof.
  intros M H. unfold run_scheduler in H. cbv zeta in H.
  assert (M0 : MemoInv c ec (log s (EvScheduler e)))
    by (apply MemoInv_log_other; [exact I|exact M]).
  set (s0 := log s (EvScheduler e)) in *.
  assert (Es : scheduler (effects s e) = scheduler (effects s0 e)) by reflexivity.
  rewrite Es in H. clearbody s0. clear Es.
  destruct (scheduler (effects s0 e)) as [[|c']|]; try (inversion H; subst; exact M0).
  destruct (negb (_dirty (computeds s0 c'))) eqn:Ed; [|inversion H; subst; exact M0].
  assert (M1 : MemoInv c ec
           (log (with_computeds s0 (upd (computeds s0) c' (set_dirty (computeds s0 c') true)))
                (EvInvalidate c'))).
  { destruct M0 as [Cf [cnt [Hs Hd]]]. constructor.
    - destruct Cf as [H1 H2 H3 H4]. constructor; ssimpl; auto.
      + unfold upd. destruct (Nat.eqb_spec c c'); subst; auto.
      + intros c''. rewrite <- H3. unfold upd.
        destruct (Nat.eqb_spec c'' c'); subst; reflexivity.
    - ssimpl. rewrite memo_scan_app, Hs. simpl.
      destruct (Nat.eqb_spec c' c) as [->|Hne].
      + exists 0. split; reflexivity.
      + exists cnt. split; [reflexivity|].
        rewrite upd_other by auto. exact Hd. }
  unfold triggerRefValue in H.
  destruct (cdep _); [eapply triggerEffects_memo; eauto|inversion H; subst; exact M1].
Qed.

Lemma call_body_memo fuel : MemoSafe c ec (call_body k fuel).
Proof.
  intros c0 s s' r M H. destruct c0; simpl in H.
  - eapply run_memo; eauto.
  - eapply run_scheduler_memo; eauto.
Qed.

End MemoCall.

Lemma call_memo c ec fuel : MemoSafe c ec (call fuel).
Proof.
  induction fuel as [|f IH].
  - intros c0 s s' r _ H. discriminate.
  - simpl. apply call_body_memo. exact IH.
Qed.

Lemma trackRefValue_dirty c c' s :
  _dirty (computeds (trackRefValue c s) c') = _dirty (computeds s c') /\
  _cacheable (computeds (trackRefValue c s) c') = _cacheable (computeds s c').
Proof.
  destruct (Quiet_trackRefValue c s) as [Q _].
  split; [apply (q_dirty _ _ Q)|apply (q_cacheable _ _ Q)].
Qed.

Lemma computed_value_clean k c s :
  _dirty (computeds s c) = false -> _cacheable (computeds s c) = true ->
  computed_value k c s = Some (trackRefValue c s, Normal).
Proof.
  intros Hd Hc. unfold computed_value. cbv zeta.
  destruct (trackRefValue_dirty c c s) as [E1 E2]. rewrite E1, E2, Hd, Hc. reflexivity.
Qed.

Lemma reads_clean k c : forall n s,
  _dirty (computeds s c) = false -> _cacheable (computeds s c) = true ->
  exists s', exec k (repeat (AReadComputed c) n) s = Some (s', Normal) /\
             trace s' = trace s /\
             _dirty (computeds s' c) = false /\ _cacheable (computeds s' c) = true.
Proof.
  induction n as [|n IH]; intros s Hd Hc; simpl.
  - eauto.
  - rewrite (computed_value_clean k c s Hd Hc).
    destruct (trackRefValue_dirty c c s) as [E1 E2].
    destruct (IH (trackRefValue c s)) as [s' [H1 [H2 [H3 H4]]]]; try congruence.
    exists s'. repeat split; auto.
    rewrite H2. apply (proj2 (Quiet_trackRefValue c s)).
Qed.

(** C4: in the trace of any program that does not call the getter effect of
    a cacheable computed value directly, two runs of the getter are separated
    by an invalidation of the value; reading a clean value any number of
    times runs nothing; a read of a dirty value runs the getter effect once,
    with the flag cleared; the scheduler of the getter effect does nothing
    but log when the value is dirty already, and otherwise flips the flag to
    dirty and notifies the dependents of the value, without running the
    getter.  In the example, three reads run the getter once, one write
    between reads runs it once more, and three dependents reading after one
    write run it once. *)
Theorem computed_getter_runs_once_per_invalidation :
  (forall c ec s,
      MemoConfig c ec s -> trace s = [] -> MemoInv c ec s) /\
  (forall c ec fuel prog s s' r,
      MemoInv c ec s -> ~ In (ARun ec) prog ->
      exec (call fuel) prog s = Some (s', r) ->
      memoized c ec (trace s')) /\
  (forall k c n s,
      _dirty (computeds s c) = false -> _cacheable (computeds s c) = true ->
      exists s', exec k (repeat (AReadComputed c) n) s = Some (s', Normal) /\
                 trace s' = trace s /\ _dirty (computeds s' c) = false) /\
  (forall k c s,
      _dirty (computeds s c) = true ->
      computed_value k c s
      = k (CallRun (ceffect (computeds (trackRefValue c s) c)))
          (with_computeds (trackRefValue c s)
             (upd (computeds (trackRefValue c s)) c
                  (set_dirty (computeds (trackRefValue c s) c) false)))) /\
  (forall k e c s,
      scheduler (effects s e) = Some (SchedComputed c) ->
      (_dirty (computeds s c) = true ->
       run_scheduler k e s = Some (log s (EvScheduler e), Normal)) /\
      (_dirty (computeds s c) = false ->
       run_scheduler k e s
       = triggerRefValue k c
           (log (with_computeds (log s (EvScheduler e))
                   (upd (computeds s) c (set_dirty (computeds s c) true)))
                (EvInvalidate c))) /\
      (_dirty (computeds s c) = false -> cdep (computeds s c) = None ->
       observe (fun s' => (trace s', _dirty (computeds s' c))) (run_scheduler k e s)
       = Some (trace s ++ [EvScheduler e; EvInvalidate c], true))) /\
  (forall fuel,
      trace_of (exec (call (4 + fuel)) (repeat (AReadComputed 0) 3) computed_init)
      = Some ([EvRun 0], Normal) /\
      trace_of (exec (call (4 + fuel))
                  [AReadComputed 0; AReadComputed 0; write_key0 1;
                   AReadComputed 0; AReadComputed 0] computed_init)
      = Some ([EvRun 0; EvScheduler 0; EvInvalidate 0; EvRun 0], Normal) /\
      trace_of (exec (call (4 + fuel))
                  [ARun 1; ARun 2; ARun 3; write_key0 1] computed_init)
      = Some ([EvRun 1; EvRun 0; EvRun 2; EvRun 3;
               EvScheduler 0; EvInvalidate 0;
               EvRun 1; EvRun 0; EvRun 2; EvRun 3], Normal)).
Proof.
  split; [|split; [|split; [|split; [|split]]]].
  - intros c ec s Cf T. constructor; [exact Cf|]. exists 0. rewrite T. auto.
  - intros c ec fuel prog s s' r M Hn H.
    destruct (exec_memo c ec _ (call_memo c ec fuel) _ _ _ _ Hn M H)
      as [_ [cnt [Hs _]]].
    exists cnt. exact Hs.
  - intros k c n s Hd Hc. destruct (reads_clean k c n s Hd Hc) as [s' [H1 [H2 [H3 _]]]].
    eauto.
  - intros k c s Hd. unfold computed_value. cbv zeta.
    rewrite (proj1 (trackRefValue_dirty c c s)), Hd. reflexivity.
  - intros k e c s Hs. split; [|split].
    + intros Hd. unfold run_scheduler. cbv zeta. rewrite Hs. ssimpl. rewrite Hd. reflexivity.
    + intros Hd. unfold run_scheduler. cbv zeta. rewrite Hs. ssimpl. rewrite Hd. reflexivity.
    + intros Hd Hc. unfold run_scheduler. cbv zeta. rewrite Hs. ssimpl. rewrite Hd.
      cbn [negb]. unfold triggerRefValue. ssimpl. rewrite upd_same. cbn [cdep set_dirty].
      rewrite Hc. cbn [observe]. ssimpl. rewrite upd_same. cbn [_dirty set_dirty].
      rewrite <- app_assoc. reflexivity.
  - intros fuel. split; [|split];
      apply (trace_of_mono 4 (4 + fuel)); try lia; vm_compute; reflexivity.
Qed.

Lemma computed_init_config : MemoConfig 0 0 computed_init.
Proof.
  constructor.
  - reflexivity.
  - reflexivity.
  - intros c'. simpl. destruct c'; [tauto|]. split; [lia|discriminate].
  - intros e. unfold computed_init, init_state, computed_effects. ssimpl.
    destruct e as [|[|[|[|e]]]]; simpl; intuition discriminate.
Qed.

(** Three dependents read the computed value, then the key under it is
    written twice: in the trace, runs of the getter are separated by
    invalidations. *)
Lemma computed_getter_runs_once_per_invalidation_witness :
  match exec (call 4) [ARun 1; ARun 2; ARun 3; write_key0 1; write_key0 2]
             computed_init with
  | Some (s', _) => memoized 0 0 (trace s')
  | None => False
  end.
Proof.
  destruct (exec (call 4) [ARun 1; ARun 2; ARun 3; write_key0 1; write_key0 2]
                 computed_init) as [[s' r]|] eqn:E.
  - apply (proj1 (proj2 computed_getter_runs_once_per_invalidation) 0 0 4
             [ARun 1; ARun 2; ARun 3; write_key0 1; write_key0 2]
             computed_init s' r).
    + apply (proj1 computed_getter_runs_once_per_invalidation);
        [apply computed_init_config|reflexivity].
    + unfold write_key0. simpl. intuition discriminate.
    + exact E.
  - vm_compute in E. discriminate E.
Defined.

(** ** Stopping an effect that is not running *)

Lemma map_at_shrinks f ds :
  (forall d x, In x (subs (f d)) -> In x (subs d)) ->
  forall heap d x, In x (subs (map_at f ds heap d)) -> In x (subs (heap d)).
Proof.
  intros Hf. induction ds as [|d0 ds IH]; intros heap d x H; simpl in H; [exact H|].
  apply IH in H. unfold upd in H. destruct (Nat.eqb d d0) eqn:E; [|exact H].
  apply Nat.eqb_eq in E. subst. apply Hf. exact H.
Qed.

Lemma Detached_same x s s' :
  effects s' = effects s -> depHeap s' = depHeap s -> activeEffect s' = activeEffect s ->
  Detached x s -> Detached x s'.
Proof.
  intros E1 E2 E3 [A B C D M]. constructor; rewrite ?E1, ?E2, ?E3; assumption.
Qed.

Lemma Detached_cleanupEffect x e s : Detached x s -> Detached x (cleanupEffect e s).
Proof.
  intros [A B C D M]. unfold cleanupEffect. constructor; ssimpl.
  - unfold upd. destruct (Nat.eqb_spec x e); [subst; exact A|exact A].
  - unfold upd. destruct (Nat.eqb_spec x e); [reflexivity|exact B].
  - exact C.
  - intros e0. unfold upd. destruct (Nat.eqb_spec e0 e); [subst; apply D|apply D].
  - intros d H. rewrite cleanupEffect_loop_map_at in H.
    apply map_at_shrinks in H; [exact (M d H)|].
    intros d0 y Hy. apply In_dep_delete in Hy. tauto.
Qed.

Lemma Detached_stop x e s : Detached x s -> Detached x (stop e s).
Proof.
  intros Dt. unfold stop. destruct (active (effects s e)); [|exact Dt].
  pose proof (Detached_cleanupEffect x e s Dt) as D1.
  set (s1 := cleanupEffect e s) in *. clearbody s1.
  assert (D2 : Detached x (if onStop (effects s1 e) then log s1 (EvOnStop e) else s1)).
  { destruct (onStop (effects s1 e)); [|exact D1].
    apply (Detached_same x s1); auto. }
  set (s2 := if onStop (effects s1 e) then log s1 (EvOnStop e) else s1) in *.
  clearbody s2. destruct D2 as [A B C D M]. constructor; ssimpl; auto.
  - unfold upd. destruct (Nat.eqb_spec x e); [reflexivity|exact A].
  - unfold upd. destruct (Nat.eqb_spec x e); [subst; exact B|exact B].
  - intros e0. unfold upd. destruct (Nat.eqb_spec e0 e); [subst; apply D|apply D].
Qed.

Lemma Detached_trackEffects x d s : Detached x s -> Detached x (trackEffects d s).
Proof.
  intros Dt. unfold trackEffects. destruct (activeEffect s) as [ae|] eqn:Ea; [|exact Dt].
  assert (Hne : ae <> x).
  { intros ->. apply (dt_not_running _ _ Dt). exact Ea. }
  set (p := if (effectTrackDepth s <=? maxMarkerBits)%Z
            then if negb (newTracked (depHeap s d) (trackOpBit s))
                 then (negb (wasTracked (depHeap s d) (trackOpBit s)),
                       with_depHeap s (upd (depHeap s) d
                          (set_n (depHeap s d) (js_or (dep_n (depHeap s d)) (trackOpBit s)))))
                 else (false, s)
            else (negb (dep_has ae (depHeap s d)), s)).
  assert (D1 : Detached x (snd p)).
  { unfold p. destruct (effectTrackDepth s <=? maxMarkerBits)%Z; [|exact Dt].
    destruct (negb (newTracked (depHeap s d) (trackOpBit s))); [|exact Dt].
    cbn [snd]. destruct Dt as [A B C D M]. constructor; ssimpl; auto.
    intros d0. unfold upd. destruct (Nat.eqb_spec d0 d); [subst; apply M|apply M]. }
  destruct p as [st s1]. simpl in D1. destruct st; [|exact D1].
  destruct D1 as [A B C D M]. constructor; ssimpl; auto.
  - unfold upd. destruct (Nat.eqb_spec x ae); [congruence|exact A].
  - unfold upd. destruct (Nat.eqb_spec x ae); [congruence|exact B].
  - intros e0. unfold upd. destruct (Nat.eqb_spec e0 ae); [subst; apply D|apply D].
  - intros d0. unfold upd. destruct (Nat.eqb_spec d0 d); [subst|apply M].
    intros H. apply In_dep_add in H. destruct H as [H|H]; [exact (M d H)|congruence].
Qed.

Lemma Detached_alloc x s :
  Detached x s ->
  Detached x (with_nextDep
                (with_depHeap s (upd (depHeap s) (nextDep s) (createDep [])))
                (S (nextDep s))).
Proof.
  intros [A B C D M]. constructor; ssimpl; auto.
  intros d. unfold upd. destruct (Nat.eqb_spec d (nextDep s)); [intros []|apply M].
Qed.

Lemma Detached_track x t key s : Detached x s -> Detached x (track t key s).
Proof.
  intros Dt. unfold track. destruct (shouldTrack s && isSome (activeEffect s)); [|exact Dt].
  assert (D1 : Detached x (match targetMap s t with
                           | Some _ => s
                           | None => with_targetMap s (targetMap_set (targetMap s) t [])
                           end)).
  { destruct (targetMap s t); [exact Dt|]. apply (Detached_same x s); auto. }
  set (s1 := match targetMap s t with
             | Some _ => s
             | None => with_targetMap s (targetMap_set (targetMap s) t [])
             end) in *. clearbody s1.
  destruct (depsMap_get _ key).
  - apply Detached_trackEffects. exact D1.
  - cbv zeta. apply Detached_trackEffects.
    apply (Detached_same x
             (with_nextDep
                (with_depHeap s1 (upd (depHeap s1) (nextDep s1) (createDep [])))
                (S (nextDep s1)))); auto.
    apply Detached_alloc. exact D1.
Qed.

Lemma Detached_trackRefValue x c s : Detached x s -> Detached x (trackRefValue c s).
Proof.
  intros Dt. unfold trackRefValue.
  destruct (shouldTrack s && isSome (activeEffect s)); [|exact Dt].
  destruct (cdep (computeds s c)).
  - apply Detached_trackEffects. exact Dt.
  - cbv zeta. apply Detached_trackEffects.
    apply (Detached_same x
             (with_nextDep
                (with_depHeap s (upd (depHeap s) (nextDep s) (createDep [])))
                (S (nextDep s)))); auto.
    apply Detached_alloc. exact Dt.
Qed.

Lemma Detached_run_enter x e s :
  e <> x -> Detached x s -> Detached x (run_enter e s).
Proof.
  intros Hne [A B C D M]. unfold run_enter. cbv zeta.
  set (s3 := with_trackOpBit _ _).
  assert (D3 : Detached x s3).
  { unfold s3. constructor; ssimpl.
    - unfold upd. destruct (Nat.eqb_spec x e); [congruence|exact A].
    - unfold upd. destruct (Nat.eqb_spec x e); [congruence|exact B].
    - congruence.
    - intros e0. unfold upd. destruct (Nat.eqb_spec e0 e); [simpl; exact C|apply D].
    - exact M. }
  clearbody s3. destruct (effectTrackDepth s3 <=? maxMarkerBits)%Z.
  - unfold initDepMarkers. destruct D3 as [A3 B3 C3 D3 M3]. constructor; ssimpl; auto.
    intros d H. rewrite initDepMarkers_loop_map_at in H.
    apply map_at_shrinks in H; [exact (M3 d H)|]. intros d0 y Hy. exact Hy.
  - apply Detached_cleanupEffect. exact D3.
Qed.

Lemma Detached_finalizeDepMarkers x e s :
  e <> x -> Detached x s -> Detached x (finalizeDepMarkers e s).
Proof.
  intros Hne [A B C D M]. rewrite finalizeDepMarkers_eq. constructor; ssimpl.
  - unfold upd. destruct (Nat.eqb_spec x e); [congruence|exact A].
  - unfold upd. destruct (Nat.eqb_spec x e); [congruence|exact B].
  - exact C.
  - intros e0. unfold upd. destruct (Nat.eqb_spec e0 e); [subst; apply D|apply D].
  - intros d H. apply map_at_shrinks in H; [exact (M d H)|].
    intros d0 y Hy. apply finalize_one_subs in Hy. tauto.
Qed.

Lemma Detached_run_finally x e last s :
  e <> x -> Detached x s -> Detached x (run_finally e last s).
Proof.
  intros Hne Dt. unfold run_finally. cbv zeta.
  assert (D1 : Detached x (if (effectTrackDepth s <=? maxMarkerBits)%Z
                           then finalizeDepMarkers e s else s)).
  { destruct (effectTrackDepth s <=? maxMarkerBits)%Z;
      [apply Detached_finalizeDepMarkers; assumption|exact Dt]. }
  set (s1 := if (effectTrackDepth s <=? maxMarkerBits)%Z
             then finalizeDepMarkers e s else s) in *. clearbody s1.
  destruct D1 as [A B C D M]. constructor; ssimpl.
  - unfold upd. destruct (Nat.eqb_spec x e); [congruence|exact A].
  - unfold upd. destruct (Nat.eqb_spec x e); [congruence|exact B].
  - apply D.
  - intros e0. unfold upd. destruct (Nat.eqb_spec e0 e); [simpl; discriminate|apply D].
  - exact M.
Qed.

Section DetachedCall.

Variable x : nat.
Variable k : Call -> State -> Res.
Hypothesis Hk : DetachedSafe x k.

Lemma triggerEffects_detached effs : forall s s' r,
  Detached x s -> triggerEffects k effs s = Some (s', r) -> Detached x s'.
Proof.
  induction effs as [|e effs IH]; intros s s' r Dt H; simpl in H.
  - inversion H; subst. exact Dt.
  - destruct (negb _ || _); [|eapply IH; eauto].
    destruct (if isSome (scheduler (effects s e)) then k (CallScheduler e) s
              else k (CallRun e) s) as [[s1 [|]]|] eqn:E; try discriminate.
    + eapply IH; [|exact H].
      destruct (isSome (scheduler (effects s e))); eapply Hk; eauto.
    + inversion H; subst.
      destruct (isSome (scheduler (effects s e))); eapply Hk; eauto.
Qed.

Lemma trigger_detached t ty key v s s' r :
  Detached x s -> trigger k t ty key v s = Some (s', r) -> Detached x s'.
Proof.
  intros Dt H. unfold trigger in H.
  destruct (targetMap s t); [|inversion H; subst; exact Dt].
  destruct (trigger_deps _ _ _ _ _); [|inversion H; subst; exact Dt].
  eapply triggerEffects_detached; eauto.
Qed.

Lemma computed_value_detached c s s' r :
  Detached x s -> computed_value k c s = Some (s', r) -> Detached x s'.
Proof.
  intros Dt H. unfold computed_value in H. cbv zeta in H.
  pose proof (Detached_trackRefValue x c s Dt) as D1.
  set (s1 := trackRefValue c s) in *. clearbody s1.
  destruct (_dirty (computeds s1 c) || negb (_cacheable (computeds s1 c))).
  - eapply Hk; [|exact H]. apply (Detached_same x s1); auto.
  - inversion H; subst. exact D1.
Qed.

Lemma step_detached a s s' r :
  Detached x s -> step k a s = Some (s', r) -> Detached x s'.
Proof.
  intros Dt H. destruct a; simpl in H.
  - inversion H; subst. apply Detached_track. exact Dt.
  - eapply trigger_detached; eauto.
  - eapply Hk; eauto.
  - inversion H; subst. apply Detached_stop. exact Dt.
  - eapply computed_value_detached; eauto.
  - inversion H; subst. apply (Detached_same x s); auto.
  - inversion H; subst. apply (Detached_same x s); auto.
  - inversion H; subst. unfold resetTracking.
    destruct (rev (trackStack s)); apply (Detached_same x s); auto.
  - inversion H; subst. exact Dt.
Qed.

Lemma exec_detached acts : forall s s' r,
  Detached x s -> exec k acts s = Some (s', r) -> Detached x s'.
Proof.
  induction acts as [|a acts IH]; intros s s' r Dt H; simpl in H.
  - inversion H; subst. exact Dt.
  - destruct (step k a s) as [[s1 [|]]|] eqn:E; try discriminate.
    + eapply IH; [eapply step_detached; eauto|exact H].
    + inversion H; subst. eapply step_detached; eauto.
Qed.

Lemma run_detached fuel e s s' r :
  Detached x s -> run k fuel e s = Some (s', r) -> Detached x s'.
Proof.
  intros Dt H. unfold run in H.
  destruct (active (effects s e)) eqn:Ea; simpl in H.
  - destruct (isAncestor fuel (effects s) (activeEffect s) e) as [[|]|]; try discriminate.
    + inversion H; subst. exact Dt.
    + cbv zeta in H.
      destruct (exec k _ _) as [[s2 c2]|] eqn:Ex; [|discriminate].
      inversion H; subst. clear H.
      assert (Hne : e <> x).
      { intros ->. rewrite (dt_inactive _ _ Dt) in Ea. discriminate. }
      apply Detached_run_finally; [exact Hne|].
      eapply exec_detached; [|exact Ex].
      apply (Detached_same x (run_enter e s)); auto.
      apply Detached_run_enter; assumption.
  - eapply exec_detached; [|exact H]. apply (Detached_same x s); auto.
Qed.

Lemma run_scheduler_detached e s s' r :
  Detached x s -> run_scheduler k e s = Some (s', r) -> Detached x s'.
Proof.
  intros Dt H. unfold run_scheduler in H. cbv zeta in H.
  assert (D0 : Detached x (log s (EvScheduler e))) by (apply (Detached_same x s); auto).
  destruct (scheduler (effects s e)) as [[|c]|]; try (inversion H; subst; exact D0).
  destruct (negb _); [|inversion H; subst; exact D0].
  unfold triggerRefValue in H.
  match type of H with
  | context [cdep (computeds ?st c)] =>
      assert (D1 : Detached x st) by (apply (Detached_same x s); auto)
  end.
  destruct (cdep _); [eapply triggerEffects_detached; eauto|inversion H; subst; exact D1].
Qed.

Lemma call_body_detached fuel : DetachedSafe x (call_body k fuel).
Proof.
  intros c s s' r Dt H. destruct c; simpl in H.
  - eapply run_detached; eauto.
  - eapply run_scheduler_detached; eauto.
Qed.

End DetachedCall.

Lemma call_detached x fuel : DetachedSafe x (call fuel).
Proof.
  induction fuel as [|f IH].
  - intros c s s' r _ H. discriminate.
  - simpl. apply call_body_detached. exact IH.
Qed.

Lemma runs_of_app x tr tr' : runs_of x (tr ++ tr') = runs_of x tr + runs_of x tr'.
Proof. unfold runs_of. rewrite filter_app, length_app. reflexivity. Qed.

Lemma Retired_Quiet x n s s' :
  Quiet s s' -> Detached x s' -> Retired x n s -> Retired x n s'.
Proof.
  intros [T Dd Cc Ce Sc F] Dt [_ Hf Hc Hr]. constructor.
  - exact Dt.
  - intros e. rewrite F. apply Hf.
  - intros c. rewrite Ce. apply Hc.
  - destruct T as [T|[e T]]; rewrite T; [exact Hr|].
    rewrite runs_of_app, Hr. unfold runs_of. simpl. lia.
Qed.

Lemma Retired_log x n s ev :
  ev <> EvRun x -> Retired x n s -> Retired x n (log s ev).
Proof.
  intros Hev [Dt Hf Hc Hr]. constructor; ssimpl; auto.
  - apply (Detached_same x s); auto.
  - rewrite runs_of_app, Hr. unfold runs_of. simpl.
    destruct ev as [e| | |]; simpl; try lia.
    destruct (Nat.eqb_spec e x); [congruence|simpl; lia].
Qed.

Lemma Retired_computeds x n s cs :
  (forall c, ceffect (cs c) = ceffect (computeds s c)) ->
  Retired x n s -> Retired x n (with_computeds s cs).
Proof.
  intros H [Dt Hf Hc Hr]. constructor; ssimpl; auto.
  - apply (Detached_same x s); auto.
  - intros c. rewrite H. apply Hc.
Qed.

Lemma In_createDep x l : In x (subs (createDep l)) -> In x l.
Proof.
  unfold createDep.
  assert (G : forall l d, In x (subs (fold_left (fun d e => dep_add e d) l d)) ->
                          In x (subs d) \/ In x l).
  { clear l. induction l as [|e l IH]; intros d H; simpl in H; [now left|].
    apply IH in H. destruct H as [H|H]; [|right; now right].
    apply In_dep_add in H. destruct H as [H|H]; [now left|right; left; auto]. }
  intros H. apply G in H. destruct H as [[]|H]. exact H.
Qed.

Lemma In_trigger_effects_of x heap ds :
  In x (trigger_effects_of heap ds) -> exists d, In x (subs (heap d)).
Proof.
  assert (G : In x (subs (createDep
                (flat_map (fun d => match d with
                                    | Some d' => subs (heap d')
                                    | None => []
                                    end) ds))) -> exists d, In x (subs (heap d))).
  { intros H. apply In_createDep in H. apply in_flat_map in H.
    destruct H as [[d|] [_ H]]; [eauto|destruct H]. }
  unfold trigger_effects_of. destruct ds as [|[d|] [|d2 ds]]; try exact G.
  intros H. exists d. exact H.
Qed.

Section RetiredCall.

Variables x n : nat.
Variable k : Call -> State -> Res.
Hypothesis Hk : RetiredSafe x n k.

Lemma triggerEffects_retired effs : forall s s' r,
  ~ In x effs ->
  Retired x n s -> triggerEffects k effs s = Some (s', r) -> Retired x n s'.
Proof.
  induction effs as [|e effs IH]; intros s s' r Hn R H; simpl in H.
  - inversion H; subst. exact R.
  - assert (He : e <> x) by (intro; subst; apply Hn; now left).
    assert (Hn' : ~ In x effs) by (intro; apply Hn; now right).
    destruct (negb _ || _); [|eapply IH; eauto].
    assert (Hcall : forall s1 c1,
      (if isSome (scheduler (effects s e)) then k (CallScheduler e) s
       else k (CallRun e) s) = Some (s1, c1) -> Retired x n s1).
    { intros s1 c1 E. destruct (isSome (scheduler (effects s e))).
      - apply (Hk (CallScheduler e) s s1 c1); [discriminate|exact R|exact E].
      - apply (Hk (CallRun e) s s1 c1); [congruence|exact R|exact E]. }
    destruct (if isSome (scheduler (effects s e)) then k (CallScheduler e) s
              else k (CallRun e) s) as [[s1 [|]]|] eqn:E; try discriminate.
    + eapply IH; [exact Hn'|eapply Hcall; reflexivity|exact H].
    + inversion H; subst. eapply Hcall; reflexivity.
Qed.

Lemma trigger_retired t ty key v s s' r :
  Retired x n s -> trigger k t ty key v s = Some (s', r) -> Retired x n s'.
Proof.
  intros R H. unfold trigger in H.
  destruct (targetMap s t); [|inversion H; subst; exact R].
  destruct (trigger_deps _ _ _ _ _) as [ds|]; [|inversion H; subst; exact R].
  eapply triggerEffects_retired; [|exact R|exact H].
  intros Hin. apply In_trigger_effects_of in Hin. destruct Hin as [d0 Hin].
  exact (dt_no_member _ _ (rt_detached _ _ _ R) d0 Hin).
Qed.

Lemma computed_value_retired c s s' r :
  Retired x n s -> computed_value k c s = Some (s', r) -> Retired x n s'.
Proof.
  intros R H. unfold computed_value in H. cbv zeta in H.
  assert (R1 : Retired x n (trackRefValue c s)).
  { apply (Retired_Quiet x n s); [apply Quiet_trackRefValue| |exact R].
    apply Detached_trackRefValue. exact (rt_detached _ _ _ R). }
  set (s1 := trackRefValue c s) in *. clearbody s1.
  destruct (_dirty (computeds s1 c) || negb (_cacheable (computeds s1 c))).
  - eapply Hk; [| |exact H].
    + intros E. inversion E. exact (rt_ceffect _ _ _ R1 c H1).
    + apply Retired_computeds; [|exact R1].
      intros c'. unfold upd. destruct (Nat.eqb_spec c' c); [subst|]; reflexivity.
  - inversion H; subst. exact R1.
Qed.

Lemma step_retired a s s' r :
  a <> ARun x ->
  Retired x n s -> step k a s = Some (s', r) -> Retired x n s'.
Proof.
  intros Ha R H. pose proof (rt_detached _ _ _ R) as Dt. destruct a; simpl in H.
  - inversion H; subst.
    apply (Retired_Quiet x n s); [apply Quiet_track|apply Detached_track; exact Dt|exact R].
  - eapply trigger_retired; eauto.
  - eapply Hk; [|exact R|exact H]. congruence.
  - inversion H; subst.
    apply (Retired_Quiet x n s); [apply Quiet_stop|apply Detached_stop; exact Dt|exact R].
  - eapply computed_value_retired; eauto.
  - inversion H; subst.
    apply (Retired_Quiet x n s);
      [apply Quiet_same; reflexivity|apply (Detached_same x s); auto|exact R].
  - inversion H; subst.
    apply (Retired_Quiet x n s);
      [apply Quiet_same; reflexivity|apply (Detached_same x s); auto|exact R].
  - inversion H; subst. unfold resetTracking.
    destruct (rev (trackStack s));
      (apply (Retired_Quiet x n s);
       [apply Quiet_same; reflexivity|apply (Detached_same x s); auto|exact R]).
  - inversion H; subst. exact R.
Qed.

Lemma exec_retired acts : forall s s' r,
  ~ In (ARun x) acts ->
  Retired x n s -> exec k acts s = Some (s', r) -> Retired x n s'.
Proof.
  induction acts as [|a acts IH]; intros s s' r Hn R H; simpl in H.
  - inversion H; subst. exact R.
  - assert (Ha : a <> ARun x) by (intro; subst; apply Hn; now left).
    assert (Hn' : ~ In (ARun x) acts) by (intro; apply Hn; now right).
    destruct (step k a s) as [[s1 [|]]|] eqn:E; try discriminate.
    + eapply IH; [exact Hn'|eapply step_retired; eauto|exact H].
    + inversion H; subst. eapply step_retired; eauto.
Qed.

Lemma run_retired fuel e s s' r :
  e <> x ->
  Retired x n s -> run k fuel e s = Some (s', r) -> Retired x n s'.
Proof.
  intros Hne R H. unfold run in H.
  assert (Hev : EvRun e <> EvRun x) by congruence.
  destruct (negb (active (effects s e))).
  - eapply exec_retired; [|apply Retired_log; [exact Hev|exact R]|exact H].
    apply (rt_fn _ _ _ R).
  - destruct (isAncestor fuel (effects s) (activeEffect s) e) as [[|]|]; try discriminate.
    + inversion H; subst. exact R.
    + cbv zeta in H.
      destruct (exec k _ _) as [[s2 c2]|] eqn:Ex; [|discriminate].
      inversion H; subst. clear H.
      assert (R1 : Retired x n (run_enter e s)).
      { apply (Retired_Quiet x n s); [apply Quiet_run_enter| |exact R].
        apply Detached_run_enter; [exact Hne|exact (rt_detached _ _ _ R)]. }
      assert (R2 : Retired x n s2).
      { eapply exec_retired; [|apply Retired_log; [exact Hev|exact R1]|exact Ex].
        apply (rt_fn _ _ _ R1). }
      apply (Retired_Quiet x n s2); [apply Quiet_run_finally| |exact R2].
      apply Detached_run_finally; [exact Hne|exact (rt_detached _ _ _ R2)].
Qed.

Lemma run_scheduler_retired e s s' r :
  Retired x n s -> run_scheduler k e s = Some (s', r) -> Retired x n s'.
Proof.
  intros R H. unfold run_scheduler in H. cbv zeta in H.
  assert (R0 : Retired x n (log s (EvScheduler e)))
    by (apply Retired_log; [discriminate|exact R]).
  set (s0 := log s (EvScheduler e)) in *.
  assert (Es : scheduler (effects s e) = scheduler (effects s0 e)) by reflexivity.
  rewrite Es in H. clearbody s0. clear Es.
  destruct (scheduler (effects s0 e)) as [[|c]|]; try (inversion H; subst; exact R0).
  destruct (negb (_dirty (computeds s0 c))); [|inversion H; subst; exact R0].
  assert (R1 : Retired x n
           (log (with_computeds s0 (upd (computeds s0) c (set_dirty (computeds s0 c) true)))
                (EvInvalidate c))).
  { apply Retired_log; [discriminate|]. apply Retired_computeds; [|exact R0].
    intros c'. unfold upd. destruct (Nat.eqb_spec c' c); [subst|]; reflexivity. }
  unfold triggerRefValue in H.
  destruct (cdep _) as [d|]; [|inversion H; subst; exact R1].
  eapply triggerEffects_retired; [|exact R1|exact H].
  apply (dt_no_member _ _ (rt_detached _ _ _ R1) d).
Qed.

Lemma call_body_retired fuel : RetiredSafe x n (call_body k fuel).
Proof.
  intros c s s' r Hc R H. destruct c; simpl in H.
  - eapply run_retired; [|exact R|exact H]. congruence.
  - eapply run_scheduler_retired; eauto.
Qed.

End RetiredCall.

Lemma call_retired x n fuel : RetiredSafe x n (call fuel).
Proof.
  induction fuel as [|f IH].
  - intros c s s' r _ _ H. discriminate.
  - simpl. apply call_body_retired. exact IH.
Qed.

Lemma Chain_parent_in efs a l :
  Chain efs a l -> forall e p, In e l -> parent (efs e) = Some p -> In p l.
Proof.
  induction 1 as [|e0 l C IH]; intros e p Hin Hp; [destruct Hin|].
  destruct Hin as [<-|Hin].
  - apply Chain_head in C. rewrite Hp in C. destruct l as [|q l']; [discriminate|].
    inversion C; subst. right. now left.
  - right. eapply IH; eauto.
Qed.

Lemma Detached_after_stop x s l :
  WF s l -> ~ In x l -> active (effects s x) = true -> Detached x (stop x s).
Proof.
  intros W Hx Ha.
  destruct (stop_detaches x s l W) as [A H]. destruct (H Ha) as [B [M _]].
  destruct (Restored_stop x s) as [Ra _ _ Rp].
  constructor; auto.
  - rewrite Ra. intros E. apply Hx.
    pose proof (Chain_head _ _ _ (wf_chain _ _ W)) as Hh. rewrite E in Hh.
    destruct l as [|q l']; [discriminate|]. inversion Hh; subst. now left.
  - intros e E. rewrite Rp in E. apply Hx.
    destruct (in_dec Nat.eq_dec e l) as [Hin|Hout].
    + exact (Chain_parent_in _ _ _ (wf_chain _ _ W) e x Hin E).
    + rewrite (wf_parent _ _ W e Hout) in E. discriminate.
Qed.

(** X1: [stop] on an active effect that is not running detaches it for
    good.  Whatever program follows, as long as nothing calls the runner of
    the effect directly and no computed value has it as its getter effect,
    the effect stays inactive, its list of entries stays empty, no entry has
    it as a member, and its function is not called again: no write re-runs
    it. *)
Theorem stopped_idle_effect_is_never_run_again :
  forall x fuel prog s l s' r,
    WF s l -> ~ In x l -> active (effects s x) = true ->
    (forall e, ~ In (ARun x) (fn (effects s e))) ->
    (forall c, ceffect (computeds s c) <> x) ->
    ~ In (ARun x) prog ->
    exec (call fuel) prog (stop x s) = Some (s', r) ->
    active (effects s' x) = false /\
    deps (effects s' x) = [] /\
    (forall d, ~ In x (subs (depHeap s' d))) /\
    runs_of x (trace s') = runs_of x (trace s).
Proof.
  intros x fuel prog s l s' r W Hx Ha Hf Hc Hp H.
  assert (R : Retired x (runs_of x (trace s)) (stop x s)).
  { destruct (Quiet_stop x s) as [T _ _ Ce _ F]. constructor.
    - eapply Detached_after_stop; eauto.
    - intros e. rewrite F. apply Hf.
    - intros c. rewrite Ce. apply Hc.
    - destruct T as [T|[e T]]; rewrite T; [reflexivity|].
      rewrite runs_of_app. unfold runs_of at 2. simpl. lia. }
  pose proof (exec_retired x _ (call fuel) (call_retired x _ fuel) prog _ _ _ Hp R H)
    as [[A B _ _ M] _ _ Hr].
  auto.
Qed.

(** Effect 0 has run and is stopped; the write to a key it had read does
    not call its function. *)
Lemma stopped_idle_effect_is_never_run_again_witness :
  runs_of 0 (trace (state_of
                      (exec (call 2) [ATrigger obj0 SET (Some (KName 0)) (Some 1%Z)]
                         (stop 0 (state_of (exec (call 2) [ARun 0] idle_stop_init)
                                           idle_stop_init)))
                      idle_stop_init))
  = runs_of 0 (trace (state_of (exec (call 2) [ARun 0] idle_stop_init) idle_stop_init)).
Proof.
  assert (W0 : WF idle_stop_init []).
  { apply WF_init; [|reflexivity].
    intros e. unfold two_key_effects. destruct e as [|[|e]]; split; reflexivity. }
  destruct (exec (call 2) [ARun 0] idle_stop_init) as [[s0 r0]|] eqn:E0;
    [|vm_compute in E0; discriminate E0].
  assert (W : WF s0 []) by (exact (proj1 (exec_safe _ (call_safe 2) _ _ _ _ _ W0 E0))).
  assert (Es : s0 = state_of (exec (call 2) [ARun 0] idle_stop_init) idle_stop_init)
    by (rewrite E0; reflexivity).
  cbn [state_of].
  destruct (exec (call 2) [ATrigger obj0 SET (Some (KName 0)) (Some 1%Z)] (stop 0 s0))
    as [[s' r]|] eqn:E.
  - cbn [state_of].
    apply (stopped_idle_effect_is_never_run_again 0 2
             [ATrigger obj0 SET (Some (KName 0)) (Some 1%Z)] s0 [] s' r W).
    + intros [].
    + rewrite Es. vm_compute. reflexivity.
    + intros e. rewrite Es.
      destruct e as [|[|e]]; vm_compute; intros H;
        repeat (destruct H as [H|H]; [discriminate H|]); exact H.
    + intros c. rewrite Es. vm_compute. discriminate.
    + intros [H|[]]. discriminate H.
    + exact E.
  - rewrite Es in E. vm_compute in E. discriminate E.
Defined.

(** ** Tracking the same key twice *)

Lemma target_eqb_refl t : target_eqb t t = true.
Proof.
  unfold target_eqb. rewrite Nat.eqb_refl. destruct (t_kind t); reflexivity.
Qed.

Lemma target_eqb_eq a b : target_eqb a b = true -> a = b.
Proof.
  destruct a as [ka ia], b as [kb ib]. unfold target_eqb. cbn [t_kind t_id].
  intros H. apply andb_prop in H. destruct H as [E1 E2].
  apply Nat.eqb_eq in E2. subst ib.
  destruct ka, kb; try discriminate E1; reflexivity.
Qed.

Lemma key_eqb_refl k : key_eqb k k = true.
Proof. destruct k; simpl; auto using N.eqb_refl, Nat.eqb_refl. Qed.

Lemma depsMap_get_app_new m k d :
  depsMap_get m k = None -> depsMap_get (m ++ [(k, d)]) k = Some d.
Proof.
  induction m as [|[k' d'] m IH]; simpl; intros H.
  - rewrite key_eqb_refl. reflexivity.
  - destruct (key_eqb k' k); [discriminate|auto].
Qed.

Lemma newTracked_after_or n bit k :
  (1 <= k <= 30)%Z -> bit = js_shl 1 k ->
  (0 <? js_and (js_or n bit) bit)%Z = true.
Proof.
  intros Hk ->. rewrite js_shl_pow2 by lia.
  rewrite tracked_testbit by lia. rewrite js_or_testbit by lia.
  rewrite Z.eqb_refl. apply orb_true_r.
Qed.

(** Within a state of a run, [trackEffects] of a dep that has just been
    tracked changes nothing. *)
Lemma trackEffects_twice d s :
  (isSome (activeEffect s) = true ->
   (1 <= effectTrackDepth s)%Z /\ trackOpBit s = js_shl 1 (effectTrackDepth s)) ->
  trackEffects d (trackEffects d s) = trackEffects d s.
Proof.
  intros W. unfold trackEffects at 2 3.
  destruct (activeEffect s) as [ae|] eqn:Ea.
  2:{ unfold trackEffects. rewrite Ea. reflexivity. }
  destruct (W eq_refl) as [Hl Hb].
  destruct (effectTrackDepth s <=? maxMarkerBits)%Z eqn:Ed.
  - apply Z.leb_le in Ed. unfold maxMarkerBits in Ed.
    destruct (negb (newTracked (depHeap s d) (trackOpBit s))) eqn:En.
    + set (s1 := with_depHeap s (upd (depHeap s) d
                   (set_n (depHeap s d) (js_or (dep_n (depHeap s d)) (trackOpBit s))))).
      assert (N1 : newTracked (depHeap s1 d) (trackOpBit s1) = true).
      { unfold s1, newTracked. ssimpl. rewrite upd_same. cbn [dep_n set_n].
        apply (newTracked_after_or _ _ (effectTrackDepth s)); [lia|exact Hb]. }
      destruct (negb (wasTracked (depHeap s d) (trackOpBit s))).
      * match goal with |- trackEffects d ?s2 = _ => set (s2v := s2) end.
        assert (N2 : newTracked (depHeap s2v d) (trackOpBit s2v) = true).
        { unfold s2v, newTracked. ssimpl. rewrite upd_same.
          rewrite dep_add_n. exact N1. }
        unfold trackEffects.
        assert (Ea2 : activeEffect s2v = Some ae) by exact Ea.
        assert (Ed2 : (effectTrackDepth s2v <=? maxMarkerBits)%Z = true)
          by (apply Z.leb_le; unfold maxMarkerBits; exact Ed).
        rewrite Ea2, Ed2, N2. reflexivity.
      * unfold trackEffects.
        assert (Ea2 : activeEffect s1 = Some ae) by exact Ea.
        assert (Ed2 : (effectTrackDepth s1 <=? maxMarkerBits)%Z = true)
          by (apply Z.leb_le; unfold maxMarkerBits; exact Ed).
        rewrite Ea2, Ed2, N1. reflexivity.
    + unfold trackEffects. rewrite Ea.
      assert (Ed2 : (effectTrackDepth s <=? maxMarkerBits)%Z = true)
        by (apply Z.leb_le; unfold maxMarkerBits; exact Ed).
      rewrite Ed2, En. reflexivity.
  - destruct (negb (dep_has ae (depHeap s d))) eqn:Eh.
    + match goal with |- trackEffects d ?s2 = _ => set (s2v := s2) end.
      unfold trackEffects.
      assert (Ea2 : activeEffect s2v = Some ae) by exact Ea.
      assert (Ed2 : (effectTrackDepth s2v <=? maxMarkerBits)%Z = false) by exact Ed.
      assert (H2 : dep_has ae (depHeap s2v d) = true).
      { unfold s2v. ssimpl. rewrite upd_same. apply dep_has_In. apply In_dep_add. now right. }
      rewrite Ea2, Ed2, H2. reflexivity.
    + unfold trackEffects. rewrite Ea, Ed, Eh. reflexivity.
Qed.

Lemma WF_bit_ok s l :
  WF s l ->
  isSome (activeEffect s) = true ->
  (1 <= effectTrackDepth s)%Z /\ trackOpBit s = js_shl 1 (effectTrackDepth s).
Proof.
  intros W Ha. split; [|exact (wf_bit _ _ W)].
  rewrite (wf_depth _ _ W). pose proof (Chain_head _ _ _ (wf_chain _ _ W)) as Hh.
  destruct l; [rewrite Hh in Ha; discriminate|]. simpl length. lia.
Qed.

Lemma trackEffects_frame d s :
  targetMap (trackEffects d s) = targetMap s /\
  shouldTrack (trackEffects d s) = shouldTrack s /\
  activeEffect (trackEffects d s) = activeEffect s.
Proof.
  unfold trackEffects. destruct (activeEffect s) eqn:Ea; [|auto].
  destruct (effectTrackDepth s <=? maxMarkerBits)%Z.
  - destruct (negb (newTracked _ _)); [destruct (negb (wasTracked _ _))|]; ssimpl; auto.
  - destruct (negb (dep_has _ _)); ssimpl; auto.
Qed.

Lemma track_found t k s m d :
  shouldTrack s && isSome (activeEffect s) = true ->
  targetMap s t = Some m -> depsMap_get m k = Some d ->
  track t k s = trackEffects d s.
Proof. intros H Hm Hd. unfold track. rewrite H, Hm, Hd. reflexivity. Qed.

(** X2: in any state the runtime reaches, tracking a key that has just been
    tracked changes nothing: the second [track] finds the entry marked as
    newly tracked (or, beyond the cap of 30 levels, finds the effect in it)
    and leaves the state as it is. *)
Theorem track_twice_is_track_once t k s l :
  WF s l -> track t k (track t k s) = track t k s.
Proof.
  intros W. pose proof (WF_bit_ok s l W) as B.
  unfold track at 2 3.
  destruct (shouldTrack s && isSome (activeEffect s)) eqn:E.
  2:{ unfold track. rewrite E. reflexivity. }
  destruct (targetMap s t) as [m|] eqn:Em.
  - destruct (depsMap_get m k) as [d|] eqn:Ed.
    + destruct (trackEffects_frame d s) as [F1 [F2 F3]].
      rewrite (track_found t k _ m d); [apply trackEffects_twice; exact B| |congruence|exact Ed].
      rewrite F2, F3. exact E.
    + cbv zeta.
      match goal with |- track t k (trackEffects ?d0 ?s3) = _ =>
        set (s3v := s3); set (dv := d0) end.
      destruct (trackEffects_frame dv s3v) as [F1 [F2 F3]].
      rewrite (track_found t k _ (m ++ [(k, dv)]) dv).
      * apply trackEffects_twice. exact B.
      * rewrite F2, F3. exact E.
      * rewrite F1. unfold s3v. ssimpl. unfold targetMap_set.
        rewrite target_eqb_refl. reflexivity.
      * apply depsMap_get_app_new. exact Ed.
  - cbv zeta. cbn [depsMap_get]. cbv iota.
    match goal with |- track t k (trackEffects ?d0 ?s3) = _ =>
      set (s3v := s3); set (dv := d0) end.
    destruct (trackEffects_frame dv s3v) as [F1 [F2 F3]].
    rewrite (track_found t k _ ([] ++ [(k, dv)]) dv).
    + apply trackEffects_twice. exact B.
    + rewrite F2, F3. exact E.
    + rewrite F1. unfold s3v. ssimpl. unfold targetMap_set.
      rewrite target_eqb_refl. reflexivity.
    + simpl. rewrite key_eqb_refl. reflexivity.
Qed.

(** ** What a run subscribes to *)

Lemma depsMap_get_app_old m k k' d d' :
  depsMap_get m k' = Some d' -> depsMap_get (m ++ [(k, d)]) k' = Some d'.
Proof.
  induction m as [|[k0 d0] m IH]; simpl; intros H; [discriminate|].
  destruct (key_eqb k0 k'); [exact H|auto].
Qed.

Lemma map_Some_all {A B} (f : A -> option B) l ds :
  map f l = map Some ds -> forall x, In x l -> exists d, f x = Some d /\ In d ds.
Proof.
  revert ds. induction l as [|a l IH]; intros ds H x Hx; [destruct Hx|].
  destruct ds as [|d ds]; [discriminate|]. simpl in H. inversion H.
  destruct Hx as [<-|Hx]; [exists d; split; [assumption|now left]|].
  destruct (IH ds H2 x Hx) as [d' [E I]]. exists d'. split; [exact E|now right].
Qed.

Lemma map_Some_any {A B} (f : A -> option B) l ds :
  map f l = map Some ds -> forall d, In d ds -> exists x, In x l /\ f x = Some d.
Proof.
  revert ds. induction l as [|a l IH]; intros ds H d Hd.
  - destruct ds; [destruct Hd|discriminate].
  - destruct ds as [|d0 ds]; [discriminate|]. simpl in H. inversion H.
    destruct Hd as [<-|Hd]; [exists a; split; [now left|assumption]|].
    destruct (IH ds H2 d Hd) as [x [I E]]. exists x. split; [now right|exact E].
Qed.

Lemma testbit_after_or n k :
  (1 <= k <= 30)%Z -> Z.testbit (js_or n (2 ^ k)) k = true.
Proof.
  intros Hk. rewrite js_or_testbit by lia. rewrite Z.eqb_refl. apply orb_true_r.
Qed.

Lemma trackEffects_collect e k D0 done ds s t key d :
  (1 <= k <= 30)%Z ->
  Collecting e k D0 done ds s ->
  dep_of s t key = Some d ->
  Collecting e k D0 (done ++ [(t, key)]) (ds ++ [d]) (trackEffects d s).
Proof.
  intros Hk C Hd. destruct C as [Ca Ct Cd Cb Cn Cw Cds Cnd Cdn Cfo Cfn Cfm].
  assert (Hdone : forall s', targetMap s' = targetMap s ->
            map (fun tk => dep_of s' (fst tk) (snd tk)) (done ++ [(t, key)])
            = map Some (ds ++ [d])).
  { intros s' E. rewrite !map_app. simpl. unfold dep_of in *. rewrite E.
    rewrite Cdn. unfold dep_of in Hd. rewrite Hd. reflexivity. }
  assert (Hfn : forall d', In d' (ds ++ [d]) -> d' < nextDep s).
  { intros d' H. apply in_app_iff in H. destruct H as [H|[<-|[]]]; [auto|].
    unfold dep_of in Hd. destruct (targetMap s t) as [m|] eqn:Em; [|discriminate].
    destruct (depsMap_get_In _ _ _ Hd) as [k' Hin]. eapply Cfm; eauto. }
  unfold trackEffects. rewrite Ca.
  assert (Ed : (effectTrackDepth s <=? maxMarkerBits)%Z = true)
    by (apply Z.leb_le; unfold maxMarkerBits; lia).
  rewrite Ed. unfold newTracked, wasTracked. rewrite Cb.
  rewrite !tracked_testbit by lia.
  destruct (Z.testbit (dep_n (depHeap s d)) k) eqn:En; simpl.
  - assert (Hin : In d ds) by (apply Cn; exact En).
    constructor; auto.
    + intros d'. rewrite Cn, in_app_iff. simpl. intuition (subst; auto).
    + intros d'. rewrite Cds, in_app_iff. simpl. intuition (subst; auto).
  - assert (Hn' : forall d', Z.testbit (dep_n (upd (depHeap s) d
                      (set_n (depHeap s d) (js_or (dep_n (depHeap s d)) (2 ^ k))) d')) k = true
                    <-> In d' (ds ++ [d])).
    { intros d'. unfold upd. rewrite in_app_iff. destruct (Nat.eqb_spec d' d).
      - subst. cbn [dep_n set_n]. rewrite testbit_after_or by lia. simpl. tauto.
      - rewrite Cn. simpl. intuition congruence. }
    assert (Hw' : forall d', Z.testbit (dep_w (upd (depHeap s) d
                      (set_n (depHeap s d) (js_or (dep_n (depHeap s d)) (2 ^ k))) d')) k = true
                    <-> In d' D0).
    { intros d'. unfold upd. destruct (Nat.eqb_spec d' d); [subst|]; apply Cw. }
    destruct (Z.testbit (dep_w (depHeap s d)) k) eqn:Ew; simpl.
    + assert (Hin : In d D0) by (apply Cw; exact Ew).
      constructor; ssimpl; auto.
      intros d'. rewrite Cds, in_app_iff. simpl. intuition (subst; auto).
    + assert (Hnot : ~ In d (deps (effects s e))).
      { intros H. apply Cds in H. destruct H as [H|H].
        - apply Cw in H. congruence.
        - apply Cn in H. congruence. }
      constructor; ssimpl; auto.
      * intros d'. rewrite <- Hn'.
        destruct (Nat.eqb_spec d' d); [subst|rewrite (upd_other _ d d') by auto; reflexivity].
        rewrite !upd_same, dep_add_n. reflexivity.
      * intros d'. rewrite <- Hw'.
        destruct (Nat.eqb_spec d' d); [subst|rewrite (upd_other _ d d') by auto; reflexivity].
        rewrite !upd_same, dep_add_w. reflexivity.
      * intros d'. rewrite upd_same. cbn [deps set_deps].
        rewrite !in_app_iff, Cds. simpl. tauto.
      * rewrite upd_same. cbn [deps set_deps]. apply NoDup_app; [exact Cnd| |].
        -- constructor; [intros []|constructor].
        -- intros x Hx [<-|[]]. exact (Hnot Hx).
Qed.

(** A new entry for a key without one: the state still collects, and the
    key has the new entry. *)
Lemma alloc_collect e k D0 done ds s t key m :
  (0 <= k)%Z ->
  Collecting e k D0 done ds s ->
  (targetMap s t = Some m \/ (targetMap s t = None /\ m = [])) ->
  depsMap_get m key = None ->
  let d := nextDep s in
  let s2 := with_nextDep (with_depHeap s (upd (depHeap s) d (createDep []))) (S d) in
  let s3 := with_targetMap s2 (targetMap_set (targetMap s2) t (m ++ [(key, d)])) in
  Collecting e k D0 done ds s3 /\ dep_of s3 t key = Some d.
Proof.
  intros Hk C Hm Hg d s2 s3.
  destruct C as [Ca Ct Cd Cb Cn Cw Cds Cnd Cdn Cfo Cfn Cfm].
  assert (Hsame : forall t' k', dep_of s t' k' <> None -> dep_of s3 t' k' = dep_of s t' k').
  { intros t' k' H. unfold dep_of in *. unfold s3, s2. ssimpl. unfold targetMap_set.
    destruct (target_eqb t' t) eqn:Et; [|reflexivity].
    assert (t' = t) by (apply target_eqb_eq; exact Et).
    subst t'. destruct Hm as [Hm|[Hm ->]]; rewrite Hm in H |- *; [|congruence].
    destruct (depsMap_get m k') eqn:E; [|congruence].
    eapply depsMap_get_app_old. exact E. }
  split.
  - constructor; unfold s3, s2; ssimpl;
      [exact Ca|exact Ct|exact Cd|exact Cb| | |exact Cds|exact Cnd| | | |].
    + intros d'. rewrite <- Cn. unfold upd. destruct (Nat.eqb_spec d' d); [|reflexivity].
      subst d'. simpl. rewrite Z.testbit_0_l. split; [discriminate|].
      intros H. apply Cn, Cfn in H. unfold d in H. lia.
    + intros d'. rewrite <- Cw. unfold upd. destruct (Nat.eqb_spec d' d); [|reflexivity].
      subst d'. simpl. rewrite Z.testbit_0_l. split; [discriminate|].
      intros H. apply Cw, Cfo in H. unfold d in H. lia.
    + rewrite <- Cdn. apply map_ext_in. intros tk Htk.
      apply Hsame. destruct (map_Some_all _ _ _ Cdn tk Htk) as [d' [E _]]. congruence.
    + intros d' H. apply Nat.lt_lt_succ_r. auto.
    + intros d' H. apply Nat.lt_lt_succ_r. auto.
    + intros t' m' key' d' H Hin. unfold targetMap_set in H.
      destruct (target_eqb t' t).
      * inversion H; subst. apply in_app_iff in Hin. destruct Hin as [Hin|[Hin|[]]].
        -- destruct Hm as [Hm|[_ ->]]; [|destruct Hin].
           apply Nat.lt_lt_succ_r. eapply Cfm; eauto.
        -- inversion Hin. unfold d. lia.
      * apply Nat.lt_lt_succ_r. eapply Cfm; eauto.
  - unfold dep_of, s3, s2. ssimpl. unfold targetMap_set. rewrite target_eqb_refl.
    apply depsMap_get_app_new. exact Hg.
Qed.

Lemma track_collect e k D0 done ds s t key :
  (1 <= k <= 30)%Z ->
  Collecting e k D0 done ds s ->
  exists d, Collecting e k D0 (done ++ [(t, key)]) (ds ++ [d]) (track t key s).
Proof.
  intros Hk C. unfold track.
  rewrite (cl_track _ _ _ _ _ _ C), (cl_active _ _ _ _ _ _ C). simpl.
  destruct (targetMap s t) as [m|] eqn:Em.
  - destruct (depsMap_get m key) as [d|] eqn:Ed.
    + exists d. apply trackEffects_collect; [exact Hk|exact C|].
      unfold dep_of. rewrite Em. exact Ed.
    + exists (nextDep s).
      destruct (alloc_collect e k D0 done ds s t key m) as [C3 E3];
        [lia|exact C|left; exact Em|exact Ed|].
      apply trackEffects_collect; [exact Hk|exact C3|exact E3].
  - exists (nextDep s).
    assert (C1 : Collecting e k D0 done ds
                   (with_targetMap s (targetMap_set (targetMap s) t []))).
    { destruct C as [Ca Ct Cd Cb Cn Cw Cds Cnd Cdn Cfo Cfn Cfm].
      constructor; ssimpl;
        [exact Ca|exact Ct|exact Cd|exact Cb|exact Cn|exact Cw|exact Cds|exact Cnd|
         |exact Cfo|exact Cfn|].
      - rewrite <- Cdn. apply map_ext_in. intros tk Htk.
        destruct (map_Some_all _ _ _ Cdn tk Htk) as [d' [E _]].
        unfold dep_of in *. ssimpl. unfold targetMap_set.
        destruct (target_eqb (fst tk) t) eqn:Et; [|reflexivity].
        assert (fst tk = t) by (apply target_eqb_eq; exact Et).
        rewrite H, Em in E. discriminate.
      - intros t' m' key' d' H Hin. unfold targetMap_set in H.
        destruct (target_eqb t' t); [inversion H; subst; destruct Hin|].
        eapply Cfm; eauto. }
    set (s1 := with_targetMap s (targetMap_set (targetMap s) t [])) in *.
    assert (E1 : targetMap s1 t = Some []).
    { unfold s1. ssimpl. unfold targetMap_set. rewrite target_eqb_refl. reflexivity. }
    destruct (alloc_collect e k D0 done ds s1 t key []) as [C3 E3];
      [lia|exact C1|left; exact E1|reflexivity|].
    cbv zeta. simpl depsMap_get. cbv iota.
    apply trackEffects_collect; [exact Hk|exact C3|exact E3].
Qed.

Lemma track_trace t k s : trace (track t k s) = trace s.
Proof. apply Quiet_track. Qed.

Lemma exec_reads_collect cl e k D0 keys : forall done ds s,
  (1 <= k <= 30)%Z ->
  Collecting e k D0 done ds s ->
  exists s' ds',
    exec cl (reads keys) s = Some (s', Normal) /\
    Collecting e k D0 (done ++ keys) ds' s' /\
    trace s' = trace s.
Proof.
  induction keys as [|[t key] keys IH]; intros done ds s Hk C.
  - exists s, ds. rewrite app_nil_r. simpl. auto.
  - destruct (track_collect e k D0 done ds s t key Hk C) as [d C1].
    destruct (IH _ _ _ Hk C1) as [s' [ds' [E [C' T]]]].
    exists s', ds'. simpl. split; [exact E|]. split.
    + rewrite <- app_assoc in C'. exact C'.
    + rewrite T. apply track_trace.
Qed.

Lemma run_enter_collect e s l :
  WF s l -> ~ In e l ->
  (Z.of_nat (S (length l)) <= maxMarkerBits)%Z ->
  LevelClear (Z.of_nat (S (length l))) s ->
  Collecting e (Z.of_nat (S (length l))) (deps (effects s e)) [] []
    (log (run_enter e s) (EvRun e)).
Proof.
  intros W Hnot Hcap Hc. set (k := Z.of_nat (S (length l))) in *.
  assert (Hk : (1 <= k <= 30)%Z) by (unfold k, maxMarkerBits in *; lia).
  assert (Hd : (effectTrackDepth s + 1 = k)%Z) by (rewrite (wf_depth _ _ W); unfold k; lia).
  unfold run_enter. cbv zeta. ssimpl. rewrite Hd.
  assert (E : (k <=? maxMarkerBits)%Z = true) by (apply Z.leb_le; exact Hcap).
  rewrite E. unfold initDepMarkers. ssimpl.
  rewrite initDepMarkers_loop_map_at. rewrite js_shl_pow2 by lia.
  assert (Hdeps : deps (upd (effects s) e (set_parent (effects s e) (activeEffect s)) e)
                  = deps (effects s e)) by (rewrite upd_same; reflexivity).
  rewrite Hdeps.
  constructor; ssimpl; try reflexivity.
  - intros d. rewrite map_at_n by reflexivity. split; [|intros []].
    intros H. destruct (Hc d) as [_ Hn]. congruence.
  - intros d. destruct (in_dec Nat.eq_dec d (deps (effects s e))) as [Hin|Hout].
    + rewrite map_at_in; [|exact (wf_nodup_deps _ _ W e)|exact Hin].
      cbn [dep_w set_w]. rewrite testbit_after_or by lia. tauto.
    + rewrite map_at_notin by exact Hout. destruct (Hc d) as [Hw _].
      split; [congruence|tauto].
  - intros d. rewrite Hdeps. simpl. tauto.
  - rewrite Hdeps. exact (wf_nodup_deps _ _ W e).
  - intros d. apply (wf_fresh _ _ W).
  - intros d [].
  - apply (wf_fresh_map _ _ W).
Qed.

(** The entries an effect holds after a run that reads keys; [s2] is the
    state in which the function returns. *)
Lemma run_reads_collects :
  forall fuel e s l keys,
    WF s l -> active (effects s e) = true -> ~ In e l -> length l <= fuel ->
    (Z.of_nat (S (length l)) <= maxMarkerBits)%Z ->
    LevelClear (Z.of_nat (S (length l))) s ->
    fn (effects s e) = reads keys ->
    exists s2 ds s',
      s' = run_finally e (shouldTrack s) s2 /\
      Collecting e (Z.of_nat (S (length l))) (deps (effects s e)) keys ds s2 /\
      trace s2 = trace (log (run_enter e s) (EvRun e)) /\
      run (call fuel) fuel e s = Some (s', Normal) /\
      (forall tk, In tk keys -> dep_of s' (fst tk) (snd tk) <> None) /\
      (forall d, In d (deps (effects s' e)) <->
                 exists tk, In tk keys /\ dep_of s' (fst tk) (snd tk) = Some d) /\
      (forall d, In e (subs (depHeap s' d)) <->
                 exists tk, In tk keys /\ dep_of s' (fst tk) (snd tk) = Some d).
Proof.
  intros fuel e s l keys W Hact Hnot Hl Hcap Hc Hfn.
  set (k := Z.of_nat (S (length l))) in *.
  assert (Hk : (1 <= k <= 30)%Z) by (unfold k, maxMarkerBits in *; lia).
  pose proof (run_enter_collect e s l W Hnot Hcap Hc) as C0. fold k in C0.
  destruct (exec_reads_collect (call fuel) e k (deps (effects s e)) keys [] []
              (log (run_enter e s) (EvRun e)) Hk C0) as [s2 [ds [Ex [C2 T2]]]].
  simpl in C2.
  assert (Hrun : run (call fuel) fuel e s
                 = Some (run_finally e (shouldTrack s) s2, Normal)).
  { unfold run. rewrite Hact. simpl.
    destruct (isAncestor_total (effects s) e fuel _ _ (wf_chain _ _ W) Hl) as [b Hb].
    rewrite Hb. destruct b.
    { exfalso. apply Hnot.
      apply (isAncestor_spec _ _ _ _ _ _ (wf_chain _ _ W) Hb). reflexivity. }
    rewrite run_enter_fn, Hfn, Ex. reflexivity. }
  exists s2, ds, (run_finally e (shouldTrack s) s2).
  set (s' := run_finally e (shouldTrack s) s2) in *.
  split; [reflexivity|]. split; [exact C2|]. split; [exact T2|]. split; [exact Hrun|].
  destruct (run_safe _ (call_safe fuel) _ _ _ _ _ _ W Hrun) as [W' _].
  destruct C2 as [Ca Ct Cd Cb Cn Cw Cds Cnd Cdn Cfo Cfn Cfm].
  assert (Hcap2 : (effectTrackDepth s2 <= maxMarkerBits)%Z) by (rewrite Cd; exact Hcap).
  destruct (run_finally_finalizes e (shouldTrack s) s2 Hcap2) as [Fh Fd]. fold s' in Fh, Fd.
  assert (Hbit : trackOpBit s2 = js_shl 1 k) by (rewrite js_shl_pow2 by lia; exact Cb).
  destruct (finalizeDepMarkers_spec e s2 k (conj (proj1 Hk) Hcap) Hbit Cnd)
    as [_ [F2 _]].
  assert (Ht : targetMap s' = targetMap s2).
  { unfold s', run_finally. cbv zeta.
    destruct (effectTrackDepth s2 <=? maxMarkerBits)%Z; [|reflexivity].
    rewrite finalizeDepMarkers_eq. reflexivity. }
  assert (Hof : forall t key, dep_of s' t key = dep_of s2 t key).
  { intros t key. unfold dep_of. rewrite Ht. reflexivity. }
  assert (Hdeps : forall d, In d (deps (effects s' e)) <-> In d ds).
  { intros d. rewrite Fd, F2, filter_In, Cds.
    destruct (Z.testbit (dep_w (depHeap s2 d)) k) eqn:Ew;
      destruct (Z.testbit (dep_n (depHeap s2 d)) k) eqn:En; simpl.
    - apply Cn in En. tauto.
    - split; [intros [_ H]; discriminate|].
      intros H. apply Cn in H. congruence.
    - apply Cn in En. tauto.
    - split; [|intros H; apply Cn in H; congruence].
      intros [[H|H] _]; [apply Cw in H; congruence|exact H]. }
  assert (Hds : forall d, In d ds <->
                  exists tk, In tk keys /\ dep_of s' (fst tk) (snd tk) = Some d).
  { intros d. split.
    - intros H. destruct (map_Some_any _ _ _ Cdn d H) as [tk [I E]].
      exists tk. split; [exact I|]. rewrite Hof. exact E.
    - intros [tk [I E]]. destruct (map_Some_all _ _ _ Cdn tk I) as [d' [E' I']].
      rewrite Hof in E. congruence. }
  split; [|split].
  - intros tk I. destruct (map_Some_all _ _ _ Cdn tk I) as [d' [E' _]].
    rewrite Hof. congruence.
  - intros d. rewrite Hdeps. apply Hds.
  - intros d. rewrite (wf_linked _ _ W' e d), Hdeps. apply Hds.
Qed.

(** X3: a run, within the cap of 30 levels, of an active effect whose
    function reads keys, entered with no marker bit of its level set,
    completes, and afterwards the effect is subscribed to exactly the entries
    of the keys it has read in this run: the entries of an earlier run that
    were not read again are dropped, the new ones are added, and the marker
    bits of the level are clear again. *)
Theorem run_collects_the_keys_it_reads :
  forall fuel e s l keys,
    WF s l -> active (effects s e) = true -> ~ In e l -> length l <= fuel ->
    (Z.of_nat (S (length l)) <= maxMarkerBits)%Z ->
    LevelClear (Z.of_nat (S (length l))) s ->
    fn (effects s e) = reads keys ->
    exists s',
      run (call fuel) fuel e s = Some (s', Normal) /\
      (forall tk, In tk keys -> dep_of s' (fst tk) (snd tk) <> None) /\
      (forall d, In d (deps (effects s' e)) <->
                 exists tk, In tk keys /\ dep_of s' (fst tk) (snd tk) = Some d) /\
      (forall d, In e (subs (depHeap s' d)) <->
                 exists tk, In tk keys /\ dep_of s' (fst tk) (snd tk) = Some d) /\
      LevelClear (Z.of_nat (S (length l))) s' /\
      trace s' = trace s ++ [EvRun e].
Proof.
  intros fuel e s l keys W Hact Hnot Hl Hcap Hc Hfn.
  destruct (run_reads_collects fuel e s l keys W Hact Hnot Hl Hcap Hc Hfn)
    as (s2 & ds & s' & Es' & C2 & T2 & Hrun & Hhas & Hdeps & Hsubs).
  exists s'. split; [exact Hrun|]. split; [exact Hhas|]. split; [exact Hdeps|].
  split; [exact Hsubs|].
  set (k := Z.of_nat (S (length l))) in *.
  assert (Hk : (1 <= k <= 30)%Z) by (unfold k, maxMarkerBits in *; lia).
  destruct C2 as [Ca Ct Cd Cb Cn Cw Cds Cnd Cdn Cfo Cfn Cfm].
  assert (Hcap2 : (effectTrackDepth s2 <= maxMarkerBits)%Z) by (rewrite Cd; exact Hcap).
  destruct (run_finally_finalizes e (shouldTrack s) s2 Hcap2) as [Fh _].
  rewrite <- Es' in Fh.
  assert (Hbit : trackOpBit s2 = js_shl 1 k) by (rewrite js_shl_pow2 by lia; exact Cb).
  destruct (finalizeDepMarkers_spec e s2 k (conj (proj1 Hk) Hcap) Hbit Cnd)
    as [_ [_ [F3 [_ [F5 _]]]]].
  split.
  - (* the entries visited by [finalizeDepMarkers] have their bits cleared;
       no other entry had one *)
    intros d. rewrite Fh.
    destruct (in_dec Nat.eq_dec d (deps (effects s2 e))) as [Hin|Hout].
    + apply F3. exact Hin.
    + rewrite (F5 d Hout). split.
      * destruct (Z.testbit (dep_w (depHeap s2 d)) k) eqn:Ew; [|reflexivity].
        exfalso. apply Hout. apply Cds. left. apply Cw. exact Ew.
      * destruct (Z.testbit (dep_n (depHeap s2 d)) k) eqn:En; [|reflexivity].
        exfalso. apply Hout. apply Cds. right. apply Cn. exact En.
  - assert (Tr : trace s' = trace s2) by (rewrite Es'; apply Quiet_run_finally).
    rewrite Tr, T2. ssimpl. f_equal. apply Quiet_run_enter.
Qed.

(** ** Pausing and resuming the tracking *)

Lemma State_eta s :
  mkState (effects s) (depHeap s) (nextDep s) (targetMap s) (computeds s)
    (activeEffect s) (shouldTrack s) (trackStack s) (effectTrackDepth s)
    (trackOpBit s) (trace s) = s.
Proof. destruct s. reflexivity. Qed.

Lemma resetTracking_push s b0 b :
  resetTracking (with_shouldTrack (with_trackStack s (trackStack s ++ [b0])) b)
  = with_shouldTrack s b0.
Proof.
  unfold resetTracking. ssimpl. rewrite rev_app_distr. simpl.
  rewrite rev_involutive. unfold with_shouldTrack, with_trackStack. ssimpl.
  reflexivity.
Qed.

Lemma exec_reads_paused k keys : forall s,
  shouldTrack s = false -> exec k (reads keys) s = Some (s, Normal).
Proof.
  induction keys as [|[t key] keys IH]; intros s Hs; simpl; [reflexivity|].
  unfold track. rewrite Hs. simpl. apply IH. exact Hs.
Qed.

(** X4: [resetTracking] undoes [pauseTracking] and [enableTracking], last
    in first out; on an empty stack it turns the tracking on.  While the
    tracking is paused [track] records nothing, so a function that pauses,
    reads keys and resets leaves the state as it found it. *)
Theorem paused_tracking_records_nothing :
  (forall s, resetTracking (pauseTracking s) = s) /\
  (forall s, resetTracking (enableTracking s) = s) /\
  (forall s, resetTracking (enableTracking (pauseTracking s)) = pauseTracking s) /\
  (forall s, trackStack s = [] -> resetTracking s = with_shouldTrack s true) /\
  (forall t key s, track t key (pauseTracking s) = pauseTracking s) /\
  (forall k keys s,
      exec k (APauseTracking :: reads keys ++ [AResetTracking]) s = Some (s, Normal)).
Proof.
  assert (R : forall s b, resetTracking
                (with_shouldTrack (with_trackStack s (trackStack s ++ [shouldTrack s])) b) = s).
  { intros s b. rewrite resetTracking_push. unfold with_shouldTrack. apply State_eta. }
  split; [intros s; apply R|]. split; [intros s; apply R|].
  split; [intros s; apply R|]. split.
  { intros s H. unfold resetTracking. rewrite H. reflexivity. }
  split.
  { intros t key s. reflexivity. }
  intros k keys s. cbn [exec step].
  assert (E : forall acts s1, shouldTrack s1 = false ->
            exec k (reads keys ++ acts) s1 = exec k acts s1).
  { clear s. induction keys as [|[t key] keys IH]; intros acts s1 Hs; simpl; [reflexivity|].
    unfold track. rewrite Hs. simpl. apply IH. exact Hs. }
  rewrite E by reflexivity. cbn [exec step].
  change (resetTracking (pauseTracking s)) with
    (resetTracking (with_shouldTrack
                      (with_trackStack s (trackStack s ++ [shouldTrack s])) false)).
  rewrite R. reflexivity.
Qed.

Lemma WF_two_key_init : WF two_key_init [].
Proof.
  apply WF_init; [|reflexivity].
  intros e. unfold two_key_effects. destruct e as [|[|e]]; split; reflexivity.
Qed.

(** Inside the run of effect 0, a second read of the key changes nothing. *)
Lemma track_twice_is_track_once_witness :
  track obj0 (KName 0) (track obj0 (KName 0) inside_first_run)
  = track obj0 (KName 0) inside_first_run.
Proof.
  apply (track_twice_is_track_once obj0 (KName 0) inside_first_run [0]).
  apply WF_log. apply WF_run_enter; [exact WF_two_key_init|intros []].
Defined.

(** The first run of effect 0 of [two_key_effects] subscribes it to the
    entries of its two keys. *)
Lemma run_collects_the_keys_it_reads_witness :
  exists s',
    run (call 0) 0 0 two_key_init = Some (s', Normal) /\
    (forall tk, In tk [(obj0, KName 0); (obj0, KName 1)] ->
                dep_of s' (fst tk) (snd tk) <> None) /\
    (forall d, In d (deps (effects s' 0)) <->
               exists tk, In tk [(obj0, KName 0); (obj0, KName 1)] /\
                          dep_of s' (fst tk) (snd tk) = Some d) /\
    (forall d, In 0 (subs (depHeap s' d)) <->
               exists tk, In tk [(obj0, KName 0); (obj0, KName 1)] /\
                          dep_of s' (fst tk) (snd tk) = Some d) /\
    LevelClear 1 s' /\
    trace s' = trace two_key_init ++ [EvRun 0].
Proof.
  apply (run_collects_the_keys_it_reads 0 0 two_key_init []
           [(obj0, KName 0); (obj0, KName 1)]).
  - exact WF_two_key_init.
  - reflexivity.
  - intros [].
  - simpl. lia.
  - vm_compute. discriminate.
  - intros d. split; reflexivity.
  - reflexivity.
Defined.

(** ** What a trigger runs *)

Lemma NoDup_dep_add e d : NoDup (subs d) -> NoDup (subs (dep_add e d)).
Proof.
  intros H. unfold dep_add. destruct (dep_has e d) eqn:E; [exact H|].
  simpl. apply NoDup_app; [exact H|constructor; [intros []|constructor]|].
  intros x Hx [<-|[]]. apply dep_has_In in Hx. congruence.
Qed.

Lemma NoDup_dep_delete e d : NoDup (subs d) -> NoDup (subs (dep_delete e d)).
Proof. intros H. simpl. apply NoDup_filter. exact H. Qed.

Lemma map_at_NoDup f ds :
  (forall d, NoDup (subs d) -> NoDup (subs (f d))) ->
  forall heap, (forall d, NoDup (subs (heap d))) ->
  forall d, NoDup (subs (map_at f ds heap d)).
Proof.
  intros Hf. induction ds as [|d0 ds IH]; intros heap H d; simpl; [apply H|].
  apply IH. intros d'. unfold upd. destruct (Nat.eqb d' d0); [apply Hf|]; apply H.
Qed.

Lemma SubsNoDup_same s s' : depHeap s' = depHeap s -> SubsNoDup s -> SubsNoDup s'.
Proof. intros E H d. rewrite E. apply H. Qed.

Lemma SubsNoDup_upd s d dep :
  NoDup (subs dep) -> SubsNoDup s -> SubsNoDup (with_depHeap s (upd (depHeap s) d dep)).
Proof.
  intros Hd H d'. ssimpl. unfold upd. destruct (Nat.eqb d' d); [exact Hd|apply H].
Qed.

Lemma SubsNoDup_cleanupEffect e s : SubsNoDup s -> SubsNoDup (cleanupEffect e s).
Proof.
  intros H d. unfold cleanupEffect. ssimpl. rewrite cleanupEffect_loop_map_at.
  apply map_at_NoDup; [intros; apply NoDup_dep_delete; assumption|exact H].
Qed.

Lemma SubsNoDup_stop e s : SubsNoDup s -> SubsNoDup (stop e s).
Proof.
  intros H. unfold stop. destruct (active (effects s e)); [|exact H].
  pose proof (SubsNoDup_cleanupEffect e s H) as H1.
  destruct (onStop (effects (cleanupEffect e s) e)); intros d; ssimpl; apply H1.
Qed.

Lemma SubsNoDup_trackEffects d s : SubsNoDup s -> SubsNoDup (trackEffects d s).
Proof.
  intros H. unfold trackEffects. destruct (activeEffect s) as [ae|]; [|exact H].
  set (p := if (effectTrackDepth s <=? maxMarkerBits)%Z
            then if negb (newTracked (depHeap s d) (trackOpBit s))
                 then (negb (wasTracked (depHeap s d) (trackOpBit s)),
                       with_depHeap s (upd (depHeap s) d
                          (set_n (depHeap s d) (js_or (dep_n (depHeap s d)) (trackOpBit s)))))
                 else (false, s)
            else (negb (dep_has ae (depHeap s d)), s)).
  assert (H1 : SubsNoDup (snd p)).
  { unfold p. destruct (effectTrackDepth s <=? maxMarkerBits)%Z; [|exact H].
    destruct (negb (newTracked (depHeap s d) (trackOpBit s))); [|exact H].
    cbn [snd]. apply SubsNoDup_upd; [apply H|exact H]. }
  destruct p as [st s1]. cbn [snd] in H1. destruct st; [|exact H1].
  apply (SubsNoDup_same (with_depHeap s1 (upd (depHeap s1) d (dep_add ae (depHeap s1 d)))));
    [reflexivity|].
  apply SubsNoDup_upd; [apply NoDup_dep_add; apply H1|exact H1].
Qed.

Lemma SubsNoDup_alloc s :
  SubsNoDup s ->
  SubsNoDup (with_nextDep
               (with_depHeap s (upd (depHeap s) (nextDep s) (createDep [])))
               (S (nextDep s))).
Proof.
  intros H. apply (SubsNoDup_same (with_depHeap s (upd (depHeap s) (nextDep s) (createDep []))));
    [reflexivity|].
  apply SubsNoDup_upd; [constructor|exact H].
Qed.

Lemma SubsNoDup_track t key s : SubsNoDup s -> SubsNoDup (track t key s).
Proof.
  intros H. unfold track. destruct (shouldTrack s && isSome (activeEffect s)); [|exact H].
  assert (H1 : SubsNoDup (match targetMap s t with
                          | Some _ => s
                          | None => with_targetMap s (targetMap_set (targetMap s) t [])
                          end)).
  { destruct (targetMap s t); [exact H|]. apply (SubsNoDup_same s); [reflexivity|exact H]. }
  set (s1 := match targetMap s t with
             | Some _ => s
             | None => with_targetMap s (targetMap_set (targetMap s) t [])
             end) in *. clearbody s1.
  destruct (depsMap_get _ key); [apply SubsNoDup_trackEffects; exact H1|].
  cbv zeta. apply SubsNoDup_trackEffects.
  apply (SubsNoDup_same
           (with_nextDep
              (with_depHeap s1 (upd (depHeap s1) (nextDep s1) (createDep [])))
              (S (nextDep s1)))); [reflexivity|].
  apply SubsNoDup_alloc. exact H1.
Qed.

Lemma SubsNoDup_trackRefValue c s : SubsNoDup s -> SubsNoDup (trackRefValue c s).
Proof.
  intros H. unfold trackRefValue.
  destruct (shouldTrack s && isSome (activeEffect s)); [|exact H].
  destruct (cdep (computeds s c)); [apply SubsNoDup_trackEffects; exact H|].
  cbv zeta. apply SubsNoDup_trackEffects.
  apply (SubsNoDup_same
           (with_nextDep
              (with_depHeap s (upd (depHeap s) (nextDep s) (createDep [])))
              (S (nextDep s)))); [reflexivity|].
  apply SubsNoDup_alloc. exact H.
Qed.

Lemma SubsNoDup_run_enter e s : SubsNoDup s -> SubsNoDup (run_enter e s).
Proof.
  intros H. unfold run_enter. cbv zeta.
  set (s3 := with_trackOpBit _ _).
  assert (H3 : SubsNoDup s3) by (apply (SubsNoDup_same s); [reflexivity|exact H]).
  clearbody s3. destruct (effectTrackDepth s3 <=? maxMarkerBits)%Z.
  - unfold initDepMarkers. intros d. ssimpl. rewrite initDepMarkers_loop_map_at.
    apply map_at_NoDup; [intros d0 Hd; exact Hd|exact H3].
  - apply SubsNoDup_cleanupEffect. exact H3.
Qed.

Lemma SubsNoDup_finalizeDepMarkers e s : SubsNoDup s -> SubsNoDup (finalizeDepMarkers e s).
Proof.
  intros H d. rewrite finalizeDepMarkers_eq. ssimpl.
  apply map_at_NoDup; [|exact H].
  intros d0 Hd. unfold finalize_one. cbn [subs set_n set_w].
  destruct (stale (trackOpBit s) d0); [apply NoDup_dep_delete|]; exact Hd.
Qed.

Lemma SubsNoDup_run_finally e last s : SubsNoDup s -> SubsNoDup (run_finally e last s).
Proof.
  intros H. unfold run_finally. cbv zeta.
  assert (H1 : SubsNoDup (if (effectTrackDepth s <=? maxMarkerBits)%Z
                          then finalizeDepMarkers e s else s)).
  { destruct (effectTrackDepth s <=? maxMarkerBits)%Z;
      [apply SubsNoDup_finalizeDepMarkers|]; exact H. }
  intros d. ssimpl. apply H1.
Qed.

Section SubsCall.

Variable k : Call -> State -> Res.
Hypothesis Hk : SubsSafe k.

Lemma triggerEffects_subs effs : forall s s' r,
  SubsNoDup s -> triggerEffects k effs s = Some (s', r) -> SubsNoDup s'.
Proof.
  induction effs as [|e effs IH]; intros s s' r Dt H; simpl in H.
  - inversion H; subst. exact Dt.
  - destruct (negb _ || _); [|eapply IH; eauto].
    destruct (if isSome (scheduler (effects s e)) then k (CallScheduler e) s
              else k (CallRun e) s) as [[s1 [|]]|] eqn:E; try discriminate.
    + eapply IH; [|exact H].
      destruct (isSome (scheduler (effects s e))); eapply Hk; eauto.
    + inversion H; subst.
      destruct (isSome (scheduler (effects s e))); eapply Hk; eauto.
Qed.

Lemma step_subs a s s' r :
  SubsNoDup s -> step k a s = Some (s', r) -> SubsNoDup s'.
Proof.
  intros Dt H. destruct a; simpl in H.
  - inversion H; subst. apply SubsNoDup_track. exact Dt.
  - unfold trigger in H.
    destruct (targetMap s t); [|inversion H; subst; exact Dt].
    destruct (trigger_deps _ _ _ _ _); [|inversion H; subst; exact Dt].
    eapply triggerEffects_subs; eauto.
  - eapply Hk; eauto.
  - inversion H; subst. apply SubsNoDup_stop. exact Dt.
  - unfold computed_value in H. cbv zeta in H.
    pose proof (SubsNoDup_trackRefValue c s Dt) as D1.
    destruct (_ || _).
    + eapply Hk; [|exact H]. apply (SubsNoDup_same (trackRefValue c s)); [reflexivity|exact D1].
    + inversion H; subst. exact D1.
  - inversion H; subst. apply (SubsNoDup_same s); [reflexivity|exact Dt].
  - inversion H; subst. apply (SubsNoDup_same s); [reflexivity|exact Dt].
  - inversion H; subst. unfold resetTracking.
    destruct (rev (trackStack s)); (apply (SubsNoDup_same s); [reflexivity|exact Dt]).
  - inversion H; subst. exact Dt.
Qed.

Lemma exec_subs acts : forall s s' r,
  SubsNoDup s -> exec k acts s = Some (s', r) -> SubsNoDup s'.
Proof.
  induction acts as [|a acts IH]; intros s s' r Dt H; simpl in H.
  - inversion H; subst. exact Dt.
  - destruct (step k a s) as [[s1 [|]]|] eqn:E; try discriminate.
    + eapply IH; [eapply step_subs; eauto|exact H].
    + inversion H; subst. eapply step_subs; eauto.
Qed.

Lemma call_body_subs fuel : SubsSafe (call_body k fuel).
Proof.
  intros c s s' r Dt H. destruct c; simpl in H.
  - unfold run in H. destruct (negb (active (effects s e))).
    + eapply exec_subs; [|exact H]. apply (SubsNoDup_same s); [reflexivity|exact Dt].
    + destruct (isAncestor fuel (effects s) (activeEffect s) e) as [[|]|]; try discriminate.
      * inversion H; subst. exact Dt.
      * cbv zeta in H. destruct (exec k _ _) as [[s2 c2]|] eqn:Ex; [|discriminate].
        inversion H; subst. apply SubsNoDup_run_finally.
        eapply exec_subs; [|exact Ex].
        apply (SubsNoDup_same (run_enter e s)); [reflexivity|].
        apply SubsNoDup_run_enter. exact Dt.
  - unfold run_scheduler in H. cbv zeta in H.
    assert (D0 : SubsNoDup (log s (EvScheduler e)))
      by (apply (SubsNoDup_same s); [reflexivity|exact Dt]).
    destruct (scheduler (effects s e)) as [[|c]|]; try (inversion H; subst; exact D0).
    destruct (negb _); [|inversion H; subst; exact D0].
    unfold triggerRefValue in H.
    match type of H with
    | context [cdep (computeds ?st c)] =>
        assert (D1 : SubsNoDup st) by (apply (SubsNoDup_same s); [reflexivity|exact Dt])
    end.
    destruct (cdep _); [eapply triggerEffects_subs; eauto|inversion H; subst; exact D1].
Qed.

End SubsCall.

Lemma call_subs fuel : SubsSafe (call fuel).
Proof.
  induction fuel as [|f IH].
  - intros c s s' r _ H. discriminate.
  - simpl. apply call_body_subs. exact IH.
Qed.

Lemma exec_reads_total k keys : forall s,
  exec k (reads keys) s
  = Some (fold_left (fun s tk => track (fst tk) (snd tk) s) keys s, Normal).
Proof.
  induction keys as [|[t key] keys IH]; intros s; simpl; [reflexivity|]. apply IH.
Qed.

Lemma tracks_quiet keys : forall s,
  trace (fold_left (fun s tk => track (fst tk) (snd tk) s) keys s) = trace s /\
  (forall x, fn (effects (fold_left (fun s tk => track (fst tk) (snd tk) s) keys s) x)
             = fn (effects s x) /\
             scheduler (effects (fold_left (fun s tk => track (fst tk) (snd tk) s) keys s) x)
             = scheduler (effects s x)).
Proof.
  induction keys as [|[t key] keys IH]; intros s; simpl; [auto|].
  destruct (IH (track t key s)) as [T C]. destruct (Quiet_track t key s) as [Q Tq].
  split; [congruence|]. intros x. destruct (C x) as [C1 C2].
  rewrite C1, C2, (q_fn _ _ Q), (q_scheduler _ _ Q). auto.
Qed.

Lemma WF_top_level s : WF s [] -> activeEffect s = None.
Proof. intros W. exact (Chain_head _ _ _ (wf_chain _ _ W)). Qed.

Lemma run_reads_top_level fuel e s keys :
  WF s [] -> fn (effects s e) = reads keys ->
  exists s',
    run (call fuel) fuel e s = Some (s', Normal) /\
    trace s' = trace s ++ [EvRun e] /\
    (forall x, fn (effects s' x) = fn (effects s x) /\
               scheduler (effects s' x) = scheduler (effects s x)).
Proof.
  intros W Hfn. unfold run. destruct (negb (active (effects s e))).
  - rewrite Hfn, exec_reads_total. eexists. split; [reflexivity|].
    destruct (tracks_quiet keys (log s (EvRun e))) as [T C]. split; [exact T|exact C].
  - rewrite (WF_top_level s W).
    assert (Ha : isAncestor fuel (effects s) None e = Some false)
      by (destruct fuel; reflexivity).
    rewrite Ha. cbv zeta.
    rewrite run_enter_fn, Hfn, exec_reads_total. eexists. split; [reflexivity|].
    destruct (tracks_quiet keys (log (run_enter e s) (EvRun e))) as [T C].
    destruct (Quiet_run_enter e s) as [Q1 T1].
    match goal with |- context [run_finally e ?l ?s2] =>
      destruct (Quiet_run_finally e l s2) as [Q2 T2] end.
    split; [rewrite T2, T; ssimpl; rewrite T1; reflexivity|].
    intros x. destruct (C x) as [C1 C2].
    rewrite (q_fn _ _ Q2), (q_scheduler _ _ Q2), C1, C2. ssimpl.
    rewrite (q_fn _ _ Q1), (q_scheduler _ _ Q1). auto.
Qed.

Lemma triggerEffects_plain fuel effs : forall s,
  WF s [] ->
  (forall e, In e effs -> plain_effect (effects s e)) ->
  exists s',
    triggerEffects (call (S fuel)) effs s = Some (s', Normal) /\
    trace s' = trace s ++ map (notification s) effs /\
    WF s' [].
Proof.
  induction effs as [|e effs IH]; intros s W Hp.
  - exists s. simpl. rewrite app_nil_r. auto.
  - cbn [triggerEffects]. rewrite (WF_top_level s W). cbn [negb orb].
    assert (Hstep : exists s1,
              (if isSome (scheduler (effects s e))
               then call (S fuel) (CallScheduler e) s
               else call (S fuel) (CallRun e) s) = Some (s1, Normal) /\
              trace s1 = trace s ++ [notification s e] /\
              (forall x, fn (effects s1 x) = fn (effects s x) /\
                         scheduler (effects s1 x) = scheduler (effects s x))).
    { pose proof (Hp e (or_introl eq_refl)) as P. unfold plain_effect in P.
      unfold notification. destruct (scheduler (effects s e)) as [[|c]|] eqn:Es.
      - exists (log s (EvScheduler e)). simpl. unfold run_scheduler. rewrite Es.
        split; [reflexivity|]. split; [reflexivity|]. intros x. split; reflexivity.
      - destruct P.
      - destruct P as [keys Hfn]. simpl isSome. cbv iota.
        change (call (S fuel) (CallRun e) s) with (run (call fuel) fuel e s).
        apply (run_reads_top_level fuel e s keys W Hfn). }
    destruct Hstep as [s1 [E1 [T1 C1]]]. rewrite E1.
    assert (W1 : WF s1 []).
    { destruct (isSome (scheduler (effects s e)));
        exact (proj1 (call_safe (S fuel) _ _ _ _ _ W E1)). }
    destruct (IH s1 W1) as [s' [E' [T' W']]].
    { intros x Hx. pose proof (Hp x (or_intror Hx)) as P. unfold plain_effect in *.
      destruct (C1 x) as [F S]. rewrite F, S. exact P. }
    exists s'. split; [exact E'|]. split; [|exact W'].
    rewrite T', T1, <- app_assoc. simpl. f_equal. f_equal.
    apply map_ext. intros x. unfold notification. destruct (C1 x) as [_ S]. rewrite S.
    reflexivity.
Qed.

Lemma NoDup_createDep l : NoDup (subs (createDep l)).
Proof.
  unfold createDep.
  assert (G : forall l d, NoDup (subs d) ->
            NoDup (subs (fold_left (fun d e => dep_add e d) l d))).
  { clear l. induction l as [|e l IH]; intros d H; simpl; [exact H|].
    apply IH. apply NoDup_dep_add. exact H. }
  apply G. constructor.
Qed.

Lemma In_createDep_iff x l : In x (subs (createDep l)) <-> In x l.
Proof.
  split; [apply In_createDep|]. unfold createDep.
  assert (G : forall l d, In x (subs d) \/ In x l ->
            In x (subs (fold_left (fun d e => dep_add e d) l d))).
  { clear l. induction l as [|e l IH]; intros d H; simpl.
    - destruct H as [H|[]]. exact H.
    - apply IH. destruct H as [H|[H|H]].
      + left. apply In_dep_add. now left.
      + left. apply In_dep_add. right. auto.
      + now right. }
  intros H. apply G. now right.
Qed.

Lemma trigger_effects_of_spec heap ds :
  (forall d, NoDup (subs (heap d))) ->
  NoDup (trigger_effects_of heap ds) /\
  (forall e, In e (trigger_effects_of heap ds) <->
             exists d, In (Some d) ds /\ In e (subs (heap d))).
Proof.
  intros H.
  assert (G : NoDup (subs (createDep
                (flat_map (fun d => match d with
                                    | Some d' => subs (heap d')
                                    | None => []
                                    end) ds))) /\
              (forall e, In e (subs (createDep
                (flat_map (fun d => match d with
                                    | Some d' => subs (heap d')
                                    | None => []
                                    end) ds))) <->
                 exists d, In (Some d) ds /\ In e (subs (heap d)))).
  { split; [apply NoDup_createDep|]. intros e. rewrite In_createDep_iff, in_flat_map.
    split.
    - intros [[d|] [I1 I2]]; [eauto|destruct I2].
    - intros [d [I1 I2]]. exists (Some d). auto. }
  unfold trigger_effects_of. destruct ds as [|[d|] [|d2 ds]]; try exact G.
  split; [apply H|]. intros e. split.
  - intros I. exists d. split; [now left|exact I].
  - intros [d' [[E|[]] I]]. inversion E; subst. exact I.
Qed.

(** X5: [trigger] on a target that was never tracked does nothing.  On a
    tracked target, with no effect running, it notifies the members of the
    entries it selects, each one once and in the order of the entries and of
    their subscription: the scheduler of an effect that has one is called,
    an effect without scheduler is run.  Stated for effects whose functions
    read keys and whose schedulers are the caller's.  That the members of an
    entry are distinct is an invariant of the runtime. *)
Theorem trigger_runs_each_subscriber_once :
  (forall k t ty key v s,
      targetMap s t = None -> trigger k t ty key v s = Some (s, Normal)) /\
  (forall fuel t ty key v s m ds,
      WF s [] -> SubsNoDup s ->
      targetMap s t = Some m ->
      trigger_deps m t ty key v = Some ds ->
      (forall e, In e (trigger_effects_of (depHeap s) ds) -> plain_effect (effects s e)) ->
      exists s',
        trigger (call (S fuel)) t ty key v s = Some (s', Normal) /\
        trace s' = trace s ++ map (notification s) (trigger_effects_of (depHeap s) ds) /\
        NoDup (trigger_effects_of (depHeap s) ds) /\
        (forall e, In e (trigger_effects_of (depHeap s) ds) <->
                   exists d, In (Some d) ds /\ In e (subs (depHeap s d)))) /\
  (forall fuel prog s s' r,
      SubsNoDup s -> exec (call fuel) prog s = Some (s', r) -> SubsNoDup s') /\
  (forall efs cs, SubsNoDup (init_state efs cs)).
Proof.
  split; [|split; [|split]].
  - intros k t ty key v s H. unfold trigger. rewrite H. reflexivity.
  - intros fuel t ty key v s m ds W Hs Hm Hd Hp.
    destruct (triggerEffects_plain fuel (trigger_effects_of (depHeap s) ds) s W Hp)
      as [s' [E [T _]]].
    exists s'. unfold trigger. rewrite Hm, Hd.
    destruct (trigger_effects_of_spec (depHeap s) ds Hs) as [N M].
    auto.
  - intros fuel prog s s' r H E. exact (exec_subs _ (call_subs fuel) prog s s' r H E).
  - intros efs cs d. constructor.
Qed.

(** After its first run, effect 0 of [two_key_effects] is the one
    subscriber of its first key: a write to the key runs it once. *)
Lemma trigger_runs_each_subscriber_once_witness :
  exists s',
    trigger (call 1) obj0 SET (Some (KName 0)) (Some 1%Z) after_first_run
    = Some (s', Normal) /\
    trace s' = trace after_first_run ++ [EvRun 0].
Proof.
  assert (E0 : exec (call 1) [ARun 0] two_key_init = Some (after_first_run, Normal))
    by (vm_compute; reflexivity).
  assert (W : WF after_first_run [])
    by (exact (proj1 (exec_safe _ (call_safe 1) _ _ _ _ _ WF_two_key_init E0))).
  assert (N : SubsNoDup after_first_run).
  { apply (exec_subs _ (call_subs 1) [ARun 0] two_key_init _ _
             (proj2 (proj2 (proj2 trigger_runs_each_subscriber_once)) _ _) E0). }
  destruct (proj1 (proj2 trigger_runs_each_subscriber_once) 0 obj0 SET
              (Some (KName 0)) (Some 1%Z) after_first_run
              [(KName 0, 0); (KName 1, 1)] [Some 0] W N)
    as [s' [E [T _]]].
  - vm_compute. reflexivity.
  - reflexivity.
  - intros e He.
    assert (Hs : trigger_effects_of (depHeap after_first_run) [Some 0] = [0])
      by (vm_compute; reflexivity).
    rewrite Hs in He. destruct He as [<-|[]].
    unfold plain_effect.
    assert (Hsch : scheduler (effects after_first_run 0) = None) by (vm_compute; reflexivity).
    rewrite Hsch. exists [(obj0, KName 0); (obj0, KName 1)]. vm_compute. reflexivity.
  - exists s'. split; [exact E|]. rewrite T. f_equal.
Defined.

(** ** Which effects a change reaches *)

Lemma key_eqb_eq a b : key_eqb a b = true -> a = b.
Proof.
  destruct a, b; simpl; intros H; try discriminate; try reflexivity.
  - apply N.eqb_eq in H. congruence.
  - apply Nat.eqb_eq in H. congruence.
  - apply Nat.eqb_eq in H. congruence.
Qed.

Lemma depsMap_get_entry m k d : depsMap_get m k = Some d -> In (k, d) m.
Proof.
  induction m as [|[k' d'] m IH]; simpl; [discriminate|].
  destruct (key_eqb k' k) eqn:E.
  - intros H. inversion H; subst. apply key_eqb_eq in E. subst. now left.
  - intros H. right. apply IH. exact H.
Qed.

Lemma depsMap_get_None m k : depsMap_get m k = None -> ~ In k (map fst m).
Proof.
  induction m as [|[k' d'] m IH]; simpl; [tauto|].
  destruct (key_eqb k' k) eqn:E; [discriminate|].
  intros H [->|I]; [rewrite key_eqb_refl in E; discriminate|]. apply (IH H I).
Qed.

Lemma In_depsMap_get m k d :
  NoDup (map fst m) -> In (k, d) m -> depsMap_get m k = Some d.
Proof.
  induction m as [|[k' d'] m IH]; simpl; [tauto|].
  intros ND [E|I].
  - inversion E; subst. rewrite key_eqb_refl. reflexivity.
  - apply NoDup_cons_iff in ND. destruct ND as [Hn ND].
    destruct (key_eqb k' k) eqn:E.
    + apply key_eqb_eq in E. subst. exfalso. apply Hn.
      apply (in_map fst) in I. exact I.
    + apply IH; assumption.
Qed.

Lemma KeysDistinct_same s s' :
  targetMap s' = targetMap s -> nextDep s' = nextDep s ->
  KeysDistinct s -> KeysDistinct s'.
Proof. intros E1 E2 H. unfold KeysDistinct in *. rewrite E1, E2. exact H. Qed.

Lemma KeysDistinct_grow s s' :
  targetMap s' = targetMap s -> nextDep s <= nextDep s' ->
  KeysDistinct s -> KeysDistinct s'.
Proof.
  intros E1 E2 (F & N & I). unfold KeysDistinct. rewrite E1.
  split; [|split; assumption].
  intros t m k d Hm Hi. specialize (F t m k d Hm Hi). lia.
Qed.

Lemma targetMap_set_same tm t m : targetMap_set tm t m t = Some m.
Proof. unfold targetMap_set. rewrite target_eqb_refl. reflexivity. Qed.

Lemma targetMap_set_inv tm t m t' m' :
  targetMap_set tm t m t' = Some m' -> (t' = t /\ m' = m) \/ (t' <> t /\ tm t' = Some m').
Proof.
  unfold targetMap_set. destruct (target_eqb t' t) eqn:E.
  - intros H. inversion H; subst. left. split; [apply target_eqb_eq; exact E|reflexivity].
  - intros H. right. split; [|exact H]. intros ->. rewrite target_eqb_refl in E. discriminate.
Qed.

Lemma KeysDistinct_new_target s t :
  targetMap s t = None -> KeysDistinct s ->
  KeysDistinct (with_targetMap s (targetMap_set (targetMap s) t [])).
Proof.
  intros Hn (F & N & I). unfold KeysDistinct. ssimpl. split; [|split].
  - intros t' m k d Hm Hi. destruct (targetMap_set_inv _ _ _ _ _ Hm) as [[-> ->]|[_ Hm']];
      [destruct Hi|]. apply (F t' m k d Hm' Hi).
  - intros t' m Hm. destruct (targetMap_set_inv _ _ _ _ _ Hm) as [[-> ->]|[_ Hm']];
      [constructor|]. apply (N t' m Hm').
  - intros t1 t2 m1 m2 k1 k2 d H1 H2 I1 I2.
    destruct (targetMap_set_inv _ _ _ _ _ H1) as [[-> ->]|[_ H1']]; [destruct I1|].
    destruct (targetMap_set_inv _ _ _ _ _ H2) as [[-> ->]|[_ H2']]; [destruct I2|].
    apply (I t1 t2 m1 m2 k1 k2 d H1' H2' I1 I2).
Qed.

Lemma KeysDistinct_new_key s t m k :
  targetMap s t = Some m -> depsMap_get m k = None -> KeysDistinct s ->
  KeysDistinct
    (with_targetMap
       (with_nextDep (with_depHeap s (upd (depHeap s) (nextDep s) (createDep [])))
          (S (nextDep s)))
       (targetMap_set (targetMap s) t (m ++ [(k, nextDep s)]))).
Proof.
  intros Hm Hg (F & N & I). unfold KeysDistinct. ssimpl.
  assert (Hold : forall t' m' k' d',
             targetMap_set (targetMap s) t (m ++ [(k, nextDep s)]) t' = Some m' ->
             In (k', d') m' ->
             (exists m0, targetMap s t' = Some m0 /\ In (k', d') m0 /\ d' < nextDep s)
             \/ (t' = t /\ k' = k /\ d' = nextDep s)).
  { intros t' m' k' d' H Hi.
    destruct (targetMap_set_inv _ _ _ _ _ H) as [[-> ->]|[_ H']].
    - apply in_app_or in Hi. destruct Hi as [Hi|[E|[]]].
      + left. exists m. split; [exact Hm|]. split; [exact Hi|]. apply (F t m k' d' Hm Hi).
      + inversion E; subst. right. auto.
    - left. exists m'. split; [exact H'|]. split; [exact Hi|]. apply (F t' m' k' d' H' Hi). }
  split; [|split].
  - intros t' m' k' d' H Hi.
    destruct (Hold t' m' k' d' H Hi) as [(m0 & _ & _ & L)|(_ & _ & ->)]; lia.
  - intros t' m' H. destruct (targetMap_set_inv _ _ _ _ _ H) as [[-> ->]|[_ H']].
    + rewrite map_app. simpl. apply NoDup_app.
      * apply (N t m Hm).
      * constructor; [intros []|constructor].
      * intros x Hx [<-|[]]. apply (depsMap_get_None m k Hg Hx).
    + apply (N t' m' H').
  - intros t1 t2 m1 m2 k1 k2 d H1 H2 I1 I2.
    destruct (Hold t1 m1 k1 d H1 I1) as [(a & Ha & Ia & La)|(E1 & E2 & E3)];
      destruct (Hold t2 m2 k2 d H2 I2) as [(b & Hb & Ib & Lb)|(E4 & E5 & E6)];
      try lia.
    + apply (I t1 t2 a b k1 k2 d Ha Hb Ia Ib).
    + subst. split; reflexivity.
Qed.

Lemma frame_trackEffects d s :
  targetMap (trackEffects d s) = targetMap s /\ nextDep (trackEffects d s) = nextDep s.
Proof.
  unfold trackEffects. destruct (activeEffect s); [|split; reflexivity].
  destruct (_ <=? _)%Z;
    [destruct (negb (newTracked _ _)); [destruct (negb (wasTracked _ _))|]
    |destruct (negb (dep_has _ _))]; split; reflexivity.
Qed.

Lemma frame_stop e s :
  targetMap (stop e s) = targetMap s /\ nextDep (stop e s) = nextDep s.
Proof.
  unfold stop. destruct (active _); [|split; reflexivity].
  destruct (onStop _); split; reflexivity.
Qed.

Lemma frame_run_enter e s :
  targetMap (run_enter e s) = targetMap s /\ nextDep (run_enter e s) = nextDep s.
Proof. unfold run_enter. cbv zeta. destruct (_ <=? _)%Z; split; reflexivity. Qed.

Lemma frame_run_finally e b s :
  targetMap (run_finally e b s) = targetMap s /\ nextDep (run_finally e b s) = nextDep s.
Proof.
  unfold run_finally. cbv zeta.
  destruct (_ <=? _)%Z; [rewrite finalizeDepMarkers_eq|]; split; reflexivity.
Qed.

Lemma KeysDistinct_trackEffects d s : KeysDistinct s -> KeysDistinct (trackEffects d s).
Proof. apply KeysDistinct_same; apply frame_trackEffects. Qed.

Lemma KeysDistinct_track t key s : KeysDistinct s -> KeysDistinct (track t key s).
Proof.
  intros H. unfold track. destruct (shouldTrack s && isSome (activeEffect s)); [|exact H].
  destruct (targetMap s t) as [m|] eqn:Hm.
  - destruct (depsMap_get m key) eqn:Hg; [apply KeysDistinct_trackEffects; exact H|].
    cbv zeta. apply KeysDistinct_trackEffects.
    apply (KeysDistinct_new_key s t m key Hm Hg H).
  - cbn [depsMap_get]. cbv zeta. apply KeysDistinct_trackEffects.
    pose proof (KeysDistinct_new_target s t Hm H) as H1.
    apply (KeysDistinct_new_key _ t [] key) in H1;
      [exact H1|ssimpl; apply targetMap_set_same|reflexivity].
Qed.

Lemma KeysDistinct_trackRefValue c s : KeysDistinct s -> KeysDistinct (trackRefValue c s).
Proof.
  intros H. unfold trackRefValue.
  destruct (shouldTrack s && isSome (activeEffect s)); [|exact H].
  destruct (cdep (computeds s c)); [apply KeysDistinct_trackEffects; exact H|].
  cbv zeta. apply KeysDistinct_trackEffects.
  apply (KeysDistinct_grow s); [reflexivity|ssimpl; lia|exact H].
Qed.

Section KeysCall.

Variable k : Call -> State -> Res.
Hypothesis Hk : KeysSafe k.

Lemma triggerEffects_keys effs : forall s s' r,
  KeysDistinct s -> triggerEffects k effs s = Some (s', r) -> KeysDistinct s'.
Proof.
  induction effs as [|e effs IH]; intros s s' r Dt H; simpl in H.
  - inversion H; subst. exact Dt.
  - destruct (negb _ || _); [|eapply IH; eauto].
    destruct (if isSome (scheduler (effects s e)) then k (CallScheduler e) s
              else k (CallRun e) s) as [[s1 [|]]|] eqn:E; try discriminate.
    + eapply IH; [|exact H].
      destruct (isSome (scheduler (effects s e))); eapply Hk; eauto.
    + inversion H; subst.
      destruct (isSome (scheduler (effects s e))); eapply Hk; eauto.
Qed.

Lemma step_keys a s s' r :
  KeysDistinct s -> step k a s = Some (s', r) -> KeysDistinct s'.
Proof.
  intros Dt H. destruct a; simpl in H.
  - inversion H; subst. apply KeysDistinct_track. exact Dt.
  - unfold trigger in H.
    destruct (targetMap s t); [|inversion H; subst; exact Dt].
    destruct (trigger_deps _ _ _ _ _); [|inversion H; subst; exact Dt].
    eapply triggerEffects_keys; eauto.
  - eapply Hk; eauto.
  - inversion H; subst. apply (KeysDistinct_same s); [apply frame_stop..|exact Dt].
  - unfold computed_value in H. cbv zeta in H.
    pose proof (KeysDistinct_trackRefValue c s Dt) as D1.
    destruct (_ || _).
    + eapply Hk; [|exact H].
      apply (KeysDistinct_same (trackRefValue c s)); [reflexivity..|exact D1].
    + inversion H; subst. exact D1.
  - inversion H; subst. apply (KeysDistinct_same s); [reflexivity..|exact Dt].
  - inversion H; subst. apply (KeysDistinct_same s); [reflexivity..|exact Dt].
  - inversion H; subst. unfold resetTracking.
    destruct (rev (trackStack s)); (apply (KeysDistinct_same s); [reflexivity..|exact Dt]).
  - inversion H; subst. exact Dt.
Qed.

Lemma exec_keys_step acts : forall s s' r,
  KeysDistinct s -> exec k acts s = Some (s', r) -> KeysDistinct s'.
Proof.
  induction acts as [|a acts IH]; intros s s' r Dt H; simpl in H.
  - inversion H; subst. exact Dt.
  - destruct (step k a s) as [[s1 [|]]|] eqn:E; try discriminate.
    + eapply IH; [eapply step_keys; eauto|exact H].
    + inversion H; subst. eapply step_keys; eauto.
Qed.

Lemma call_body_keys fuel : KeysSafe (call_body k fuel).
Proof.
  intros c s s' r Dt H. destruct c; simpl in H.
  - unfold run in H. destruct (negb (active (effects s e))).
    + eapply exec_keys_step; [|exact H].
      apply (KeysDistinct_same s); [reflexivity..|exact Dt].
    + destruct (isAncestor fuel (effects s) (activeEffect s) e) as [[|]|]; try discriminate.
      * inversion H; subst. exact Dt.
      * cbv zeta in H. destruct (exec k _ _) as [[s2 c2]|] eqn:Ex; [|discriminate].
        inversion H; subst.
        apply (KeysDistinct_same s2); [apply frame_run_finally..|].
        eapply exec_keys_step; [|exact Ex].
        apply (KeysDistinct_same (run_enter e s)); [reflexivity..|].
        apply (KeysDistinct_same s); [apply frame_run_enter..|exact Dt].
  - unfold run_scheduler in H. cbv zeta in H.
    assert (D0 : KeysDistinct (log s (EvScheduler e)))
      by (apply (KeysDistinct_same s); [reflexivity..|exact Dt]).
    destruct (scheduler (effects s e)) as [[|c]|]; try (inversion H; subst; exact D0).
    destruct (negb _); [|inversion H; subst; exact D0].
    unfold triggerRefValue in H.
    match type of H with
    | context [cdep (computeds ?st c)] =>
        assert (D1 : KeysDistinct st)
          by (apply (KeysDistinct_same s); [reflexivity..|exact Dt])
    end.
    destruct (cdep _); [eapply triggerEffects_keys; eauto|inversion H; subst; exact D1].
Qed.

End KeysCall.

Lemma call_keys fuel : KeysSafe (call fuel).
Proof.
  induction fuel as [|f IH].
  - intros c s s' r _ H. discriminate.
  - simpl. apply call_body_keys. exact IH.
Qed.

(** The effects reached by a change that selects, among the keys of target
    [t] that have an entry, those that satisfy [sel], for an effect that
    has just read [keys]. *)
Lemma reached_by_keys fuel e s keys s1 :
  WF s [] -> SubsNoDup s -> KeysDistinct s -> LevelClear 1 s ->
  active (effects s e) = true -> fn (effects s e) = reads keys ->
  (forall x, plain_effect (effects s x)) ->
  run (call fuel) fuel e s = Some (s1, Normal) ->
  forall t ty key v (sel : Key -> Prop),
    (forall m, targetMap s1 t = Some m ->
               NoDup (map fst m) ->
               exists ks,
                 trigger_deps m t ty key v = Some (map (depsMap_get m) ks) /\
                 forall k', depsMap_get m k' <> None -> (In k' ks <-> sel k')) ->
    exists s2 effs,
      trigger (call (S fuel)) t ty key v s1 = Some (s2, Normal) /\
      trace s2 = trace s1 ++ map (notification s1) effs /\
      NoDup effs /\
      (In e effs <-> exists k', sel k' /\ In (t, k') keys).
Proof.
  intros W SN KD LC Hact Hfn Hplain Hrun t ty key v sel Hds.
  destruct (run_reads_collects fuel e s [] keys W Hact (fun H => H) (Nat.le_0_l _)
              ltac:(unfold maxMarkerBits; simpl; lia) LC Hfn)
    as (s2' & ds' & s1' & _ & _ & _ & Hrun' & Hhas & _ & Hsub).
  rewrite Hrun in Hrun'. inversion Hrun'; subst s1'. clear Hrun'.
  destruct (run_reads_top_level fuel e s keys W Hfn) as (s1' & Hrun' & _ & Hsame).
  rewrite Hrun in Hrun'. inversion Hrun'; subst s1'. clear Hrun'.
  assert (W1 : WF s1 []) by (apply (run_safe _ (call_safe fuel) _ _ _ _ _ _ W Hrun)).
  assert (SN1 : SubsNoDup s1)
    by (apply (call_subs (S fuel) (CallRun e) s s1 Normal SN Hrun)).
  assert (KD1 : KeysDistinct s1)
    by (apply (call_keys (S fuel) (CallRun e) s s1 Normal KD Hrun)).
  assert (Hplain1 : forall x, plain_effect (effects s1 x)).
  { intros x. specialize (Hplain x). unfold plain_effect in *.
    destruct (Hsame x) as [E1 E2]. rewrite E1, E2. exact Hplain. }
  unfold trigger. destruct (targetMap s1 t) as [m|] eqn:Hm.
  - destruct (Hds m eq_refl (proj1 (proj2 KD1) t m Hm)) as (ks & Eds & Hsel).
    rewrite Eds.
    set (effs := trigger_effects_of (depHeap s1) (map (depsMap_get m) ks)).
    destruct (triggerEffects_plain fuel effs s1 W1 (fun x _ => Hplain1 x))
      as (s2 & E & T & _).
    destruct (trigger_effects_of_spec (depHeap s1) (map (depsMap_get m) ks) SN1)
      as [ND Hin].
    exists s2, effs. split; [exact E|]. split; [exact T|]. split; [exact ND|].
    unfold effs. rewrite Hin. split.
    + intros (d & Id & Ie). apply in_map_iff in Id. destruct Id as (k' & Ek & Ik).
      exists k'. split; [apply Hsel; [congruence|exact Ik]|].
      apply Hsub in Ie. destruct Ie as ([t0 k0] & Itk & Etk). cbn [fst snd] in Etk.
      unfold dep_of in Etk. destruct (targetMap s1 t0) as [m0|] eqn:Hm0; [|discriminate].
      destruct KD1 as (_ & _ & Inj).
      destruct (Inj t0 t m0 m k0 k' d Hm0 Hm (depsMap_get_entry _ _ _ Etk)
                  (depsMap_get_entry _ _ _ Ek)) as [-> ->].
      exact Itk.
    + intros (k' & Ik & Itk). pose proof (Hhas _ Itk) as Hne. cbn [fst snd] in Hne.
      unfold dep_of in Hne. rewrite Hm in Hne.
      destruct (depsMap_get m k') as [d|] eqn:Ed; [|congruence].
      exists d. split.
      * rewrite <- Ed. apply in_map. apply Hsel; [congruence|exact Ik].
      * apply Hsub. exists (t, k'). split; [exact Itk|].
        cbn [fst snd]. unfold dep_of. rewrite Hm. exact Ed.
  - exists s1, []. split; [reflexivity|]. split; [simpl; symmetry; apply app_nil_r|].
    split; [constructor|]. split; [intros []|].
    intros (k' & _ & Itk). apply (Hhas _ Itk). cbn [fst snd]. unfold dep_of.
    rewrite Hm. reflexivity.
Qed.

(** X6: Which effects a change reaches.  An effect has run at the top
    level and its function has read [keys]; every effect is a plain one.
    Then a change notifies each effect at most once, and it notifies this
    effect exactly when the effect has read a key that the change selects:
    for [SET] on an object or an array, the key itself; for [ADD] and
    [DELETE] on an object, the key itself or [ITERATE_KEY]; for [ADD] of an
    index on an array, the index or [length].  That no two keys share an
    entry holds initially and is kept by every program. *)
Theorem change_reaches_the_effects_that_read_the_key :
  (forall fuel e s keys,
    WF s [] -> SubsNoDup s -> KeysDistinct s -> LevelClear 1 s ->
    active (effects s e) = true -> fn (effects s e) = reads keys ->
    (forall x, plain_effect (effects s x)) ->
    exists s1,
      run (call fuel) fuel e s = Some (s1, Normal) /\
      (forall t key v,
          isMap t = false -> isArray t = false \/ key <> KLength ->
          exists s2 effs,
            trigger (call (S fuel)) t SET (Some key) v s1 = Some (s2, Normal) /\
            trace s2 = trace s1 ++ map (notification s1) effs /\
            NoDup effs /\
            (In e effs <-> In (t, key) keys)) /\
      (forall t ty key v,
          isMap t = false -> isArray t = false -> ty = ADD \/ ty = DELETE ->
          exists s2 effs,
            trigger (call (S fuel)) t ty (Some key) v s1 = Some (s2, Normal) /\
            trace s2 = trace s1 ++ map (notification s1) effs /\
            NoDup effs /\
            (In e effs <-> In (t, key) keys \/ In (t, ITERATE_KEY) keys)) /\
      (forall t i v,
          isArray t = true ->
          exists s2 effs,
            trigger (call (S fuel)) t ADD (Some (KIndex i)) v s1 = Some (s2, Normal) /\
            trace s2 = trace s1 ++ map (notification s1) effs /\
            NoDup effs /\
            (In e effs <-> In (t, KIndex i) keys \/ In (t, KLength) keys))) /\
  (forall fuel prog s s' r,
      KeysDistinct s -> exec (call fuel) prog s = Some (s', r) -> KeysDistinct s') /\
  (forall efs cs, KeysDistinct (init_state efs cs)).
Proof.
  split; [|split].
  2: { intros fuel prog s s' r. apply (exec_keys_step _ (call_keys fuel)). }
  2: { intros efs cs. unfold KeysDistinct, init_state. ssimpl.
       split; [|split]; intros; discriminate. }
  intros fuel e s keys W SN KD LC Hact Hfn Hplain.
  destruct (run_reads_top_level fuel e s keys W Hfn) as (s1 & Hrun & _).
  exists s1. split; [exact Hrun|].
  pose proof (reached_by_keys fuel e s keys s1 W SN KD LC Hact Hfn Hplain Hrun) as R.
  split; [|split].
  - intros t key v Hmp Hk.
    destruct (R t SET (Some key) v (fun k' => In k' [key])) as (s2 & effs & A & B & C & D).
    + intros m _ _. exists [key]. split; [|tauto].
      unfold trigger_deps. rewrite Hmp.
      replace (key_eqb key KLength && isArray t) with false; [reflexivity|].
      symmetry. destruct Hk as [Hk|Hk]; [rewrite Hk; apply andb_false_r|].
      destruct (key_eqb key KLength) eqn:E; [|reflexivity].
      apply key_eqb_eq in E. contradiction.
    + exists s2, effs. repeat (split; [assumption|]). rewrite D. split.
      * intros (k' & [<-|[]] & I). exact I.
      * intros I. exists key. split; [now left|exact I].
  - intros t ty key v Hmp Har Hty.
    destruct (R t ty (Some key) v (fun k' => In k' [key; ITERATE_KEY]))
      as (s2 & effs & A & B & C & D).
    + intros m _ _. exists [key; ITERATE_KEY]. split; [|tauto].
      unfold trigger_deps. rewrite Hmp, Har, andb_false_r.
      destruct Hty as [-> | ->]; reflexivity.
    + exists s2, effs. repeat (split; [assumption|]). rewrite D. split.
      * intros (k' & [<-|[<-|[]]] & I); [left|right]; exact I.
      * intros [I|I]; [exists key|exists ITERATE_KEY]; (split; [simpl; tauto|exact I]).
  - intros t i v Har.
    destruct (R t ADD (Some (KIndex i)) v (fun k' => In k' [KIndex i; KLength]))
      as (s2 & effs & A & B & C & D).
    + intros m _ _. exists [KIndex i; KLength]. split; [|tauto].
      unfold trigger_deps. rewrite Har. reflexivity.
    + exists s2, effs. repeat (split; [assumption|]). rewrite D. split.
      * intros (k' & [<-|[<-|[]]] & I); [left|right]; exact I.
      * intros [I|I]; [exists (KIndex i)|exists KLength]; (split; [simpl; tauto|exact I]).
Qed.

Lemma WF_reader_init : WF reader_init [].
Proof.
  apply WF_init; [|reflexivity].
  intros e. unfold reader_effects. destruct e as [|[|e]]; split; reflexivity.
Qed.

Lemma change_reaches_the_effects_that_read_the_key_witness :
  exists s1,
    run (call 0) 0 0 reader_init = Some (s1, Normal) /\
    (exists s2 effs,
        trigger (call 1) obj0 ADD (Some (KName 5)) None s1 = Some (s2, Normal) /\
        trace s2 = trace s1 ++ map (notification s1) effs /\
        NoDup effs /\
        (In 0 effs <->
         In (obj0, KName 5) [(obj0, KName 0); (obj0, ITERATE_KEY)] \/
         In (obj0, ITERATE_KEY) [(obj0, KName 0); (obj0, ITERATE_KEY)])).
Proof.
  destruct (proj1 change_reaches_the_effects_that_read_the_key 0 0 reader_init
              [(obj0, KName 0); (obj0, ITERATE_KEY)])
    as (s1 & Hrun & _ & Hadd & _).
  - exact WF_reader_init.
  - intros d. apply NoDup_nil.
  - apply (proj2 (proj2 change_reaches_the_effects_that_read_the_key)).
  - intros d. split; reflexivity.
  - reflexivity.
  - reflexivity.
  - intros x. unfold plain_effect.
    destruct x as [|[|x]];
      [exists [(obj0, KName 0); (obj0, ITERATE_KEY)]
      |exists [(obj0, KName 1)]
      |exists []]; reflexivity.
  - exists s1. split; [exact Hrun|].
    apply (Hadd obj0 ADD (KName 5) None); [reflexivity|reflexivity|now left].
Defined.

(** ** Runs beyond the cap of marker bits *)

(** What the marker words of the entries allocated in [s] are in [s']. *)
Lemma trackEffects_all e s d :
  activeEffect s = Some e ->
  (maxMarkerBits < effectTrackDepth s)%Z ->
  (In e (subs (depHeap s d)) -> In d (deps (effects s e))) ->
  (forall d', In d' (deps (effects (trackEffects d s) e))
              <-> In d' (deps (effects s e)) \/ d' = d) /\
  activeEffect (trackEffects d s) = Some e /\
  shouldTrack (trackEffects d s) = shouldTrack s /\
  effectTrackDepth (trackEffects d s) = effectTrackDepth s /\
  targetMap (trackEffects d s) = targetMap s /\
  nextDep (trackEffects d s) = nextDep s /\
  (forall d', dep_w (depHeap (trackEffects d s) d') = dep_w (depHeap s d') /\
              dep_n (depHeap (trackEffects d s) d') = dep_n (depHeap s d')).
Proof.
  intros Ha Hd Hl. unfold trackEffects. rewrite Ha.
  replace (effectTrackDepth s <=? maxMarkerBits)%Z with false
    by (symmetry; apply Z.leb_gt; exact Hd).
  destruct (dep_has e (depHeap s d)) eqn:Eh; cbn [negb fst snd].
  - apply dep_has_In in Eh. apply Hl in Eh.
    split; [|repeat split; solve [reflexivity|exact Ha]].
    intros d'. split; [tauto|]. intros [H| ->]; assumption.
  - ssimpl. rewrite upd_same. cbn [deps set_deps].
    split; [|split; [|split; [|split; [|split; [|split]]]]];
      try reflexivity; try exact Ha.
    + intros d'. rewrite in_app_iff. simpl. intuition congruence.
    + intros d'. split.
      * unfold upd. destruct (Nat.eqb d' d) eqn:E; [|reflexivity].
        apply Nat.eqb_eq in E. subst. apply dep_add_w.
      * unfold upd. destruct (Nat.eqb d' d) eqn:E; [|reflexivity].
        apply Nat.eqb_eq in E. subst. apply dep_add_n.
Qed.

Lemma dep_of_new_target s t t' k' d' :
  targetMap s t = None ->
  dep_of s t' k' = Some d' ->
  dep_of (with_targetMap s (targetMap_set (targetMap s) t [])) t' k' = Some d'.
Proof.
  intros Hn H. unfold dep_of in *. ssimpl. unfold targetMap_set.
  destruct (target_eqb t' t) eqn:E; [|exact H].
  apply target_eqb_eq in E. subst. rewrite Hn in H. discriminate.
Qed.

Lemma dep_of_new_key s s' t m key d t' k' d' :
  targetMap s t = Some m ->
  targetMap s' = targetMap_set (targetMap s) t (m ++ [(key, d)]) ->
  dep_of s t' k' = Some d' ->
  dep_of s' t' k' = Some d'.
Proof.
  intros Hm E H. unfold dep_of in *. rewrite E. unfold targetMap_set.
  destruct (target_eqb t' t) eqn:Et; [|exact H].
  apply target_eqb_eq in Et. subst. rewrite Hm in H.
  apply depsMap_get_app_old. exact H.
Qed.

Lemma map_dep_of_keeps (s s' : State) done ds :
  (forall t k d, dep_of s t k = Some d -> dep_of s' t k = Some d) ->
  map (fun tk => dep_of s (fst tk) (snd tk)) done = map Some ds ->
  map (fun tk => dep_of s' (fst tk) (snd tk)) done = map Some ds.
Proof.
  intros H E. rewrite <- E. apply map_ext_in. intros tk Htk.
  destruct (map_Some_all _ _ _ E tk Htk) as [d [Ed _]].
  rewrite Ed. apply H. exact Ed.
Qed.

(** One read beyond the cap: the key has an entry, and the effect is a
    member of it. *)
Lemma track_all e l done ds s t key :
  CollectingAll e l done ds s ->
  exists d,
    CollectingAll e l (done ++ [(t, key)]) (ds ++ [d]) (track t key s) /\
    nextDep s <= nextDep (track t key s) /\
    (forall d', d' < nextDep s ->
                dep_w (depHeap (track t key s) d') = dep_w (depHeap s d') /\
                dep_n (depHeap (track t key s) d') = dep_n (depHeap s d')).
Proof.
  intros C. pose proof (WF_track t key s _ (ca_wf _ _ _ _ _ C)) as W'.
  destruct C as [W Ca Ct Cd Cds Cdn].
  (* the state handed to [trackEffects] *)
  assert (H0 : exists d s0,
             track t key s = trackEffects d s0 /\
             dep_of s0 t key = Some d /\
             (forall t' k' d', dep_of s t' k' = Some d' -> dep_of s0 t' k' = Some d') /\
             effects s0 = effects s /\ activeEffect s0 = activeEffect s /\
             shouldTrack s0 = shouldTrack s /\ effectTrackDepth s0 = effectTrackDepth s /\
             nextDep s <= nextDep s0 /\
             (In e (subs (depHeap s0 d)) -> In d (deps (effects s e))) /\
             (forall d', d' < nextDep s -> depHeap s0 d' = depHeap s d')).
  { unfold track. rewrite Ct, Ca. cbn [isSome andb].
    destruct (targetMap s t) as [m|] eqn:Em.
    - destruct (depsMap_get m key) as [d|] eqn:Ed.
      + exists d, s.
        split; [reflexivity|]. split; [unfold dep_of; rewrite Em; exact Ed|].
        split; [auto|]. do 4 (split; [first [reflexivity|exact Ca|exact Ct]|]). split; [lia|].
        split; [apply (wf_linked _ _ W)|auto].
      + cbv zeta. eexists (nextDep s), _. split; [reflexivity|]. ssimpl.
        split; [unfold dep_of; ssimpl; rewrite targetMap_set_same;
                apply depsMap_get_app_new; exact Ed|].
        split; [intros t' k' d' H; apply (dep_of_new_key s _ t m key (nextDep s));
                [exact Em|reflexivity|exact H]|].
        do 4 (split; [first [reflexivity|exact Ca|exact Ct]|]). split; [lia|].
        split; [rewrite upd_same; intros []|].
        intros d' Hlt. apply upd_other. lia.
    - cbn [depsMap_get]. cbv zeta. eexists (nextDep s), _. split; [reflexivity|]. ssimpl.
      split; [unfold dep_of; ssimpl; rewrite targetMap_set_same;
              cbn [app depsMap_get]; rewrite key_eqb_refl; reflexivity|].
      split.
      { intros t' k' d' H.
        apply (dep_of_new_key
                 (with_targetMap s (targetMap_set (targetMap s) t [])) _ t [] key (nextDep s)).
        - ssimpl. apply targetMap_set_same.
        - reflexivity.
        - apply dep_of_new_target; assumption. }
      do 4 (split; [first [reflexivity|exact Ca|exact Ct]|]). split; [lia|].
      split; [rewrite upd_same; intros []|].
      intros d' Hlt. apply upd_other. lia. }
  destruct H0 as (d & s0 & E & Hd & Hkeep & Ee & Ea & Et & Edp & Hn & Hl & Hheap).
  destruct (trackEffects_all e s0 d) as (Hdeps & Ha' & Ht' & Hd' & Htm & Hnx & Hmark).
  { rewrite Ea. exact Ca. }
  { rewrite Edp. exact Cd. }
  { rewrite Ee. exact Hl. }
  exists d. rewrite E in *. split; [|split].
  - constructor.
    + exact W'.
    + exact Ha'.
    + rewrite Ht', Et. exact Ct.
    + rewrite Hd', Edp. exact Cd.
    + intros d'. rewrite Hdeps, Ee, Cds, in_app_iff. simpl. intuition congruence.
    + rewrite !map_app. cbn [map fst snd]. f_equal.
      * apply (map_dep_of_keeps s); [|exact Cdn].
        intros t' k' d' H. unfold dep_of. rewrite Htm. apply Hkeep. exact H.
      * unfold dep_of. rewrite Htm. fold (dep_of s0 t key). rewrite Hd. reflexivity.
  - rewrite Hnx. exact Hn.
  - intros d' Hlt. destruct (Hmark d') as [A B]. rewrite A, B, (Hheap d' Hlt).
    split; reflexivity.
Qed.

Lemma exec_reads_all cl e l keys : forall done ds s,
  CollectingAll e l done ds s ->
  exists s' ds',
    exec cl (reads keys) s = Some (s', Normal) /\
    CollectingAll e l (done ++ keys) ds' s' /\
    trace s' = trace s /\
    nextDep s <= nextDep s' /\
    (forall d', d' < nextDep s ->
                dep_w (depHeap s' d') = dep_w (depHeap s d') /\
                dep_n (depHeap s' d') = dep_n (depHeap s d')).
Proof.
  induction keys as [|[t key] keys IH]; intros done ds s C.
  - exists s, ds. rewrite app_nil_r.
    split; [reflexivity|]. split; [exact C|]. split; [reflexivity|]. split; [lia|].
    intros d' _. split; reflexivity.
  - cbn [reads map fst snd exec step].
    destruct (track_all e l done ds s t key C) as (d & C1 & N1 & M1).
    destruct (IH _ _ _ C1) as (s' & ds' & E & C2 & T & N2 & M2).
    exists s', ds'. split; [exact E|]. split.
    + rewrite <- app_assoc in C2. exact C2.
    + split; [rewrite T; apply track_trace|]. split; [lia|].
      intros d' Hlt. destruct (M2 d' ltac:(lia)) as [A B].
      destruct (M1 d' Hlt) as [A1 B1]. rewrite A, B, A1, B1. split; reflexivity.
Qed.

Lemma run_enter_all e s l :
  WF s l -> ~ In e l ->
  (maxMarkerBits < Z.of_nat (S (length l)))%Z ->
  CollectingAll e l [] [] (log (run_enter e s) (EvRun e)) /\
  nextDep (run_enter e s) = nextDep s /\
  (forall d, dep_w (depHeap (run_enter e s) d) = dep_w (depHeap s d) /\
             dep_n (depHeap (run_enter e s) d) = dep_n (depHeap s d)).
Proof.
  intros W Hnot Hcap.
  pose proof (WF_log _ _ (EvRun e) (WF_run_enter e s l W Hnot)) as W1.
  unfold run_enter in *. cbv zeta in *. ssimpl.
  replace (effectTrackDepth s + 1 <=? maxMarkerBits)%Z with false in *.
  2: { symmetry. apply Z.leb_gt. rewrite (wf_depth _ _ W). lia. }
  split; [|split].
  - constructor.
    + exact W1.
    + reflexivity.
    + reflexivity.
    + unfold log, cleanupEffect. ssimpl. rewrite (wf_depth _ _ W). lia.
    + intros d. unfold log, cleanupEffect. ssimpl. rewrite upd_same.
      cbn [deps set_deps]. tauto.
    + reflexivity.
  - reflexivity.
  - intros d. unfold cleanupEffect. ssimpl. rewrite cleanupEffect_loop_map_at.
    split; [apply map_at_w|apply map_at_n]; intros d0; reflexivity.
Qed.

(** X7: Beyond the cap of 30 levels a run does not use the marker bits: it
    empties the list of the effect first and adds the effect to every
    entry it reads.  The run of an active effect whose function reads keys
    completes, and afterwards the effect is subscribed to exactly the
    entries of the keys it has read in this run, as within the cap; no
    marker word of an existing entry has changed, whatever the marker
    words were. *)
Theorem run_beyond_the_cap_collects_the_keys_it_reads :
  forall fuel e s l keys,
    WF s l -> active (effects s e) = true -> ~ In e l -> length l <= fuel ->
    (maxMarkerBits < Z.of_nat (S (length l)))%Z ->
    fn (effects s e) = reads keys ->
    exists s',
      run (call fuel) fuel e s = Some (s', Normal) /\
      (forall tk, In tk keys -> dep_of s' (fst tk) (snd tk) <> None) /\
      (forall d, In d (deps (effects s' e)) <->
                 exists tk, In tk keys /\ dep_of s' (fst tk) (snd tk) = Some d) /\
      (forall d, In e (subs (depHeap s' d)) <->
                 exists tk, In tk keys /\ dep_of s' (fst tk) (snd tk) = Some d) /\
      (forall d, d < nextDep s ->
                 dep_w (depHeap s' d) = dep_w (depHeap s d) /\
                 dep_n (depHeap s' d) = dep_n (depHeap s d)) /\
      trace s' = trace s ++ [EvRun e].
Proof.
  intros fuel e s l keys W Hact Hnot Hl Hcap Hfn.
  destruct (run_enter_all e s l W Hnot Hcap) as (C0 & N0 & M0).
  destruct (exec_reads_all (call fuel) e l keys [] [] _ C0)
    as (s2 & ds & Ex & C2 & T2 & N2 & M2).
  simpl in C2.
  assert (Hrun : run (call fuel) fuel e s
                 = Some (run_finally e (shouldTrack s) s2, Normal)).
  { unfold run. rewrite Hact. simpl.
    destruct (isAncestor_total (effects s) e fuel _ _ (wf_chain _ _ W) Hl) as [b Hb].
    rewrite Hb. destruct b.
    { exfalso. apply Hnot.
      apply (isAncestor_spec _ _ _ _ _ _ (wf_chain _ _ W) Hb). reflexivity. }
    rewrite run_enter_fn, Hfn, Ex. reflexivity. }
  set (s' := run_finally e (shouldTrack s) s2) in *.
  exists s'. split; [exact Hrun|].
  destruct (run_safe _ (call_safe fuel) _ _ _ _ _ _ W Hrun) as [W' _].
  destruct C2 as [_ _ _ Cd Cds Cdn].
  assert (Hs' : targetMap s' = targetMap s2 /\ depHeap s' = depHeap s2 /\
                deps (effects s' e) = deps (effects s2 e)).
  { unfold s', run_finally. cbv zeta.
    replace (effectTrackDepth s2 <=? maxMarkerBits)%Z with false
      by (symmetry; apply Z.leb_gt; exact Cd).
    ssimpl. rewrite upd_same. repeat split. }
  destruct Hs' as (Ht & Hh & Hde).
  assert (Hof : forall t key, dep_of s' t key = dep_of s2 t key).
  { intros t key. unfold dep_of. rewrite Ht. reflexivity. }
  assert (Hds : forall d, In d ds <->
                  exists tk, In tk keys /\ dep_of s' (fst tk) (snd tk) = Some d).
  { intros d. split.
    - intros H. destruct (map_Some_any _ _ _ Cdn d H) as [tk [I E]].
      exists tk. split; [exact I|]. rewrite Hof. exact E.
    - intros [tk [I E]]. destruct (map_Some_all _ _ _ Cdn tk I) as [d' [E' I']].
      rewrite Hof in E. congruence. }
  split; [|split; [|split; [|split]]].
  - intros tk I. destruct (map_Some_all _ _ _ Cdn tk I) as [d' [E' _]].
    rewrite Hof. congruence.
  - intros d. rewrite Hde, Cds. apply Hds.
  - intros d. rewrite (wf_linked _ _ W' e d), Hde, Cds. apply Hds.
  - intros d Hlt. rewrite Hh.
    destruct (M2 d) as [A B]; [cbn [nextDep log]; rewrite N0; exact Hlt|].
    destruct (M0 d) as [A0 B0]. rewrite A, B. cbn [depHeap log]. split; assumption.
  - assert (Tr : trace s' = trace s2) by apply Quiet_run_finally.
    rewrite Tr, T2. cbn [trace log]. f_equal. apply Quiet_run_enter.
Qed.

Lemma WF_enter_all es : forall s l,
  WF s l -> NoDup es -> (forall x, In x es -> ~ In x l) ->
  WF (fold_left (fun s i => run_enter i s) es s) (rev es ++ l).
Proof.
  induction es as [|a es IH]; intros s l W ND Hl; simpl; [exact W|].
  apply NoDup_cons_iff in ND. destruct ND as [Ha ND].
  rewrite <- app_assoc. apply IH.
  - apply WF_run_enter; [exact W|]. apply Hl. now left.
  - exact ND.
  - intros x Hx [<-|Hin]; [exact (Ha Hx)|]. apply (Hl x); [now right|exact Hin].
Qed.

Lemma run_beyond_the_cap_collects_the_keys_it_reads_witness :
  exists s',
    run (call 30) 30 0 nested_state = Some (s', Normal) /\
    (forall tk, In tk [(obj0, KName 0)] -> dep_of s' (fst tk) (snd tk) <> None) /\
    (forall d, In d (deps (effects s' 0)) <->
               exists tk, In tk [(obj0, KName 0)] /\ dep_of s' (fst tk) (snd tk) = Some d) /\
    (forall d, In 0 (subs (depHeap s' d)) <->
               exists tk, In tk [(obj0, KName 0)] /\ dep_of s' (fst tk) (snd tk) = Some d) /\
    (forall d, d < nextDep nested_state ->
               dep_w (depHeap s' d) = dep_w (depHeap nested_state d) /\
               dep_n (depHeap s' d) = dep_n (depHeap nested_state d)) /\
    trace s' = trace nested_state ++ [EvRun 0].
Proof.
  apply (run_beyond_the_cap_collects_the_keys_it_reads 30 0 nested_state
           (rev (seq 1 30) ++ []) [(obj0, KName 0)]).
  - apply WF_enter_all.
    + apply WF_init; [|reflexivity]. intros e. split; reflexivity.
    + apply seq_NoDup.
    + intros x _ [].
  - vm_compute. reflexivity.
  - rewrite app_nil_r, <- in_rev, in_seq. lia.
  - vm_compute. apply le_n.
  - vm_compute. reflexivity.
  - vm_compute. reflexivity.
Defined.

(** ** Marker bits left behind by an effect stopped while it runs *)

Lemma track_as_trackEffects t key s l :
  WF s l -> shouldTrack s = true -> isSome (activeEffect s) = true ->
  exists d s0,
    track t key s = trackEffects d s0 /\
    dep_of s0 t key = Some d /\
    (forall t' k' d', dep_of s t' k' = Some d' -> dep_of s0 t' k' = Some d') /\
    effects s0 = effects s /\ activeEffect s0 = activeEffect s /\
    shouldTrack s0 = shouldTrack s /\
    effectTrackDepth s0 = effectTrackDepth s /\ trackOpBit s0 = trackOpBit s /\
    nextDep s <= nextDep s0 /\
    (forall d', d' < nextDep s -> depHeap s0 d' = depHeap s d').
Proof.
  intros W Ct Ca. unfold track.
  replace (shouldTrack s && isSome (activeEffect s)) with true
    by (rewrite Ct, Ca; reflexivity).
  destruct (targetMap s t) as [m|] eqn:Em.
  - destruct (depsMap_get m key) as [d|] eqn:Ed.
    + exists d, s.
      split; [reflexivity|]. split; [unfold dep_of; rewrite Em; exact Ed|].
      split; [auto|]. do 5 (split; [reflexivity|]). split; [lia|auto].
    + cbv zeta. eexists (nextDep s), _. split; [reflexivity|]. ssimpl.
      split; [unfold dep_of; ssimpl; rewrite targetMap_set_same;
              apply depsMap_get_app_new; exact Ed|].
      split; [intros t' k' d' H; apply (dep_of_new_key s _ t m key (nextDep s));
              [exact Em|reflexivity|exact H]|].
      do 5 (split; [reflexivity|]). split; [lia|].
      intros d' Hlt. apply upd_other. lia.
  - cbn [depsMap_get]. cbv zeta. eexists (nextDep s), _. split; [reflexivity|]. ssimpl.
    split; [unfold dep_of; ssimpl; rewrite targetMap_set_same;
            cbn [app depsMap_get]; rewrite key_eqb_refl; reflexivity|].
    split.
    { intros t' k' d' H.
      apply (dep_of_new_key
               (with_targetMap s (targetMap_set (targetMap s) t [])) _ t [] key (nextDep s)).
      - ssimpl. apply targetMap_set_same.
      - reflexivity.
      - apply dep_of_new_target; assumption. }
    do 5 (split; [reflexivity|]). split; [lia|].
    intros d' Hlt. apply upd_other. lia.
Qed.

Lemma trackEffects_blind e k D s d' :
  (1 <= k <= 30)%Z -> Blind e k D s -> Blind e k D (trackEffects d' s).
Proof.
  intros Hk [Ba Bt Bd Bb Bm Bf Bo].
  destruct (frame_trackEffects d' s) as [_ Hn].
  unfold trackEffects in *. rewrite Ba in *.
  assert (Ed : (effectTrackDepth s <=? maxMarkerBits)%Z = true)
    by (apply Z.leb_le; unfold maxMarkerBits; lia).
  rewrite Ed in *. unfold newTracked, wasTracked in *. rewrite Bb in *.
  rewrite !tracked_testbit in * by lia.
  destruct (Z.testbit (dep_n (depHeap s d')) k) eqn:En; cbn [negb] in *.
  - constructor; assumption.
  - assert (Hd' : forall d, In d D -> d <> d').
    { intros d Hd ->. rewrite (Bm _ Hd) in En. discriminate. }
    destruct (Z.testbit (dep_w (depHeap s d')) k); cbn [negb] in *.
    + constructor; ssimpl; auto.
      intros d Hd. rewrite upd_other by (apply Hd'; exact Hd). apply Bm. exact Hd.
    + constructor; ssimpl; auto.
      * intros d Hd. rewrite !upd_other by (apply Hd'; exact Hd). apply Bm. exact Hd.
      * intros d Hd. rewrite upd_same. cbn [deps set_deps]. rewrite in_app_iff.
        intros [H|[H|[]]]; [exact (Bo d Hd H)|]. apply (Hd' d Hd). congruence.
Qed.

Lemma track_blind e k D s l t key :
  (1 <= k <= 30)%Z -> WF s l -> Blind e k D s ->
  Blind e k D (track t key s) /\
  (forall t' k' d', dep_of s t' k' = Some d' -> dep_of (track t key s) t' k' = Some d').
Proof.
  intros Hk W B.
  destruct (track_as_trackEffects t key s l W (bl_track _ _ _ _ B))
    as (d & s0 & E & Hd & Hkeep & Ee & Ea & Et & Edp & Eb & Hn & Hheap).
  { rewrite (bl_active _ _ _ _ B). reflexivity. }
  rewrite E. split.
  - apply trackEffects_blind; [exact Hk|].
    destruct B as [Ba Bt Bd Bb Bm Bf Bo]. constructor.
    + rewrite Ea. exact Ba.
    + rewrite Et. exact Bt.
    + rewrite Edp. exact Bd.
    + rewrite Eb. exact Bb.
    + intros d0 Hd0. rewrite (Hheap d0 (Bf d0 Hd0)). apply Bm. exact Hd0.
    + intros d0 Hd0. specialize (Bf d0 Hd0). lia.
    + intros d0 Hd0. rewrite Ee. apply Bo. exact Hd0.
  - intros t' k' d' H. unfold dep_of.
    rewrite (proj1 (frame_trackEffects d s0)). apply Hkeep. exact H.
Qed.

Lemma exec_reads_blind cl e k D keys : forall s l,
  (1 <= k <= 30)%Z -> WF s l -> Blind e k D s ->
  exists s',
    exec cl (reads keys) s = Some (s', Normal) /\
    Blind e k D s' /\ WF s' l /\
    (forall t' k' d', dep_of s t' k' = Some d' -> dep_of s' t' k' = Some d').
Proof.
  induction keys as [|[t key] keys IH]; intros s l Hk W B.
  - exists s. split; [reflexivity|]. split; [exact B|]. split; [exact W|auto].
  - cbn [reads map fst snd exec step].
    destruct (track_blind e k D s l t key Hk W B) as [B1 K1].
    destruct (IH _ l Hk (WF_track t key s l W) B1) as (s' & E & B2 & W2 & K2).
    exists s'. split; [exact E|]. split; [exact B2|]. split; [exact W2|].
    intros t' k' d' H. apply K2, K1. exact H.
Qed.

(** A run within the cap does not subscribe the effect to an entry that
    carries the newly-tracked bit of its level, whatever it reads. *)
Lemma run_blind fuel e s D keys :
  WF s [] -> active (effects s e) = true -> fn (effects s e) = reads keys ->
  (forall d, In d D ->
             Z.testbit (dep_n (depHeap s d)) 1 = true /\ (d < nextDep s) /\
             (~ In d (deps (effects s e)))) ->
  exists s',
    run (call fuel) fuel e s = Some (s', Normal) /\
    WF s' [] /\
    (forall t' k' d', dep_of s t' k' = Some d' -> dep_of s' t' k' = Some d') /\
    (forall d, In d D ->
               Z.testbit (dep_n (depHeap s' d)) 1 = true /\
               (~ In d (deps (effects s' e)))).
Proof.
  intros W Hact Hfn HD.
  assert (Hk : (1 <= 1 <= 30)%Z) by lia.
  pose proof (WF_log _ _ (EvRun e) (WF_run_enter e s [] W (fun H => H))) as W1.
  assert (B0 : Blind e 1 D (log (run_enter e s) (EvRun e))).
  { assert (Hd : (effectTrackDepth s + 1 = 1)%Z)
      by (rewrite (wf_depth _ _ W); reflexivity).
    unfold run_enter. cbv zeta. ssimpl. rewrite Hd.
    change (1 <=? maxMarkerBits)%Z with true. cbv iota.
    unfold initDepMarkers. ssimpl.
    rewrite initDepMarkers_loop_map_at. rewrite js_shl_pow2 by lia.
    assert (Hdeps : deps (upd (effects s) e (set_parent (effects s e) (activeEffect s)) e)
                    = deps (effects s e)) by (rewrite upd_same; reflexivity).
    rewrite Hdeps.
    constructor; ssimpl; try reflexivity.
    - intros d Hd0. rewrite map_at_n by reflexivity. apply (HD d Hd0).
    - intros d Hd0. apply (HD d Hd0).
    - intros d Hd0. rewrite Hdeps. apply (HD d Hd0). }
  destruct (exec_reads_blind (call fuel) e 1 D keys _ [e] Hk W1 B0)
    as (s2 & Ex & B2 & W2 & K2).
  assert (Hrun : run (call fuel) fuel e s
                 = Some (run_finally e (shouldTrack s) s2, Normal)).
  { unfold run. rewrite Hact. simpl.
    destruct (isAncestor_total (effects s) e fuel _ _ (wf_chain _ _ W) (Nat.le_0_l _))
      as [b Hb].
    rewrite Hb. destruct b.
    { exfalso. apply (isAncestor_spec _ _ _ _ _ _ (wf_chain _ _ W) Hb). reflexivity. }
    rewrite run_enter_fn, Hfn, Ex. reflexivity. }
  set (s' := run_finally e (shouldTrack s) s2) in *.
  exists s'. split; [exact Hrun|].
  destruct (run_safe _ (call_safe fuel) _ _ _ _ _ _ W Hrun) as [W' _].
  split; [exact W'|].
  destruct B2 as [Ba Bt Bd Bb Bm Bf Bo].
  assert (Hcap2 : (effectTrackDepth s2 <= maxMarkerBits)%Z)
    by (rewrite Bd; unfold maxMarkerBits; lia).
  destruct (run_finally_finalizes e (shouldTrack s) s2 Hcap2) as [Fh Fd]. fold s' in Fh, Fd.
  assert (Hbit : trackOpBit s2 = js_shl 1 1) by (rewrite js_shl_pow2 by lia; exact Bb).
  destruct (finalizeDepMarkers_spec e s2 1 ltac:(unfold maxMarkerBits; lia) Hbit
              (wf_nodup_deps _ _ W2 e))
    as [_ [F2 [_ [_ [F5 _]]]]].
  split.
  - intros t' k' d' H. unfold dep_of.
    replace (targetMap s') with (targetMap s2) by (symmetry; apply frame_run_finally).
    apply K2. unfold dep_of. cbn [targetMap log].
    replace (targetMap (run_enter e s)) with (targetMap s)
      by (symmetry; apply frame_run_enter).
    exact H.
  - intros d Hd0. split.
    + rewrite Fh, (F5 d (Bo d Hd0)). apply Bm. exact Hd0.
    + rewrite Fd, F2. intros H. apply filter_In in H. apply (Bo d Hd0). apply H.
Qed.

Lemma trackEffects_effects_frame d s e :
  activeEffect s = Some e ->
  (forall x, x <> e -> effects (trackEffects d s) x = effects s x) /\
  active (effects (trackEffects d s) e) = active (effects s e) /\
  activeEffect (trackEffects d s) = Some e.
Proof.
  intros Ha. unfold trackEffects. rewrite Ha.
  destruct (effectTrackDepth s <=? maxMarkerBits)%Z;
    [destruct (negb (newTracked _ _)); [destruct (negb (wasTracked _ _))|]
    |destruct (negb (dep_has _ _))];
    ssimpl; (split; [|split]); try reflexivity; try exact Ha;
    try (intros x Hx; apply upd_other; exact Hx);
    rewrite upd_same; reflexivity.
Qed.

Lemma track_effects_frame t key s e :
  activeEffect s = Some e ->
  (forall x, x <> e -> effects (track t key s) x = effects s x) /\
  active (effects (track t key s) e) = active (effects s e) /\
  activeEffect (track t key s) = Some e.
Proof.
  intros Ha. unfold track.
  destruct (shouldTrack s && isSome (activeEffect s));
    [|split; [|split]; [reflexivity|reflexivity|exact Ha]].
  destruct (targetMap s t) as [m|].
  - destruct (depsMap_get m key) as [d|].
    + apply trackEffects_effects_frame. exact Ha.
    + cbv zeta.
      match goal with |- context [trackEffects ?d ?s0] =>
        destruct (trackEffects_effects_frame d s0 e Ha) as (A & B & C) end.
      split; [|split]; [exact A|exact B|exact C].
  - cbn [depsMap_get]. cbv zeta.
    match goal with |- context [trackEffects ?d ?s0] =>
      destruct (trackEffects_effects_frame d s0 e Ha) as (A & B & C) end.
    split; [|split]; [exact A|exact B|exact C].
Qed.

Lemma reads_effects_frame keys e : forall s,
  activeEffect s = Some e ->
  (forall x, x <> e ->
     effects (fold_left (fun s tk => track (fst tk) (snd tk) s) keys s) x = effects s x) /\
  active (effects (fold_left (fun s tk => track (fst tk) (snd tk) s) keys s) e)
  = active (effects s e).
Proof.
  induction keys as [|[t key] keys IH]; intros s Ha; simpl; [split; reflexivity|].
  destruct (track_effects_frame t key s e Ha) as (A & B & C).
  destruct (IH _ C) as [A1 B1]. split.
  - intros x Hx. rewrite (A1 x Hx). apply A. exact Hx.
  - rewrite B1. exact B.
Qed.

Lemma exec_app_normal k a b : forall s s1,
  exec k a s = Some (s1, Normal) -> exec k (a ++ b) s = exec k b s1.
Proof.
  induction a as [|x a IH]; intros s s1 H; simpl in *.
  - inversion H; subst. reflexivity.
  - destruct (step k x s) as [[s' [|]]|]; try discriminate. apply IH. exact H.
Qed.

Lemma stop_running e s :
  active (effects s e) = true ->
  depHeap (stop e s) = map_at (dep_delete e) (deps (effects s e)) (depHeap s) /\
  deps (effects (stop e s) e) = [] /\
  active (effects (stop e s) e) = false /\
  (forall x, x <> e -> effects (stop e s) x = effects s x) /\
  effectTrackDepth (stop e s) = effectTrackDepth s /\
  trackOpBit (stop e s) = trackOpBit s.
Proof.
  intros Ha. unfold stop. rewrite Ha. cbv zeta.
  destruct (onStop (effects (cleanupEffect e s) e));
    unfold cleanupEffect, log; ssimpl; rewrite !upd_same, cleanupEffect_loop_map_at;
    cbn [deps active set_active set_deps];
    (repeat split; try reflexivity);
    intros x Hx; rewrite !upd_other by exact Hx; reflexivity.
Qed.

(** The run of an effect whose function reads keys and then stops the
    effect: the newly-tracked bits it set are still there afterwards. *)
Lemma run_self_stop_leaks fuel e s keys :
  WF s [] -> LevelClear 1 s ->
  active (effects s e) = true -> fn (effects s e) = reads keys ++ [AStop e] ->
  exists s1 ds,
    run (call fuel) fuel e s = Some (s1, Normal) /\
    WF s1 [] /\
    map (fun tk => dep_of s1 (fst tk) (snd tk)) keys = map Some ds /\
    (forall d, In d ds ->
               Z.testbit (dep_n (depHeap s1 d)) 1 = true /\ (d < nextDep s1)) /\
    (forall x, x <> e -> effects s1 x = effects s x) /\
    active (effects s1 e) = false /\
    deps (effects s1 e) = [].
Proof.
  intros W LC Hact Hfn.
  assert (Hk : (1 <= 1 <= 30)%Z) by lia.
  pose proof (run_enter_collect e s [] W (fun H => H)
                ltac:(unfold maxMarkerBits; simpl; lia) LC) as C0.
  cbn [length Z.of_nat] in C0. change (Z.pos (Pos.of_succ_nat 0)) with 1%Z in C0.
  destruct (exec_reads_collect (call fuel) e 1 (deps (effects s e)) keys [] []
              (log (run_enter e s) (EvRun e)) Hk C0) as [s2 [ds [Ex [C2 T2]]]].
  simpl in C2.
  (* the effect is still active when it stops itself *)
  assert (Hfr : (forall x, x <> e -> effects s2 x = effects s x) /\
                active (effects s2 e) = true).
  { rewrite exec_reads_total in Ex. inversion Ex as [Es2].
    destruct (reads_effects_frame keys e (log (run_enter e s) (EvRun e))
                (cl_active _ _ _ _ _ _ C0)) as [A B].
    split.
    - intros x Hx. rewrite (A x Hx). cbn [effects log].
      unfold run_enter. cbv zeta.
      destruct (_ <=? _)%Z; unfold initDepMarkers, cleanupEffect; ssimpl;
        rewrite ?upd_other by exact Hx; reflexivity.
    - rewrite B. cbn [effects log].
      unfold run_enter. cbv zeta.
      destruct (_ <=? _)%Z; unfold initDepMarkers, cleanupEffect; ssimpl;
        rewrite ?upd_same; exact Hact. }
  destruct Hfr as [Hother2 Hact2].
  destruct (stop_running e s2 Hact2) as (Sh & Sd & Sa & So & Sdp & Sb).
  assert (Hrun : run (call fuel) fuel e s
                 = Some (run_finally e (shouldTrack s) (stop e s2), Normal)).
  { unfold run. rewrite Hact. simpl.
    destruct (isAncestor_total (effects s) e fuel _ _ (wf_chain _ _ W) (Nat.le_0_l _))
      as [b Hb].
    rewrite Hb. destruct b.
    { exfalso. apply (isAncestor_spec _ _ _ _ _ _ (wf_chain _ _ W) Hb). reflexivity. }
    rewrite run_enter_fn, Hfn, (exec_app_normal _ _ _ _ _ Ex). reflexivity. }
  set (s1 := run_finally e (shouldTrack s) (stop e s2)) in *.
  exists s1, ds. split; [exact Hrun|].
  destruct (run_safe _ (call_safe fuel) _ _ _ _ _ _ W Hrun) as [W' _].
  split; [exact W'|].
  destruct C2 as [Ca Ct Cd Cb Cn Cw Cds Cnd Cdn Cfo Cfn Cfm].
  assert (Hcap : (effectTrackDepth (stop e s2) <= maxMarkerBits)%Z)
    by (rewrite Sdp, Cd; unfold maxMarkerBits; lia).
  destruct (run_finally_finalizes e (shouldTrack s) (stop e s2) Hcap) as [Fh Fd].
  fold s1 in Fh, Fd.
  assert (Hfin : depHeap (finalizeDepMarkers e (stop e s2)) = depHeap (stop e s2) /\
                 deps (effects (finalizeDepMarkers e (stop e s2)) e) = []).
  { rewrite finalizeDepMarkers_eq. ssimpl. rewrite upd_same, Sd. split; reflexivity. }
  destruct Hfin as [Hfh Hfd].
  assert (Htm : targetMap s1 = targetMap s2 /\ nextDep s1 = nextDep s2).
  { destruct (frame_run_finally e (shouldTrack s) (stop e s2)) as [A B].
    destruct (frame_stop e s2) as [A1 B1]. unfold s1. rewrite A, B, A1, B1.
    split; reflexivity. }
  destruct Htm as [Htm Hnx].
  split; [|split; [|split; [|split]]].
  - rewrite <- Cdn. apply map_ext. intros tk. unfold dep_of. rewrite Htm. reflexivity.
  - intros d Hd. split.
    + rewrite Fh, Hfh, Sh, map_at_n by reflexivity. apply Cn. exact Hd.
    + rewrite Hnx. apply Cfn. exact Hd.
  - intros x Hx. unfold s1, run_finally. cbv zeta. ssimpl.
    rewrite upd_other by exact Hx.
    destruct (_ <=? _)%Z.
    + rewrite finalizeDepMarkers_eq. ssimpl. rewrite upd_other by exact Hx.
      rewrite (So x Hx). apply Hother2. exact Hx.
    + rewrite (So x Hx). apply Hother2. exact Hx.
  - unfold s1, run_finally. cbv zeta. ssimpl. rewrite upd_same. cbn [active set_parent].
    destruct (_ <=? _)%Z.
    + rewrite finalizeDepMarkers_eq. ssimpl. rewrite upd_same. exact Sa.
    + exact Sa.
  - rewrite Fd. exact Hfd.
Qed.

(** X8: An effect that stops itself while it runs leaves the
    newly-tracked bits of the keys it has read: [stop] empties its list, so
    [finalizeDepMarkers] visits no entry.  The next effect that runs at
    that level is then not subscribed to any of those keys, even to the
    ones it reads itself: [trackEffects] takes them for already tracked. *)
Theorem effect_stopped_while_running_blinds_the_next_reader :
  forall fuel e e2 s keys keys2,
    WF s [] -> LevelClear 1 s -> e <> e2 ->
    active (effects s e) = true -> fn (effects s e) = reads keys ++ [AStop e] ->
    active (effects s e2) = true -> deps (effects s e2) = [] ->
    fn (effects s e2) = reads keys2 ->
    exists s1 s2,
      run (call fuel) fuel e s = Some (s1, Normal) /\
      run (call fuel) fuel e2 s1 = Some (s2, Normal) /\
      (forall tk, In tk keys ->
         exists d, dep_of s2 (fst tk) (snd tk) = Some d /\
                   Z.testbit (dep_n (depHeap s1 d)) 1 = true /\
                   ~ In e2 (subs (depHeap s2 d)) /\
                   ~ In d (deps (effects s2 e2))).
Proof.
  intros fuel e e2 s keys keys2 W LC Hne Hact Hfn Hact2 Hdeps2 Hfn2.
  destruct (run_self_stop_leaks fuel e s keys W LC Hact Hfn)
    as (s1 & ds & Hrun1 & W1 & Hmap & Hbits & Hother & _ & _).
  assert (E2 : effects s1 e2 = effects s e2) by (apply Hother; congruence).
  destruct (run_blind fuel e2 s1 ds keys2 W1) as (s2 & Hrun2 & W2 & Hkeep & Hout).
  { rewrite E2. exact Hact2. }
  { rewrite E2. exact Hfn2. }
  { intros d Hd. destruct (Hbits d Hd) as [A B].
    split; [exact A|]. split; [exact B|]. rewrite E2, Hdeps2. intros []. }
  exists s1, s2. split; [exact Hrun1|]. split; [exact Hrun2|].
  intros tk Htk. destruct (map_Some_all _ _ _ Hmap tk Htk) as [d [Ed Hd]].
  exists d. split; [apply Hkeep; exact Ed|].
  split; [apply (Hbits d Hd)|].
  destruct (Hout d Hd) as [_ Hnot].
  split; [|exact Hnot].
  intros H. apply Hnot. apply (wf_linked _ _ W2). exact H.
Qed.

Lemma effect_stopped_while_running_blinds_the_next_reader_witness :
  exists s1 s2,
    run (call 0) 0 0 stop_then_read_init = Some (s1, Normal) /\
    run (call 0) 0 1 s1 = Some (s2, Normal) /\
    (forall tk, In tk [(obj0, KName 0)] ->
       exists d, dep_of s2 (fst tk) (snd tk) = Some d /\
                 Z.testbit (dep_n (depHeap s1 d)) 1 = true /\
                 ~ In 1 (subs (depHeap s2 d)) /\
                 ~ In d (deps (effects s2 1))).
Proof.
  apply (effect_stopped_while_running_blinds_the_next_reader 0 0 1 stop_then_read_init
           [(obj0, KName 0)] [(obj0, KName 0)]).
  - apply WF_init; [|reflexivity].
    intros e. unfold stop_then_read_effects. destruct e; split; reflexivity.
  - intros d. split; reflexivity.
  - discriminate.
  - reflexivity.
  - reflexivity.
  - reflexivity.
  - reflexivity.
  - reflexivity.
Defined.

(** ** An effect in the middle of its run is not entered again *)

(** *** The [active] flag changes in [stop] only *)

Lemma upd_effect_active s e (g : ReactiveEffect -> ReactiveEffect) :
  (forall ef, active (g ef) = active ef) ->
  forall x, active (upd (effects s) e (g (effects s e)) x) = active (effects s x).
Proof.
  intros H x. unfold upd. destruct (Nat.eqb_spec x e); [subst; apply H|reflexivity].
Qed.

Lemma active_cleanupEffect e s x :
  active (effects (cleanupEffect e s) x) = active (effects s x).
Proof.
  unfold cleanupEffect. ssimpl.
  apply (upd_effect_active s e (fun ef => set_deps ef [])). reflexivity.
Qed.

Lemma active_trackEffects d s x :
  active (effects (trackEffects d s) x) = active (effects s x).
Proof.
  unfold trackEffects. destruct (activeEffect s) as [ae|]; [|reflexivity].
  destruct (effectTrackDepth s <=? maxMarkerBits)%Z;
    [destruct (negb (newTracked _ _)); [destruct (negb (wasTracked _ _))|]
    |destruct (negb (dep_has _ _))];
    ssimpl; try reflexivity;
    apply (upd_effect_active s ae (fun ef => set_deps ef (deps ef ++ [d]))); reflexivity.
Qed.

Lemma active_track t key s x :
  active (effects (track t key s) x) = active (effects s x).
Proof.
  unfold track. cbv zeta.
  destruct (shouldTrack s && isSome (activeEffect s)); [|reflexivity].
  destruct (depsMap_get _ key); rewrite active_trackEffects;
    destruct (targetMap s t); reflexivity.
Qed.

Lemma active_trackRefValue c s x :
  active (effects (trackRefValue c s) x) = active (effects s x).
Proof.
  unfold trackRefValue.
  destruct (shouldTrack s && isSome (activeEffect s)); [|reflexivity].
  destruct (cdep (computeds s c)); rewrite active_trackEffects; reflexivity.
Qed.

Lemma active_run_enter e s x :
  active (effects (run_enter e s) x) = active (effects s x).
Proof.
  unfold run_enter. cbv zeta. destruct (_ <=? _)%Z.
  - unfold initDepMarkers. ssimpl.
    apply (upd_effect_active s e (fun ef => set_parent ef (activeEffect s))). reflexivity.
  - rewrite active_cleanupEffect. ssimpl.
    apply (upd_effect_active s e (fun ef => set_parent ef (activeEffect s))). reflexivity.
Qed.

Lemma active_run_finally e last s x :
  active (effects (run_finally e last s) x) = active (effects s x).
Proof.
  unfold run_finally. cbv zeta.
  set (s1 := if (effectTrackDepth s <=? maxMarkerBits)%Z then finalizeDepMarkers e s else s).
  assert (H1 : active (effects s1 x) = active (effects s x)).
  { unfold s1. destruct (_ <=? _)%Z; [|reflexivity].
    rewrite finalizeDepMarkers_eq. ssimpl.
    apply (upd_effect_active s e (fun ef => set_deps ef _)). reflexivity. }
  clearbody s1. rewrite <- H1. ssimpl.
  apply (upd_effect_active s1 e (fun ef => set_parent ef None)). reflexivity.
Qed.

Lemma active_stop_other e s x :
  x <> e -> active (effects (stop e s) x) = active (effects s x).
Proof.
  intros Hx. unfold stop. destruct (active (effects s e)); [|reflexivity].
  cbv zeta. rewrite <- (active_cleanupEffect e s x).
  destruct (onStop (effects (cleanupEffect e s) e)); ssimpl;
    rewrite upd_other by exact Hx; reflexivity.
Qed.

Lemma active_reads keys x : forall s,
  active (effects (fold_left (fun s tk => track (fst tk) (snd tk) s) keys s) x)
  = active (effects s x).
Proof.
  induction keys as [|[t key] keys IH]; intros s; simpl; [reflexivity|].
  rewrite IH. apply active_track.
Qed.

(** *** No call changes a function or a scheduler *)

Lemma SameCode_refl s : SameCode s s.
Proof. intros x. split; reflexivity. Qed.

Lemma SameCode_trans s1 s2 s3 : SameCode s1 s2 -> SameCode s2 s3 -> SameCode s1 s3.
Proof.
  intros A B x. destruct (A x) as [A1 A2]. destruct (B x) as [B1 B2].
  split; congruence.
Qed.

Lemma SameCode_same s s' : effects s' = effects s -> SameCode s s'.
Proof. intros E x. rewrite E. split; reflexivity. Qed.

Lemma Quiet_SameCode s s' : Quiet s s' -> SameCode s s'.
Proof. intros Q x. split; [apply (q_fn _ _ Q)|apply (q_scheduler _ _ Q)]. Qed.

Lemma plain_SameCode s s' x :
  SameCode s s' -> plain_effect (effects s x) -> plain_effect (effects s' x).
Proof.
  intros C P. unfold plain_effect in *. destruct (C x) as [F S]. rewrite F, S. exact P.
Qed.

Section CodeCall.

Variable k : Call -> State -> Res.
Hypothesis Hk : CodeSafe k.

Lemma triggerEffects_code effs : forall s s' r,
  triggerEffects k effs s = Some (s', r) -> SameCode s s'.
Proof.
  induction effs as [|e effs IH]; intros s s' r H; simpl in H.
  - inversion H; subst. apply SameCode_refl.
  - destruct (negb _ || _); [|eapply IH; eauto].
    destruct (if isSome (scheduler (effects s e)) then k (CallScheduler e) s
              else k (CallRun e) s) as [[s1 [|]]|] eqn:E; try discriminate.
    + apply (SameCode_trans s s1 s'); [|eapply IH; eauto].
      destruct (isSome (scheduler (effects s e))); eapply Hk; eauto.
    + inversion H; subst.
      destruct (isSome (scheduler (effects s e))); eapply Hk; eauto.
Qed.

Lemma trigger_code t ty key v s s' r :
  trigger k t ty key v s = Some (s', r) -> SameCode s s'.
Proof.
  intros H. unfold trigger in H.
  destruct (targetMap s t); [|inversion H; subst; apply SameCode_refl].
  destruct (trigger_deps _ _ _ _ _); [|inversion H; subst; apply SameCode_refl].
  eapply triggerEffects_code; eauto.
Qed.

Lemma computed_value_code c s s' r :
  computed_value k c s = Some (s', r) -> SameCode s s'.
Proof.
  intros H. unfold computed_value in H. cbv zeta in H.
  pose proof (Quiet_SameCode _ _ (proj1 (Quiet_trackRefValue c s))) as C1.
  set (s1 := trackRefValue c s) in *. clearbody s1.
  destruct (_dirty (computeds s1 c) || negb (_cacheable (computeds s1 c))).
  - apply Hk in H. apply (SameCode_trans s s1 s'); [exact C1|].
    intros x. destruct (H x) as [F S]. ssimpl. auto.
  - inversion H; subst. exact C1.
Qed.

Lemma step_code a s s' r : step k a s = Some (s', r) -> SameCode s s'.
Proof.
  intros H. destruct a; simpl in H.
  - inversion H; subst. apply Quiet_SameCode. apply Quiet_track.
  - eapply trigger_code; eauto.
  - eapply Hk; eauto.
  - inversion H; subst. apply Quiet_SameCode. apply Quiet_stop.
  - eapply computed_value_code; eauto.
  - inversion H; subst. apply SameCode_same. reflexivity.
  - inversion H; subst. apply SameCode_same. reflexivity.
  - inversion H; subst. apply SameCode_same. unfold resetTracking.
    destruct (rev (trackStack s)); reflexivity.
  - inversion H; subst. apply SameCode_refl.
Qed.

Lemma exec_code acts : forall s s' r,
  exec k acts s = Some (s', r) -> SameCode s s'.
Proof.
  induction acts as [|a acts IH]; intros s s' r H; simpl in H.
  - inversion H; subst. apply SameCode_refl.
  - destruct (step k a s) as [[s1 [|]]|] eqn:E; try discriminate.
    + apply (SameCode_trans s s1 s'); [eapply step_code; eauto|eapply IH; eauto].
    + inversion H; subst. eapply step_code; eauto.
Qed.

Lemma run_code fuel e s s' r : run k fuel e s = Some (s', r) -> SameCode s s'.
Proof.
  intros H. unfold run in H. destruct (negb (active (effects s e))).
  - apply exec_code in H. intros x. destruct (H x) as [F S]. ssimpl. auto.
  - destruct (isAncestor fuel (effects s) (activeEffect s) e) as [[|]|]; try discriminate.
    + inversion H; subst. apply SameCode_refl.
    + cbv zeta in H.
      destruct (exec k _ _) as [[s2 c2]|] eqn:Ex; [|discriminate].
      inversion H; subst. clear H. apply exec_code in Ex.
      pose proof (Quiet_SameCode _ _ (proj1 (Quiet_run_enter e s))) as C1.
      pose proof (Quiet_SameCode _ _ (proj1 (Quiet_run_finally e (shouldTrack s) s2))) as C2.
      apply (SameCode_trans s s2 _); [|exact C2].
      apply (SameCode_trans s (run_enter e s) s2); [exact C1|].
      intros x. destruct (Ex x) as [F S]. ssimpl. auto.
Qed.

Lemma run_scheduler_code e s s' r :
  run_scheduler k e s = Some (s', r) -> SameCode s s'.
Proof.
  intros H. unfold run_scheduler in H. cbv zeta in H.
  destruct (scheduler (effects s e)) as [[|c]|];
    try (inversion H; subst; apply SameCode_same; reflexivity).
  destruct (negb (_dirty _)); [|inversion H; subst; apply SameCode_same; reflexivity].
  unfold triggerRefValue in H.
  destruct (cdep _) as [d|]; [|inversion H; subst; apply SameCode_same; reflexivity].
  apply triggerEffects_code in H. intros x. destruct (H x) as [F S]. ssimpl. auto.
Qed.

Lemma call_body_code fuel : CodeSafe (call_body k fuel).
Proof.
  intros c s s' r H. destruct c; simpl in H.
  - eapply run_code; eauto.
  - eapply run_scheduler_code; eauto.
Qed.

End CodeCall.

Lemma call_code fuel : CodeSafe (call fuel).
Proof.
  induction fuel as [|f IH].
  - intros c s s' r H. discriminate.
  - simpl. apply call_body_code. exact IH.
Qed.

(** *** While an effect runs, no call executes its function *)

Lemma Entered_keep e n s s' :
  Quiet s s' -> active (effects s' e) = active (effects s e) ->
  Entered e n s -> Entered e n s'.
Proof.
  intros [T _ _ _ _ F] A [Ha Hf Hr]. constructor.
  - rewrite A. exact Ha.
  - intros x. rewrite F. apply Hf.
  - destruct T as [T|[x T]]; rewrite T; [exact Hr|].
    rewrite runs_of_app, Hr. unfold runs_of. simpl. lia.
Qed.

Lemma Entered_log e n s ev :
  ev <> EvRun e -> Entered e n s -> Entered e n (log s ev).
Proof.
  intros Hev [Ha Hf Hr]. constructor; ssimpl; auto.
  rewrite runs_of_app, Hr. unfold runs_of. simpl.
  destruct ev as [x| | |]; simpl; try lia.
  destruct (Nat.eqb_spec x e); [congruence|simpl; lia].
Qed.

Lemma Entered_log_run e n s :
  Entered e n s -> Entered e (S n) (log s (EvRun e)).
Proof.
  intros [Ha Hf Hr]. constructor; ssimpl; auto.
  rewrite runs_of_app, Hr. unfold runs_of. simpl. rewrite Nat.eqb_refl. simpl. lia.
Qed.

Lemma Entered_computeds e n s cs :
  Entered e n s -> Entered e n (with_computeds s cs).
Proof. intros [Ha Hf Hr]. constructor; ssimpl; auto. Qed.

Section EnteredCall.

Variables e n : nat.
Variable k : Call -> State -> Res.
Hypothesis Hs : Safe k.
Hypothesis Hk : EnteredSafe e n k.

Lemma triggerEffects_entered effs : forall s l s' r,
  WF s l -> In e l -> Entered e n s ->
  triggerEffects k effs s = Some (s', r) -> Entered e n s'.
Proof.
  induction effs as [|x effs IH]; intros s l s' r W I R H; simpl in H.
  - inversion H; subst. exact R.
  - destruct (negb _ || _); [|eapply IH; eauto].
    destruct (if isSome (scheduler (effects s x)) then k (CallScheduler x) s
              else k (CallRun x) s) as [[s1 [|]]|] eqn:E; try discriminate.
    + assert (W1 : WF s1 l)
        by (destruct (isSome (scheduler (effects s x)));
            exact (proj1 (Hs _ _ _ _ _ W E))).
      assert (R1 : Entered e n s1)
        by (destruct (isSome (scheduler (effects s x)));
            exact (Hk _ _ _ _ _ W I R E)).
      eapply IH; eauto.
    + inversion H; subst.
      destruct (isSome (scheduler (effects s x)));
        exact (Hk _ _ _ _ _ W I R E).
Qed.

Lemma trigger_entered t ty key v s l s' r :
  WF s l -> In e l -> Entered e n s ->
  trigger k t ty key v s = Some (s', r) -> Entered e n s'.
Proof.
  intros W I R H. unfold trigger in H.
  destruct (targetMap s t); [|inversion H; subst; exact R].
  destruct (trigger_deps _ _ _ _ _); [|inversion H; subst; exact R].
  eapply triggerEffects_entered; eauto.
Qed.

Lemma computed_value_entered c s l s' r :
  WF s l -> In e l -> Entered e n s ->
  computed_value k c s = Some (s', r) -> Entered e n s'.
Proof.
  intros W I R H. unfold computed_value in H. cbv zeta in H.
  pose proof (WF_trackRefValue c _ _ W) as W1.
  assert (R1 : Entered e n (trackRefValue c s)).
  { apply (Entered_keep e n s); [apply Quiet_trackRefValue|apply active_trackRefValue|exact R]. }
  set (s1 := trackRefValue c s) in *. clearbody s1.
  destruct (_dirty (computeds s1 c) || negb (_cacheable (computeds s1 c))).
  - eapply Hk; [| | |exact H].
    + apply WF_set_dirty. exact W1.
    + exact I.
    + apply Entered_computeds. exact R1.
  - inversion H; subst. exact R1.
Qed.

Lemma step_entered a s l s' r :
  a <> AStop e ->
  WF s l -> In e l -> Entered e n s -> step k a s = Some (s', r) -> Entered e n s'.
Proof.
  intros Ha W I R H. destruct a; simpl in H.
  - inversion H; subst.
    apply (Entered_keep e n s); [apply Quiet_track|apply active_track|exact R].
  - eapply trigger_entered; eauto.
  - eapply Hk; eauto.
  - inversion H; subst.
    apply (Entered_keep e n s); [apply Quiet_stop| |exact R].
    apply active_stop_other. congruence.
  - eapply computed_value_entered; eauto.
  - inversion H; subst. apply (Entered_keep e n s); auto. apply Quiet_same; reflexivity.
  - inversion H; subst. apply (Entered_keep e n s); auto. apply Quiet_same; reflexivity.
  - inversion H; subst. unfold resetTracking.
    destruct (rev (trackStack s));
      (apply (Entered_keep e n s); auto; apply Quiet_same; reflexivity).
  - inversion H; subst. exact R.
Qed.

Lemma exec_entered acts : forall s l s' r,
  ~ In (AStop e) acts ->
  WF s l -> In e l -> Entered e n s -> exec k acts s = Some (s', r) -> Entered e n s'.
Proof.
  induction acts as [|a acts IH]; intros s l s' r Hn W I R H; simpl in H.
  - inversion H; subst. exact R.
  - assert (Ha : a <> AStop e) by (intro; subst; apply Hn; now left).
    assert (Hn' : ~ In (AStop e) acts) by (intro; apply Hn; now right).
    destruct (step k a s) as [[s1 [|]]|] eqn:E; try discriminate.
    + eapply (IH s1 l); eauto.
      * exact (proj1 (step_safe k Hs _ _ _ _ _ W E)).
      * eapply step_entered; eauto.
    + inversion H; subst. eapply step_entered; eauto.
Qed.

Lemma run_entered fuel x s l s' r :
  WF s l -> In e l -> Entered e n s -> run k fuel x s = Some (s', r) -> Entered e n s'.
Proof.
  intros W I R H. unfold run in H.
  destruct (active (effects s x)) eqn:Ax; cbn [negb] in H.
  - destruct (isAncestor fuel (effects s) (activeEffect s) x) as [[|]|] eqn:Ea;
      try discriminate.
    + inversion H; subst. exact R.
    + assert (Hnot : ~ In x l).
      { intros Hin. apply (isAncestor_spec _ _ _ _ _ _ (wf_chain _ _ W) Ea) in Hin.
        discriminate. }
      assert (Hne : x <> e) by (intro; subst; contradiction).
      cbv zeta in H.
      destruct (exec k _ _) as [[s2 c2]|] eqn:Ex; [|discriminate].
      inversion H; subst. clear H.
      assert (R1 : Entered e n (run_enter x s)).
      { apply (Entered_keep e n s); [apply Quiet_run_enter|apply active_run_enter|exact R]. }
      assert (R2 : Entered e n s2).
      { eapply (exec_entered _ _ (x :: l)); [| | | |exact Ex].
        - apply (en_no_stop _ _ _ R1).
        - apply WF_log. apply WF_run_enter; assumption.
        - now right.
        - apply Entered_log; [congruence|exact R1]. }
      apply (Entered_keep e n s2); [apply Quiet_run_finally|apply active_run_finally|exact R2].
  - assert (Hne : x <> e).
    { intro; subst. rewrite (en_active _ _ _ R) in Ax. discriminate. }
    eapply (exec_entered _ _ l); [| | | |exact H].
    + apply (en_no_stop _ _ _ R).
    + apply WF_log. exact W.
    + exact I.
    + apply Entered_log; [congruence|exact R].
Qed.

Lemma run_scheduler_entered x s l s' r :
  WF s l -> In e l -> Entered e n s ->
  run_scheduler k x s = Some (s', r) -> Entered e n s'.
Proof.
  intros W I R H. unfold run_scheduler in H. cbv zeta in H.
  assert (R0 : Entered e n (log s (EvScheduler x)))
    by (apply Entered_log; [discriminate|exact R]).
  assert (W0 : WF (log s (EvScheduler x)) l) by (apply WF_log; exact W).
  destruct (scheduler (effects s x)) as [[|c]|]; try (inversion H; subst; exact R0).
  destruct (negb (_dirty _)); [|inversion H; subst; exact R0].
  assert (R1 : Entered e n
           (log (with_computeds (log s (EvScheduler x))
                   (upd (computeds (log s (EvScheduler x))) c
                      (set_dirty (computeds (log s (EvScheduler x)) c) true)))
                (EvInvalidate c))).
  { apply Entered_log; [discriminate|]. apply Entered_computeds. exact R0. }
  assert (W1 : WF
           (log (with_computeds (log s (EvScheduler x))
                   (upd (computeds (log s (EvScheduler x))) c
                      (set_dirty (computeds (log s (EvScheduler x)) c) true)))
                (EvInvalidate c)) l).
  { apply WF_log. apply (WF_set_dirty (log s (EvScheduler x))). exact W0. }
  unfold triggerRefValue in H.
  destruct (cdep _) as [d|]; [|inversion H; subst; exact R1].
  eapply triggerEffects_entered; [exact W1|exact I|exact R1|exact H].
Qed.

Lemma call_body_entered fuel : EnteredSafe e n (call_body k fuel).
Proof.
  intros c s l s' r W I R H. destruct c; simpl in H.
  - eapply run_entered; eauto.
  - eapply run_scheduler_entered; eauto.
Qed.

End EnteredCall.

Lemma call_entered e n fuel : EnteredSafe e n (call fuel).
Proof.
  induction fuel as [|f IH].
  - intros c s l s' r _ _ _ H. discriminate.
  - simpl. apply call_body_entered; [apply call_safe|exact IH].
Qed.

(** A run of [e] from outside its own run calls its function once. *)
Lemma run_entered_once fuel e n s l s' r :
  WF s l -> ~ In e l -> Entered e n s ->
  run (call fuel) fuel e s = Some (s', r) -> Entered e (S n) s'.
Proof.
  intros W Hnot R H. unfold run in H.
  rewrite (en_active _ _ _ R) in H. cbn [negb] in H.
  destruct (isAncestor fuel (effects s) (activeEffect s) e) as [[|]|] eqn:Ea;
    try discriminate.
  - exfalso. apply Hnot.
    apply (isAncestor_spec _ _ _ _ _ _ (wf_chain _ _ W) Ea). reflexivity.
  - cbv zeta in H.
    destruct (exec _ _ _) as [[s2 c2]|] eqn:Ex; [|discriminate].
    inversion H; subst. clear H.
    assert (R1 : Entered e n (run_enter e s)).
    { apply (Entered_keep e n s); [apply Quiet_run_enter|apply active_run_enter|exact R]. }
    assert (R2 : Entered e (S n) s2).
    { eapply (exec_entered e (S n) (call fuel) (call_safe fuel) (call_entered e (S n) fuel)
                _ _ (e :: l)); [| | | |exact Ex].
      - apply (en_no_stop _ _ _ R1).
      - apply WF_log. apply WF_run_enter; assumption.
      - now left.
      - apply Entered_log_run. exact R1. }
    apply (Entered_keep e (S n) s2);
      [apply Quiet_run_finally|apply active_run_finally|exact R2].
Qed.

(** *** Effects that read and write: every run comes to an end *)

Lemma run_guard_on_stack k fuel e s l :
  WF s l -> In e l -> active (effects s e) = true -> length l <= fuel ->
  run k fuel e s = Some (s, Normal).
Proof.
  intros W I A L. apply run_guard; [exact A|].
  destruct (isAncestor_total (effects s) e fuel _ _ (wf_chain _ _ W) L) as [b Hb].
  rewrite Hb. f_equal.
  apply (isAncestor_spec _ _ _ _ _ _ (wf_chain _ _ W) Hb). exact I.
Qed.

Lemma run_reads_total fuel x s l keys :
  WF s l -> length l <= fuel -> fn (effects s x) = reads keys ->
  exists s', run (call fuel) fuel x s = Some (s', Normal).
Proof.
  intros W L Hfn. unfold run. destruct (negb (active (effects s x))).
  - rewrite Hfn, exec_reads_total. eauto.
  - destruct (isAncestor_total (effects s) x fuel _ _ (wf_chain _ _ W) L) as [[|] Hb];
      rewrite Hb; [eauto|].
    cbv zeta. rewrite run_enter_fn, Hfn, exec_reads_total. eauto.
Qed.

(** The effects notified from inside the run of [e]: [e] itself is skipped
    by [triggerEffects] or stopped by the guard of [run], the others read
    their keys or have their scheduler called. *)
Lemma notify_inside f e n effs : forall s,
  1 <= f -> WF s [e] -> Entered e n s -> scheduler (effects s e) = None ->
  (forall x, x <> e -> plain_effect (effects s x)) ->
  exists s',
    triggerEffects (call (S f)) effs s = Some (s', Normal) /\
    WF s' [e] /\ Entered e n s' /\ SameCode s s'.
Proof.
  intros s Hf. revert s.
  induction effs as [|x effs IH]; intros s W R Hsch Hp.
  - exists s. simpl. split; [reflexivity|]. split; [exact W|].
    split; [exact R|apply SameCode_refl].
  - cbn [triggerEffects].
    assert (Hnext : forall s1, WF s1 [e] -> Entered e n s1 -> SameCode s s1 ->
              exists s', triggerEffects (call (S f)) effs s1 = Some (s', Normal) /\
                         WF s' [e] /\ Entered e n s' /\ SameCode s s').
    { intros s1 W1 R1 C1.
      destruct (IH s1 W1 R1) as [s' [E' [W' [R' C']]]].
      - rewrite (proj2 (C1 e)). exact Hsch.
      - intros y Hy. apply (plain_SameCode s s1 y C1). apply Hp. exact Hy.
      - exists s'. split; [exact E'|]. split; [exact W'|]. split; [exact R'|].
        apply (SameCode_trans s s1 s'); assumption. }
    destruct (negb _ || _); [|apply Hnext; auto; apply SameCode_refl].
    assert (Hstep : exists s1,
              (if isSome (scheduler (effects s x))
               then call (S f) (CallScheduler x) s
               else call (S f) (CallRun x) s) = Some (s1, Normal)).
    { destruct (Nat.eq_dec x e) as [->|Hne].
      - rewrite Hsch. cbn [isSome].
        change (call (S f) (CallRun e) s) with (run (call f) f e s).
        exists s. apply (run_guard_on_stack _ f e s [e] W); [now left| |exact Hf].
        apply (en_active _ _ _ R).
      - pose proof (Hp x Hne) as P. unfold plain_effect in P.
        destruct (scheduler (effects s x)) as [[|c]|] eqn:Es.
        + exists (log s (EvScheduler x)). simpl. unfold run_scheduler. rewrite Es.
          reflexivity.
        + destruct P.
        + destruct P as [keys Hfn]. cbn [isSome].
          change (call (S f) (CallRun x) s) with (run (call f) f x s).
          apply (run_reads_total f x s [e] keys W); [exact Hf|exact Hfn]. }
    destruct Hstep as [s1 E1]. rewrite E1.
    apply Hnext.
    + destruct (isSome (scheduler (effects s x)));
        exact (proj1 (call_safe (S f) _ _ _ _ _ W E1)).
    + destruct (isSome (scheduler (effects s x)));
        exact (call_entered e n (S f) _ _ [e] _ _ W (or_introl eq_refl) R E1).
    + destruct (isSome (scheduler (effects s x)));
        exact (call_code (S f) _ _ _ _ E1).
Qed.

(** The function of [e], made of reads and writes, inside the run of [e]. *)
Lemma exec_inside f e n acts : forall s,
  1 <= f -> forallb reads_or_writes acts = true ->
  WF s [e] -> Entered e n s -> scheduler (effects s e) = None ->
  (forall x, x <> e -> plain_effect (effects s x)) ->
  exists s' r, exec (call (S f)) acts s = Some (s', r).
Proof.
  intros s Hf. revert s.
  induction acts as [|a acts IH]; intros s Ha W R Hsch Hp.
  - exists s, Normal. reflexivity.
  - simpl in Ha. apply andb_prop in Ha. destruct Ha as [Ha Hacts].
    cbn [exec].
    assert (Hstep : exists s1 r1, step (call (S f)) a s = Some (s1, r1)).
    { destruct a; try discriminate; cbn [step]; [eauto|].
      unfold trigger. destruct (targetMap s t); [|eauto].
      destruct (trigger_deps _ _ _ _ _); [|eauto].
      destruct (notify_inside f e n (trigger_effects_of (depHeap s) l) s Hf W R Hsch Hp)
        as [s1 [E1 _]].
      eauto. }
    destruct Hstep as [s1 [[|] E1]]; rewrite E1; [|eauto].
    pose proof (step_code _ (call_code (S f)) _ _ _ _ E1) as C1.
    apply IH; auto.
    + exact (proj1 (step_safe _ (call_safe (S f)) _ _ _ _ _ W E1)).
    + apply (step_entered e n _ (call_safe (S f)) (call_entered e n (S f)) a s [e] s1 Normal);
        auto; [|now left].
      destruct a; discriminate.
    + rewrite (proj2 (C1 e)). exact Hsch.
    + intros y Hy. apply (plain_SameCode s s1 y C1). apply Hp. exact Hy.
Qed.

(** A run, from outside, of an effect that reads and writes: it returns,
    and its function has been called once. *)
Lemma run_retrigger_total f e n s :
  1 <= f -> WF s [] -> Entered e n s -> scheduler (effects s e) = None ->
  forallb reads_or_writes (fn (effects s e)) = true ->
  (forall x, x <> e -> plain_effect (effects s x)) ->
  exists s' r,
    run (call (S f)) (S f) e s = Some (s', r) /\
    WF s' [] /\ Entered e (S n) s' /\ SameCode s s'.
Proof.
  intros Hf W R Hsch Hfn Hp.
  assert (Hex : exists s' r, run (call (S f)) (S f) e s = Some (s', r)).
  { unfold run. rewrite (en_active _ _ _ R). cbn [negb].
    rewrite (WF_top_level s W). cbn [isAncestor]. cbv zeta.
    pose proof (Quiet_SameCode _ _ (proj1 (Quiet_run_enter e s))) as C1.
    destruct (exec_inside f e (S n) (fn (effects (run_enter e s) e))
                (log (run_enter e s) (EvRun e)) Hf) as [s2 [c2 E2]].
    - rewrite (proj1 (C1 e)). exact Hfn.
    - apply WF_log. apply WF_run_enter; [exact W|intros []].
    - apply Entered_log_run.
      apply (Entered_keep e n s); [apply Quiet_run_enter|apply active_run_enter|exact R].
    - ssimpl. rewrite (proj2 (C1 e)). exact Hsch.
    - intros y Hy. ssimpl. apply (plain_SameCode s _ y C1). apply Hp. exact Hy.
    - rewrite E2. eauto. }
  destruct Hex as [s' [r E]]. exists s', r. split; [exact E|]. split; [|split].
  - change (run (call (S f)) (S f) e s) with (call (S (S f)) (CallRun e) s) in E.
    exact (proj1 (call_safe _ _ _ _ _ _ W E)).
  - apply (run_entered_once (S f) e n s [] s' r W); auto.
  - change (run (call (S f)) (S f) e s) with (call (S (S f)) (CallRun e) s) in E.
    exact (call_code _ _ _ _ _ E).
Qed.

Lemma run_reads_keeps_active fuel x s keys s' :
  fn (effects s x) = reads keys ->
  run (call fuel) fuel x s = Some (s', Normal) ->
  forall y, active (effects s' y) = active (effects s y).
Proof.
  intros Hfn H y. unfold run in H. destruct (negb (active (effects s x))).
  - rewrite Hfn, exec_reads_total in H. inversion H; subst.
    rewrite active_reads. reflexivity.
  - destruct (isAncestor fuel (effects s) (activeEffect s) x) as [[|]|]; try discriminate.
    + inversion H; subst. reflexivity.
    + cbv zeta in H. rewrite run_enter_fn, Hfn, exec_reads_total in H.
      inversion H; subst.
      rewrite active_run_finally, active_reads. ssimpl. apply active_run_enter.
Qed.

(** The effects notified by a trigger from outside any run. *)
Lemma notify_outside f e effs : forall s n,
  1 <= f -> NoDup effs ->
  WF s [] -> Entered e n s -> scheduler (effects s e) = None ->
  forallb reads_or_writes (fn (effects s e)) = true ->
  (forall x, x <> e -> plain_effect (effects s x)) ->
  exists s' r,
    triggerEffects (call (S (S f))) effs s = Some (s', r) /\
    (In e effs -> runs_of e (trace s') = S n) /\
    (~ In e effs -> runs_of e (trace s') = n).
Proof.
  intros s n Hf. revert s n.
  induction effs as [|x effs IH]; intros s n ND W R Hsch Hfn Hp.
  - exists s, Normal. simpl. split; [reflexivity|]. split; [intros []|].
    intros _. apply (en_runs _ _ _ R).
  - inversion ND as [|x' effs' Hx ND']; subst.
    cbn [triggerEffects]. rewrite (WF_top_level s W). cbn [negb orb].
    assert (Hnext : forall s1 m, WF s1 [] -> Entered e m s1 -> SameCode s s1 ->
              exists s' r, triggerEffects (call (S (S f))) effs s1 = Some (s', r) /\
                           (In e effs -> runs_of e (trace s') = S m) /\
                           (~ In e effs -> runs_of e (trace s') = m)).
    { intros s1 m W1 R1 C1. apply IH; auto.
      - rewrite (proj2 (C1 e)). exact Hsch.
      - rewrite (proj1 (C1 e)). exact Hfn.
      - intros y Hy. apply (plain_SameCode s s1 y C1). apply Hp. exact Hy. }
    destruct (Nat.eq_dec x e) as [->|Hne].
    + rewrite Hsch. cbn [isSome].
      change (call (S (S f)) (CallRun e) s) with (run (call (S f)) (S f) e s).
      destruct (run_retrigger_total f e n s Hf W R Hsch Hfn Hp)
        as [s1 [r1 [E1 [W1 [R1 C1]]]]].
      rewrite E1. destruct r1.
      * destruct (Hnext s1 (S n) W1 R1 C1) as [s' [r [E' [_ Hout]]]].
        exists s', r. split; [exact E'|]. split; [intros _; apply Hout; exact Hx|].
        intros Hn. exfalso. apply Hn. now left.
      * exists s1, Throw. split; [reflexivity|]. split; [intros _; apply (en_runs _ _ _ R1)|].
        intros Hn. exfalso. apply Hn. now left.
    + pose proof (Hp x Hne) as P. unfold plain_effect in P.
      assert (Hstep : exists s1,
                (if isSome (scheduler (effects s x))
                 then call (S (S f)) (CallScheduler x) s
                 else call (S (S f)) (CallRun x) s) = Some (s1, Normal) /\
                Entered e n s1).
      { destruct (scheduler (effects s x)) as [[|c]|] eqn:Es.
        - exists (log s (EvScheduler x)). simpl. unfold run_scheduler. rewrite Es.
          split; [reflexivity|]. apply Entered_log; [discriminate|exact R].
        - destruct P.
        - destruct P as [keys Hk]. cbn [isSome].
          change (call (S (S f)) (CallRun x) s) with (run (call (S f)) (S f) x s).
          destruct (run_reads_top_level (S f) x s keys W Hk) as [s1 [E1 [T1 C1]]].
          exists s1. split; [exact E1|]. destruct R as [Ra Rf Rr]. constructor.
          + rewrite (run_reads_keeps_active _ _ _ _ _ Hk E1). exact Ra.
          + intros y. rewrite (proj1 (C1 y)). apply Rf.
          + rewrite T1, runs_of_app, Rr. unfold runs_of. simpl.
            destruct (Nat.eqb_spec x e); [contradiction|simpl; lia]. }
      destruct Hstep as [s1 [E1 R1]]. rewrite E1.
      destruct (Hnext s1 n) as [s' [r [E' [Hin Hout]]]]; auto.
      * destruct (isSome (scheduler (effects s x)));
          exact (proj1 (call_safe _ _ _ _ _ _ W E1)).
      * destruct (isSome (scheduler (effects s x)));
          exact (call_code _ _ _ _ _ E1).
      * exists s', r. split; [exact E'|]. split.
        -- intros [He|He]; [contradiction|]. apply Hin. exact He.
        -- intros Hn. apply Hout. intros He. apply Hn. now right.
Qed.


(** The example effect after its first run: it is subscribed to its key,
    and nothing is running. *)
Lemma retrigger_ready_entered recurse :
  WF (retrigger_ready recurse) [] /\ SubsNoDup (retrigger_ready recurse) /\
  Entered 0 1 (retrigger_ready recurse) /\
  (forall x, x <> 0 -> plain_effect (effects (retrigger_ready recurse) x)).
Proof.
  assert (E0 : exec (call 2) [ARun 0] (retrigger_init recurse)
               = Some (retrigger_ready recurse, Normal))
    by (destruct recurse; vm_compute; reflexivity).
  assert (W0 : WF (retrigger_init recurse) []).
  { apply WF_init; [|reflexivity]. intros [|x]; split; reflexivity. }
  pose proof (exec_code _ (call_code 2) _ _ _ _ E0) as C.
  split; [|split; [|split]].
  - exact (proj1 (exec_safe _ (call_safe 2) _ _ _ _ _ W0 E0)).
  - apply (exec_subs _ (call_subs 2) [ARun 0] (retrigger_init recurse) _ Normal);
      [|exact E0].
    intros d. constructor.
  - constructor.
    + destruct recurse; vm_compute; reflexivity.
    + intros x. rewrite (proj1 (C x)).
      destruct x as [|x]; simpl; intuition discriminate.
    + destruct recurse; vm_compute; reflexivity.
  - intros x Hx. apply (plain_SameCode _ _ x C).
    destruct x as [|x]; [contradiction|]. exists []. reflexivity.
Qed.


(** * baseHandlers.ts *)

Import Handlers.

Lemma value_eqb_refl v : value_eqb v v = true.
Proof.
  destruct v; simpl; auto using Z.eqb_refl, Nat.eqb_refl, Bool.eqb_reflx.
  rewrite !Bool.eqb_reflx, Nat.eqb_refl. reflexivity.
Qed.

Lemma value_eqb_eq a b : value_eqb a b = true -> a = b.
Proof.
  destruct a, b; simpl; try discriminate; intros H; auto.
  - apply Bool.eqb_prop in H. congruence.
  - apply Z.eqb_eq in H. congruence.
  - apply Nat.eqb_eq in H. congruence.
  - apply andb_prop in H. destruct H as [H H3]. apply andb_prop in H.
    destruct H as [H1 H2]. apply Bool.eqb_prop in H1, H2. apply Nat.eqb_eq in H3.
    congruence.
  - apply Nat.eqb_eq in H. congruence.
Qed.

(** C9: a write or a delete through a read-only wrapper returns [true] and
    leaves the heap of raw objects as it was; its only emission is the
    warning of the development build, so it emits no trigger and no track.
    The same holds for every sequence of such operations. *)
Theorem readonly_wrapper_leaves_raw_object_unchanged :
  (forall dev sh id key value h,
      assign dev (VProxy true sh id) key value h
      = (h, Some true, if dev then [EmitWarn] else [])) /\
  (forall dev sh id key h,
      delete dev (VProxy true sh id) key h
      = (h, Some true, if dev then [EmitWarn] else [])) /\
  (forall dev ops h h' rs ems,
      forallb through_readonly ops = true ->
      do_ops dev ops h = (h', rs, ems) ->
      h' = h /\
      rs = repeat (Some true) (length ops) /\
      forallb (fun e => negb (is_notification e)) ems = true).
Proof.
  split; [|split].
  - intros. reflexivity.
  - intros. reflexivity.
  - intros dev ops. induction ops as [|op ops IH]; intros h h' rs ems Hro H.
    + inversion H; subst. auto.
    + simpl in Hro. apply andb_prop in Hro. destruct Hro as [Hop Hops].
      simpl in H.
      assert (E : do_op dev op h = (h, Some true, if dev then [EmitWarn] else [])).
      { destruct op as [p key value|p key]; destruct p as [| | | | |[|] sh id|];
          try discriminate Hop; reflexivity. }
      rewrite E in H.
      destruct (do_ops dev ops h) as [[h2 rs2] ems2] eqn:E2.
      destruct (IH h h2 rs2 ems2 Hops E2) as [H1 [H2 H3]].
      inversion H; subst. clear H.
      split; [reflexivity|]. split; [reflexivity|].
      rewrite forallb_app, H3. destruct dev; reflexivity.
Qed.

(** A write to an index and a delete of a key through read-only wrappers
    leave the heap as it was. *)
Lemma readonly_wrapper_leaves_raw_object_unchanged_witness :
  fst (fst (do_ops true [OpAssign (VProxy true false 0) (KIndex 1) (VNum 5);
                         OpDelete (VProxy true true 1) (KName 0)] sparse_heap))
  = sparse_heap.
Proof.
  destruct (do_ops true [OpAssign (VProxy true false 0) (KIndex 1) (VNum 5);
                         OpDelete (VProxy true true 1) (KName 0)] sparse_heap)
    as [[h' rs] ems] eqn:E.
  apply (proj2 (proj2 readonly_wrapper_leaves_raw_object_unchanged)
           true [OpAssign (VProxy true false 0) (KIndex 1) (VNum 5);
                 OpDelete (VProxy true true 1) (KName 0)]
           sparse_heap h' rs ems); [reflexivity|exact E].
Defined.



(** An index below the length of an array exists also where the array has
    a hole: index 1 of [[1, <hole>, 3]] is no own property, and writing it
    is a SET with the old value [undefined]. *)
Lemma write_to_array_hole_is_classified_SET :
  hasOwn sparse_heap 0 (KIndex 1) = false /\
  raw_get sparse_heap 0 (KIndex 1) = VUndefined /\
  snd (createSetter false 0 (KIndex 1) (VNum 5) (VProxy false false 0) sparse_heap)
  = [EmitTrigger 0 SET (KIndex 1) (VNum 5) VUndefined].
Proof. repeat split; vm_compute; reflexivity. Qed.

(** An array as the new [length]: the empty array reads as 0 and an array
    of one number as that number, so [arr.length = []] empties the array of
    [sparse_heap] and notifies SET; an ordinary object reads as [NaN] and
    the assignment throws; the conversion of a wrapper is not followed. *)
Lemma array_as_new_length :
  let h := set_object (set_object sparse_heap 2 (mkObj true 0 []))
                      3 (mkObj true 1 [(KIndex 0, VNum 2)]) in
  to_length h (VObj 2) = ConvLength 0 /\
  to_length h (VObj 3) = ConvLength 2 /\
  to_length h (VObj 0) = ConvRangeError /\
  to_length h (VObj 1) = ConvRangeError /\
  to_length h (VProxy false false 2) = ConvNotFollowed /\
  snd (createSetter false 0 KLength (VObj 2) (VProxy false false 0) h)
  = [EmitTrigger 0 SET KLength (VObj 2) (VNum 3)] /\
  o_props (objects (fst (fst (createSetter false 0 KLength (VObj 3)
                                (VProxy false false 0) h))) 0)
  = [(KIndex 0, VNum 1)].
Proof. repeat split; vm_compute; reflexivity. Qed.

(** ** Deleting a property *)

Lemma key_eqb_neq a b : a <> b -> key_eqb a b = false.
Proof.
  intros H. destruct (key_eqb a b) eqn:E; [|reflexivity].
  apply key_eqb_eq in E. contradiction.
Qed.

Lemma props_get_remove_same ps k : props_get (props_remove ps k) k = None.
Proof.
  induction ps as [|[k' v] ps IH]; simpl; [reflexivity|].
  destruct (key_eqb k' k) eqn:E; simpl; [exact IH|]. rewrite E. exact IH.
Qed.

Lemma props_get_remove_other ps k k' :
  k' <> k -> props_get (props_remove ps k) k' = props_get ps k'.
Proof.
  intros Hne. induction ps as [|[k0 v] ps IH]; simpl; [reflexivity|].
  destruct (key_eqb k0 k) eqn:E; simpl.
  - apply key_eqb_eq in E. subst k0.
    rewrite (key_eqb_neq k k') by congruence. exact IH.
  - rewrite IH. reflexivity.
Qed.

Lemma props_remove_absent ps k : props_get ps k = None -> props_remove ps k = ps.
Proof.
  induction ps as [|[k' v] ps IH]; simpl; [reflexivity|].
  destruct (key_eqb k' k) eqn:E; [discriminate|]. simpl.
  intros H. rewrite (IH H). reflexivity.
Qed.

Lemma objects_set_same h id o : objects (set_object h id o) id = o.
Proof. unfold set_object. simpl. unfold upd. rewrite Nat.eqb_refl. reflexivity. Qed.

Lemma objects_set_other h id o id' :
  id' <> id -> objects (set_object h id o) id' = objects h id'.
Proof.
  intros H. unfold set_object. simpl. unfold upd.
  destruct (Nat.eqb_spec id' id); [contradiction|reflexivity].
Qed.

(** X9: [deleteProperty] on a raw object with data properties.  The
    [length] of an array is not deleted: the trap returns [false] and
    changes and notifies nothing.  Any other key is absent afterwards and
    reads as [undefined]; [trigger] is called, once and with [DELETE] and
    the old value, exactly when the key was an own property before.  The
    other keys, the length of an array and the other objects are as they
    were, and deleting the key again notifies nothing. *)
Theorem deleteProperty_notifies_when_the_key_was_there :
  forall target key h,
    (o_isArray (objects h target) = true -> key = KLength ->
     deleteProperty target key h = (h, Some false, [])) /\
    (o_isArray (objects h target) = false \/ key <> KLength ->
     exists h',
       deleteProperty target key h
       = (h', Some true,
          if hasOwn h target key
          then [EmitTrigger target DELETE key VUndefined (raw_get h target key)]
          else []) /\
       hasOwn h' target key = false /\
       raw_get h' target key = VUndefined /\
       (forall k', k' <> key ->
                   raw_get h' target k' = raw_get h target k' /\
                   hasOwn h' target k' = hasOwn h target k') /\
       o_length (objects h' target) = o_length (objects h target) /\
       o_isArray (objects h' target) = o_isArray (objects h target) /\
       (forall t', t' <> target -> objects h' t' = objects h t') /\
       refs h' = refs h /\
       snd (deleteProperty target key h') = []).
Proof.
  intros target key h. split.
  - intros Ha ->. unfold deleteProperty, reflect_deleteProperty. rewrite Ha. reflexivity.
  - intros Hk.
    set (o := objects h target).
    set (o' := mkObj (o_isArray o) (o_length o) (props_remove (o_props o) key)).
    assert (E : reflect_deleteProperty h target key = (set_object h target o', true)).
    { unfold reflect_deleteProperty. fold o. destruct key; try reflexivity.
      destruct (o_isArray o) eqn:Ea; [destruct Hk as [Hk|Hk]; [fold o in Hk|]; congruence|].
      reflexivity. }
    assert (Eo : objects (set_object h target o') target = o') by apply objects_set_same.
    assert (Hown : hasOwn (set_object h target o') target key = false).
    { unfold hasOwn. rewrite Eo. cbn [o_props o_isArray o'].
      rewrite props_get_remove_same.
      destruct key; try reflexivity. cbn [isSome]. rewrite orb_false_r.
      destruct Hk as [Hk|Hk]; [exact Hk|congruence]. }
    assert (Hget : raw_get (set_object h target o') target key = VUndefined).
    { unfold raw_get. rewrite Eo. cbn [o_props o_isArray o'].
      rewrite props_get_remove_same.
      destruct key; try reflexivity.
      destruct Hk as [Hk|Hk]; [fold o in Hk; rewrite Hk; reflexivity|congruence]. }
    exists (set_object h target o'). split; [|split; [|split; [|split; [|split; [|split; [|split; [|split]]]]]]].
    + unfold deleteProperty. rewrite E. reflexivity.
    + exact Hown.
    + exact Hget.
    + intros k' Hne. unfold raw_get, hasOwn. rewrite Eo. fold o.
      cbn [o_props o_isArray o_length o'].
      rewrite (props_get_remove_other _ _ _ Hne). split; reflexivity.
    + rewrite Eo. reflexivity.
    + rewrite Eo. reflexivity.
    + intros t' Hne. apply objects_set_other. exact Hne.
    + reflexivity.
    + unfold deleteProperty. rewrite Hown.
      destruct (reflect_deleteProperty (set_object h target o') target key) as [h2 r].
      destruct r; reflexivity.
Qed.

Lemma deleteProperty_notifies_when_the_key_was_there_witness :
  exists h',
    deleteProperty 0 (KIndex 2) sparse_heap
    = (h', Some true,
       if hasOwn sparse_heap 0 (KIndex 2)
       then [EmitTrigger 0 DELETE (KIndex 2) VUndefined (raw_get sparse_heap 0 (KIndex 2))]
       else []) /\
    hasOwn h' 0 (KIndex 2) = false /\
    o_length (objects h' 0) = 3%N.
Proof.
  destruct (proj2 (deleteProperty_notifies_when_the_key_was_there 0 (KIndex 2) sparse_heap))
    as (h' & E & Ho & _ & _ & Hl & _).
  - right. discriminate.
  - exists h'. split; [exact E|]. split; [exact Ho|]. rewrite Hl. reflexivity.
Defined.

(** ** Writing and reading back *)

Lemma props_get_set_same ps k v : props_get (props_set ps k v) k = Some v.
Proof.
  induction ps as [|[k' v'] ps IH]; simpl.
  - rewrite key_eqb_refl. reflexivity.
  - destruct (key_eqb k' k) eqn:E; simpl.
    + rewrite key_eqb_refl. reflexivity.
    + rewrite E. exact IH.
Qed.

Lemma props_get_set_other ps k v k' :
  k' <> k -> props_get (props_set ps k v) k' = props_get ps k'.
Proof.
  intros Hne. induction ps as [|[k0 v0] ps IH]; simpl.
  - rewrite (key_eqb_neq k k') by congruence. reflexivity.
  - destruct (key_eqb k0 k) eqn:E; simpl.
    + apply key_eqb_eq in E. subst k0.
      rewrite (key_eqb_neq k k') by congruence. reflexivity.
    + rewrite IH. reflexivity.
Qed.

Lemma toRaw_idem v : toRaw (toRaw v) = toRaw v.
Proof. destruct v; reflexivity. Qed.

Lemma isRef_toRaw v : isRef (toRaw v) = isRef v.
Proof. destruct v; reflexivity. Qed.

(** [Reflect.set] through the wrapper of [target], for a key that is
    neither the [length] of an array nor an index beyond the last array
    index. *)
Lemma reflect_set_own h target key v sh :
  (o_isArray (objects h target) = true ->
   key <> KLength /\ forall i, key = KIndex i -> (i < 4294967295)%N) ->
  exists o',
    reflect_set h target key v (VProxy false sh target)
    = SetDone (set_object h target o') true /\
    o_props o' = props_set (o_props (objects h target)) key v /\
    o_isArray o' = o_isArray (objects h target) /\
    (forall i, o_isArray (objects h target) = true -> key = KIndex i ->
               (i < o_length o')%N) /\
    (o_isArray (objects h target) = false ->
     o_length o' = o_length (objects h target)).
Proof.
  intros Hk. unfold reflect_set. cbn [toRaw].
  destruct (o_isArray (objects h target)) eqn:Ea.
  - destruct (Hk eq_refl) as [Hl Hi]. destruct key as [|i|n|n]; [congruence| | |].
    + rewrite (proj2 (N.ltb_lt _ _) (Hi i eq_refl)).
      eexists. split; [reflexivity|]. cbn [o_props o_isArray o_length].
      repeat split; try discriminate. intros i0 _ E. inversion E; subst. lia.
    + eexists. split; [reflexivity|]. cbn [o_props o_isArray o_length].
      repeat split; discriminate.
    + eexists. split; [reflexivity|]. cbn [o_props o_isArray o_length].
      repeat split; discriminate.
  - eexists. split; [reflexivity|]. cbn [o_props o_isArray o_length].
    repeat split; discriminate.
Qed.

(** X10: A write through the wrapper of [target], for the objects of this
    model: ordinary objects and arrays whose properties are own, writable
    data properties, and keys that neither the object nor its prototypes
    answer with an accessor or a read-only property (so not [__proto__],
    not the accessor of a class).  The old value of the key is not a
    reference cell, and the key is neither the [length] of an array nor an
    index beyond the last array index.  The setter stores the value (its
    raw object, unless the setter is shallow or the value read-only or
    shallow) and returns [true]; the key then reads as the stored value
    and counts as present; the other keys apart from the [length] of an
    array, the other objects and the reference cells are as they were.
    Writing the same value again notifies nothing, and deleting the key
    next notifies [DELETE] with the stored value as the old one. *)
Theorem written_value_is_read_back :
  forall shallow target key value h,
    isRef (raw_get h target key) = false ->
    (o_isArray (objects h target) = true ->
     key <> KLength /\ forall i, key = KIndex i -> (i < 4294967295)%N) ->
    let stored :=
      if negb shallow && negb (isReadonly h value) && negb (isShallow value)
      then toRaw value else value in
    exists h' emits,
      createSetter shallow target key value (VProxy false shallow target) h
      = (h', Some true, emits) /\
      raw_get h' target key = stored /\
      hadKey h' target key = true /\
      (forall k', k' <> key -> k' <> KLength ->
                  raw_get h' target k' = raw_get h target k') /\
      (forall t', t' <> target -> objects h' t' = objects h t') /\
      refs h' = refs h /\
      snd (createSetter shallow target key value (VProxy false shallow target) h') = [] /\
      snd (deleteProperty target key h')
      = [EmitTrigger target DELETE key VUndefined stored].
Proof.
  intros shallow target key value h Hold Hk stored.
  assert (Hst : isRef stored = isRef value).
  { unfold stored. destruct (_ && _); [apply isRef_toRaw|reflexivity]. }
  (* the shape of a write that reaches [Reflect.set] *)
  assert (Hset : forall g,
            refs g = refs h ->
            isRef (raw_get g target key) = isRef value \/ isRef (raw_get g target key) = false ->
            o_isArray (objects g target) = o_isArray (objects h target) ->
            exists o',
              createSetter shallow target key value (VProxy false shallow target) g
              = (set_object g target o', Some true,
                 if negb (hadKey g target key)
                 then [EmitTrigger target ADD key stored VUndefined]
                 else if hasChanged stored
                           (if negb shallow && negb (isReadonly h value)
                               && negb (isShallow value)
                            then toRaw (raw_get g target key) else raw_get g target key)
                      then [EmitTrigger target SET key stored
                              (if negb shallow && negb (isReadonly h value)
                                  && negb (isShallow value)
                               then toRaw (raw_get g target key) else raw_get g target key)]
                      else []) /\
              o_props o' = props_set (o_props (objects g target)) key stored /\
              o_isArray o' = o_isArray (objects g target) /\
              (forall i, o_isArray (objects g target) = true -> key = KIndex i ->
                         (i < o_length o')%N)).
  { intros g Hr Hg Ha.
    assert (Hro : isReadonly g value = isReadonly h value).
    { destruct value; try reflexivity. simpl. rewrite Hr. reflexivity. }
    unfold createSetter. rewrite Hro.
    replace (isReadonly g (raw_get g target key) && isRef (raw_get g target key)
             && negb (isRef value)) with false
      by (destruct Hg as [Hg|Hg]; rewrite Hg;
          [destruct (isRef value); rewrite ?andb_false_r; reflexivity
          |rewrite andb_false_r; reflexivity]).
    cbv zeta. fold stored.
    set (unwrap := negb shallow && negb (isReadonly h value) && negb (isShallow value)).
    set (old' := if unwrap then toRaw (raw_get g target key) else raw_get g target key).
    assert (Hold' : isRef old' = isRef (raw_get g target key))
      by (unfold old'; destruct unwrap; [apply isRef_toRaw|reflexivity]).
    replace (negb shallow && negb (isReadonly h value)
             && negb (o_isArray (objects g target)) && isRef old' && negb (isRef stored))
      with false
      by (rewrite Hold', Hst; destruct Hg as [Hg|Hg]; rewrite Hg;
          [destruct (isRef value); rewrite ?andb_false_r; reflexivity
          |rewrite andb_false_r; reflexivity]).
    destruct (reflect_set_own g target key stored shallow) as (o' & E & P & A & L & _).
    { rewrite Ha. exact Hk. }
    rewrite E. cbn [toRaw value_eqb]. rewrite Nat.eqb_refl.
    exists o'. split; [reflexivity|]. split; [exact P|]. split; [exact A|exact L]. }
  destruct (Hset h eq_refl (or_intror Hold) eq_refl) as (o1 & E1 & P1 & A1 & L1).
  set (h1 := set_object h target o1) in *.
  assert (Eo : objects h1 target = o1) by apply objects_set_same.
  assert (Hget : raw_get h1 target key = stored).
  { unfold raw_get. rewrite Eo, P1, props_get_set_same.
    destruct key; try reflexivity. rewrite A1.
    destruct (o_isArray (objects h target)) eqn:Ea; [|reflexivity].
    destruct (Hk eq_refl) as [Hl _]. congruence. }
  assert (Hown : hasOwn h1 target key = true).
  { unfold hasOwn. rewrite Eo, P1, props_get_set_same.
    destruct key; try reflexivity. apply orb_true_r. }
  assert (Hhad : hadKey h1 target key = true).
  { unfold hadKey. rewrite Eo, A1.
    destruct (o_isArray (objects h target)) eqn:Ea; [|exact Hown].
    destruct key as [|i|n|n]; try exact Hown.
    cbn [isIntegerKey andb]. apply N.ltb_lt. apply (L1 i eq_refl eq_refl). }
  eexists h1, _. split; [exact E1|]. split; [exact Hget|]. split; [exact Hhad|].
  split; [|split; [|split; [|split]]].
  - intros k' Hne Hlen. unfold raw_get. rewrite Eo, P1.
    rewrite (props_get_set_other _ _ _ _ Hne). destruct k'; try reflexivity. congruence.
  - intros t' Hne. apply objects_set_other. exact Hne.
  - reflexivity.
  - destruct (Hset h1 eq_refl) as (o2 & E2 & _).
    + left. rewrite Hget. exact Hst.
    + rewrite Eo. exact A1.
    + rewrite E2. cbn [snd]. rewrite Hhad, Hget. cbn [negb].
      replace (if negb shallow && negb (isReadonly h value) && negb (isShallow value)
               then toRaw stored else stored) with stored.
      * unfold hasChanged. rewrite value_eqb_refl. reflexivity.
      * unfold stored. destruct (_ && _); [symmetry; apply toRaw_idem|reflexivity].
  - unfold deleteProperty. rewrite Hown, Hget.
    assert (Er : snd (reflect_deleteProperty h1 target key) = true).
    { unfold reflect_deleteProperty. rewrite Eo, A1. destruct key; try reflexivity.
      destruct (o_isArray (objects h target)) eqn:Ea; [|reflexivity].
      destruct (Hk eq_refl) as [Hl _]. congruence. }
    destruct (reflect_deleteProperty h1 target key) as [h2 r]. cbn [snd] in Er.
    subst r. reflexivity.
Qed.

Lemma written_value_is_read_back_witness :
  exists h' emits,
    createSetter false 0 (KIndex 1) (VProxy false false 1) (VProxy false false 0) sparse_heap
    = (h', Some true, emits) /\
    raw_get h' 0 (KIndex 1) = VObj 1 /\
    hadKey h' 0 (KIndex 1) = true.
Proof.
  destruct (written_value_is_read_back false 0 (KIndex 1) (VProxy false false 1) sparse_heap)
    as (h' & emits & E & G & H & _).
  - reflexivity.
  - intros _. split; [discriminate|]. intros i Hi. inversion Hi; subst. reflexivity.
  - exists h', emits. split; [exact E|]. split; [exact G|exact H].
Defined.

(** * scheduler.ts *)

Import Scheduler.

Lemma id_le_total a b : id_le a b = false -> id_le b a = true.
Proof.
  destruct a, b; simpl; try discriminate; auto.
  intros H. apply Z.leb_gt in H. apply Z.leb_le. lia.
Qed.

Lemma id_le_trans a b c : id_le a b = true -> id_le b c = true -> id_le a c = true.
Proof.
  destruct a, b, c; simpl; try discriminate; auto.
  intros H1 H2. apply Z.leb_le in H1, H2. apply Z.leb_le. lia.
Qed.

Lemma insert_by_id_perm s j l : Permutation (j :: l) (insert_by_id s j l).
Proof.
  induction l as [|x l IH]; simpl; [apply Permutation_refl|].
  destruct (id_le (getId s j) (getId s x)); [apply Permutation_refl|].
  eapply perm_trans; [apply perm_swap|].
  apply perm_skip. exact IH.
Qed.

Lemma sort_by_id_perm s l : Permutation l (sort_by_id s l).
Proof.
  induction l as [|x l IH]; simpl; [apply perm_nil|].
  eapply perm_trans; [|apply insert_by_id_perm].
  apply perm_skip. exact IH.
Qed.

Lemma insert_by_id_sorted s j l :
  StronglySorted (id_order s) l ->
  StronglySorted (id_order s) (insert_by_id s j l).
Proof.
  induction l as [|x l IH]; intros H; simpl.
  - constructor; [constructor|constructor].
  - inversion H as [|? ? Hs Hf]; subst.
    destruct (id_le (getId s j) (getId s x)) eqn:E.
    + constructor; [exact H|]. constructor; [exact E|].
      eapply Forall_impl; [|exact Hf]. intros y Hy. unfold id_order in *.
      eapply id_le_trans; eauto.
    + constructor; [apply IH; exact Hs|].
      apply id_le_total in E.
      assert (Hp := insert_by_id_perm s j l).
      apply (Permutation_Forall Hp). constructor; assumption.
Qed.

Lemma sort_by_id_sorted s l : StronglySorted (id_order s) (sort_by_id s l).
Proof.
  induction l as [|x l IH]; simpl; [constructor|].
  apply insert_by_id_sorted. exact IH.
Qed.

Lemma StronglySorted_filter {A} (R : A -> A -> Prop) f l :
  StronglySorted R l -> StronglySorted R (filter f l).
Proof.
  induction 1 as [|x l Hs IH Hf]; simpl; [constructor|].
  destruct (f x); [|exact IH]. constructor; [exact IH|].
  apply Forall_forall. intros y Hy. apply filter_In in Hy.
  apply (proj1 (Forall_forall _ _) Hf). apply Hy.
Qed.

Lemma skipn_nth {A} (d : A) : forall i l,
  i < length l -> skipn i l = nth i l d :: skipn (S i) l.
Proof.
  induction i as [|i IH]; intros [|x l] H; simpl in *; try lia; [reflexivity|].
  apply IH. lia.
Qed.

Lemma job_exec_quiet acts : forall s,
  forallb quiet_action acts = true -> fst (job_exec acts s) = s.
Proof.
  induction acts as [|a acts IH]; intros s H; simpl in *; [reflexivity|].
  apply andb_prop in H. destruct H as [Ha Hr].
  destruct a; try discriminate; simpl; auto.
Qed.

Lemma SameQueues_refl s : SameQueues s s.
Proof. constructor; reflexivity. Qed.

Lemma SameQueues_trans s1 s2 s3 : SameQueues s1 s2 -> SameQueues s2 s3 -> SameQueues s1 s3.
Proof. intros [] []. constructor; congruence. Qed.

Lemma callWithErrorHandling_quiet j s :
  quiet_job s j = true ->
  SameQueues s (callWithErrorHandling j s) /\
  ran (callWithErrorHandling j s) = ran s ++ [j] /\
  seen (callWithErrorHandling j s) = seen s /\
  flushIndex (callWithErrorHandling j s) = flushIndex s.
Proof.
  intros Hq. unfold callWithErrorHandling, call_job.
  pose proof (job_exec_quiet (job_body (jobs s j)) (with_ran s (ran s ++ [j])) Hq) as E.
  destruct (job_exec (job_body (jobs s j)) (with_ran s (ran s ++ [j]))) as [s' ok].
  simpl in E. subst s'. destruct ok; qsimpl; repeat split; reflexivity.
Qed.

Lemma flushJobs_loop_quiet dev : forall n fuel s,
  length (queue s) - flushIndex s = n -> n < fuel ->
  flushIndex s <= length (queue s) ->
  (forall j, In j (queue s) -> quiet_job s j = true) ->
  (dev = true ->
   NoDup (skipn (flushIndex s) (queue s)) /\
   forall j, In j (skipn (flushIndex s) (queue s)) -> seen s j = 0) ->
  exists s',
    flushJobs_loop dev fuel s = Some s' /\
    SameQueues s s' /\
    flushIndex s' = length (queue s) /\
    ran s' = ran s ++ filter (fun j => job_active (jobs s j))
                             (skipn (flushIndex s) (queue s)).
Proof.
  induction n as [|n IH]; intros fuel s Hn Hf Hle Hq Hdev;
    (destruct fuel as [|f]; [lia|]); simpl.
  - assert (E : flushIndex s = length (queue s)) by lia.
    rewrite E, Nat.ltb_irrefl. exists s.
    rewrite skipn_all. simpl. rewrite app_nil_r.
    repeat split; auto using SameQueues_refl.
  - assert (Hlt : flushIndex s < length (queue s)) by lia.
    pose proof (proj2 (Nat.ltb_lt _ _) Hlt) as Eb. rewrite Eb.
    rewrite (skipn_nth 0 _ _ Hlt) in *.
    set (j := nth (flushIndex s) (queue s) 0) in *.
    assert (Hin : In j (queue s)) by (apply nth_In; exact Hlt).
    set (s2 := if job_active (jobs s j)
               then let (skip, s1) := if dev then checkRecursiveUpdates j s else (false, s) in
                    if skip then s1 else callWithErrorHandling j s1
               else s).
    assert (H2 : SameQueues s s2 /\ flushIndex s2 = flushIndex s /\
                 ran s2 = ran s ++ (if job_active (jobs s j) then [j] else []) /\
                 (dev = true -> forall x, x <> j -> seen s2 x = seen s x)).
    { unfold s2. destruct (job_active (jobs s j)).
      - destruct dev.
        + destruct (Hdev eq_refl) as [_ Hseen].
          unfold checkRecursiveUpdates. rewrite (Hseen j (or_introl eq_refl)).
          destruct (callWithErrorHandling_quiet j (with_seen s (upd (seen s) j 1)))
            as [Q [R [Sn Fi]]]; [apply Hq; exact Hin|].
          split; [|split; [|split]].
          * eapply SameQueues_trans; [|exact Q]. constructor; reflexivity.
          * rewrite Fi. reflexivity.
          * rewrite R. reflexivity.
          * intros _ x Hx. rewrite Sn. qsimpl. apply upd_other. exact Hx.
        + destruct (callWithErrorHandling_quiet j s (Hq j Hin)) as [Q [R [Sn Fi]]].
          split; [exact Q|]. split; [exact Fi|]. split; [exact R|]. discriminate.
      - split; [apply SameQueues_refl|]. split; [reflexivity|].
        split; [rewrite app_nil_r; reflexivity|]. auto. }
    clearbody s2. destruct H2 as [Q2 [F2 [R2 S2]]].
    destruct (IH f (with_flushIndex s2 (flushIndex s2 + 1))) as [s' [E [Q' [F' R']]]].
    + qsimpl. rewrite (sq_queue _ _ Q2), F2. lia.
    + lia.
    + qsimpl. rewrite (sq_queue _ _ Q2), F2. lia.
    + qsimpl. intros x Hx. rewrite (sq_queue _ _ Q2) in Hx. unfold quiet_job. qsimpl.
      rewrite (sq_jobs _ _ Q2). apply Hq. exact Hx.
    + intros Hd. qsimpl. rewrite (sq_queue _ _ Q2), F2.
      destruct (Hdev Hd) as [ND Hseen]. apply NoDup_cons_iff in ND.
      destruct ND as [Hnot ND'].
      replace (flushIndex s + 1) with (S (flushIndex s)) by lia.
      split; [exact ND'|]. intros x Hx. rewrite (S2 Hd).
      * apply Hseen. right. exact Hx.
      * intro; subst. contradiction.
    + exists s'. split; [exact E|]. qsimpl. split; [|split].
      * eapply SameQueues_trans; [exact Q2|].
        destruct Q' as [A B C D E1 G H1]. qsimpl. constructor; assumption.
      * rewrite F'. qsimpl. apply (f_equal (@length nat)). apply (sq_queue _ _ Q2).
      * rewrite R'. qsimpl. rewrite R2, (sq_queue _ _ Q2), (sq_jobs _ _ Q2), F2.
        replace (flushIndex s + 1) with (S (flushIndex s)) by lia.
        simpl. destruct (job_active (jobs s j)); rewrite <- app_assoc; reflexivity.
Qed.

Lemma insert_by_id_ext s s' j l :
  jobs s' = jobs s -> insert_by_id s' j l = insert_by_id s j l.
Proof.
  intros E. induction l as [|x l IH]; simpl; [reflexivity|].
  unfold getId. rewrite E, IH. reflexivity.
Qed.

Lemma sort_by_id_ext s s' l : jobs s' = jobs s -> sort_by_id s' l = sort_by_id s l.
Proof.
  intros E. induction l as [|x l IH]; simpl; [reflexivity|].
  rewrite IH. apply insert_by_id_ext. exact E.
Qed.

Lemma flush_quiet dev fuel s :
  pendingPreFlushCbs s = [] -> pendingPostFlushCbs s = [] ->
  (forall j, In j (queue s) -> quiet_job s j = true) ->
  NoDup (queue s) ->
  length (queue s) + 2 <= fuel ->
  exists s',
    flush dev fuel s = Some (s', true) /\
    ran s' = ran s ++ filter (fun j => job_active (jobs s j))
                             (sort_by_id s (queue s)) /\
    queue s' = [] /\ isFlushing s' = false /\ jobs s' = jobs s.
Proof.
  intros Hpre Hpost Hq ND Hf.
  destruct fuel as [|[|f]]; try lia.
  unfold flush. cbn [flushJobs]. cbn [flushPreFlushCbs]. qsimpl. rewrite Hpre.
  set (s3 := with_flushIndex _ 0).
  assert (Eq3 : queue s3 = sort_by_id s (queue s)).
  { unfold s3. qsimpl. apply sort_by_id_ext. reflexivity. }
  assert (Hperm : Permutation (queue s) (queue s3))
    by (rewrite Eq3; apply sort_by_id_perm).
  destruct (flushJobs_loop_quiet dev (length (queue s3)) (S f) s3)
    as [s4 [E [Q [F R]]]].
  - unfold s3 at 2. qsimpl. lia.
  - rewrite <- (Permutation_length Hperm). lia.
  - unfold s3 at 1. qsimpl. lia.
  - intros j Hj. apply (Permutation_in _ (Permutation_sym Hperm)) in Hj.
    apply Hq in Hj. exact Hj.
  - intros _. unfold s3 at 1 3. qsimpl. split.
    + apply (Permutation_NoDup Hperm). exact ND.
    + reflexivity.
  - rewrite E. unfold flushPostFlushCbs. qsimpl.
    rewrite (sq_post _ _ Q). unfold s3 at 1. qsimpl. rewrite Hpost. qsimpl.
    rewrite (sq_pre _ _ Q), (sq_post _ _ Q). unfold s3 at 1 2. qsimpl.
    rewrite Hpre, Hpost.
    eexists. split; [reflexivity|]. qsimpl.
    split; [|split; [reflexivity|split; [reflexivity|]]].
    + rewrite R. unfold s3 at 1 2 3. qsimpl. rewrite Eq3. reflexivity.
    + rewrite (sq_jobs _ _ Q). reflexivity.
Qed.

Lemma splice_in_perm l i j : Permutation (j :: l) (splice_in l i j).
Proof.
  unfold splice_in. rewrite <- (firstn_skipn i l) at 1.
  apply Permutation_middle.
Qed.

Lemma includes_from_0 l j : includes_from l j 0 = true <-> In j l.
Proof.
  unfold includes_from. simpl. rewrite existsb_exists. split.
  - intros [x [Hx E]]. apply Nat.eqb_eq in E. subst. exact Hx.
  - intros H. exists j. split; [exact H|apply Nat.eqb_refl].
Qed.

Lemma queueJob_idle j s :
  Idle s ->
  Idle (queueJob j s) /\ jobs (queueJob j s) = jobs s /\
  ran (queueJob j s) = ran s /\
  (forall x, In x (queue (queueJob j s)) <-> x = j \/ In x (queue s)).
Proof.
  intros [Hf Hi Hp Hpre Hpost ND]. unfold queueJob. rewrite Hf, Hi, Hp. cbn [andb negb].
  rewrite andb_true_r.
  destruct (match queue s with [] => true | _ :: _ => false end
            || negb (includes_from (queue s) j 0)) eqn:E.
  - assert (Hnot : ~ In j (queue s)).
    { destruct (queue s) as [|q0 qs] eqn:Eq; [intros []|]. simpl in E.
      intros Hin. apply includes_from_0 in Hin. rewrite Hin in E. discriminate. }
    set (q' := match job_id (jobs s j) with
               | Some id => splice_in (queue s) (findInsertionIndex s id) j
               | None => queue s ++ [j]
               end).
    assert (Hperm : Permutation (j :: queue s) q').
    { unfold q'. destruct (job_id (jobs s j)); [apply splice_in_perm|].
      apply Permutation_cons_append. }
    assert (Es : (match job_id (jobs s j) with
                  | Some id => with_queue s (splice_in (queue s) (findInsertionIndex s id) j)
                  | None => with_queue s (queue s ++ [j])
                  end) = with_queue s q').
    { unfold q'. destruct (job_id (jobs s j)); reflexivity. }
    rewrite Es. unfold queueFlush. qsimpl. rewrite Hf. cbn [negb andb].
    assert (HND : NoDup q').
    { apply (Permutation_NoDup Hperm). constructor; assumption. }
    assert (Hin : forall x, In x q' <-> x = j \/ In x (queue s)).
    { intros x. split; intros H.
      - apply (Permutation_in _ (Permutation_sym Hperm)) in H. simpl in H. intuition.
      - apply (Permutation_in _ Hperm). simpl. intuition. }
    destruct (negb (isFlushPending s)); qsimpl;
      (split; [constructor; qsimpl; auto|split; [reflexivity|split; [reflexivity|exact Hin]]]).
  - split; [constructor; auto|]. split; [reflexivity|]. split; [reflexivity|].
    intros x. split; [auto|]. intros [->|H]; [|exact H].
    destruct (queue s) as [|q0 qs] eqn:Eq; [discriminate E|]. simpl in E.
    apply negb_false_iff in E. apply includes_from_0 in E. exact E.
Qed.

Lemma enqueue_all_idle l : forall s,
  Idle s ->
  Idle (enqueue_all l s) /\ jobs (enqueue_all l s) = jobs s /\
  ran (enqueue_all l s) = ran s /\
  (forall x, In x (queue (enqueue_all l s)) <-> In x l \/ In x (queue s)).
Proof.
  induction l as [|j l IH]; intros s Hs; simpl.
  - split; [exact Hs|]. split; [reflexivity|]. split; [reflexivity|].
    intros x. tauto.
  - destruct (queueJob_idle j s Hs) as [H1 [H2 [H3 H4]]].
    destruct (IH _ H1) as [G1 [G2 [G3 G4]]].
    unfold enqueue_all in *. split; [exact G1|]. split; [congruence|].
    split; [congruence|]. intros x. rewrite G4, H4. intuition.
Qed.

Lemma sched_init_idle js : Idle (sched_init js).
Proof. constructor; try reflexivity. constructor. Qed.




(** ** The insertion point of [queueJob] *)

Lemma id_lt_le_trans a b id :
  id_lt_num a id = true -> id_le b a = true -> id_lt_num b id = true.
Proof.
  destruct a as [x|], b as [y|]; simpl; try discriminate.
  intros H1 H2. apply Z.ltb_lt in H1. apply Z.leb_le in H2. apply Z.ltb_lt. lia.
Qed.

Lemma id_ge_le_trans a b id :
  id_lt_num a id = false -> id_le a b = true -> id_lt_num b id = false.
Proof.
  destruct a as [x|], b as [y|]; simpl; try discriminate; auto.
  intros H1 H2. apply Z.ltb_ge in H1. apply Z.leb_le in H2. apply Z.ltb_ge. lia.
Qed.

Lemma div2_between a b : a < b -> a <= Nat.div2 (a + b) < b.
Proof.
  intros H. rewrite Nat.div2_div.
  split.
  - apply Nat.div_le_lower_bound; lia.
  - apply Nat.Div0.div_lt_upper_bound; lia.
Qed.

Lemma findInsertionIndex_loop_spec s id lo : forall fuel start end_,
  lo <= start -> start <= end_ -> end_ <= length (queue s) ->
  end_ - start < fuel ->
  (forall i j, lo <= i -> i <= j -> j < length (queue s) ->
     id_le (getId s (nth i (queue s) 0)) (getId s (nth j (queue s) 0)) = true) ->
  (forall i, lo <= i -> i < start -> id_lt_num (getId s (nth i (queue s) 0)) id = true) ->
  (forall i, end_ <= i -> i < length (queue s) ->
     id_lt_num (getId s (nth i (queue s) 0)) id = false) ->
  start <= findInsertionIndex_loop fuel s id start end_ <= end_ /\
  (forall i, lo <= i -> i < findInsertionIndex_loop fuel s id start end_ ->
     id_lt_num (getId s (nth i (queue s) 0)) id = true) /\
  (forall i, findInsertionIndex_loop fuel s id start end_ <= i -> i < length (queue s) ->
     id_lt_num (getId s (nth i (queue s) 0)) id = false).
Proof.
  induction fuel as [|f IH]; intros start end_ Hlo Hse Hen Hf Hsorted Hlt Hge; [lia|].
  simpl. destruct (Nat.ltb_spec start end_) as [Hlt'|Hge'].
  - pose proof (div2_between start end_ Hlt') as Hm.
    set (m := Nat.div2 (start + end_)) in *.
    destruct (id_lt_num (getId s (nth m (queue s) 0)) id) eqn:Em.
    + destruct (IH (m + 1) end_) as [B [L G]]; try lia; auto.
      * intros i H1 H2. destruct (Nat.lt_ge_cases i start) as [Hi|Hi]; [auto|].
        apply (id_lt_le_trans _ _ _ Em). apply Hsorted; lia.
      * split; [lia|]. split; assumption.
    + destruct (IH start m) as [B [L G]]; try lia; auto.
      * intros i H1 H2. destruct (Nat.lt_ge_cases i end_) as [Hi|Hi]; [|auto].
        apply (id_ge_le_trans _ _ _ Em). apply Hsorted; lia.
      * split; [lia|]. split; assumption.
  - assert (start = end_) by lia. subst end_.
    split; [lia|]. split; auto.
Qed.

Lemma findInsertionIndex_loop_empty s id : forall fuel start end_,
  end_ <= start -> findInsertionIndex_loop fuel s id start end_ = start.
Proof.
  intros fuel start end_ H. destruct fuel; simpl; [reflexivity|].
  destruct (Nat.ltb_spec start end_); [lia|reflexivity].
Qed.

Lemma findInsertionIndex_spec :
  forall s id,
    let lo := flushIndex s + 1 in
    let n := length (queue s) in
    let r := findInsertionIndex s id in
    (n <= lo -> r = lo) /\
    (lo <= n -> lo <= r <= n) /\
    ((forall i j, lo <= i -> i <= j -> j < n ->
        id_le (getId s (nth i (queue s) 0)) (getId s (nth j (queue s) 0)) = true) ->
     (forall i, lo <= i -> i < r -> id_lt_num (getId s (nth i (queue s) 0)) id = true) /\
     (forall i, r <= i -> i < n -> id_lt_num (getId s (nth i (queue s) 0)) id = false)).
Proof.
  intros s id lo n r. unfold r, findInsertionIndex. fold lo. fold n.
  split; [intros H; apply findInsertionIndex_loop_empty; exact H|].
  split.
  - intros H.
    destruct (Nat.eq_dec lo n) as [E|E].
    + rewrite findInsertionIndex_loop_empty by lia. lia.
    + (* the bounds do not depend on the order of the queue *)
      clear E. revert H. generalize lo. unfold n. clear lo r.
      assert (G : forall fuel start end_, start <= end_ ->
                start <= findInsertionIndex_loop fuel s id start end_ <= end_).
      { induction fuel as [|f IH]; intros start end_ H; simpl; [lia|].
        destruct (Nat.ltb_spec start end_) as [Hlt|Hge]; [|lia].
        pose proof (div2_between start end_ Hlt) as Hm.
        destruct (id_lt_num _ id).
        - specialize (IH (Nat.div2 (start + end_) + 1) end_). lia.
        - specialize (IH start (Nat.div2 (start + end_))). lia. }
      intros lo H. apply G. exact H.
  - intros Hsorted. destruct (Nat.le_gt_cases lo n) as [H|H].
    + destruct (findInsertionIndex_loop_spec s id lo (S n) lo n) as [_ [H1 H2]];
        try (unfold n in *; lia); auto.
    + rewrite findInsertionIndex_loop_empty by lia. split; intros i H1 H2; lia.
Qed.

(** ** [queueJob] *)

Lemma id_le_refl a : id_le a a = true.
Proof. destruct a; simpl; [apply Z.leb_refl|reflexivity]. Qed.

Lemma StronglySorted_nth {A} (R : A -> A -> Prop) (d : A) l :
  StronglySorted R l ->
  forall i j, i < j -> j < length l -> R (nth i l d) (nth j l d).
Proof.
  induction 1 as [|a l S IH F]; intros i j Hij Hj; [simpl in Hj; lia|].
  destruct j as [|j]; [lia|]. destruct i as [|i]; simpl in *.
  - rewrite Forall_forall in F. apply F. apply nth_In. lia.
  - apply IH; lia.
Qed.

Lemma StronglySorted_insert {A} (R : A -> A -> Prop) x l1 : forall l2,
  StronglySorted R (l1 ++ l2) ->
  Forall (fun a => R a x) l1 -> Forall (R x) l2 ->
  StronglySorted R (l1 ++ x :: l2).
Proof.
  induction l1 as [|a l1 IH]; intros l2 S F1 F2; simpl in *.
  - constructor; assumption.
  - inversion S; subst. inversion F1; subst. constructor; [apply IH; assumption|].
    rewrite Forall_app in *. destruct H2 as [Ha1 Ha2].
    split; [exact Ha1|constructor; assumption].
Qed.

Lemma queueFlush_queue s :
  queue (queueFlush s) = queue s /\ flushIndex (queueFlush s) = flushIndex s /\
  jobs (queueFlush s) = jobs s.
Proof. unfold queueFlush. destruct (_ && _); auto. Qed.

(** The queue after a job has been put in: the job is spliced in at the
    insertion point, or pushed when it has no identity. *)
Lemma queueJob_cases j s :
  (queueJob j s = s) \/
  (jobs (queueJob j s) = jobs s /\ flushIndex (queueJob j s) = flushIndex s /\
   queue (queueJob j s)
   = match job_id (jobs s j) with
     | None => queue s ++ [j]
     | Some id => splice_in (queue s) (findInsertionIndex s id) j
     end /\
   ~ In j (skipn (flushIndex s + 1) (queue s)) /\
   (In j (skipn (flushIndex s) (queue s)) ->
    isFlushing s && job_allowRecurse (jobs s j) = true) /\
   currentPreFlushParentJob s <> Some j).
Proof.
  unfold queueJob.
  destruct ((match queue s with [] => true | _ => false end
             || negb (includes_from (queue s) j
                        (if isFlushing s && job_allowRecurse (jobs s j)
                         then flushIndex s + 1 else flushIndex s)))
            && negb (match currentPreFlushParentJob s with
                     | Some p => Nat.eqb j p
                     | None => false
                     end)) eqn:E; [right|left; reflexivity].
  apply andb_prop in E. destruct E as [E1 E2].
  assert (Hq : forall from, from = flushIndex s \/ from = flushIndex s + 1 ->
            (match queue s with [] => true | _ => false end
             || negb (includes_from (queue s) j from)) = true ->
            ~ In j (skipn from (queue s))).
  { intros from _ H Hin. destruct (queue s) eqn:Eq.
    - rewrite skipn_nil in Hin. destruct Hin.
    - simpl in H. apply negb_true_iff in H. unfold includes_from in H.
      assert (existsb (Nat.eqb j) (skipn from (n :: l)) = true)
        by (apply existsb_exists; exists j; split; [exact Hin|apply Nat.eqb_refl]).
      congruence. }
  destruct (job_id (jobs s j)) as [id|] eqn:Eid.
  all: destruct (queueFlush_queue
                   (match job_id (jobs s j) with
                    | None => with_queue s (queue s ++ [j])
                    | Some id => with_queue s (splice_in (queue s) (findInsertionIndex s id) j)
                    end)) as [Q1 [Q2 Q3]].
  all: rewrite Eid in Q1, Q2, Q3.
  all: split; [exact Q3|]; split; [exact Q2|]; split; [exact Q1|].
  all: split; [|split].
  all: try (intros Hc; rewrite Hc in E2; rewrite Nat.eqb_refl in E2; discriminate).
  all: try (intros Hin; destruct (isFlushing s && job_allowRecurse (jobs s j)) eqn:Ef;
            [reflexivity|exfalso; revert Hin; apply Hq; [now left|exact E1]]).
  all: destruct (isFlushing s && job_allowRecurse (jobs s j)) eqn:Ef.
  all: try (apply Hq; [now right|exact E1]).
  all: intros Hin; apply (Hq (flushIndex s)); [now left|exact E1|].
  all: replace (flushIndex s + 1) with (1 + flushIndex s) in Hin by lia.
  all: rewrite <- skipn_skipn in Hin.
  all: destruct (skipn (flushIndex s) (queue s)); [destruct Hin|right; exact Hin].
Qed.

Lemma id_order_ext s s' a b : jobs s' = jobs s -> id_order s' a b <-> id_order s a b.
Proof. intros E. unfold id_order, getId. rewrite E. tauto. Qed.

Lemma StronglySorted_ext {A} (R R' : A -> A -> Prop) l :
  (forall a b, R a b -> R' a b) -> StronglySorted R l -> StronglySorted R' l.
Proof.
  intros H. induction 1; constructor; [assumption|].
  eapply Forall_impl; [|eassumption]. intros b. apply H.
Qed.

Lemma pending_sorted_nth s :
  StronglySorted (id_order s) (skipn (flushIndex s + 1) (queue s)) ->
  forall i j, flushIndex s + 1 <= i -> i <= j -> j < length (queue s) ->
    id_le (getId s (nth i (queue s) 0)) (getId s (nth j (queue s) 0)) = true.
Proof.
  intros S i i' Hi Hii Hi'. set (lo := flushIndex s + 1) in *.
  destruct (Nat.eq_dec i i') as [<-|Hne]; [apply id_le_refl|].
  pose proof (StronglySorted_nth (id_order s) 0 _ S (i - lo) (i' - lo)) as H.
  rewrite !nth_skipn in H.
  replace (lo + (i - lo)) with i in H by lia.
  replace (lo + (i' - lo)) with i' in H by lia.
  apply H; [lia|]. rewrite length_skipn. lia.
Qed.

(** X11: the binary search of [findInsertionIndex] over the jobs after the
    one that is running, when they are in the order of their identity
    numbers (a job without one last): the index it returns is between
    [flushIndex + 1] and the length of the queue, the pending jobs before it
    have identities below [id], and the jobs from it on have not.  With no
    pending job the index is [flushIndex + 1]. *)
Theorem findInsertionIndex_finds_the_first_job_not_below :
  forall s id,
    (length (queue s) <= flushIndex s + 1 -> findInsertionIndex s id = flushIndex s + 1) /\
    (flushIndex s + 1 <= length (queue s) ->
     StronglySorted (id_order s) (skipn (flushIndex s + 1) (queue s)) ->
     flushIndex s + 1 <= findInsertionIndex s id <= length (queue s) /\
     Forall (fun a => id_lt_num (getId s a) id = true)
            (skipn (flushIndex s + 1) (firstn (findInsertionIndex s id) (queue s))) /\
     Forall (fun a => id_lt_num (getId s a) id = false)
            (skipn (findInsertionIndex s id) (queue s))).
Proof.
  intros s id. destruct (findInsertionIndex_spec s id) as [B1 [B2 B3]].
  split; [exact B1|]. intros Hle S. destruct (B2 Hle) as [R1 R2].
  destruct (B3 (pending_sorted_nth s S)) as [L G].
  split; [split; assumption|]. split.
  - apply Forall_nth. intros i d Hi.
    rewrite (nth_indep _ d 0) by exact Hi.
    rewrite length_skipn, length_firstn in Hi.
    rewrite nth_skipn, nth_firstn.
    destruct (Nat.ltb_spec (flushIndex s + 1 + i) (findInsertionIndex s id)); [|lia].
    apply L; lia.
  - apply Forall_nth. intros i d Hi.
    rewrite (nth_indep _ d 0) by exact Hi.
    rewrite length_skipn in Hi. rewrite nth_skipn. apply G; lia.
Qed.

(** X12: [queueJob] keeps the jobs after the running one in the order of
    their identity numbers, a job without one last, and does not disturb
    the jobs up to the running one; the queue is otherwise the old one with
    the job put in, or unchanged. *)
Theorem queueJob_keeps_the_pending_jobs_sorted :
  forall j s,
    StronglySorted (id_order s) (skipn (flushIndex s + 1) (queue s)) ->
    StronglySorted (id_order (queueJob j s))
      (skipn (flushIndex (queueJob j s) + 1) (queue (queueJob j s))) /\
    (flushIndex s < length (queue s) ->
     firstn (flushIndex s + 1) (queue (queueJob j s))
     = firstn (flushIndex s + 1) (queue s)) /\
    (queueJob j s = s \/ Permutation (j :: queue s) (queue (queueJob j s))).
Proof.
  intros j s S. destruct (queueJob_cases j s) as [E|[Ej [Ef [Eq _]]]].
  { rewrite E. split; [exact S|]. split; [reflexivity|now left]. }
  set (lo := flushIndex s + 1) in *. set (n := length (queue s)).
  rewrite Ef. fold lo. rewrite Eq.
  assert (Hsplice : forall r, lo <= r -> r <= n ->
            skipn lo (splice_in (queue s) r j)
            = skipn lo (firstn r (queue s)) ++ j :: skipn r (queue s) /\
            skipn lo (queue s) = skipn lo (firstn r (queue s)) ++ skipn r (queue s) /\
            firstn lo (splice_in (queue s) r j) = firstn lo (queue s)).
  { intros r H1 H2. unfold splice_in.
    assert (Hl : length (firstn r (queue s)) = r) by (apply firstn_length_le; exact H2).
    split; [|split].
    - rewrite skipn_app, Hl. replace (lo - r) with 0 by lia. reflexivity.
    - rewrite <- (firstn_skipn r (queue s)) at 1. rewrite skipn_app, Hl.
      replace (lo - r) with 0 by lia. reflexivity.
    - rewrite firstn_app, Hl. replace (lo - r) with 0 by lia. simpl.
      rewrite app_nil_r. rewrite firstn_firstn. f_equal. lia. }
  assert (Hpush : splice_in (queue s) n j = queue s ++ [j]).
  { unfold splice_in, n. rewrite firstn_all, skipn_all. reflexivity. }
  assert (Hext : forall l, StronglySorted (id_order s) l ->
                           StronglySorted (id_order (queueJob j s)) l).
  { intros l. apply StronglySorted_ext. intros a b. apply id_order_ext. exact Ej. }
  split; [|split].
  - apply Hext. destruct (job_id (jobs s j)) as [id|] eqn:Eid.
    all: assert (Egj : getId s j = job_id (jobs s j)) by reflexivity.
    all: rewrite Eid in Egj.
    + destruct (findInsertionIndex_spec s id) as [B1 [B2 B3]].
      fold lo in B1, B2, B3. fold n in B1, B2, B3.
      set (r := findInsertionIndex s id) in *.
      destruct (Nat.le_gt_cases lo n) as [Hle|Hgt].
      * destruct (B2 Hle) as [R1 R2]. destruct (Hsplice r R1 R2) as [H1 [H2 _]].
        rewrite H1.
        destruct (B3 (pending_sorted_nth s S)) as [L G].
        rewrite H2 in S.
        apply StronglySorted_insert; [exact S| |].
        -- apply Forall_nth. intros i d Hi.
           rewrite (nth_indep _ d 0) by exact Hi.
           rewrite length_skipn, length_firstn in Hi. fold n in Hi.
           rewrite nth_skipn, nth_firstn.
           assert (Hlt : lo + i < r) by lia.
           destruct (Nat.ltb_spec (lo + i) r); [|lia].
           unfold id_order. rewrite Egj.
           specialize (L (lo + i) ltac:(lia) Hlt).
           destruct (getId s (nth (lo + i) (queue s) 0)); simpl in *; [|discriminate].
           apply Z.ltb_lt in L. apply Z.leb_le. lia.
        -- apply Forall_nth. intros i d Hi.
           rewrite (nth_indep _ d 0) by exact Hi.
           rewrite length_skipn in Hi. fold n in Hi.
           rewrite nth_skipn. unfold id_order. rewrite Egj.
           specialize (G (r + i) ltac:(lia) ltac:(lia)).
           destruct (getId s (nth (r + i) (queue s) 0)); simpl in *; [|reflexivity].
           apply Z.ltb_ge in G. apply Z.leb_le. lia.
      * rewrite skipn_all2; [constructor|].
        unfold splice_in. rewrite length_app. simpl. rewrite length_firstn, length_skipn.
        fold n. lia.
    + rewrite skipn_app. destruct (Nat.le_gt_cases lo n) as [Hle|Hgt].
      * replace (lo - length (queue s)) with 0 by (fold n; lia). simpl.
        apply StronglySorted_insert; [rewrite app_nil_r; exact S| |constructor].
        apply Forall_forall. intros a _. unfold id_order. rewrite Egj.
        destruct (getId s a); reflexivity.
      * rewrite (skipn_all2 (queue s)) by (fold n; lia).
        rewrite skipn_all2 by (simpl; fold n; lia). constructor.
  - intros Hlt. destruct (job_id (jobs s j)) as [id|] eqn:Eid.
    + destruct (findInsertionIndex_spec s id) as [_ [B2 _]].
      fold lo in B2. fold n in B2. destruct B2 as [R1 R2]; [unfold lo; fold n; lia|].
      apply Hsplice; assumption.
    + rewrite firstn_app. replace (lo - length (queue s)) with 0 by (unfold lo; lia).
      simpl. rewrite app_nil_r. reflexivity.
  - right. destruct (job_id (jobs s j)) as [id|]; [apply splice_in_perm|].
    rewrite <- Hpush. apply splice_in_perm.
Qed.

Lemma splice_in_pending {A} (q : list A) lo r j :
  lo <= r -> r <= length q ->
  skipn lo (firstn r q ++ j :: skipn r q)
  = skipn lo (firstn r q) ++ j :: skipn r q /\
  skipn lo q = skipn lo (firstn r q) ++ skipn r q.
Proof.
  intros H1 H2.
  assert (Hl : length (firstn r q) = r) by (apply firstn_length_le; exact H2).
  split.
  - rewrite skipn_app, Hl. replace (lo - r) with 0 by lia. reflexivity.
  - rewrite <- (firstn_skipn r q) at 1. rewrite skipn_app, Hl.
    replace (lo - r) with 0 by lia. reflexivity.
Qed.

(** X13: [queueJob] does nothing for a job that is pending after the running
    one, for the running job itself unless a flush is on and the job allows
    recursion, and for the parent job of the pre-flush callbacks being
    flushed; so the pending jobs stay distinct. *)
Theorem queueJob_does_not_queue_a_job_twice :
  (forall j s, In j (skipn (flushIndex s + 1) (queue s)) -> queueJob j s = s) /\
  (forall j s, In j (skipn (flushIndex s) (queue s)) ->
               isFlushing s && job_allowRecurse (jobs s j) = false ->
               queueJob j s = s) /\
  (forall j s, currentPreFlushParentJob s = Some j -> queueJob j s = s) /\
  (forall j s, NoDup (skipn (flushIndex s + 1) (queue s)) ->
               NoDup (skipn (flushIndex (queueJob j s) + 1) (queue (queueJob j s)))).
Proof.
  split; [|split; [|split]].
  - intros j s H. destruct (queueJob_cases j s) as [E|[_ [_ [_ [N _]]]]]; [exact E|].
    contradiction.
  - intros j s H Hf. destruct (queueJob_cases j s) as [E|[_ [_ [_ [_ [N _]]]]]]; [exact E|].
    rewrite (N H) in Hf. discriminate.
  - intros j s H. destruct (queueJob_cases j s) as [E|[_ [_ [_ [_ [_ N]]]]]]; [exact E|].
    contradiction.
  - intros j s ND. destruct (queueJob_cases j s) as [E|[_ [Ef [Eq [N _]]]]].
    { rewrite E. exact ND. }
    rewrite Ef, Eq. set (lo := flushIndex s + 1) in *. set (n := length (queue s)).
    assert (Hin : forall r, lo <= r -> r <= n ->
              NoDup (skipn lo (splice_in (queue s) r j))).
    { intros r H1 H2. unfold splice_in.
      destruct (splice_in_pending (queue s) lo r j H1 H2) as [E1 E2].
      rewrite E1. rewrite E2 in ND, N.
      apply (Permutation_NoDup (Permutation_middle _ _ _)).
      constructor; assumption. }
    assert (Hout : forall r, n < lo -> NoDup (skipn lo (splice_in (queue s) r j))).
    { intros r H. rewrite skipn_all2; [constructor|].
      unfold splice_in. rewrite length_app. simpl. rewrite length_firstn, length_skipn.
      fold n. lia. }
    assert (Hpush : splice_in (queue s) n j = queue s ++ [j]).
    { unfold splice_in, n. rewrite firstn_all, skipn_all. reflexivity. }
    destruct (job_id (jobs s j)) as [id|].
    + destruct (findInsertionIndex_spec s id) as [_ [B2 _]].
      destruct (Nat.le_gt_cases lo n) as [Hle|Hgt]; [|apply Hout; exact Hgt].
      apply Hin; apply B2; exact Hle.
    + rewrite <- Hpush. destruct (Nat.le_gt_cases lo n) as [Hle|Hgt];
        [apply Hin; [exact Hle|lia]|apply Hout; exact Hgt].
Qed.

(** ** [invalidateJob] *)

Lemma indexOf_spec l j : forall i,
  indexOf l j = Some i ->
  i < length l /\ nth i l 0 = j /\ ~ In j (firstn i l).
Proof.
  induction l as [|x l IH]; intros i H; simpl in H; [discriminate|].
  destruct (Nat.eqb_spec x j) as [->|Hne].
  - inversion H; subst. simpl. split; [lia|]. split; [reflexivity|intros []].
  - destruct (indexOf l j) as [i'|]; [|discriminate]. inversion H; subst.
    destruct (IH i' eq_refl) as [H1 [H2 H3]]. simpl.
    split; [lia|]. split; [exact H2|]. intros [E|E]; [congruence|contradiction].
Qed.

Lemma indexOf_None l j : indexOf l j = None <-> ~ In j l.
Proof.
  induction l as [|x l IH]; simpl; [tauto|].
  destruct (Nat.eqb_spec x j) as [->|Hne].
  - split; [discriminate|]. intros H. exfalso. apply H. now left.
  - destruct (indexOf l j) as [i'|].
    + split; [discriminate|]. intros H. exfalso.
      assert (~ In j l) by tauto. apply IH in H0. discriminate.
    + split; [|reflexivity]. intros _ [E|E]; [congruence|]. apply IH in E; auto.
Qed.

(** X14: [invalidateJob] takes the first occurrence of a job out of the
    queue when it lies after [flushIndex], and does nothing otherwise, in
    particular for the job at the head of a queue that is not being
    flushed; a job taken out is not called by the flush that follows. *)
Theorem invalidateJob_removes_a_pending_job :
  (forall j s i,
      indexOf (queue s) j = Some i -> flushIndex s < i ->
      queue (invalidateJob j s) = firstn i (queue s) ++ skipn (S i) (queue s) /\
      nth i (queue s) 0 = j /\
      (NoDup (queue s) -> ~ In j (queue (invalidateJob j s)))) /\
  (forall j s i,
      indexOf (queue s) j = Some i -> i <= flushIndex s -> invalidateJob j s = s) /\
  (forall j s, ~ In j (queue s) -> invalidateJob j s = s) /\
  (forall dev fuel j s i,
      pendingPreFlushCbs s = [] -> pendingPostFlushCbs s = [] ->
      (forall x, In x (queue s) -> quiet_job s x = true) ->
      NoDup (queue s) ->
      indexOf (queue s) j = Some i -> flushIndex s < i ->
      length (queue s) + 2 <= fuel ->
      exists s',
        flush dev fuel (invalidateJob j s) = Some (s', true) /\
        ran s' = ran s ++ filter (fun x => job_active (jobs s x))
                                 (sort_by_id s (splice_out (queue s) i)) /\
        ~ In j (sort_by_id s (splice_out (queue s) i))).
Proof.
  assert (Hrm : forall j s i,
            indexOf (queue s) j = Some i -> flushIndex s < i ->
            invalidateJob j s = with_queue s (splice_out (queue s) i)).
  { intros j s i H Hi. unfold invalidateJob. rewrite H.
    destruct (Nat.ltb_spec (flushIndex s) i); [reflexivity|lia]. }
  assert (Hnot : forall j (q : list nat) i,
            indexOf q j = Some i -> NoDup q -> ~ In j (splice_out q i)).
  { intros j q i H ND. destruct (indexOf_spec q j i H) as [H1 [H2 H3]].
    unfold splice_out. rewrite <- (firstn_skipn i q) in ND.
    rewrite (skipn_nth 0 i q H1) in ND. rewrite H2 in ND.
    apply NoDup_remove_2 in ND. exact ND. }
  split; [|split; [|split]].
  - intros j s i H Hi. rewrite (Hrm j s i H Hi). qsimpl.
    split; [reflexivity|]. split; [apply (indexOf_spec _ _ _ H)|].
    apply Hnot. exact H.
  - intros j s i H Hi. unfold invalidateJob. rewrite H.
    destruct (Nat.ltb_spec (flushIndex s) i); [lia|reflexivity].
  - intros j s H. unfold invalidateJob.
    rewrite (proj2 (indexOf_None (queue s) j) H). reflexivity.
  - intros dev fuel j s i Hpre Hpost Hq ND H Hi Hf.
    rewrite (Hrm j s i H Hi).
    assert (Hsub : forall x, In x (splice_out (queue s) i) -> In x (queue s)).
    { intros x Hx. unfold splice_out in Hx. apply in_app_iff in Hx.
      destruct (indexOf_spec _ _ _ H) as [H1 _].
      rewrite <- (firstn_skipn i (queue s)). apply in_app_iff.
      destruct Hx as [Hx|Hx]; [left; exact Hx|right].
      rewrite (skipn_nth 0 i (queue s) H1). right. exact Hx. }
    destruct (flush_quiet dev fuel (with_queue s (splice_out (queue s) i)))
      as [s' [E [R _]]]; qsimpl; auto.
    + intros x Hx. apply Hq. apply Hsub. exact Hx.
    + destruct (indexOf_spec _ _ _ H) as [H1 _].
      unfold splice_out. rewrite <- (firstn_skipn i (queue s)) in ND.
      rewrite (skipn_nth 0 i (queue s) H1) in ND.
      apply NoDup_remove_1 in ND. exact ND.
    + assert (length (splice_out (queue s) i) <= length (queue s)).
      { unfold splice_out. rewrite length_app, length_firstn, length_skipn. lia. }
      lia.
    + exists s'. split; [exact E|].
      rewrite (sort_by_id_ext s (with_queue s (splice_out (queue s) i))) in R
        by reflexivity.
      split; [exact R|].
      intros Hin. apply (Hnot j (queue s) i H ND).
      apply (Permutation_in _ (Permutation_sym (sort_by_id_perm _ _)) Hin).
Qed.

(** With jobs 3 and 1 queued, job 2 is put in after job 1. *)
Lemma queueJob_keeps_the_pending_jobs_sorted_witness :
  StronglySorted
    (id_order (queueJob 2 (enqueue_all [3; 1] (sched_init example_jobs))))
    (skipn (flushIndex (queueJob 2 (enqueue_all [3; 1] (sched_init example_jobs))) + 1)
           (queue (queueJob 2 (enqueue_all [3; 1] (sched_init example_jobs))))) /\
  queue (queueJob 2 (enqueue_all [3; 1] (sched_init example_jobs))) = [3; 1; 2].
Proof.
  split; [|vm_compute; reflexivity].
  apply (queueJob_keeps_the_pending_jobs_sorted 2
           (enqueue_all [3; 1] (sched_init example_jobs))).
  change (StronglySorted (id_order (enqueue_all [3; 1] (sched_init example_jobs))) [1]).
  constructor; constructor.
Defined.

(** In the queue [[3; 1; 2]] of an idle scheduler, job 1 can be taken out
    and is then not called. *)
Lemma invalidateJob_removes_a_pending_job_witness :
  exists s',
    flush true 5 (invalidateJob 1 (enqueue_all [3; 1; 2] (sched_init example_jobs)))
    = Some (s', true) /\
    ran s' = [2; 3].
Proof.
  destruct (proj2 (proj2 (proj2 invalidateJob_removes_a_pending_job)) true 5 1
              (enqueue_all [3; 1; 2] (sched_init example_jobs)) 1)
    as [s' [E [R _]]]; try reflexivity.
  - intros x Hx. vm_compute in Hx.
    destruct Hx as [<-|[<-|[<-|[]]]]; reflexivity.
  - change (NoDup [3; 1; 2]).
    repeat constructor; simpl; intuition discriminate.
  - change (0 < 1). lia.
  - exists s'. split; [exact E|]. rewrite R. vm_compute. reflexivity.
Defined.

(** ** The order of a whole flush *)

Lemma SState_ext (a b : SState) :
  jobs a = jobs b -> isFlushing a = isFlushing b -> isFlushPending a = isFlushPending b ->
  queue a = queue b -> flushIndex a = flushIndex b ->
  pendingPreFlushCbs a = pendingPreFlushCbs b ->
  activePreFlushCbs a = activePreFlushCbs b -> preFlushIndex a = preFlushIndex b ->
  pendingPostFlushCbs a = pendingPostFlushCbs b ->
  activePostFlushCbs a = activePostFlushCbs b -> postFlushIndex a = postFlushIndex b ->
  currentPreFlushParentJob a = currentPreFlushParentJob b ->
  seen a = seen b -> ran a = ran b -> errors a = errors b -> a = b.
Proof. destruct a, b; simpl; intros; subst; reflexivity. Qed.

Lemma checkRecursiveUpdates_counts j s :
  seen s j <= RECURSION_LIMIT ->
  checkRecursiveUpdates j s = (false, with_seen s (upd (seen s) j (seen s j + 1))).
Proof.
  intros H. unfold checkRecursiveUpdates. destruct (seen s j) as [|c] eqn:E.
  - reflexivity.
  - destruct (Nat.ltb_spec RECURSION_LIMIT (S c)); [lia|]. reflexivity.
Qed.

Lemma checkRecursiveUpdates_skips j s :
  RECURSION_LIMIT < seen s j -> checkRecursiveUpdates j s = (true, s).
Proof.
  intros H. unfold checkRecursiveUpdates. destruct (seen s j) as [|c] eqn:E; [lia|].
  destruct (Nat.ltb_spec RECURSION_LIMIT (S c)); [reflexivity|lia].
Qed.

Lemma job_exec_calm acts : forall s,
  forallb calm_action acts = true -> job_exec acts s = (s, true).
Proof.
  induction acts as [|a acts IH]; intros s H; simpl in *; [reflexivity|].
  apply andb_prop in H. destruct H as [Ha Hr].
  destruct a; try discriminate. simpl. apply IH. exact Hr.
Qed.

Lemma call_job_calm j s :
  calm_job s j = true -> call_job j s = (with_ran s (ran s ++ [j]), true).
Proof. intros H. unfold call_job. apply job_exec_calm. exact H. Qed.

Lemma seen_after_other dev l : forall sn x, ~ In x l -> seen_after dev l sn x = sn x.
Proof.
  unfold seen_after. destruct dev; [|reflexivity].
  induction l as [|j l IH]; intros sn x H; simpl; [reflexivity|].
  rewrite IH by (intro; apply H; now right).
  apply upd_other. intro; subst. apply H. now left.
Qed.

Lemma seen_after_bound dev l : forall sn x,
  NoDup l -> seen_after dev l sn x <= sn x + 1.
Proof.
  unfold seen_after. destruct dev; [|intros; lia].
  induction l as [|j l IH]; intros sn x ND; simpl; [lia|].
  apply NoDup_cons_iff in ND. destruct ND as [Hn ND].
  destruct (Nat.eq_dec x j) as [->|Hne].
  - pose proof (seen_after_other true l (upd sn j (sn j + 1)) j Hn) as E.
    unfold seen_after in E. rewrite E, upd_same. lia.
  - specialize (IH (upd sn j (sn j + 1)) x ND). rewrite upd_other in IH by exact Hne.
    exact IH.
Qed.

Lemma seen_after_app dev l1 l2 sn :
  seen_after dev (l1 ++ l2) sn = seen_after dev l2 (seen_after dev l1 sn).
Proof. unfold seen_after. destruct dev; [apply fold_left_app|reflexivity]. Qed.

Lemma In_dedupe x l : In x (dedupe l) <-> In x l.
Proof.
  unfold dedupe.
  assert (G : forall l acc,
            In x (fold_left (fun acc x => if existsb (Nat.eqb x) acc then acc else acc ++ [x]) l acc)
            <-> In x acc \/ In x l).
  { clear l. induction l as [|a l IH]; intros acc; simpl; [tauto|].
    rewrite IH. destruct (existsb (Nat.eqb a) acc) eqn:E.
    - apply existsb_exists in E. destruct E as [y [Hy Ey]].
      apply Nat.eqb_eq in Ey. subst y. intuition (subst; auto).
    - rewrite in_app_iff. simpl. tauto. }
  rewrite G. simpl. tauto.
Qed.

Lemma NoDup_dedupe l : NoDup (dedupe l).
Proof.
  unfold dedupe.
  assert (G : forall l acc, NoDup acc ->
            NoDup (fold_left (fun acc x => if existsb (Nat.eqb x) acc then acc else acc ++ [x]) l acc)).
  { clear l. induction l as [|a l IH]; intros acc H; simpl; [exact H|].
    apply IH. destruct (existsb (Nat.eqb a) acc) eqn:E; [exact H|].
    apply NoDup_app; [exact H|constructor; [intros []|constructor]|].
    intros y Hy [<-|[]].
    assert (existsb (Nat.eqb a) acc = true)
      by (apply existsb_exists; exists a; split; [exact Hy|apply Nat.eqb_refl]).
    congruence. }
  apply G. constructor.
Qed.

Lemma length_dedupe l : length (dedupe l) <= length l.
Proof.
  unfold dedupe.
  assert (G : forall l acc,
            length (fold_left (fun acc x => if existsb (Nat.eqb x) acc then acc else acc ++ [x]) l acc)
            <= length acc + length l).
  { clear l. induction l as [|a l IH]; intros acc; simpl; [lia|].
    specialize (IH (if existsb (Nat.eqb a) acc then acc else acc ++ [a])).
    destruct (existsb (Nat.eqb a) acc); [lia|]. rewrite length_app in IH. simpl in IH. lia. }
  apply (G l []).
Qed.

Lemma preFlush_loop_calm dev a : forall n fuel s,
  activePreFlushCbs s = Some a ->
  length a - preFlushIndex s = n -> n < fuel -> preFlushIndex s <= length a ->
  (forall j, In j a -> calm_job s j = true) ->
  (dev = true ->
   NoDup (skipn (preFlushIndex s) a) /\
   forall j, In j (skipn (preFlushIndex s) a) -> seen s j <= RECURSION_LIMIT) ->
  preFlush_loop dev fuel s
  = Some (with_seen
            (with_ran
               (with_pre s (pendingPreFlushCbs s) (Some a) (length a)
                  (currentPreFlushParentJob s))
               (ran s ++ skipn (preFlushIndex s) a))
            (seen_after dev (skipn (preFlushIndex s) a) (seen s)), true).
Proof.
  induction n as [|n IH]; intros fuel s Ha Hn Hf Hle Hc Hdev;
    (destruct fuel as [|f]; [lia|]); simpl; rewrite Ha.
  - assert (E : preFlushIndex s = length a) by lia.
    rewrite E, Nat.ltb_irrefl. rewrite skipn_all. f_equal. f_equal.
    apply SState_ext; qsimpl; auto.
    all: try (symmetry; apply app_nil_r).
    all: unfold seen_after; destruct dev; reflexivity.
  - assert (Hlt : preFlushIndex s < length a) by lia.
    pose proof (proj2 (Nat.ltb_lt _ _) Hlt) as Eb. rewrite Eb.
    rewrite (skipn_nth 0 _ _ Hlt) in *.
    set (j := nth (preFlushIndex s) a 0) in *.
    assert (Hin : In j a) by (apply nth_In; exact Hlt).
    assert (Hs1 : (if dev then checkRecursiveUpdates j s else (false, s))
                  = (false, with_seen s (seen_after dev [j] (seen s)))).
    { destruct dev.
      - destruct (Hdev eq_refl) as [_ Hseen].
        rewrite checkRecursiveUpdates_counts by (apply Hseen; now left). reflexivity.
      - f_equal. apply SState_ext; reflexivity. }
    rewrite Hs1. set (s1 := with_seen s (seen_after dev [j] (seen s))).
    rewrite (call_job_calm j s1) by (apply (Hc j Hin)).
    rewrite (IH f).
    + f_equal. f_equal. unfold s1. apply SState_ext; qsimpl; auto.
      * replace (preFlushIndex s + 1) with (S (preFlushIndex s)) by lia.
        unfold seen_after. destruct dev; reflexivity.
      * replace (preFlushIndex s + 1) with (S (preFlushIndex s)) by lia.
        rewrite <- app_assoc. reflexivity.
    + unfold s1. qsimpl. exact Ha.
    + unfold s1. qsimpl. lia.
    + lia.
    + unfold s1. qsimpl. lia.
    + intros x Hx. apply (Hc x Hx).
    + intros Hd. unfold s1. qsimpl.
      replace (preFlushIndex s + 1) with (S (preFlushIndex s)) by lia.
      destruct (Hdev Hd) as [ND Hseen]. apply NoDup_cons_iff in ND.
      destruct ND as [Hnot ND']. split; [exact ND'|].
      intros x Hx. rewrite seen_after_other.
      * apply Hseen. now right.
      * intros [<-|[]]. contradiction.
Qed.

Lemma postFlush_loop_calm dev a : forall n fuel s,
  activePostFlushCbs s = Some a ->
  length a - postFlushIndex s = n -> n < fuel -> postFlushIndex s <= length a ->
  (forall j, In j a -> calm_job s j = true) ->
  (dev = true ->
   NoDup (skipn (postFlushIndex s) a) /\
   forall j, In j (skipn (postFlushIndex s) a) -> seen s j <= RECURSION_LIMIT) ->
  postFlush_loop dev fuel s
  = Some (with_seen
            (with_ran
               (with_post s (pendingPostFlushCbs s) (Some a) (length a))
               (ran s ++ skipn (postFlushIndex s) a))
            (seen_after dev (skipn (postFlushIndex s) a) (seen s)), true).
Proof.
  induction n as [|n IH]; intros fuel s Ha Hn Hf Hle Hc Hdev;
    (destruct fuel as [|f]; [lia|]); simpl; rewrite Ha.
  - assert (E : postFlushIndex s = length a) by lia.
    rewrite E, Nat.ltb_irrefl. rewrite skipn_all. f_equal. f_equal.
    apply SState_ext; qsimpl; auto.
    all: try (symmetry; apply app_nil_r).
    all: unfold seen_after; destruct dev; reflexivity.
  - assert (Hlt : postFlushIndex s < length a) by lia.
    pose proof (proj2 (Nat.ltb_lt _ _) Hlt) as Eb. rewrite Eb.
    rewrite (skipn_nth 0 _ _ Hlt) in *.
    set (j := nth (postFlushIndex s) a 0) in *.
    assert (Hin : In j a) by (apply nth_In; exact Hlt).
    assert (Hs1 : (if dev then checkRecursiveUpdates j s else (false, s))
                  = (false, with_seen s (seen_after dev [j] (seen s)))).
    { destruct dev.
      - destruct (Hdev eq_refl) as [_ Hseen].
        rewrite checkRecursiveUpdates_counts by (apply Hseen; now left). reflexivity.
      - f_equal. apply SState_ext; reflexivity. }
    rewrite Hs1. set (s1 := with_seen s (seen_after dev [j] (seen s))).
    rewrite (call_job_calm j s1) by (apply (Hc j Hin)).
    rewrite (IH f).
    + f_equal. f_equal. unfold s1. apply SState_ext; qsimpl; auto.
      * replace (postFlushIndex s + 1) with (S (postFlushIndex s)) by lia.
        unfold seen_after. destruct dev; reflexivity.
      * replace (postFlushIndex s + 1) with (S (postFlushIndex s)) by lia.
        rewrite <- app_assoc. reflexivity.
    + unfold s1. qsimpl. exact Ha.
    + unfold s1. qsimpl. lia.
    + lia.
    + unfold s1. qsimpl. lia.
    + intros x Hx. apply (Hc x Hx).
    + intros Hd. unfold s1. qsimpl.
      replace (postFlushIndex s + 1) with (S (postFlushIndex s)) by lia.
      destruct (Hdev Hd) as [ND Hseen]. apply NoDup_cons_iff in ND.
      destruct ND as [Hnot ND']. split; [exact ND'|].
      intros x Hx. rewrite seen_after_other.
      * apply Hseen. now right.
      * intros [<-|[]]. contradiction.
Qed.

Lemma callWithErrorHandling_quiet_state j s :
  quiet_job s j = true ->
  exists er, callWithErrorHandling j s = with_errors (with_ran s (ran s ++ [j])) er.
Proof.
  intros Hq. unfold callWithErrorHandling, call_job.
  pose proof (job_exec_quiet (job_body (jobs s j)) (with_ran s (ran s ++ [j])) Hq) as E.
  destruct (job_exec (job_body (jobs s j)) (with_ran s (ran s ++ [j]))) as [s' ok].
  simpl in E. subst s'. destruct ok.
  - exists (errors s). apply SState_ext; reflexivity.
  - eexists. reflexivity.
Qed.

Lemma flushJobs_loop_counts dev : forall n fuel s,
  length (queue s) - flushIndex s = n -> n < fuel ->
  flushIndex s <= length (queue s) ->
  (forall j, In j (queue s) -> quiet_job s j = true) ->
  (dev = true ->
   NoDup (skipn (flushIndex s) (queue s)) /\
   forall j, In j (skipn (flushIndex s) (queue s)) -> seen s j <= RECURSION_LIMIT) ->
  exists er,
    flushJobs_loop dev fuel s
    = Some (with_errors
              (with_seen
                 (with_ran (with_flushIndex s (length (queue s)))
                    (ran s ++ filter (fun j => job_active (jobs s j))
                                     (skipn (flushIndex s) (queue s))))
                 (seen_after dev (filter (fun j => job_active (jobs s j))
                                         (skipn (flushIndex s) (queue s))) (seen s)))
              er).
Proof.
  induction n as [|n IH]; intros fuel s Hn Hf Hle Hq Hdev;
    (destruct fuel as [|f]; [lia|]); simpl.
  - assert (E : flushIndex s = length (queue s)) by lia.
    rewrite E, Nat.ltb_irrefl. rewrite skipn_all. exists (errors s). f_equal.
    apply SState_ext; qsimpl; auto.
    all: try (symmetry; apply app_nil_r).
    all: unfold seen_after; destruct dev; reflexivity.
  - assert (Hlt : flushIndex s < length (queue s)) by lia.
    pose proof (proj2 (Nat.ltb_lt _ _) Hlt) as Eb. rewrite Eb.
    rewrite (skipn_nth 0 _ _ Hlt) in *.
    set (j := nth (flushIndex s) (queue s) 0) in *.
    assert (Hin : In j (queue s)) by (apply nth_In; exact Hlt).
    cbn [filter].
    assert (Hs2 : exists er,
              (if job_active (jobs s j)
               then let (skip, s1) := if dev then checkRecursiveUpdates j s else (false, s) in
                    if skip then s1 else callWithErrorHandling j s1
               else s)
              = with_errors
                  (with_seen
                     (with_ran s (ran s ++ if job_active (jobs s j) then [j] else []))
                     (seen_after dev (if job_active (jobs s j) then [j] else []) (seen s)))
                  er).
    { destruct (job_active (jobs s j)).
      - assert (Hs1 : (if dev then checkRecursiveUpdates j s else (false, s))
                      = (false, with_seen s (seen_after dev [j] (seen s)))).
        { destruct dev.
          - destruct (Hdev eq_refl) as [_ Hseen].
            rewrite checkRecursiveUpdates_counts by (apply Hseen; now left). reflexivity.
          - f_equal. apply SState_ext; reflexivity. }
        rewrite Hs1.
        destruct (callWithErrorHandling_quiet_state j
                    (with_seen s (seen_after dev [j] (seen s)))) as [er E];
          [apply (Hq j Hin)|].
        exists er. rewrite E. apply SState_ext; reflexivity.
      - exists (errors s). apply SState_ext; qsimpl; auto.
        + unfold seen_after. destruct dev; reflexivity.
        + symmetry. apply app_nil_r. }
    destruct Hs2 as [er2 Hs2]. rewrite Hs2. clear Hs2.
    set (s2 := with_errors _ er2).
    destruct (IH f (with_flushIndex s2 (flushIndex s2 + 1))) as [er E].
    + unfold s2. qsimpl. lia.
    + lia.
    + unfold s2. qsimpl. lia.
    + intros x Hx. apply (Hq x Hx).
    + intros Hd. unfold s2. qsimpl.
      replace (flushIndex s + 1) with (S (flushIndex s)) by lia.
      destruct (Hdev Hd) as [ND Hseen]. apply NoDup_cons_iff in ND.
      destruct ND as [Hnot ND']. split; [exact ND'|].
      intros x Hx. rewrite seen_after_other.
      * apply Hseen. now right.
      * destruct (job_active (jobs s j)); [intros [<-|[]]; contradiction|intros []].
    + exists er. rewrite E. f_equal. unfold s2. apply SState_ext; qsimpl; auto.
      * replace (flushIndex s + 1) with (S (flushIndex s)) by lia.
        unfold seen_after. destruct dev; [|reflexivity].
        destruct (job_active (jobs s j)); reflexivity.
      * replace (flushIndex s + 1) with (S (flushIndex s)) by lia.
        destruct (job_active (jobs s j)); rewrite <- app_assoc; reflexivity.
Qed.

Lemma flushPreFlushCbs_calm dev fuel parent s :
  (forall j, In j (pendingPreFlushCbs s) -> calm_job s j = true) ->
  (dev = true -> forall j, In j (pendingPreFlushCbs s) -> seen s j <= RECURSION_LIMIT) ->
  length (pendingPreFlushCbs s) + 2 <= fuel ->
  exists act idx par,
    flushPreFlushCbs dev fuel parent s
    = Some (with_seen
              (with_ran (with_pre s [] act idx par)
                 (ran s ++ dedupe (pendingPreFlushCbs s)))
              (seen_after dev (dedupe (pendingPreFlushCbs s)) (seen s)), true).
Proof.
  intros Hc Hs Hf. destruct fuel as [|f]; [lia|]. cbn [flushPreFlushCbs].
  destruct (pendingPreFlushCbs s) as [|p0 pr] eqn:Ep.
  - exists (activePreFlushCbs s), (preFlushIndex s), (currentPreFlushParentJob s).
    f_equal. f_equal. apply SState_ext; qsimpl; auto.
    + unfold seen_after. destruct dev; reflexivity.
    + symmetry. apply app_nil_r.
  - set (a := dedupe (p0 :: pr)).
    pose proof (length_dedupe (p0 :: pr)) as La. fold a in La.
    rewrite (preFlush_loop_calm dev a (length a - 0) f
               (with_pre s [] (Some a) 0 parent)).
    + destruct f as [|f2]; [simpl in Hf; lia|]. cbn [flushPreFlushCbs]. qsimpl.
      exists None, 0, None. f_equal.
    + reflexivity.
    + reflexivity.
    + simpl in Hf, La |- *. lia.
    + simpl. lia.
    + intros j Hj. apply (Hc j). apply In_dedupe. exact Hj.
    + intros Hd. simpl. split; [apply NoDup_dedupe|].
      intros j Hj. apply (Hs Hd j). apply In_dedupe. exact Hj.
Qed.

Lemma flushPostFlushCbs_calm dev fuel s :
  activePostFlushCbs s = None ->
  (forall j, In j (pendingPostFlushCbs s) -> calm_job s j = true) ->
  (dev = true -> forall j, In j (pendingPostFlushCbs s) -> seen s j <= RECURSION_LIMIT) ->
  length (pendingPostFlushCbs s) + 1 <= fuel ->
  exists act idx,
    flushPostFlushCbs dev fuel s
    = Some (with_seen
              (with_ran (with_post s [] act idx)
                 (ran s ++ sort_by_id s (dedupe (pendingPostFlushCbs s))))
              (seen_after dev (sort_by_id s (dedupe (pendingPostFlushCbs s))) (seen s)),
            true).
Proof.
  intros Ha Hc Hs Hf. unfold flushPostFlushCbs.
  destruct (pendingPostFlushCbs s) as [|p0 pr] eqn:Ep.
  - exists (activePostFlushCbs s), (postFlushIndex s).
    f_equal. f_equal. apply SState_ext; qsimpl; auto.
    + unfold seen_after. destruct dev; reflexivity.
    + symmetry. apply app_nil_r.
  - rewrite Ha.
    set (a := sort_by_id s (dedupe (p0 :: pr))).
    assert (Pa : Permutation (dedupe (p0 :: pr)) a) by apply sort_by_id_perm.
    pose proof (length_dedupe (p0 :: pr)) as La.
    rewrite (Permutation_length Pa) in La.
    rewrite (postFlush_loop_calm dev a (length a - 0) fuel
               (with_post s [] (Some a) 0)).
    + qsimpl. exists None, 0. f_equal.
    + reflexivity.
    + reflexivity.
    + simpl in Hf, La |- *. lia.
    + simpl. lia.
    + intros j Hj. apply (Hc j). apply In_dedupe.
      apply (Permutation_in j (Permutation_sym Pa)). exact Hj.
    + intros Hd. simpl. split.
      * apply (Permutation_NoDup Pa). apply NoDup_dedupe.
      * intros j Hj. apply (Hs Hd j). apply In_dedupe.
        apply (Permutation_in j (Permutation_sym Pa)). exact Hj.
Qed.

(** X15: One flush calls the pending pre-flush callbacks first, in the order
    they were queued and each once, then the active jobs of the queue in
    the order of their identities, then the pending post-flush callbacks,
    each once and in the order of their identities; it ends with the three
    queues empty and [isFlushing] reset.  The callbacks are ones that only
    work, the jobs may throw. *)
Theorem flush_runs_callbacks_around_the_jobs dev fuel s :
  activePostFlushCbs s = None ->
  (forall j, In j (pendingPreFlushCbs s) -> calm_job s j = true) ->
  (forall j, In j (queue s) -> quiet_job s j = true) ->
  (forall j, In j (pendingPostFlushCbs s) -> calm_job s j = true) ->
  NoDup (queue s) ->
  length (pendingPreFlushCbs s) + length (queue s)
    + length (pendingPostFlushCbs s) + 3 <= fuel ->
  exists s',
    flush dev fuel s = Some (s', true) /\
    ran s' = ran s ++ dedupe (pendingPreFlushCbs s)
                   ++ filter (fun j => job_active (jobs s j)) (sort_by_id s (queue s))
                   ++ sort_by_id s (dedupe (pendingPostFlushCbs s)) /\
    queue s' = [] /\ pendingPreFlushCbs s' = [] /\ pendingPostFlushCbs s' = [] /\
    isFlushing s' = false.
Proof.
  intros Ha Hpre Hq Hpost ND Hf. unfold flush.
  destruct fuel as [|f]; [lia|]. cbn [flushJobs].
  destruct (flushPreFlushCbs_calm dev f None
              (with_flags (with_seen s (fun _ => 0)) true false))
    as (act & idx & par & E).
  { intros j Hj. apply (Hpre j Hj). }
  { intros _ j _. simpl. unfold RECURSION_LIMIT. lia. }
  { simpl. lia. }
  rewrite E. clear E. cbv zeta. qsimpl.
  rewrite (sort_by_id_ext s) by reflexivity.
  assert (Ps : Permutation (queue s) (sort_by_id s (queue s))) by apply sort_by_id_perm.
  assert (NDs : NoDup (sort_by_id s (queue s))) by (apply (Permutation_NoDup Ps ND)).
  match goal with
  | |- context [flushJobs_loop dev f ?t] => set (t3 := t)
  end.
  destruct (flushJobs_loop_counts dev (length (queue t3) - flushIndex t3) f t3 eq_refl)
    as [er E].
  { unfold t3. qsimpl. rewrite <- (Permutation_length Ps). lia. }
  { unfold t3. qsimpl. lia. }
  { unfold t3. qsimpl. intros j Hj. apply (Hq j).
    apply (Permutation_in j (Permutation_sym Ps)). exact Hj. }
  { intros _. unfold t3. qsimpl. cbn [skipn]. split; [exact NDs|].
    intros j _. pose proof (seen_after_bound dev (dedupe (pendingPreFlushCbs s))
                              (fun _ => 0) j (NoDup_dedupe _)) as B.
    cbv beta in B. unfold RECURSION_LIMIT. lia. }
  rewrite E. clear E. unfold t3. clear t3. qsimpl. cbn [skipn].
  match goal with
  | |- context [flushPostFlushCbs dev f ?t] => set (t5 := t)
  end.
  destruct (flushPostFlushCbs_calm dev f t5) as (act2 & idx2 & E).
  { exact Ha. }
  { intros j Hj. apply (Hpost j Hj). }
  { intros _ j _. unfold t5. qsimpl.
    pose proof (seen_after_bound dev
                  (filter (fun j => job_active (jobs s j)) (sort_by_id s (queue s)))
                  (seen_after dev (dedupe (pendingPreFlushCbs s)) (fun _ => 0)) j
                  (NoDup_filter _ NDs)) as B1.
    pose proof (seen_after_bound dev (dedupe (pendingPreFlushCbs s))
                  (fun _ => 0) j (NoDup_dedupe _)) as B2.
    cbv beta in B2. unfold RECURSION_LIMIT. lia. }
  { unfold t5. qsimpl. lia. }
  rewrite E. clear E. unfold t5. clear t5. qsimpl.
  rewrite (sort_by_id_ext s _ (dedupe _)) by reflexivity.
  eexists. split; [reflexivity|]. qsimpl.
  repeat split. rewrite <- !app_assoc. reflexivity.
Qed.

Lemma flush_runs_callbacks_around_the_jobs_witness :
  exists s',
    flush true 12 callbacks_pending = Some (s', true) /\
    ran s' = ran callbacks_pending ++ dedupe (pendingPreFlushCbs callbacks_pending)
               ++ filter (fun j => job_active (jobs callbacks_pending j))
                         (sort_by_id callbacks_pending (queue callbacks_pending))
               ++ sort_by_id callbacks_pending
                    (dedupe (pendingPostFlushCbs callbacks_pending)) /\
    queue s' = [] /\ pendingPreFlushCbs s' = [] /\ pendingPostFlushCbs s' = [] /\
    isFlushing s' = false.
Proof.
  apply (flush_runs_callbacks_around_the_jobs true 12 callbacks_pending).
  - reflexivity.
  - intros j H. vm_compute in H.
    destruct H as [<-|[<-|[<-|[]]]]; vm_compute; reflexivity.
  - intros j H. vm_compute in H.
    destruct H as [<-|[<-|[]]]; vm_compute; reflexivity.
  - intros j H. vm_compute in H.
    destruct H as [<-|[<-|[<-|[]]]]; vm_compute; reflexivity.
  - change (NoDup [3; 1]). repeat constructor; simpl; intuition discriminate.
  - change (3 + 2 + 3 + 3 <= 12). lia.
Defined.

(** ** The recursion limit *)

Lemma Counted_ext c0 s s' :
  ran s' = ran s -> seen s' = seen s -> Counted c0 s -> Counted c0 s'.
Proof. intros Er Es H j. rewrite Er, Es. apply H. Qed.

Lemma queueFlush_ran_seen s :
  ran (queueFlush s) = ran s /\ seen (queueFlush s) = seen s.
Proof. unfold queueFlush. destruct (_ && _); split; reflexivity. Qed.

Lemma job_step_ran_seen a s s' :
  job_step a s = Some s' -> ran s' = ran s /\ seen s' = seen s.
Proof.
  destruct a; simpl; intros H; inversion H; subst; clear H;
    try (split; reflexivity).
  - unfold queueJob. destruct (_ && _); [|split; reflexivity].
    destruct (queueFlush_ran_seen
                (match job_id (jobs s j) with
                 | Some id => with_queue s (splice_in (queue s) (findInsertionIndex s id) j)
                 | None => with_queue s (queue s ++ [j])
                 end)) as [A B].
    rewrite A, B. destruct (job_id (jobs s j)); split; reflexivity.
  - unfold queuePreFlushCb.
    match goal with |- context [queueFlush ?t] =>
      destruct (queueFlush_ran_seen t) as [A B]; rewrite A, B end.
    destruct (queueCb_accepts _ _ _ _); split; reflexivity.
  - unfold queuePostFlushCb.
    match goal with |- context [queueFlush ?t] =>
      destruct (queueFlush_ran_seen t) as [A B]; rewrite A, B end.
    destruct (queueCb_accepts _ _ _ _); split; reflexivity.
  - unfold invalidateJob. destruct (indexOf _ _); [|split; reflexivity].
    destruct (_ <? _); split; reflexivity.
Qed.

Lemma job_exec_ran_seen acts : forall s,
  ran (fst (job_exec acts s)) = ran s /\ seen (fst (job_exec acts s)) = seen s.
Proof.
  induction acts as [|a rest IH]; intros s; simpl; [split; reflexivity|].
  destruct (job_step a s) as [s1|] eqn:E; [|split; reflexivity].
  destruct (job_step_ran_seen _ _ _ E) as [A B].
  destruct (IH s1) as [C D]. rewrite C, D. split; assumption.
Qed.

Lemma count_occ_snoc (l : list nat) x j :
  count_occ Nat.eq_dec (l ++ [x]) j
  = count_occ Nat.eq_dec l j + (if Nat.eq_dec x j then 1 else 0).
Proof.
  rewrite count_occ_app. simpl. destruct (Nat.eq_dec x j); reflexivity.
Qed.

(** A checked call: the job is skipped, or counted and called. *)
Lemma checked_call_counted c0 j s :
  Counted c0 s ->
  let (skip, s1) := checkRecursiveUpdates j s in
  if skip then s1 = s
  else Counted c0 (fst (call_job j s1)) /\ Counted c0 (callWithErrorHandling j s1).
Proof.
  intros H.
  assert (Hcall : forall s1,
            ran s1 = ran s -> seen s1 = upd (seen s) j (seen s j + 1) ->
            seen s j <= RECURSION_LIMIT ->
            Counted c0 (fst (call_job j s1)) /\ Counted c0 (callWithErrorHandling j s1)).
  { intros s1 Er Es Hle.
    assert (C : Counted c0 (fst (call_job j s1))).
    { unfold call_job.
      destruct (job_exec_ran_seen (job_body (jobs s1 j)) (with_ran s1 (ran s1 ++ [j])))
        as [A B].
      intros x. rewrite A, B. qsimpl. rewrite Er, Es, count_occ_snoc.
      destruct (H x) as [Hc Hb]. unfold upd.
      destruct (Nat.eq_dec j x) as [->|Hne].
      - rewrite Nat.eqb_refl. split; lia.
      - destruct (Nat.eqb_spec x j); [congruence|]. split; lia. }
    split; [exact C|].
    unfold callWithErrorHandling. destruct (call_job j s1) as [s2 ok]. simpl in C.
    destruct ok; [exact C|]. apply (Counted_ext c0 s2); auto. }
  unfold checkRecursiveUpdates.
  destruct (seen s j) as [|n] eqn:Es.
  - apply Hcall; qsimpl; auto; unfold RECURSION_LIMIT; lia.
  - destruct (Nat.ltb_spec RECURSION_LIMIT (S n)); [reflexivity|].
    apply Hcall; qsimpl; auto; lia.
Qed.

Lemma preFlush_loop_counted c0 : forall fuel s s' b,
  Counted c0 s -> preFlush_loop true fuel s = Some (s', b) -> Counted c0 s'.
Proof.
  induction fuel as [|f IH]; intros s s' b H E; [discriminate|].
  simpl in E. destruct (activePreFlushCbs s) as [a|]; [|inversion E; subst; exact H].
  destruct (_ <? _); [|inversion E; subst; exact H].
  pose proof (checked_call_counted c0 (nth (preFlushIndex s) a 0) s H) as C.
  destruct (checkRecursiveUpdates (nth (preFlushIndex s) a 0) s) as [skip s1].
  destruct skip.
  - subst s1. eapply IH; [|exact E]. apply (Counted_ext c0 s); auto.
  - destruct C as [C _]. destruct (call_job _ s1) as [s2 ok]. simpl in C.
    destruct ok; [|inversion E; subst; exact C].
    eapply IH; [|exact E]. apply (Counted_ext c0 s2); auto.
Qed.

Lemma flushPreFlushCbs_counted c0 : forall fuel parent s s' b,
  Counted c0 s -> flushPreFlushCbs true fuel parent s = Some (s', b) -> Counted c0 s'.
Proof.
  induction fuel as [|f IH]; intros parent s s' b H E; [discriminate|].
  simpl in E. destruct (pendingPreFlushCbs s) as [|p0 pr]; [inversion E; subst; exact H|].
  destruct (preFlush_loop true f _) as [[s2 ok]|] eqn:EL; [|discriminate].
  apply preFlush_loop_counted with (c0 := c0) in EL;
    [|apply (Counted_ext c0 s); auto].
  destruct ok; [|inversion E; subst; exact EL].
  eapply IH; [|exact E]. apply (Counted_ext c0 s2); auto.
Qed.

Lemma postFlush_loop_counted c0 : forall fuel s s' b,
  Counted c0 s -> postFlush_loop true fuel s = Some (s', b) -> Counted c0 s'.
Proof.
  induction fuel as [|f IH]; intros s s' b H E; [discriminate|].
  simpl in E. destruct (activePostFlushCbs s) as [a|]; [|inversion E; subst; exact H].
  destruct (_ <? _); [|inversion E; subst; exact H].
  pose proof (checked_call_counted c0 (nth (postFlushIndex s) a 0) s H) as C.
  destruct (checkRecursiveUpdates (nth (postFlushIndex s) a 0) s) as [skip s1].
  destruct skip.
  - subst s1. eapply IH; [|exact E]. apply (Counted_ext c0 s); auto.
  - destruct C as [C _]. destruct (call_job _ s1) as [s2 ok]. simpl in C.
    destruct ok; [|inversion E; subst; exact C].
    eapply IH; [|exact E]. apply (Counted_ext c0 s2); auto.
Qed.

Lemma flushPostFlushCbs_counted c0 fuel s s' b :
  Counted c0 s -> flushPostFlushCbs true fuel s = Some (s', b) -> Counted c0 s'.
Proof.
  intros H E. unfold flushPostFlushCbs in E.
  destruct (pendingPostFlushCbs s) as [|p0 pr]; [inversion E; subst; exact H|].
  destruct (activePostFlushCbs s) as [a|].
  - inversion E; subst. apply (Counted_ext c0 s); auto.
  - destruct (postFlush_loop true fuel _) as [[s2 ok]|] eqn:EL; [|discriminate].
    apply postFlush_loop_counted with (c0 := c0) in EL;
      [|apply (Counted_ext c0 s); auto].
    destruct ok; inversion E; subst; [|exact EL].
    apply (Counted_ext c0 s2); auto.
Qed.

Lemma flushJobs_loop_counted c0 : forall fuel s s',
  Counted c0 s -> flushJobs_loop true fuel s = Some s' -> Counted c0 s'.
Proof.
  induction fuel as [|f IH]; intros s s' H E; [discriminate|].
  simpl in E. destruct (_ <? _); [|inversion E; subst; exact H].
  set (j := nth (flushIndex s) (queue s) 0) in *.
  eapply IH; [|exact E].
  match goal with |- Counted c0 (with_flushIndex ?t _) =>
    apply (Counted_ext c0 t); auto end.
  destruct (job_active (jobs s j)); [|exact H].
  pose proof (checked_call_counted c0 j s H) as C.
  destruct (checkRecursiveUpdates j s) as [skip s1].
  destruct skip; [subst s1; exact H|apply C].
Qed.

Lemma flushJobs_counted c0 : forall fuel s s' b,
  Counted c0 s -> flushJobs true fuel s = Some (s', b) -> Counted c0 s'.
Proof.
  induction fuel as [|f IH]; intros s s' b H E; [discriminate|].
  cbn [flushJobs] in E. cbv zeta in E.
  destruct (flushPreFlushCbs true f None _) as [[s2 ok]|] eqn:E1; [|discriminate].
  apply flushPreFlushCbs_counted with (c0 := c0) in E1;
    [|apply (Counted_ext c0 s); auto].
  destruct ok; [|inversion E; subst; exact E1].
  destruct (flushJobs_loop true f _) as [s4|] eqn:E2; [|discriminate].
  apply flushJobs_loop_counted with (c0 := c0) in E2;
    [|apply (Counted_ext c0 s2); auto].
  destruct (flushPostFlushCbs true f _) as [[s6 ok]|] eqn:E3; [|discriminate].
  apply flushPostFlushCbs_counted with (c0 := c0) in E3;
    [|apply (Counted_ext c0 s4); auto].
  destruct ok; [|inversion E; subst; exact E3].
  assert (C7 : Counted c0 (with_flags s6 false (isFlushPending s6)))
    by (apply (Counted_ext c0 s6); auto).
  destruct (queue _); [destruct (pendingPreFlushCbs _); [destruct (pendingPostFlushCbs _)|]|];
    try (inversion E; subst; exact C7); apply (IH _ _ _ C7 E).
Qed.

Lemma skipn_repeat_all (j : nat) n : skipn n (repeat j n) = [].
Proof. apply skipn_all2. rewrite repeat_length. lia. Qed.

Lemma firstn_repeat_all (j : nat) n : firstn n (repeat j n) = repeat j n.
Proof. apply firstn_all2. rewrite repeat_length. lia. Qed.

Lemma repeat_snoc (j : nat) n : repeat j n ++ [j] = repeat j (S n).
Proof. symmetry. apply (repeat_cons n j). Qed.

Lemma requeue_step j k s :
  Requeueing j k s ->
  callWithErrorHandling j s
  = with_queue (with_ran s (ran s ++ [j])) (repeat j (S (S k))).
Proof.
  intros (Hq & Hi & Hfl & Hp & Ha & Hr & Hb).
  unfold callWithErrorHandling, call_job. rewrite Hb.
  cbn [job_exec job_step]. unfold queueJob. qsimpl.
  rewrite Hq, Hi, Hfl, Hp, Hr.
  change (repeat j (S k)) with (j :: repeat j k) at 1.
  cbn [orb andb negb]. unfold includes_from.
  replace (k + 1) with (S k) by lia. rewrite skipn_repeat_all.
  cbn [existsb negb andb].
  assert (Eq : (match job_id (jobs s j) with
                | Some id =>
                    with_queue (with_ran s (ran s ++ [j]))
                      (splice_in (repeat j (S k))
                         (findInsertionIndex (with_ran s (ran s ++ [j])) id) j)
                | None =>
                    with_queue (with_ran s (ran s ++ [j])) (repeat j (S k) ++ [j])
                end)
               = with_queue (with_ran s (ran s ++ [j])) (repeat j (S (S k)))).
  { destruct (job_id (jobs s j)) as [id|].
    - unfold findInsertionIndex. qsimpl. rewrite Hq, Hi, repeat_length.
      cbn [findInsertionIndex_loop].
      replace (k + 1 <? S k) with false by (symmetry; apply Nat.ltb_ge; lia).
      unfold splice_in. replace (k + 1) with (S k) by lia.
      rewrite firstn_repeat_all, skipn_repeat_all, repeat_snoc. reflexivity.
    - rewrite repeat_snoc. reflexivity. }
  rewrite Eq. unfold queueFlush. qsimpl. rewrite Hfl. reflexivity.
Qed.

Lemma Requeueing_ext j k s s' :
  queue s' = queue s -> flushIndex s' = flushIndex s -> isFlushing s' = isFlushing s ->
  currentPreFlushParentJob s' = currentPreFlushParentJob s -> jobs s' = jobs s ->
  Requeueing j k s -> Requeueing j k s'.
Proof.
  intros E1 E2 E3 E4 E5 H. unfold Requeueing, requeues_itself in *.
  rewrite E1, E2, E3, E4, E5. exact H.
Qed.

Lemma Requeueing_next j k s :
  Requeueing j k s ->
  Requeueing j (S k)
    (with_flushIndex (with_queue (with_ran s (ran s ++ [j])) (repeat j (S (S k))))
       (flushIndex s + 1)).
Proof.
  intros (Hq & Hi & Hfl & Hp & Hr). unfold Requeueing, requeues_itself in *. qsimpl.
  repeat split; try tauto. lia.
Qed.

Lemma Requeueing_head j k s :
  Requeueing j k s ->
  (flushIndex s <? length (queue s)) = true /\ nth (flushIndex s) (queue s) 0 = j /\
  job_active (jobs s j) = true.
Proof.
  intros (Hq & Hi & Hfl & Hp & Ha & Hr). rewrite Hq, Hi, repeat_length. repeat split.
  - apply Nat.ltb_lt. lia.
  - replace (repeat j (S k)) with (repeat j k ++ [j]) by apply repeat_snoc.
    rewrite app_nth2; rewrite repeat_length; [|lia].
    rewrite Nat.sub_diag. reflexivity.
  - exact Ha.
Qed.

(** Without the check the loop never reaches the end of the queue. *)
Lemma requeueing_loop_production j : forall fuel k s,
  Requeueing j k s -> flushJobs_loop false fuel s = None.
Proof.
  induction fuel as [|f IH]; intros k s H; [reflexivity|].
  cbn [flushJobs_loop]. destruct (Requeueing_head j k s H) as (E1 & E2 & E3).
  rewrite E1. cbv zeta. rewrite E2, E3. rewrite (requeue_step j k s H). qsimpl.
  apply (IH (S k)). apply Requeueing_next. exact H.
Qed.

Lemma requeueing_loop_development j : forall n k fuel s,
  Requeueing j k s -> seen s j = k -> k + n = RECURSION_LIMIT + 1 -> n + 2 <= fuel ->
  exists s',
    flushJobs_loop true fuel s = Some s' /\
    ran s' = ran s ++ repeat j n /\
    pendingPreFlushCbs s' = pendingPreFlushCbs s /\
    pendingPostFlushCbs s' = pendingPostFlushCbs s.
Proof.
  induction n as [|n IH]; intros k fuel s H Hs Hk Hf;
    (destruct fuel as [|f]; [lia|]); cbn [flushJobs_loop];
    destruct (Requeueing_head j k s H) as (E1 & E2 & E3);
    rewrite E1; cbv zeta; rewrite E2, E3.
  - rewrite checkRecursiveUpdates_skips by (rewrite Hs; unfold RECURSION_LIMIT in *; lia).
    destruct f as [|f]; [lia|]. cbn [flushJobs_loop]. qsimpl.
    destruct H as (Hq & Hi & _). rewrite Hq, Hi, repeat_length.
    replace (k + 1 <? S k) with false by (symmetry; apply Nat.ltb_ge; lia).
    eexists. split; [reflexivity|]. qsimpl. rewrite app_nil_r. auto.
  - rewrite checkRecursiveUpdates_counts by (rewrite Hs; unfold RECURSION_LIMIT in *; lia).
    assert (H' : Requeueing j k (with_seen s (upd (seen s) j (seen s j + 1))))
      by (apply (Requeueing_ext j k s); auto).
    rewrite (requeue_step j k _ H').
    apply Requeueing_next in H'. qsimpl.
    destruct (IH (S k) f _ H') as (s' & E & Er & Epre & Epost).
    + qsimpl. unfold upd. rewrite Nat.eqb_refl. lia.
    + lia.
    + lia.
    + exists s'. split; [exact E|]. qsimpl. rewrite Er, <- app_assoc. auto.
Qed.

(** X16: In a development flush every call of a job or callback passes
    [checkRecursiveUpdates], so none is called more than
    [RECURSION_LIMIT + 1] times.  This is for jobs and callbacks that work,
    queue jobs and callbacks, invalidate or deactivate jobs and throw; a
    job that itself calls the exported [flushPreFlushCbs] or
    [flushPostFlushCbs] starts a count of its own and is not covered.  A
    single queued job that queues itself again on every run is called
    exactly [RECURSION_LIMIT + 1] times and the flush then ends with an
    empty queue; in production, where nothing is checked, the same flush
    never ends. *)
Theorem development_flush_stops_recursive_jobs :
  (forall fuel s s' b j,
      flush true fuel s = Some (s', b) ->
      count_occ Nat.eq_dec (ran s') j
      <= count_occ Nat.eq_dec (ran s) j + (RECURSION_LIMIT + 1)) /\
  (forall fuel s j,
      queue s = [j] -> pendingPreFlushCbs s = [] -> pendingPostFlushCbs s = [] ->
      currentPreFlushParentJob s = None -> requeues_itself s j ->
      RECURSION_LIMIT + 5 <= fuel ->
      exists s',
        flush true fuel s = Some (s', true) /\
        ran s' = ran s ++ repeat j (RECURSION_LIMIT + 1) /\
        queue s' = [] /\ isFlushing s' = false) /\
  (forall fuel s j,
      queue s = [j] -> pendingPreFlushCbs s = [] ->
      currentPreFlushParentJob s = None -> requeues_itself s j ->
      flush false fuel s = None).
Proof.
  split; [|split].
  - intros fuel s s' b j E. unfold flush in E.
    apply flushJobs_counted with (c0 := count_occ Nat.eq_dec (ran s)) in E.
    + destruct (E j) as [Ec Eb]. lia.
    + intros x. qsimpl. split; [lia|]. unfold RECURSION_LIMIT. lia.
  - intros fuel s j Hq Hpre Hpost Hp Hr Hf. unfold flush.
    destruct fuel as [|f]; [lia|]. cbn [flushJobs]. cbv zeta.
    destruct f as [|f]; [unfold RECURSION_LIMIT in Hf; lia|].
    cbn [flushPreFlushCbs]. qsimpl. rewrite Hpre. qsimpl. rewrite Hq.
    cbn [sort_by_id insert_by_id].
    match goal with |- context [flushJobs_loop true _ ?t] => set (t0 := t) end.
    destruct (requeueing_loop_development j (RECURSION_LIMIT + 1) 0 (S f) t0)
      as (s4 & E & Er & Epre & Epost).
    + unfold t0, Requeueing, requeues_itself. qsimpl. auto.
    + reflexivity.
    + reflexivity.
    + lia.
    + assert (P1 : pendingPostFlushCbs s4 = []) by (rewrite Epost; exact Hpost).
      assert (P2 : pendingPreFlushCbs s4 = []) by (rewrite Epre; exact Hpre).
      rewrite E. unfold flushPostFlushCbs. qsimpl. rewrite P1. qsimpl.
      rewrite P2, P1.
      eexists. split; [reflexivity|]. qsimpl. rewrite Er. auto.
  - intros fuel s j Hq Hpre Hp Hr. unfold flush.
    destruct fuel as [|f]; [reflexivity|]. cbn [flushJobs]. cbv zeta.
    destruct f as [|f]; [reflexivity|].
    cbn [flushPreFlushCbs]. qsimpl. rewrite Hpre. qsimpl. rewrite Hq.
    cbn [sort_by_id insert_by_id].
    rewrite (requeueing_loop_production j (S f) 0); [reflexivity|].
    unfold Requeueing, requeues_itself. qsimpl. auto.
Qed.

Lemma development_flush_stops_recursive_jobs_witness :
  (exists s',
      flush true 105 (queueJob 1 (sched_init looping_jobs)) = Some (s', true) /\
      ran s' = ran (queueJob 1 (sched_init looping_jobs))
                 ++ repeat 1 (RECURSION_LIMIT + 1) /\
      queue s' = [] /\ isFlushing s' = false) /\
  flush false 105 (queueJob 1 (sched_init looping_jobs)) = None.
Proof.
  split.
  - apply (proj1 (proj2 development_flush_stops_recursive_jobs) 105
             (queueJob 1 (sched_init looping_jobs)) 1);
      first [reflexivity | repeat split].
  - apply (proj2 (proj2 development_flush_stops_recursive_jobs) 105
             (queueJob 1 (sched_init looping_jobs)) 1);
      first [reflexivity | repeat split].
Defined.

(** ** Further instances *)

Lemma paused_tracking_records_nothing_witness :
  resetTracking two_key_init = with_shouldTrack two_key_init true /\
  exec (call 0) (APauseTracking :: reads [(obj0, KName 0)] ++ [AResetTracking])
    two_key_init
  = Some (two_key_init, Normal).
Proof.
  split.
  - apply (proj1 (proj2 (proj2 (proj2 paused_tracking_records_nothing))) two_key_init).
    reflexivity.
  - apply (proj2 (proj2 (proj2 (proj2 (proj2 paused_tracking_records_nothing))))).
Defined.

Lemma findInsertionIndex_finds_the_first_job_not_below_witness :
  flushIndex (enqueue_all [3; 1] (sched_init example_jobs)) + 1
  <= findInsertionIndex (enqueue_all [3; 1] (sched_init example_jobs)) 2
  <= length (queue (enqueue_all [3; 1] (sched_init example_jobs))) /\
  findInsertionIndex (enqueue_all [3; 1] (sched_init example_jobs)) 2 = 2.
Proof.
  split; [|vm_compute; reflexivity].
  apply (proj2 (findInsertionIndex_finds_the_first_job_not_below
                  (enqueue_all [3; 1] (sched_init example_jobs)) 2)).
  - change (1 <= 2). lia.
  - change (StronglySorted (id_order (enqueue_all [3; 1] (sched_init example_jobs))) [1]).
    constructor; constructor.
Defined.

Lemma queueJob_does_not_queue_a_job_twice_witness :
  queueJob 1 (enqueue_all [3; 1] (sched_init example_jobs))
  = enqueue_all [3; 1] (sched_init example_jobs).
Proof.
  apply (proj1 queueJob_does_not_queue_a_job_twice 1
           (enqueue_all [3; 1] (sched_init example_jobs))).
  change (In 1 [1]). now left.
Defined.

(** * Instances *)

(** After the runs of both effects of [two_key_effects], the second of
    which throws, effect 1 is a member of entry 0 exactly when entry 0 is in
    its list. *)
Lemma effect_dep_link_bidirectional_witness :
  In 1 (subs (depHeap (state_of (exec (call 2) [ARun 0; ARun 1] two_key_init)
                                two_key_init) 0)) <->
  In 0 (deps (effects (state_of (exec (call 2) [ARun 0; ARun 1] two_key_init)
                                two_key_init) 1)).
Proof.
  destruct (exec (call 2) [ARun 0; ARun 1] two_key_init) as [[s' r]|] eqn:E.
  - apply (proj1 (proj2 effect_dep_link_bidirectional) 2 [ARun 0; ARun 1]
             two_key_init [] s' r); [|exact E].
    apply WF_init; [|reflexivity].
    intros e. unfold two_key_effects. destruct e as [|[|e]]; split; reflexivity.
  - vm_compute in E. discriminate E.
Defined.

(** Effect 0 had read two keys and has read only the first one in its
    second run: the pass keeps entry 0 and empties entry 1. *)
Lemma finalizeDepMarkers_removes_stale_witness :
  deps (effects (finalizeDepMarkers 0 before_finalize) 0) = [0] /\
  subs (depHeap (finalizeDepMarkers 0 before_finalize) 1) = [].
Proof.
  assert (Hk : (1 <= 1 <= maxMarkerBits)%Z) by (unfold maxMarkerBits; lia).
  assert (Hb : trackOpBit before_finalize = js_shl 1 1) by (vm_compute; reflexivity).
  assert (Hd : deps (effects before_finalize 0) = [0; 1]) by (vm_compute; reflexivity).
  assert (ND : NoDup (deps (effects before_finalize 0))).
  { rewrite Hd. constructor; [simpl; intuition discriminate|].
    constructor; [intros []|constructor]. }
  destruct (proj1 finalizeDepMarkers_removes_stale 0 before_finalize 1%Z Hk Hb ND)
    as [_ [H1 [H2 _]]].
  split.
  - rewrite H2, Hd. vm_compute. reflexivity.
  - destruct (subs (depHeap (finalizeDepMarkers 0 before_finalize) 1)) as [|x xs] eqn:E;
      [reflexivity|].
    exfalso. destruct (proj1 (H1 1 x)) as [Hin Hnot]; [rewrite E; now left|].
    assert (Hs : subs (depHeap before_finalize 1) = [0]) by (vm_compute; reflexivity).
    rewrite Hs in Hin. destruct Hin as [<-|[]].
    apply Hnot. split; [reflexivity|]. split; [rewrite Hd; simpl; auto|].
    vm_compute. reflexivity.
Defined.

(** The run of effect 1, whose function throws after a read, completes
    with the thrown completion. *)
Lemma run_cleans_up_when_fn_throws_witness :
  exists s', run (call 1) 1 1 two_key_init = Some (s', Throw).
Proof.
  apply (proj1 (proj2 (proj2 run_cleans_up_when_fn_throws)) 1 1 two_key_init []
           [ATrack obj0 (KName 0)] [ATrack obj0 (KName 1)]).
  - apply WF_init; [|reflexivity].
    intros e. unfold two_key_effects. destruct e as [|[|e]]; split; reflexivity.
  - reflexivity.
  - intros [].
  - simpl. lia.
  - reflexivity.
  - reflexivity.
Defined.
